(** * wanna-grab-coffee: the conversation state machine and the reminder scheduler

    A shallow embedding of [services/schedulerService.ts] (class
    [SchedulerService]) and of [coffeeNetworkingApp.ts] (class
    [CoffeeNetworkingApp]), and the properties of the specification stated
    over it.

    Conventions of the embedding.
    - Text is ASCII: a JavaScript string is a [string] of [ascii] code units;
      [toLowerCase] maps A-Z, [trim] and the regular expressions' [\s] know
      the ASCII blanks (9-13 and 32).
    - A time value is a number of milliseconds since the epoch, an
      integer; a [Date] is a time value within 100,000,000 days of the
      epoch, or the Invalid Date. The clock ([new Date()], [Date.now()])
      is a time value at or after the epoch, and the process' local time
      zone is UTC.
    - The setters ([setHours], [setDate], [setMinutes]) compute in
      double precision and clip the result ([TimeClip]). From a clock
      value they are computed exactly here: a result within the range
      of [Date] is below 2^53, where that arithmetic is exact, and a
      result beyond it is the Invalid Date whatever its digits.
      [parseInt] of a run of digits is its exact value, for the same
      reason: an amount of 2^53 or more takes every date out of range. *)

From Stdlib Require Import ZArith Ascii String List Bool Lia.
From stdpp Require Import base option list gmap strings sorting.

Local Open Scope string_scope.
Local Open Scope Z_scope.

(** ** Text: the string primitives the classifier uses *)
Module Text.

Definition code (c : ascii) : nat := nat_of_ascii c.

(** [\s], restricted to ASCII. *)
Definition isSpace (c : ascii) : bool :=
  let n := code c in ((9 <=? n) && (n <=? 13) || (n =? 32))%nat.

(** [\d]. *)
Definition isDigit (c : ascii) : bool :=
  let n := code c in ((48 <=? n) && (n <=? 57))%nat.

Definition lowerChar (c : ascii) : ascii :=
  let n := code c in
  if ((65 <=? n) && (n <=? 90))%nat then ascii_of_nat (n + 32) else c.

(** [s.toLowerCase()]. *)
Fixpoint toLowerCase (s : string) : string :=
  match s with
  | EmptyString => EmptyString
  | String c r => String (lowerChar c) (toLowerCase r)
  end.

Fixpoint trimStart (s : string) : string :=
  match s with
  | EmptyString => EmptyString
  | String c r => if isSpace c then trimStart r else s
  end.

Fixpoint trimEnd (s : string) : string :=
  match s with
  | EmptyString => EmptyString
  | String c r =>
      match trimEnd r with
      | EmptyString => if isSpace c then EmptyString else String c EmptyString
      | r' => String c r'
      end
  end.

(** [s.trim()]. *)
Definition trim (s : string) : string := trimEnd (trimStart s).

Definition isEmpty (s : string) : bool :=
  match s with EmptyString => true | _ => false end.

(** [hay.includes(needle)]. *)
Fixpoint includes (hay needle : string) : bool :=
  String.prefix needle hay ||
  match hay with
  | EmptyString => false
  | String _ r => includes r needle
  end.

(** [s] without the prefix [p], when it starts with it. *)
Fixpoint stripPrefix (p s : string) : option string :=
  match p, s with
  | EmptyString, _ => Some s
  | String a p', String b s' => if Ascii.eqb a b then stripPrefix p' s' else None
  | String _ _, EmptyString => None
  end.

(** The longest run of characters satisfying [f] at the head of [s], and
    what follows it: how a greedy [\d+] or [\s+] consumes when the next
    item of the pattern cannot match a character of the run. *)
Fixpoint span (f : ascii -> bool) (s : string) : string * string :=
  match s with
  | EmptyString => (EmptyString, EmptyString)
  | String c r =>
      if f c then let '(a, b) := span f r in (String c a, b) else (EmptyString, s)
  end.

(** The character a text starts with does not satisfy [f]. *)
Definition stopsAt (f : ascii -> bool) (s : string) : Prop :=
  match s with
  | EmptyString => True
  | String c _ => f c = false
  end.

Definition digitValue (c : ascii) : Z := Z.of_nat (code c) - 48.

Fixpoint parseDigits (acc : Z) (s : string) : Z :=
  match s with
  | EmptyString => acc
  | String c r => parseDigits (10 * acc + digitValue c) r
  end.

(** [parseInt(s)] for [s] a non-empty run of digits. *)
Definition parseInt (s : string) : Z := parseDigits 0 s.

(** The first position of [s] at which [at_] matches: how an unanchored
    regular expression is searched. *)
Fixpoint firstMatch {A} (at_ : string -> option A) (s : string) : option A :=
  match at_ s with
  | Some m => Some m
  | None =>
      match s with
      | EmptyString => None
      | String _ r => firstMatch at_ r
      end
  end.

Definition quote : string := String (ascii_of_nat 34) EmptyString.
Definition newline : string := String (ascii_of_nat 10) EmptyString.

End Text.

(** ** Dates *)
Module Clock.

Definition msPerMinute : Z := 60000.
Definition msPerHour : Z := 3600000.
Definition msPerDay : Z := 86400000.

(** A [Date] object: its time value, or the Invalid Date, whose time
    value is [NaN]. *)
Inductive Date :=
| At (time : Z)
| InvalidDate.

(** The greatest time value of a [Date]: 100,000,000 days. *)
Definition maxTime : Z := 8640000000000000.

(** [TimeClip(t)]. *)
Definition timeClip (t : Z) : Date :=
  if Z.abs t <=? maxTime then At t else InvalidDate.

(** [d.getDay()]: 0 is Sunday; the epoch was a Thursday. *)
Definition getDay (d : Z) : Z := (d / msPerDay + 4) mod 7.
Definition getMinutes (d : Z) : Z := (d / msPerMinute) mod 60.
Definition getHours (d : Z) : Z := (d / msPerHour) mod 24.

(** Day of the month and month (1-12) of a day number, by the usual
    era/day-of-era computation of the proleptic Gregorian calendar. *)
Definition civil (days : Z) : Z * Z * Z :=
  let z := days + 719468 in
  let era := z / 146097 in
  let doe := z - era * 146097 in
  let yoe := (doe - doe / 1460 + doe / 36524 - doe / 146096) / 365 in
  let doy := doe - (365 * yoe + yoe / 4 - yoe / 100) in
  let mp := (5 * doy + 2) / 153 in
  let d := doy - (153 * mp + 2) / 5 + 1 in
  let m := if mp <? 10 then mp + 3 else mp - 9 in
  let y := yoe + era * 400 + (if m <=? 2 then 1 else 0) in
  (y, m, d).

(** The Gregorian calendar said day by day: leap years, the lengths of
    the months, and the date of the day after a date. *)
Definition leapYear (y : Z) : bool :=
  (y mod 4 =? 0) && negb (y mod 100 =? 0) || (y mod 400 =? 0).

Definition daysInMonth (y m : Z) : Z :=
  if m =? 2 then (if leapYear y then 29 else 28)
  else if (m =? 4) || (m =? 6) || (m =? 9) || (m =? 11) then 30
  else 31.

Definition nextDay (date : Z * Z * Z) : Z * Z * Z :=
  let '(y, m, d) := date in
  if d <? daysInMonth y m then (y, m, d + 1)
  else if m <? 12 then (y, m + 1, 1)
  else (y + 1, 1, 1).

Definition sameDate (a b : Z * Z * Z) : bool :=
  let '(y, m, d) := a in
  let '(y', m', d') := b in
  (y =? y') && (m =? m') && (d =? d').

(** A month of the year and a day that month has. *)
Definition validDay (date : Z * Z * Z) : bool :=
  let '(y, m, d) := date in
  (1 <=? m) && (m <=? 12) && (1 <=? d) && (d <=? daysInMonth y m).

(** The [n] days from day number [j] on, whose date is [today], are days
    of the calendar and each is followed by the day after it. *)
Fixpoint calendarFrom (n : nat) (j : Z) (today : Z * Z * Z) : bool :=
  match n with
  | O => true
  | S k =>
      let tomorrow := civil (j + 1) in
      validDay today && sameDate tomorrow (nextDay today)
      && calendarFrom k (j + 1) tomorrow
  end.

Definition getDate (d : Z) : Z := let '(_, _, dd) := civil (d / msPerDay) in dd.
(** [d.getMonth() + 1]. *)
Definition getMonth1 (d : Z) : Z := let '(_, m, _) := civil (d / msPerDay) in m.

(** [d.setHours(hours)], [d.setDate(date)] and [d.setMinutes(minutes)]
    on the date of time value [t]: the field is replaced, the others are
    kept, and the new time value is clipped. *)
Definition setHours (t hours : Z) : Date :=
  timeClip (t + (hours - getHours t) * msPerHour).
Definition setDate (t date : Z) : Date :=
  timeClip (t + (date - getDate t) * msPerDay).
Definition setMinutes (t minutes : Z) : Date :=
  timeClip (t + (minutes - getMinutes t) * msPerMinute).

(** The time value [n] days after [d], at the same time of day, not
    clipped: for the days between two dates. *)
Definition addDays (d n : Z) : Z := d + n * msPerDay.

(** 09:00 of the day of [d]. *)
Definition at9 (d : Z) : Z := (d / msPerDay) * msPerDay + 9 * msPerHour.

(** [d.setHours(9, 0, 0, 0)]; a setter leaves the Invalid Date as it
    is. *)
Definition setHours9 (d : Date) : Date :=
  match d with
  | At t => timeClip (at9 t)
  | InvalidDate => InvalidDate
  end.

(** What a getter returns on a [Date]: [NaN], here [None], on the
    Invalid Date. *)
Definition reading (getter : Z -> Z) (d : Date) : option Z :=
  match d with
  | At t => Some (getter t)
  | InvalidDate => None
  end.

End Clock.

(** ** The response classifier of [SchedulerService] *)
Module Classifier.
Import Text Clock.

(** [interface ScheduleOptions]. *)
Record ScheduleOptions := {
  sendNow : bool;
  sendTomorrow : bool;
  customDate : option Date;
  noReminder : bool
}.

Inductive InUnit := UHour | UDay.

(** [/in (\d+) (hour|day)s?/] tried at the head of [s]: the digits captured
    and the unit. The optional [s] never decides the match. *)
Definition inMatchAt (s : string) : option (string * InUnit) :=
  match stripPrefix "in " s with
  | None => None
  | Some r1 =>
      let '(ds, r2) := span isDigit r1 in
      if isEmpty ds then None
      else
        match stripPrefix " " r2 with
        | None => None
        | Some r3 =>
            if String.prefix "hour" r3 then Some (ds, UHour)
            else if String.prefix "day" r3 then Some (ds, UDay)
            else None
        end
  end.

(** [/in\s+(\d+)\s+(?:minutes?|mins?)/] tried at the head of [s]: both
    alternatives start with [min] and everything after it is optional. *)
Definition minutesMatchAt (s : string) : option string :=
  match stripPrefix "in" s with
  | None => None
  | Some r1 =>
      let '(sp1, r2) := span isSpace r1 in
      let '(ds, r3) := span isDigit r2 in
      let '(sp2, r4) := span isSpace r3 in
      if isEmpty sp1 || isEmpty ds || isEmpty sp2 then None
      else if String.prefix "min" r4 then Some ds
      else None
  end.

Definition dayNames : list string :=
  ["sunday"; "monday"; "tuesday"; "wednesday"; "thursday"; "friday"; "saturday"].

(** [dayNames.indexOf(day)]. *)
Fixpoint indexOf (l : list string) (day : string) : Z :=
  match l with
  | [] => -1
  | x :: r => if String.eqb x day then 0 else
                let i := indexOf r day in if i <? 0 then -1 else i + 1
  end.

(** [extractDateFromResponse(response)], with the [new Date()] it reads;
    [target] starts as a copy of [now]. *)
Definition extractDateFromResponse (now : Z) (response : string) : option Date :=
  match firstMatch inMatchAt response with
  | Some (ds, unit) =>
      let amount := parseInt ds in
      Some (match unit with
            | UHour => setHours now (getHours now + amount)
            | UDay => setDate now (getDate now + amount)
            end)
  | None =>
      match firstMatch minutesMatchAt response with
      | Some ds =>
          let minutes := parseInt ds in
          Some (setMinutes now (getMinutes now + minutes))
      | None =>
          match List.find (fun day => includes response day) dayNames with
          | Some dayMatch =>
              let targetDay := indexOf dayNames dayMatch in
              let currentDay := getDay now in
              let daysUntil := targetDay - currentDay in
              let daysUntil := if daysUntil <=? 0 then daysUntil + 7 else daysUntil in
              Some (setHours9 (setDate now (getDate now + daysUntil)))
          | None => None
          end
      end
  end.

(** [isValidSchedulingResponse(response)]. A [Date] is truthy, the
    Invalid Date too. *)
Definition isValidSchedulingResponse (now : Z) (response : string) : bool :=
  let lowerResponse := trim (toLowerCase response) in
  if includes lowerResponse "now" || includes lowerResponse "immediately"
     || includes lowerResponse "send it" then true
  else if includes lowerResponse "tomorrow" || includes lowerResponse "morning" then true
  else if includes lowerResponse "no" || includes lowerResponse "never" then true
  else
    match extractDateFromResponse now lowerResponse with
    | Some _ => true
    | None => false
    end.

(** [parseSchedulingResponse(response)]. *)
Definition parseSchedulingResponse (now : Z) (response : string) : ScheduleOptions :=
  let lowerResponse := trim (toLowerCase response) in
  if includes lowerResponse "now" || includes lowerResponse "immediately"
     || includes lowerResponse "send it" then
    {| sendNow := true; sendTomorrow := false; customDate := None; noReminder := false |}
  else if includes lowerResponse "tomorrow" || includes lowerResponse "morning" then
    {| sendNow := false; sendTomorrow := true; customDate := None; noReminder := false |}
  else if includes lowerResponse "no" || includes lowerResponse "never" then
    {| sendNow := false; sendTomorrow := false; customDate := None; noReminder := true |}
  else
    match extractDateFromResponse now lowerResponse with
    | Some dateMatch =>
        {| sendNow := false; sendTomorrow := false; customDate := Some dateMatch;
           noReminder := false |}
    | None =>
        {| sendNow := false; sendTomorrow := true; customDate := None; noReminder := false |}
    end.

(** *** The specification's vocabulary *)

(** The tagged variant of the specification. *)
Inductive ScheduleDirective :=
| Now
| Tomorrow
| CustomAt (timestamp : Date)
| NoReminder
| Invalid.

(** The directive a [ScheduleOptions] stands for, in the order in which
    [scheduleBasedOnPreference] tests its fields; its final [else] is
    tomorrow morning. *)
Definition directiveOf (p : ScheduleOptions) : ScheduleDirective :=
  if sendNow p then Now
  else if sendTomorrow p then Tomorrow
  else match customDate p with
       | Some d => CustomAt d
       | None => if noReminder p then NoReminder else Tomorrow
       end.

(** [classify(text)], read at the clock value [now]. *)
Definition classify (now : Z) (text : string) : ScheduleDirective :=
  directiveOf (parseSchedulingResponse now text).

(** [isRecognized(text)]. *)
Definition isRecognized (now : Z) (text : string) : bool :=
  isValidSchedulingResponse now text.

(** The text the rules are matched against. *)
Definition normalized (text : string) : string := trim (toLowerCase text).

(** The conditions of rules 1 to 5 on the normalized text. *)
Definition rule1 (r : string) : bool :=
  includes r "now" || includes r "immediately" || includes r "send it".
Definition rule2 (r : string) : bool :=
  includes r "tomorrow" || includes r "morning".
Definition rule3 (r : string) : bool :=
  includes r "no" || includes r "never".

Inductive RelativeUnit := Minutes | Hours | Days.

(** Rule 4: the relative pattern, with its amount and unit. The pattern for
    hours and days is tried first. *)
Definition rule4 (r : string) : option (Z * RelativeUnit) :=
  match firstMatch inMatchAt r with
  | Some (ds, UHour) => Some (parseInt ds, Hours)
  | Some (ds, UDay) => Some (parseInt ds, Days)
  | None =>
      match firstMatch minutesMatchAt r with
      | Some ds => Some (parseInt ds, Minutes)
      | None => None
      end
  end.

(** Rule 5: the first weekday of [dayNames] the text contains, as its
    [getDay] number. *)
Definition rule5 (r : string) : option Z :=
  match List.find (fun day => includes r day) dayNames with
  | Some dayMatch => Some (indexOf dayNames dayMatch)
  | None => None
  end.

(** The clock plus the amount: a [Date], the Invalid Date when the sum
    is beyond the range. *)
Definition relativeTime (now n : Z) (u : RelativeUnit) : Date :=
  timeClip
    (match u with
     | Minutes => now + n * msPerMinute
     | Hours => now + n * msPerHour
     | Days => now + n * msPerDay
     end).

(** The next occurrence of weekday [d] at 09:00, never the day of [now]. *)
Definition nextWeekday (now d : Z) : Z :=
  let k := d - getDay now in
  at9 (addDays now (if k <=? 0 then k + 7 else k)).

(** The rule that resolves a text: 1 to 5, or 6 when none matches. *)
Definition resolvingRule (text : string) : Z :=
  let r := normalized text in
  if rule1 r then 1
  else if rule2 r then 2
  else if rule3 r then 3
  else if bool_decide (is_Some (rule4 r)) then 4
  else if bool_decide (is_Some (rule5 r)) then 5
  else 6.

(** What rule [k] makes of a text; rule 6, no match, is [Invalid] in the
    specification. *)
Definition ruleDirective (now : Z) (text : string) (k : Z) : ScheduleDirective :=
  let r := normalized text in
  if k =? 1 then Now
  else if k =? 2 then Tomorrow
  else if k =? 3 then NoReminder
  else if k =? 4 then
    match rule4 r with
    | Some (n, u) => CustomAt (relativeTime now n u)
    | None => Invalid
    end
  else if k =? 5 then
    match rule5 r with
    | Some d => CustomAt (timeClip (nextWeekday now d))
    | None => Invalid
    end
  else Invalid.

(** *** The rules in the words of the specification

    The conditions of the rules said without the functions of the
    classifier: what the text contains, and where. *)

(** [r] contains [w]. *)
Definition contains (r w : string) : Prop :=
  exists before after, r = before +:+ w +:+ after.

Definition Rule1 (r : string) : Prop :=
  contains r "now" \/ contains r "immediately" \/ contains r "send it".
Definition Rule2 (r : string) : Prop :=
  contains r "tomorrow" \/ contains r "morning".
Definition Rule3 (r : string) : Prop :=
  contains r "no" \/ contains r "never".

(** A run of digits and a run of blanks, neither empty. *)
Definition digits (s : string) : Prop :=
  s ≠ "" /\ Forall (fun c => isDigit c = true) (list_ascii_of_string s).
Definition blanks (s : string) : Prop :=
  s ≠ "" /\ Forall (fun c => isSpace c = true) (list_ascii_of_string s).

Definition unitWord (u : RelativeUnit) : string :=
  match u with
  | Minutes => "min"
  | Hours => "hour"
  | Days => "day"
  end.

(** [s] starts with "in N hour" or "in N day", one blank on either side
    of the number [ds]. *)
Definition hoursOrDaysHere (s ds : string) (u : RelativeUnit) : Prop :=
  digits ds /\ (u = Hours \/ u = Days)
  /\ exists rest, s = "in " +:+ ds +:+ " " +:+ unitWord u +:+ rest.

(** [s] starts with "in N min", blanks on either side of the number
    [ds]. *)
Definition minutesHere (s ds : string) : Prop :=
  digits ds
  /\ exists sp1 sp2 rest, blanks sp1 /\ blanks sp2
       /\ s = "in" +:+ sp1 +:+ ds +:+ sp2 +:+ "min" +:+ rest.

(** [s] is the first place of [r] at which [P] holds; [P] holds at no
    place of [r]. *)
Definition firstPlace (P : string -> Prop) (r s : string) : Prop :=
  exists before, r = before +:+ s /\ P s
    /\ forall before' s', r = before' +:+ s' ->
         (String.length before' < String.length before)%nat -> ~ P s'.
Definition noPlace (P : string -> Prop) (r : string) : Prop :=
  forall before s, r = before +:+ s -> ~ P s.

Definition hoursOrDaysPlace (s : string) : Prop := exists ds u, hoursOrDaysHere s ds u.
Definition minutesPlace (s : string) : Prop := exists ds, minutesHere s ds.

(** Rule 4, with its amount and unit: the first "in N hours" or "in N
    days" of the text; when there is none, its first "in N minutes". *)
Definition Rule4 (r : string) (n : Z) (u : RelativeUnit) : Prop :=
  (exists s ds, firstPlace hoursOrDaysPlace r s /\ hoursOrDaysHere s ds u
                /\ n = parseInt ds)
  \/ (noPlace hoursOrDaysPlace r /\ u = Minutes
      /\ exists s ds, firstPlace minutesPlace r s /\ minutesHere s ds
                      /\ n = parseInt ds).

(** Rule 5, with its day: the first day of the week, counted from
    Sunday as 0, whose name the text contains. *)
Definition Rule5 (r : string) (d : Z) : Prop :=
  0 <= d
  /\ (exists day, dayNames !! Z.to_nat d = Some day /\ contains r day)
  /\ forall d' day', 0 <= d' < d -> dayNames !! Z.to_nat d' = Some day' ->
       ~ contains r day'.

End Classifier.

(** ** The reminder scheduler: [SchedulerService]

    A reminder object lives on a heap ([objects]) and the live set
    ([reminders]) maps an id to its reference, so that a status written to
    an object that has left the live set is still a fact of the model.
    [tasks] are the node-cron tasks the service created, each with the
    variables its callback closes over. The callback is asynchronous: it
    starts [executeReminder], awaits it, and only then marks the reminder;
    [inflight] holds the tasks whose callback is at that await.
    [executed] is the sequence of calls of [executeReminder], each tagged
    with the reminder id of the registration that made it. *)
Module Scheduler.
Import Clock Classifier.

Inductive Status := pending | sent | cancelled.

#[global] Instance Status_eq_dec : EqDecision Status.
Proof. solve_decision. Defined.

(** [`reminder_${contactId}_${Date.now()}`]: the string is determined by,
    and determines, the pair of its two numbers. *)
Definition ReminderId : Type := Z * Z.

Definition generateReminderId (contactId now : Z) : ReminderId := (contactId, now).

(** [`${minute} ${hour} ${day} ${month} *`]: each field as the template
    prints it, a number or [NaN]. *)
Record CronPattern := {
  cronMinute : option Z;
  cronHour : option Z;
  cronDay : option Z;
  cronMonth : option Z
}.

(** [dateToCronPattern(date)]. *)
Definition dateToCronPattern (date : Date) : CronPattern :=
  {| cronMinute := reading getMinutes date;
     cronHour := reading getHours date;
     cronDay := reading getDate date;
     cronMonth := reading getMonth1 date |}.

(** The patterns [cron.schedule] takes. node-cron, which is not part of
    the repository, validates the expression when it creates a task and
    throws on a field that is not a number within its range. *)
Definition fieldWithin (lo hi : Z) (field : option Z) : bool :=
  match field with
  | Some n => (lo <=? n) && (n <=? hi)
  | None => false
  end.

Definition validPattern (p : CronPattern) : bool :=
  fieldWithin 0 59 (cronMinute p) && fieldWithin 0 23 (cronHour p)
  && fieldWithin 1 31 (cronDay p) && fieldWithin 1 12 (cronMonth p).

(** What node-cron says of the pattern of an Invalid Date. *)
Definition invalidExpression : string := "NaN is a invalid expression for minute".

(** [interface ScheduledReminder]; [rid] is its [id]. *)
Record ScheduledReminder := {
  rid : ReminderId;
  contactId : Z;
  message : string;
  scheduledFor : Date;
  status : Status;
  task : option nat
}.

Record CronTask := {
  pattern : CronPattern;
  running : bool;
  forReminder : ReminderId;
  forContact : Z;
  forMessage : string
}.

Record Execution := {
  onBehalfOf : ReminderId;
  toContact : Z;
  withMessage : string
}.

Record SchedulerService := {
  reminders : gmap ReminderId nat;
  objects : list ScheduledReminder;
  tasks : list CronTask;
  inflight : list nat;
  executed : list Execution
}.

(** [new SchedulerService(onReminderCallback)]. *)
Definition create : SchedulerService :=
  {| reminders := ∅; objects := []; tasks := []; inflight := []; executed := [] |}.

(** [task.stop()]. *)
Definition stop (t : CronTask) : CronTask :=
  {| pattern := pattern t; running := false; forReminder := forReminder t;
     forContact := forContact t; forMessage := forMessage t |}.

(** [reminder.task?.stop()]. *)
Definition stopTask (t : option nat) (ts : list CronTask) : list CronTask :=
  match t with
  | Some i => alter stop i ts
  | None => ts
  end.

(** [reminder.task = undefined; reminder.status = st]. *)
Definition settle (st : Status) (r : ScheduledReminder) : ScheduledReminder :=
  {| rid := rid r; contactId := contactId r; message := message r;
     scheduledFor := scheduledFor r; status := st; task := None |}.

(** [cancelReminder(reminderId)]. *)
Definition cancelReminder (reminderId : ReminderId) (s : SchedulerService)
  : bool * SchedulerService :=
  match reminders s !! reminderId with
  | Some ref =>
      match objects s !! ref with
      | Some reminder =>
          if decide (status reminder = pending) then
            (true,
             {| reminders := delete reminderId (reminders s);
                objects := <[ref := settle cancelled reminder]> (objects s);
                tasks := stopTask (task reminder) (tasks s);
                inflight := inflight s;
                executed := executed s |})
          else (false, s)
      | None => (false, s)
      end
  | None => (false, s)
  end.

(** [executeReminder(contactId, message)], called for [reminderId]: the
    registered action is invoked; what it throws is caught and logged. *)
Definition executeReminder (reminderId : ReminderId) (cid : Z) (msg : string)
    (s : SchedulerService) : SchedulerService :=
  {| reminders := reminders s; objects := objects s; tasks := tasks s;
     inflight := inflight s;
     executed := executed s ++
       [{| onBehalfOf := reminderId; toContact := cid; withMessage := msg |}] |}.

(** [scheduleReminder(contactId, message, scheduledFor, options)] at the
    clock value [now]: the id it returns, or what it throws. The task is
    created stopped and started once the reminder is in the live set;
    when [cron.schedule] throws, nothing is recorded and the earlier
    [cancelReminder] stands. *)
Definition scheduleReminder (cid : Z) (msg : string) (date : Date) (immediate : bool)
    (now : Z) (s : SchedulerService) : (ReminderId + string) * SchedulerService :=
  let reminderId := generateReminderId cid now in
  let s1 := snd (cancelReminder reminderId s) in
  if immediate then (inl reminderId, executeReminder reminderId cid msg s1)
  else
    let cronPattern := dateToCronPattern date in
    if validPattern cronPattern then
      let t := length (tasks s1) in
      let ref := length (objects s1) in
      let reminder :=
        {| rid := reminderId; contactId := cid; message := msg; scheduledFor := date;
           status := pending; task := Some t |} in
      (inl reminderId,
       {| reminders := <[reminderId := ref]> (reminders s1);
          objects := objects s1 ++ [reminder];
          tasks := tasks s1 ++
            [{| pattern := cronPattern; running := true; forReminder := reminderId;
                forContact := cid; forMessage := msg |}];
          inflight := inflight s1;
          executed := executed s1 |})
    else (inr invalidExpression, s1).

(** [getTomorrowMorning()]. *)
Definition getTomorrowMorning (now : Z) : Date :=
  setHours9 (setDate now (getDate now + 1)).

(** What [scheduleBasedOnPreference] returns of a call of
    [scheduleReminder]. *)
Definition returned (r : (ReminderId + string) * SchedulerService)
  : (option ReminderId + string) * SchedulerService :=
  (match fst r with
   | inl i => inl (Some i)
   | inr e => inr e
   end, snd r).

(** [scheduleBasedOnPreference(contactId, message, preference)]; the empty
    string it returns for "no reminder" is [None]. *)
Definition scheduleBasedOnPreference (cid : Z) (msg : string)
    (preference : ScheduleOptions) (now : Z) (s : SchedulerService)
  : (option ReminderId + string) * SchedulerService :=
  if sendNow preference then
    returned (scheduleReminder cid msg (At now) true now s)
  else if sendTomorrow preference then
    returned (scheduleReminder cid msg (getTomorrowMorning now) false now s)
  else
    match customDate preference with
    | Some d => returned (scheduleReminder cid msg d false now s)
    | None =>
        if noReminder preference then (inl None, s)
        else returned (scheduleReminder cid msg (getTomorrowMorning now) false now s)
    end.

(** The [scheduledFor] of [scheduleBasedOnPreference]: the date it passes
    to [scheduleReminder] for a preference that is neither "now" nor "no
    reminder". *)
Definition preferredDate (preference : ScheduleOptions) (now : Z) : Date :=
  if sendTomorrow preference then getTomorrowMorning now
  else
    match customDate preference with
    | Some d => d
    | None => getTomorrowMorning now
    end.

Definition statusAt (s : SchedulerService) (ref : nat) : option Status :=
  status <$> objects s !! ref.

(** [cleanupCompletedReminders()]: the hourly sweep. *)
Definition cleanupCompletedReminders (s : SchedulerService) : SchedulerService :=
  {| reminders :=
       filter (fun kv : ReminderId * nat => statusAt s kv.2 = Some pending) (reminders s);
     objects := objects s; tasks := tasks s; inflight := inflight s;
     executed := executed s |}.

(** [getPendingReminders()]. *)
Definition getPendingReminders (s : SchedulerService) : list ScheduledReminder :=
  filter (fun r => status r = pending)
    (omap (fun kv : ReminderId * nat => objects s !! kv.2) (map_to_list (reminders s))).

(** [destroy()]. *)
Definition destroy (s : SchedulerService) : SchedulerService :=
  {| reminders := ∅;
     objects := objects s;
     tasks := foldr (fun kv ts =>
                match objects s !! (kv.2 : nat) with
                | Some r => stopTask (task r) ts
                | None => ts
                end) (tasks s) (map_to_list (reminders s));
     inflight := inflight s; executed := executed s |}.

(** The callback of a task, up to its [await]: [executeReminder] is called. *)
Definition fireBegin (t : nat) (s : SchedulerService) : option SchedulerService :=
  match tasks s !! t with
  | Some tk =>
      if running tk && bool_decide (t ∉ inflight s) then
        let s1 := executeReminder (forReminder tk) (forContact tk) (forMessage tk) s in
        Some {| reminders := reminders s1; objects := objects s1; tasks := tasks s1;
                inflight := t :: inflight s1; executed := executed s1 |}
      else None
  | None => None
  end.

(** The callback of a task, after its [await]: the reminder found under
    the id it closed over is marked sent and its task stopped. *)
Definition fireEnd (t : nat) (s : SchedulerService) : option SchedulerService :=
  match tasks s !! t with
  | Some tk =>
      if bool_decide (t ∈ inflight s) then
        let rest := filter (fun i => i ≠ t) (inflight s) in
        match reminders s !! forReminder tk with
        | Some ref =>
            match objects s !! ref with
            | Some reminder =>
                Some {| reminders := reminders s;
                        objects := <[ref := settle sent reminder]> (objects s);
                        tasks := stopTask (task reminder) (tasks s);
                        inflight := rest; executed := executed s |}
            | None =>
                Some {| reminders := reminders s; objects := objects s; tasks := tasks s;
                        inflight := rest; executed := executed s |}
            end
        | None =>
            Some {| reminders := reminders s; objects := objects s; tasks := tasks s;
                    inflight := rest; executed := executed s |}
        end
      else None
  | None => None
  end.

(** What can happen to a scheduler: calls of its public methods, the
    hourly sweep, and the two halves of a task's callback. node-cron
    matches a five-field pattern once a year; a task's callback is started
    only while it is running and no earlier run of it is still awaiting. *)
Inductive Event :=
| Schedule (cid : Z) (msg : string) (date : Date) (immediate : bool) (now : Z)
| Cancel (reminderId : ReminderId)
| Sweep
| FireBegin (t : nat)
| FireEnd (t : nat)
| Destroy.

Definition step (e : Event) (s : SchedulerService) : option SchedulerService :=
  match e with
  | Schedule cid msg date immediate now =>
      Some (snd (scheduleReminder cid msg date immediate now s))
  | Cancel i => Some (snd (cancelReminder i s))
  | Sweep => Some (cleanupCompletedReminders s)
  | FireBegin t => fireBegin t s
  | FireEnd t => fireEnd t s
  | Destroy => Some (destroy s)
  end.

Fixpoint run (es : list Event) (s : SchedulerService) : option SchedulerService :=
  match es with
  | [] => Some s
  | e :: r =>
      match step e s with
      | Some s' => run r s'
      | None => None
      end
  end.

(** The reminder ids the registrations of a trace generate. *)
Definition registered (es : list Event) : list ReminderId :=
  omap (fun e => match e with
                 | Schedule cid _ _ _ now => Some (generateReminderId cid now)
                 | _ => None
                 end) es.

(** How often the action ran on behalf of [i]. *)
Definition executions (i : ReminderId) (s : SchedulerService) : nat :=
  length (filter (fun e => onBehalfOf e = i) (executed s)).

(** The status changes the specification allows, and no change. *)
Definition allowed (a b : Status) : Prop :=
  a = b \/ (a = pending /\ b = sent) \/ (a = pending /\ b = cancelled).

End Scheduler.

(** ** The conversation controller: [CoffeeNetworkingApp]

    The controller's methods are asynchronous. A method is a program of the
    type [Async]: it reads and writes the [World] (the fields of the class,
    the services it owns and what the process shows of its environment) and
    it awaits requests to the outside, at which points other callbacks of
    the event loop may run. Two semantics are given to such a program:
    [run] answers every request at once from an oracle, so that a handler
    runs alone from start to end; the [Machine] of the event loop runs a
    program up to its next await and keeps it until the request is
    answered. *)
Module App.
Import Text Clock Classifier.

(** [Contact['followUpStatus']]. *)
Inductive FollowUpStatus := followPending | followScheduled | followSent | followCompleted.

(** [interface Contact], without its [id]. *)
Record Contact := {
  name : string;
  event : string;
  context : option string;
  metAt : Z;
  phoneNumber : option string;
  email : option string;
  followUpStatus : FollowUpStatus;
  scheduledFollowUp : option Z;
  lastInteraction : option Z;
  notes : option string
}.

(** The [Partial<Contact>] values the controller passes to
    [updateContact]. *)
Record ContactUpdate := {
  newFollowUpStatus : option FollowUpStatus;
  newScheduledFollowUp : option Date
}.

(** The [contacts] table: its rows by [id] and the last [AUTOINCREMENT]
    value. *)
Record Database := {
  rows : gmap Z Contact;
  lastID : Z
}.

(** [interface ParsedMeetingMessage]. *)
Record ParsedMeetingMessage := {
  parsedName : string;
  parsedEvent : string;
  parsedContext : option string;
  isValidMeeting : bool
}.

Record ContactInfo := {
  infoPhone : option string;
  infoEmail : option string
}.

(** [interface AvailableTimeSlot]. *)
Record AvailableTimeSlot := {
  slotDate : string;
  startTime : string;
  endTime : string;
  dayOfWeek : string
}.

(** A message of the transport. *)
Record Message := {
  msgId : string;
  sender : string;
  text : option string;
  date : Z
}.

(** An armed [setTimeout] of [generateFollowUpSuggestions]: when it is due
    and the sender whose flag its callback deletes. *)
Record Timer := {
  due : Z;
  forSender : string
}.

(** What the controller takes from code outside the core: the trigger
    grammar ([MessageParser]), the locale's date format, and the text of
    the summary ([getContactSummary] and [formatSummaryMessage]). *)
Record Collaborators := {
  parseMessage : string -> ParsedMeetingMessage;
  extractContactInfo : string -> ContactInfo;
  toLocaleString : Z -> string;
  summaryMessage : Database -> string
}.

Record World := {
  myPhone : string;
  isProcessingMessage : bool;
  pendingFollowUpResponses : gmap string bool;
  pendingContacts : gmap string Contact;
  pendingDraftMessages : gmap string string;
  lastProcessedMessageId : option string;
  isShuttingDown : bool;
  scheduler : Scheduler.SchedulerService;
  database : option Database;
  clock : Z;
  timers : list Timer;
  outbox : list (string * string);
  console : list string
}.

Definition setIsProcessingMessage (v : bool) (w : World) : World :=
  {| myPhone := myPhone w;
     isProcessingMessage := v;
     pendingFollowUpResponses := pendingFollowUpResponses w;
     pendingContacts := pendingContacts w;
     pendingDraftMessages := pendingDraftMessages w;
     lastProcessedMessageId := lastProcessedMessageId w;
     isShuttingDown := isShuttingDown w;
     scheduler := scheduler w;
     database := database w;
     clock := clock w;
     timers := timers w;
     outbox := outbox w;
     console := console w |}.

Definition setPendingFollowUpResponses (v : gmap string bool) (w : World) : World :=
  {| myPhone := myPhone w;
     isProcessingMessage := isProcessingMessage w;
     pendingFollowUpResponses := v;
     pendingContacts := pendingContacts w;
     pendingDraftMessages := pendingDraftMessages w;
     lastProcessedMessageId := lastProcessedMessageId w;
     isShuttingDown := isShuttingDown w;
     scheduler := scheduler w;
     database := database w;
     clock := clock w;
     timers := timers w;
     outbox := outbox w;
     console := console w |}.

Definition setPendingContacts (v : gmap string Contact) (w : World) : World :=
  {| myPhone := myPhone w;
     isProcessingMessage := isProcessingMessage w;
     pendingFollowUpResponses := pendingFollowUpResponses w;
     pendingContacts := v;
     pendingDraftMessages := pendingDraftMessages w;
     lastProcessedMessageId := lastProcessedMessageId w;
     isShuttingDown := isShuttingDown w;
     scheduler := scheduler w;
     database := database w;
     clock := clock w;
     timers := timers w;
     outbox := outbox w;
     console := console w |}.

Definition setPendingDraftMessages (v : gmap string string) (w : World) : World :=
  {| myPhone := myPhone w;
     isProcessingMessage := isProcessingMessage w;
     pendingFollowUpResponses := pendingFollowUpResponses w;
     pendingContacts := pendingContacts w;
     pendingDraftMessages := v;
     lastProcessedMessageId := lastProcessedMessageId w;
     isShuttingDown := isShuttingDown w;
     scheduler := scheduler w;
     database := database w;
     clock := clock w;
     timers := timers w;
     outbox := outbox w;
     console := console w |}.

Definition setLastProcessedMessageId (v : option string) (w : World) : World :=
  {| myPhone := myPhone w;
     isProcessingMessage := isProcessingMessage w;
     pendingFollowUpResponses := pendingFollowUpResponses w;
     pendingContacts := pendingContacts w;
     pendingDraftMessages := pendingDraftMessages w;
     lastProcessedMessageId := v;
     isShuttingDown := isShuttingDown w;
     scheduler := scheduler w;
     database := database w;
     clock := clock w;
     timers := timers w;
     outbox := outbox w;
     console := console w |}.

Definition setIsShuttingDown (v : bool) (w : World) : World :=
  {| myPhone := myPhone w;
     isProcessingMessage := isProcessingMessage w;
     pendingFollowUpResponses := pendingFollowUpResponses w;
     pendingContacts := pendingContacts w;
     pendingDraftMessages := pendingDraftMessages w;
     lastProcessedMessageId := lastProcessedMessageId w;
     isShuttingDown := v;
     scheduler := scheduler w;
     database := database w;
     clock := clock w;
     timers := timers w;
     outbox := outbox w;
     console := console w |}.

Definition setScheduler (v : Scheduler.SchedulerService) (w : World) : World :=
  {| myPhone := myPhone w;
     isProcessingMessage := isProcessingMessage w;
     pendingFollowUpResponses := pendingFollowUpResponses w;
     pendingContacts := pendingContacts w;
     pendingDraftMessages := pendingDraftMessages w;
     lastProcessedMessageId := lastProcessedMessageId w;
     isShuttingDown := isShuttingDown w;
     scheduler := v;
     database := database w;
     clock := clock w;
     timers := timers w;
     outbox := outbox w;
     console := console w |}.

Definition setDatabase (v : option Database) (w : World) : World :=
  {| myPhone := myPhone w;
     isProcessingMessage := isProcessingMessage w;
     pendingFollowUpResponses := pendingFollowUpResponses w;
     pendingContacts := pendingContacts w;
     pendingDraftMessages := pendingDraftMessages w;
     lastProcessedMessageId := lastProcessedMessageId w;
     isShuttingDown := isShuttingDown w;
     scheduler := scheduler w;
     database := v;
     clock := clock w;
     timers := timers w;
     outbox := outbox w;
     console := console w |}.

Definition setClock (v : Z) (w : World) : World :=
  {| myPhone := myPhone w;
     isProcessingMessage := isProcessingMessage w;
     pendingFollowUpResponses := pendingFollowUpResponses w;
     pendingContacts := pendingContacts w;
     pendingDraftMessages := pendingDraftMessages w;
     lastProcessedMessageId := lastProcessedMessageId w;
     isShuttingDown := isShuttingDown w;
     scheduler := scheduler w;
     database := database w;
     clock := v;
     timers := timers w;
     outbox := outbox w;
     console := console w |}.

Definition setTimers (v : list Timer) (w : World) : World :=
  {| myPhone := myPhone w;
     isProcessingMessage := isProcessingMessage w;
     pendingFollowUpResponses := pendingFollowUpResponses w;
     pendingContacts := pendingContacts w;
     pendingDraftMessages := pendingDraftMessages w;
     lastProcessedMessageId := lastProcessedMessageId w;
     isShuttingDown := isShuttingDown w;
     scheduler := scheduler w;
     database := database w;
     clock := clock w;
     timers := v;
     outbox := outbox w;
     console := console w |}.

Definition setOutbox (v : list (string * string)) (w : World) : World :=
  {| myPhone := myPhone w;
     isProcessingMessage := isProcessingMessage w;
     pendingFollowUpResponses := pendingFollowUpResponses w;
     pendingContacts := pendingContacts w;
     pendingDraftMessages := pendingDraftMessages w;
     lastProcessedMessageId := lastProcessedMessageId w;
     isShuttingDown := isShuttingDown w;
     scheduler := scheduler w;
     database := database w;
     clock := clock w;
     timers := timers w;
     outbox := v;
     console := console w |}.

Definition setConsole (v : list string) (w : World) : World :=
  {| myPhone := myPhone w;
     isProcessingMessage := isProcessingMessage w;
     pendingFollowUpResponses := pendingFollowUpResponses w;
     pendingContacts := pendingContacts w;
     pendingDraftMessages := pendingDraftMessages w;
     lastProcessedMessageId := lastProcessedMessageId w;
     isShuttingDown := isShuttingDown w;
     scheduler := scheduler w;
     database := database w;
     clock := clock w;
     timers := timers w;
     outbox := outbox w;
     console := v |}.

(** [new CoffeeNetworkingApp()] for the phone number [phone], at clock
    value [t]. *)
Definition create (phone : string) (t : Z) : World :=
  {| myPhone := phone;
     isProcessingMessage := false;
     pendingFollowUpResponses := ∅;
     pendingContacts := ∅;
     pendingDraftMessages := ∅;
     lastProcessedMessageId := None;
     isShuttingDown := false;
     scheduler := Scheduler.create;
     database := None;
     clock := t;
     timers := [];
     outbox := [];
     console := [] |}.

(** [initialize()]: the database is opened on an empty table. *)
Definition initialize (w : World) : World :=
  setDatabase (Some {| rows := ∅; lastID := 0 |}) w.

(** [shutdown()]. *)
Definition shutdown (w : World) : World :=
  setPendingFollowUpResponses ∅ (setIsShuttingDown true w).

(** [pendingFollowUpResponses.has(sender)]: the read of the session. *)
Definition has (who : string) (w : World) : bool :=
  bool_decide (is_Some (pendingFollowUpResponses w !! who)).

(** [clearPendingData(sender)]. *)
Definition clearPendingData (who : string) (w : World) : World :=
  setPendingDraftMessages (delete who (pendingDraftMessages w))
    (setPendingContacts (delete who (pendingContacts w))
       (setPendingFollowUpResponses (delete who (pendingFollowUpResponses w)) w)).

(** The callback of the auto-cleanup timer. *)
Definition expire (who : string) (w : World) : World :=
  setPendingFollowUpResponses (delete who (pendingFollowUpResponses w)) w.

(** The timer at position [i] runs: it is due, it leaves the list of
    armed timers and its callback deletes the flag of its sender. *)
Definition fireTimer (i : nat) (w : World) : option World :=
  match timers w !! i with
  | Some tm =>
      if due tm <=? clock w then
        Some (expire (forSender tm) (setTimers (delete i (timers w)) w))
      else None
  | None => None
  end.

(** The wall clock moves on. *)
Definition elapse (dt : Z) (w : World) : World := setClock (clock w + dt) w.

(** *** Requests and asynchronous programs *)

Inductive Request :=
| Send (recipient body : string)
| GetMessages (limit : Z)
| FindAvailableSlots (daysAhead duration : Z)
| GenerateTopicSentence (who about where_ : string)
| Storage.

Inductive Response :=
| Done
| Failed
| Messages (result : option (list Message))
| Slots (slots : list AvailableTimeSlot)
| Topic (sentence : option string).

Inductive Async (A : Type) : Type :=
| Ret (a : A)
| Throw (e : string)
| Get (k : World -> Async A)
| Put (w : World) (k : Async A)
| Await (q : Request) (k : Response -> Async A).

Arguments Ret {A} a.
Arguments Throw {A} e.
Arguments Get {A} k.
Arguments Put {A} w k.
Arguments Await {A} q k.

Fixpoint bind {A B} (p : Async A) (f : A -> Async B) : Async B :=
  match p with
  | Ret a => f a
  | Throw e => Throw e
  | Get k => Get (fun w => bind (k w) f)
  | Put w k => Put w (bind k f)
  | Await q k => Await q (fun r => bind (k r) f)
  end.

#[global] Instance Async_ret : MRet Async := @Ret.
#[global] Instance Async_bind : MBind Async := fun A B f p => bind p f.

(** [try { p } catch (e) { h e }]. *)
Fixpoint catch {A} (p : Async A) (h : string -> Async A) : Async A :=
  match p with
  | Ret a => Ret a
  | Throw e => h e
  | Get k => Get (fun w => catch (k w) h)
  | Put w k => Put w (catch k h)
  | Await q k => Await q (fun r => catch (k r) h)
  end.

(** [try { p } finally { f }]. *)
Definition finally {A} (p : Async A) (f : Async unit) : Async A :=
  r ← catch (a ← p; Ret (inl a)) (fun e => Ret (inr e));
  f;;
  match r with
  | inl a => Ret a
  | inr e => Throw e
  end.

Definition gets {A} (f : World -> A) : Async A := Get (fun w => Ret (f w)).
Definition modify (f : World -> World) : Async unit := Get (fun w => Put (f w) (Ret tt)).

(** [console.log(line)]. *)
Definition log (line : string) : Async unit :=
  modify (fun w => setConsole (console w ++ [line]) w).

(** [await this.imessage.send(recipient, body)]. *)
Definition send (recipient body : string) : Async unit :=
  Await (Send recipient body) (fun r =>
    match r with
    | Failed => Throw "send failed"
    | _ => modify (fun w => setOutbox (outbox w ++ [(recipient, body)]) w)
    end).

(** The whole handler under an oracle that answers every request at once. *)
Fixpoint run {A} (oracle : World -> Request -> Response) (p : Async A) (w : World)
  : (A + string) * World :=
  match p with
  | Ret a => (inl a, w)
  | Throw e => (inr e, w)
  | Get k => run oracle (k w) w
  | Put w' k => run oracle k w'
  | Await q k => run oracle (k (oracle w q)) w
  end.

(** *** [DatabaseService] *)

(** [await this.database.addContact(contact)]. *)
Definition addContact (contact : Contact) : Async Z :=
  db ← gets database;
  match db with
  | None => Throw "Database not initialized"
  | Some _ =>
      Await Storage (fun r =>
        match r with
        | Failed => Throw "sqlite error"
        | _ =>
            Get (fun w =>
              match database w with
              | None => Throw "Database not initialized"
              | Some d =>
                  let i := lastID d + 1 in
                  Put (setDatabase
                         (Some {| rows := <[i := contact]> (rows d); lastID := i |}) w)
                      (Ret i)
              end)
        end)
  end.

Definition applyUpdate (u : ContactUpdate) (c : Contact) : Contact :=
  {| name := name c; event := event c; context := context c; metAt := metAt c;
     phoneNumber := phoneNumber c; email := email c;
     followUpStatus := default (followUpStatus c) (newFollowUpStatus u);
     scheduledFollowUp :=
       match newScheduledFollowUp u with
       | Some (At d) => Some d
       | _ => scheduledFollowUp c
       end;
     lastInteraction := lastInteraction c; notes := notes c |}.

(** [await this.database.updateContact(id, updates)]; [toISOString]
    throws on the Invalid Date, before the query is made. *)
Definition updateContact (i : Z) (u : ContactUpdate) : Async unit :=
  db ← gets database;
  match db with
  | None => Throw "Database not initialized"
  | Some _ =>
      match newScheduledFollowUp u with
      | Some InvalidDate => Throw "Invalid time value"
      | _ =>
          Await Storage (fun r =>
            match r with
            | Failed => Throw "sqlite error"
            | _ =>
                Get (fun w =>
                  match database w with
                  | None => Throw "Database not initialized"
                  | Some d =>
                      Put (setDatabase
                             (Some {| rows := alter (applyUpdate u) i (rows d);
                                      lastID := lastID d |}) w)
                          (Ret tt)
                  end)
            end)
      end
  end.

(** *** The texts the controller sends *)

Definition quoted (s : string) : string := quote +:+ s +:+ quote.

(** [scheduler.generateSchedulingOptionsMessage(contactName)]. *)
Definition generateSchedulingOptionsMessage : string :=
  "When would you like me to remind you to send it?" +:+ newline +:+ newline +:+
  "Reply with:" +:+ newline +:+
  "- " +:+ quoted "now" +:+ " - Send it immediately" +:+ newline +:+
  "- " +:+ quoted "tomorrow" +:+ " - Remind me tomorrow morning" +:+ newline +:+
  "- " +:+ quoted "Friday" +:+ " - Remind me on a specific day" +:+ newline +:+
  "- " +:+ quoted "in 2 hours" +:+ " - Remind me in X hours" +:+ newline +:+
  "- " +:+ quoted "in 5 minutes" +:+ " - Remind me in X minutes" +:+ newline +:+
  "- " +:+ quoted "no" +:+ " - Don't set a reminder".

(** The re-prompt of [handleSchedulingResponse]. *)
Definition repromptMessage : string :=
  "Please respond with:" +:+ newline +:+
  "- " +:+ quoted "now" +:+ " - Send it immediately" +:+ newline +:+
  "- " +:+ quoted "tomorrow" +:+ " - Remind me tomorrow morning" +:+ newline +:+
  "- " +:+ quoted "in X minutes/hours" +:+ " - Remind me later" +:+ newline +:+
  "- " +:+ quoted "no" +:+ " - Don't set a reminder" +:+ newline +:+
  "- " +:+ quoted "cancel" +:+ " - Don't save contact".

Definition helpMessage : string :=
  "Wanna grab coffee?" +:+ newline +:+ newline +:+
  "To log someone you met, text me:" +:+ newline +:+
  quoted "met John at networking event, he works in tech" +:+ newline +:+ newline +:+
  "Commands:" +:+ newline +:+
  quoted "summary" +:+ " - List all contacts" +:+ newline +:+
  quoted "cancel" +:+ " - Cancel current interaction" +:+ newline +:+ newline +:+
  "Reminder scheduling:" +:+ newline +:+
  quoted "now" +:+ " - Send immediately" +:+ newline +:+
  quoted "tomorrow" +:+ " - Remind tomorrow at 9 AM" +:+ newline +:+
  quoted "in 5 minutes" +:+ " - For testing" +:+ newline +:+
  quoted "no" +:+ " - No reminder".

(** [createUnifiedMessage(contactName, event, topicSentence, timeSlotText)];
    [null] and the empty string are falsy. *)
Definition createUnifiedMessage (contactName ev : string) (topicSentence : option string)
    (timeSlotText : string) : string :=
  "Hi " +:+ contactName +:+ "! It was great meeting you at " +:+ ev +:+
  ". Would you like to grab coffee sometime?" +:+
  match topicSentence with
  | Some t => if isEmpty t then "" else " " +:+ t
  | None => ""
  end +:+
  " " +:+ timeSlotText +:+ ". Let me know what would work!".

(** [formatSuggestionMessage(contact, draftMessage)]. *)
Definition formatSuggestionMessage (contact : Contact) (draftMessage : string) : string :=
  "You met " +:+ name contact +:+ " at " +:+ event contact +:+ "." +:+ newline +:+ newline +:+
  "Draft message:" +:+ newline +:+ quoted draftMessage +:+ newline +:+ newline +:+
  generateSchedulingOptionsMessage.

(** The reminder text [handleSchedulingResponse] registers. *)
Definition reminderMessage (contact : Contact) (draftMessage : string) : string :=
  "Time to follow up with " +:+ name contact +:+ ". Here's your draft message:" +:+
  newline +:+ newline +:+ quoted draftMessage +:+ newline +:+ newline +:+ "Ready to send?".

(** The confirmation of a scheduled reminder. *)
Definition schedulingMessage (deps : Collaborators) (p : ScheduleOptions)
    (contact : Contact) (draftMessage : string) : string :=
  if sendNow p then
    "Here's your message for " +:+ name contact +:+ ":" +:+ newline +:+ newline +:+
    quoted draftMessage +:+ newline +:+ newline +:+ "Copy and send when ready"
  else if sendTomorrow p then
    "I'll remind you tomorrow morning (9:00 AM) to follow up with " +:+ name contact
  else
    match customDate p with
    | Some (At d) =>
        "Reminder set for " +:+ name contact +:+ " at " +:+ toLocaleString deps d
    | Some InvalidDate => "Reminder set for " +:+ name contact +:+ " at Invalid Date"
    | None => "Reminder set for " +:+ name contact
    end.

(** [hasMeaningfulContext(context)]. *)
Definition hasMeaningfulContext (ctx : option string) : bool :=
  match ctx with
  | None => false
  | Some c =>
      if isEmpty c || (String.length (trim c) <? 5)%nat then false
      else
        let cleaned := toLowerCase (trim c) in
        (10 <=? String.length cleaned)%nat
        && (includes cleaned " " || (15 <? String.length cleaned)%nat)
  end.

(** A string that is present and not empty: what [if (s)] lets through. *)
Definition truthy (s : option string) : option string :=
  match s with
  | Some c => if isEmpty c then None else Some c
  | None => None
  end.

(** *** The handlers *)
Section Handlers.
Variable deps : Collaborators.

(** [sendErrorMessage(sender, error)]. *)
Definition sendErrorMessage (who error : string) : Async unit :=
  send who ("Error: " +:+ error).

(** [sendHelpMessage(sender)]. *)
Definition sendHelpMessage (who : string) : Async unit := send who helpMessage.

(** [handleCancelCommand(sender)]. *)
Definition handleCancelCommand (who : string) : Async unit :=
  catch
    (hadPending ← gets (has who);
     modify (clearPendingData who);;
     modify (setIsProcessingMessage false);;
     if hadPending : bool then send who "Cancelled. Contact not saved."
     else send who "Ready for new contacts!")
    (fun _ => sendErrorMessage who "Error processing cancel command.").

(** [handleSummaryRequest(sender)]: [getContactSummary] makes two queries. *)
Definition handleSummaryRequest (who : string) : Async unit :=
  catch
    (db ← gets database;
     match db with
     | None => Throw "Database not initialized"
     | Some d =>
         Await Storage (fun r1 =>
           match r1 with
           | Failed => Throw "sqlite error"
           | _ => Await Storage (fun r2 =>
                    match r2 with
                    | Failed => Throw "sqlite error"
                    | _ => send who (summaryMessage deps d)
                    end)
           end)
     end)
    (fun _ => sendErrorMessage who "Sorry, I had trouble getting your contact summary.").

(** [sendFollowUpReminder(contactId, message)]: the action the controller
    registers with its scheduler. The scheduler records each call of it in
    [Scheduler.executed]; its body awaits the database before it does
    anything, and runs as a callback of its own. *)
Definition sendFollowUpReminder (cid : Z) (msg : string) : Async unit :=
  catch
    (db ← gets database;
     match db with
     | None => Throw "Database not initialized"
     | Some _ =>
         Await Storage (fun r =>
           match r with
           | Failed => Throw "sqlite error"
           | _ =>
               row ← gets (fun w => database w ≫= fun d => rows d !! cid);
               match row : option Contact with
               | None => Ret tt
               | Some _ => phone ← gets myPhone; send phone msg
               end
           end)
     end)
    (fun _ => Ret tt).

(** [scheduler.scheduleBasedOnPreference(contactId, message, preference)]
    on the controller's scheduler; what the scheduler throws, the call
    throws. *)
Definition scheduleBasedOnPreference (cid : Z) (msg : string) (p : ScheduleOptions)
  : Async (option Scheduler.ReminderId) :=
  Get (fun w =>
    let '(r, s') := Scheduler.scheduleBasedOnPreference cid msg p (clock w) (scheduler w) in
    Put (setScheduler s' w)
      (match r with
       | inl i => Ret i
       | inr e => Throw e
       end)).

(** [handleSchedulingResponse(sender, response)]. *)
Definition handleSchedulingResponse (who response : string) : Async unit :=
  pendingHere ← gets (has who);
  if negb pendingHere then Ret tt
  else
    catch
      (w ← Get Ret;
       let missing :=
         sendErrorMessage who "Contact data not found. Please try again.";;
         modify (clearPendingData who) in
       match pendingContacts w !! who, truthy (pendingDraftMessages w !! who) with
       | Some contact, Some draftMessage =>
           if String.eqb (trim (toLowerCase response)) "cancel" then
             send who "Cancelled. Contact not saved.";;
             modify (clearPendingData who)
           else
             t1 ← gets clock;
             let schedulePreference := parseSchedulingResponse t1 response in
             t2 ← gets clock;
             if negb (isValidSchedulingResponse t2 response) then
               send who repromptMessage
             else
               contactId ← addContact contact;
               if noReminder schedulePreference then
                 updateContact contactId
                   {| newFollowUpStatus := Some followCompleted;
                      newScheduledFollowUp := None |};;
                 send who (name contact +:+ " saved with no reminder set.");;
                 modify (clearPendingData who)
               else
                 reminderId ← scheduleBasedOnPreference contactId
                                (reminderMessage contact draftMessage) schedulePreference;
                 match reminderId with
                 | Some _ =>
                     send who (schedulingMessage deps schedulePreference contact draftMessage);;
                     updateContact contactId
                       {| newFollowUpStatus :=
                            Some (if sendNow schedulePreference then followSent
                                  else followScheduled);
                          newScheduledFollowUp := customDate schedulePreference |}
                 | None => Ret tt
                 end;;
                 modify (clearPendingData who)
       | _, _ => missing
       end)
      (fun _ =>
         sendErrorMessage who "Sorry, I had trouble scheduling that reminder.";;
         modify (clearPendingData who)).

Definition timeSlotFallback : string := "I have some time to meet this week".

(** [generateFollowUpSuggestions(sender, contact)]. *)
Definition generateFollowUpSuggestions (who : string) (contact : Contact) : Async unit :=
  catch
    (timeSlotText ←
       catch
         (Await (FindAvailableSlots 14 60) (fun r =>
            match r with
            | Slots availableSlots =>
                match availableSlots with
                | [] => Ret timeSlotFallback
                | _ =>
                    Ret ("I'm free " +:+
                         String.concat ", "
                           (map (fun slot => dayOfWeek slot +:+ " " +:+ startTime slot)
                                (take 3 availableSlots)))
                end
            | _ => Throw "calendar error"
            end))
         (fun _ => Ret timeSlotFallback);
     topicSentence ←
       (if hasMeaningfulContext (context contact) then
          catch
            (Await (GenerateTopicSentence (name contact) (default "" (context contact))
                      (event contact))
               (fun r =>
                  match r with
                  | Topic t => Ret t
                  | _ => Throw "ai error"
                  end))
            (fun _ => Ret None)
        else Ret None);
     let draftMessage :=
       createUnifiedMessage (name contact) (event contact) topicSentence timeSlotText in
     modify (fun w => setPendingDraftMessages (<[who := draftMessage]> (pendingDraftMessages w)) w);;
     send who (formatSuggestionMessage contact draftMessage);;
     modify (fun w => setPendingFollowUpResponses (<[who := true]> (pendingFollowUpResponses w)) w);;
     modify (fun w => setTimers (timers w ++ [{| due := clock w + 10 * 60 * 1000;
                                                 forSender := who |}]) w))
    (fun _ =>
       sendErrorMessage who
         ("I saved the contact but had trouble generating suggestions. Try asking for " +:+
          quoted "summary" +:+ " to see your contacts.")).

(** [handleMeetingMessage(sender, parsed)]. *)
Definition handleMeetingMessage (who : string) (parsed : ParsedMeetingMessage) : Async unit :=
  catch
    (let contactInfo := extractContactInfo deps (default "" (parsedContext parsed)) in
     t ← gets clock;
     let contact :=
       {| name := parsedName parsed; event := parsedEvent parsed;
          context := truthy (parsedContext parsed);
          metAt := t;
          phoneNumber := truthy (infoPhone contactInfo);
          email := truthy (infoEmail contactInfo);
          followUpStatus := followPending;
          scheduledFollowUp := None; lastInteraction := None; notes := None |} in
     modify (fun w => setPendingContacts (<[who := contact]> (pendingContacts w)) w);;
     generateFollowUpSuggestions who contact)
    (fun _ =>
       sendErrorMessage who "Sorry, I had trouble processing that meeting. Please try again.").

(** [handleMessage(message)]. *)
Definition handleMessage (message : Message) : Async unit :=
  let messageText := trim (default "" (text message)) in
  pendingHere ← gets (has (sender message));
  if pendingHere : bool then handleSchedulingResponse (sender message) messageText
  else if String.eqb (trim (toLowerCase messageText)) "cancel" then
    handleCancelCommand (sender message)
  else if includes (toLowerCase messageText) "summary"
          || includes (toLowerCase messageText) "recent contacts" then
    handleSummaryRequest (sender message)
  else
    let parsed := parseMessage deps messageText in
    if isValidMeeting parsed then handleMeetingMessage (sender message) parsed
    else sendHelpMessage (sender message).

Definition detectedLine : string := "------new message detected------".
Definition processedLine : string := "message processed successfully".
Definition failedLine : string := "failed to process message:".
Definition completeLine : string := "message processing complete".

(** [handleDetectedMessage(message)]; of its console output the model
    keeps the lines that mark the start, the outcome and the end. *)
Definition handleDetectedMessage (message : Message) : Async unit :=
  log detectedLine;;
  let messageText := trim (default "" (text message)) in
  catch
    (handleMessage {| msgId := msgId message; sender := sender message;
                      text := Some messageText; date := date message |};;
     log processedLine)
    (fun _ =>
       log failedLine;;
       phone ← gets myPhone;
       catch
         (send phone
            ("Sorry, I had trouble processing your message " +:+ quoted messageText +:+ ". " +:+
             "Please try the format: " +:+ quoted "met [person] at [event]" +:+ " " +:+
             "For example: " +:+ quoted "met Benjamin Franklin at Penn"))
         (fun _ => log "failed to send error response:"));;
  log completeLine.

(** [msg.sender === this.myPhone && msg.text && msg.text.trim()]. *)
Definition isSelfMessage (phone : string) (msg : Message) : bool :=
  String.eqb (sender msg) phone
  && match text msg with
     | Some t => negb (isEmpty t) && negb (isEmpty (trim t))
     | None => false
     end.

(** [checkForNewMessages()]. *)
Definition checkForNewMessages : Async unit :=
  busy ← gets isProcessingMessage;
  if busy : bool then Ret tt
  else
    catch
      (Await (GetMessages 10) (fun r =>
         match r with
         | Failed => Throw "getMessages failed"
         | Messages (Some messages) =>
             phone ← gets myPhone;
             match List.filter (isSelfMessage phone) messages with
             | [] => Ret tt
             | latestMessage :: _ =>
                 now ← gets clock;
                 let isRecentMessage := now - date latestMessage <? 30000 in
                 lastId ← gets lastProcessedMessageId;
                 if negb (bool_decide (lastId = Some (msgId latestMessage))) && isRecentMessage
                 then
                   modify (setIsProcessingMessage true);;
                   finally
                     (handleDetectedMessage latestMessage;;
                      modify (setLastProcessedMessageId (Some (msgId latestMessage))))
                     (modify (setIsProcessingMessage false))
                 else if bool_decide (lastId = None) then
                   modify (setLastProcessedMessageId (Some (msgId latestMessage)))
                 else Ret tt
             end
         | _ => Ret tt
         end))
      (fun _ => Ret tt).

End Handlers.

(** *** The event loop *)

(** A program run up to its next await. *)
Inductive Outcome (A : Type) :=
| Finished (r : A + string)
| Blocked (q : Request) (k : Response -> Async A).
Arguments Finished {A} r.
Arguments Blocked {A} q k.

Fixpoint advance {A} (p : Async A) (w : World) : World * Outcome A :=
  match p with
  | Ret a => (w, Finished (inl a))
  | Throw e => (w, Finished (inr e))
  | Get k => advance (k w) w
  | Put w' k => advance k w'
  | Await q k => (w, Blocked q k)
  end.

(** The world and the callbacks that wait for an answer; a slot is emptied
    when its callback has finished. *)
Record Machine := {
  world : World;
  waiting : list (option (Request * (Response -> Async unit)))
}.

Definition park (o : Outcome unit) : option (Request * (Response -> Async unit)) :=
  match o with
  | Finished _ => None
  | Blocked q k => Some (q, k)
  end.

Inductive LoopEvent :=
| Elapse (dt : Z)
| Poll
| Answer (i : nat) (r : Response)
| Expire (i : nat).

(** One turn of the event loop: time passes, the polling interval fires
    and starts [checkForNewMessages], an awaited request is answered and
    its callback continues, or an armed timer runs. *)
Definition loopStep (deps : Collaborators) (e : LoopEvent) (m : Machine) : option Machine :=
  match e with
  | Elapse dt =>
      if 0 <=? dt then Some {| world := elapse dt (world m); waiting := waiting m |}
      else None
  | Poll =>
      let '(w, o) := advance (checkForNewMessages deps) (world m) in
      Some {| world := w; waiting := waiting m ++ [park o] |}
  | Answer i r =>
      match waiting m !! i with
      | Some (Some (q, k)) =>
          let '(w, o) := advance (k r) (world m) in
          Some {| world := w; waiting := <[i := park o]> (waiting m) |}
      | _ => None
      end
  | Expire i =>
      match fireTimer i (world m) with
      | Some w => Some {| world := w; waiting := waiting m |}
      | None => None
      end
  end.

Fixpoint loop (deps : Collaborators) (es : list LoopEvent) (m : Machine) : option Machine :=
  match es with
  | [] => Some m
  | e :: r =>
      match loopStep deps e m with
      | Some m' => loop deps r m'
      | None => None
      end
  end.

(** The callbacks still waiting, by their request. *)
Definition pendingRequests (m : Machine) : list Request :=
  omap (fun slot => fst <$> slot) (waiting m).

End App.

(** ** Concrete collaborators and environments for the scenarios *)
Module Scenario.
Import Text Clock Classifier App.

(** [s] cut at the first occurrence of [sep]. *)
Fixpoint splitOn (sep s : string) : option (string * string) :=
  match stripPrefix sep s with
  | Some r => Some (EmptyString, r)
  | None =>
      match s with
      | EmptyString => None
      | String c r =>
          match splitOn sep r with
          | Some (a, b) => Some (String c a, b)
          | None => None
          end
      end
  end.

(** A stand-in for [MessageParser.parseMessage] that accepts
    [met NAME at EVENT] and [met NAME at EVENT, CONTEXT]; on the texts of
    the scenarios below it returns what the parser of the repository
    returns. *)
Definition demoParse (t : string) : ParsedMeetingMessage :=
  let invalid :=
    {| parsedName := ""; parsedEvent := ""; parsedContext := None;
       isValidMeeting := false |} in
  match stripPrefix "met " t with
  | Some r =>
      match splitOn " at " r with
      | Some (n, rest) =>
          match splitOn "," rest with
          | Some (e, c) =>
              {| parsedName := n; parsedEvent := trim e; parsedContext := Some (trim c);
                 isValidMeeting := true |}
          | None =>
              {| parsedName := n; parsedEvent := trim rest; parsedContext := None;
                 isValidMeeting := true |}
          end
      | None => invalid
      end
  | None => invalid
  end.

Definition demoDeps : Collaborators :=
  {| parseMessage := demoParse;
     extractContactInfo := fun _ => {| infoPhone := None; infoEmail := None |};
     toLocaleString := fun _ => "the chosen time";
     summaryMessage := fun _ => "Your people list" |}.

(** An environment in which every request succeeds: the calendar has no
    free slot, the text generator has no sentence, nothing new arrived. *)
Definition calm (w : World) (q : Request) : Response :=
  match q with
  | Send _ _ => Done
  | GetMessages _ => Messages None
  | FindAvailableSlots _ _ => Slots []
  | GenerateTopicSentence _ _ _ => Topic None
  | Storage => Done
  end.

(** The calm environment with a transport that fails on the message
    [lost]. *)
Definition dropping (lost : string) (w : World) (q : Request) : Response :=
  match q with
  | Send _ body => if String.eqb body lost then Failed else Done
  | _ => calm w q
  end.

Definition me : string := "+15550100".

(** The message [body] from [me], stamped with the clock. *)
Definition inbound (i body : string) (w : World) : Message :=
  {| msgId := i; sender := me; text := Some body; date := clock w |}.

(** [handleMessage] run alone on [body] in the calm environment. *)
Definition receive (body : string) (w : World) : World :=
  snd (run calm (handleMessage demoDeps (inbound "m" body w)) w).

(** The application constructed and initialized at clock value 0. *)
Definition fresh : World := initialize (create me 0).

(** The event loop before its first turn. *)
Definition boot : Machine := {| world := fresh; waiting := [] |}.

Definition cancelText : Message :=
  {| msgId := "m1"; sender := me; text := Some "cancel"; date := 0 |}.

Definition triggerText : Message :=
  {| msgId := "m1"; sender := me; text := Some "met Sarah at conference"; date := 0 |}.

(** The messages that follow the trigger. *)
Definition cancelNext : Message :=
  {| msgId := "m2"; sender := me; text := Some "cancel"; date := 0 |}.

Definition replyText : Message :=
  {| msgId := "m3"; sender := me; text := Some "tomorrow"; date := 0 |}.

(** What is seen of the event loop: the processing flag, the console, and
    the requests the waiting callbacks are blocked on. *)
Definition observe (m : option Machine) : option (bool * list string * list Request) :=
  (fun m => (isProcessingMessage (world m), console (world m), pendingRequests m)) <$> m.

End Scenario.

(** ** Notions the properties are stated with *)

(** The scheduler's invariant. *)
Module Reachable.
Import Scheduler.

(** What holds of every scheduler reached from [create] by a trace whose
    registrations generated the ids [R], pairwise distinct. *)
Record Inv (R : list ReminderId) (s : SchedulerService) : Prop := {
  inv_live : forall i ref, reminders s !! i = Some ref ->
    exists r, objects s !! ref = Some r /\ rid r = i /\ status r ≠ cancelled;
  inv_task_reg : forall t tk, tasks s !! t = Some tk -> forReminder tk ∈ R;
  inv_task_inj : forall t1 t2 k1 k2,
    tasks s !! t1 = Some k1 -> tasks s !! t2 = Some k2 ->
    forReminder k1 = forReminder k2 -> t1 = t2;
  inv_running : forall t tk, tasks s !! t = Some tk -> running tk = true ->
    exists ref r, reminders s !! forReminder tk = Some ref
      /\ objects s !! ref = Some r /\ task r = Some t /\ status r = pending;
  inv_exec_reg : forall e, e ∈ executed s -> onBehalfOf e ∈ R;
  inv_once : forall i, (executions i s <= 1)%nat;
  inv_fresh : forall t tk, tasks s !! t = Some tk -> running tk = true ->
    t ∉ inflight s -> executions (forReminder tk) s = 0%nat
}.

End Reachable.

(** The session of the controller and what a program may do to it. *)
Module SessionSpec.
Import App.

(** The three maps that hold a pending interaction. *)
Definition session (w : World)
  : gmap string bool * gmap string Contact * gmap string string :=
  (pendingFollowUpResponses w, pendingContacts w, pendingDraftMessages w).

(** The session is as it was. *)
Definition untouched (w w' : World) : Prop := session w' = session w.

(** The session is as it was, or as [clearPendingData who] leaves it. *)
Definition clearedAtMost (who : string) (w w' : World) : Prop :=
  session w' = session w \/ session w' = session (clearPendingData who w).

(** Entries of [who] were written, none removed: each map is as it was or
    has a new value under [who]. *)
Definition overwrittenAtMost (who : string) (w w' : World) : Prop :=
  (pendingFollowUpResponses w' = pendingFollowUpResponses w
   \/ pendingFollowUpResponses w' = <[who := true]> (pendingFollowUpResponses w))
  /\ (pendingContacts w' = pendingContacts w
      \/ exists c, pendingContacts w' = <[who := c]> (pendingContacts w))
  /\ (pendingDraftMessages w' = pendingDraftMessages w
      \/ exists d, pendingDraftMessages w' = <[who := d]> (pendingDraftMessages w)).

(** What [handleMessage] may do to the session: at most clear the
    sender's entries, or at most overwrite them. *)
Definition sessionEffect (who : string) (w w' : World) : Prop :=
  clearedAtMost who w w' \/ overwrittenAtMost who w w'.

(** Whatever the environment answers, the program takes the world to one
    that is [R]-related to it. *)
Definition Eff {A} (R : relation World) (p : Async A) : Prop :=
  forall oracle w, R w (snd (run oracle p w)).

(** A relation that holds of every world and itself, and is implied by
    [untouched]. *)
Class Session (R : relation World) := {
  Session_preorder :: PreOrder R;
  Session_untouched : forall w w', untouched w w' -> R w w'
}.


End SessionSpec.

(** The whole program, serialized: a message is handled, a timer of the
    session runs, the scheduler sweeps or one half of a cron callback
    runs, a reminder is delivered, time passes. A handler takes one step:
    it runs from its start to its end, every request answered at once,
    and nothing else runs in between. These are the runs in which the
    handlers do not overlap; the runs in which they do, each stopping at
    its awaits, are those of [App.loop]. *)
Module Program.
Import App.

Inductive Step :=
| Inbound (oracle : World -> Request -> Response) (message : Message)
| TimerRuns (i : nat)
| Sweeps
| CallbackStarts (t : nat)
| CallbackEnds (t : nat)
| Reminded (oracle : World -> Request -> Response) (k : nat)
| TimePasses (dt : Z).

Definition onScheduler (e : Scheduler.Event) (w : World) : option World :=
  (fun s => setScheduler s w) <$> Scheduler.step e (scheduler w).

Definition step (deps : Collaborators) (e : Step) (w : World) : option World :=
  match e with
  | Inbound oracle message => Some (snd (run oracle (handleMessage deps message) w))
  | TimerRuns i => fireTimer i w
  | Sweeps => onScheduler Scheduler.Sweep w
  | CallbackStarts t => onScheduler (Scheduler.FireBegin t) w
  | CallbackEnds t => onScheduler (Scheduler.FireEnd t) w
  | Reminded oracle k =>
      match Scheduler.executed (scheduler w) !! k with
      | Some e =>
          Some (snd (run oracle
                       (sendFollowUpReminder (Scheduler.toContact e)
                          (Scheduler.withMessage e)) w))
      | None => None
      end
  | TimePasses dt => if 0 <=? dt then Some (elapse dt w) else None
  end.

Fixpoint steps (deps : Collaborators) (es : list Step) (w : World) : option World :=
  match es with
  | [] => Some w
  | e :: r =>
      match step deps e w with
      | Some w' => steps deps r w'
      | None => None
      end
  end.

(** Neither the scheduler nor the database changes. *)
Definition quiet (w w' : World) : Prop :=
  scheduler w' = scheduler w /\ database w' = database w.

(** The scheduler does not change and the table keeps its last row id. *)
Definition settled (w w' : World) : Prop :=
  scheduler w' = scheduler w /\ (lastID <$> database w') = (lastID <$> database w).

(** The table stays closed, or stays open with a last row id that is not
    smaller. *)
Definition grows (w w' : World) : Prop :=
  match database w, database w' with
  | Some d, Some d' => lastID d <= lastID d'
  | None, None => True
  | _, _ => False
  end.

(** What a handled message does to the scheduler: nothing, the row ids
    growing at most; or one call of [scheduleBasedOnPreference] under the
    row id that [addContact] has just given out. *)
Definition registersAtMostOnce (w w' : World) : Prop :=
  (scheduler w' = scheduler w /\ grows w w')
  \/ (exists d d' msg p now,
        database w = Some d /\ database w' = Some d' /\ lastID d' = lastID d + 1
        /\ scheduler w' =
             snd (Scheduler.scheduleBasedOnPreference (lastID d + 1) msg p
                    now (scheduler w))).

(** The registrations so far generated the pairwise distinct ids [R],
    each under a contact id the table has given out. *)
Definition Registered (R : list Scheduler.ReminderId) (w : World) : Prop :=
  Reachable.Inv R (scheduler w) /\ NoDup R
  /\ forall d, database w = Some d -> forall i, i ∈ R -> fst i <= lastID d.

End Program.

(** The writes of the controller's handlers, and what it is for a program
    to end normally. *)
Module Footprint.
Import App.

(** One assignment or call a handler working for [who] makes on the
    fields of the class and on the services it owns. *)
Inductive Write (who : string) (w : World) : World -> Prop :=
| write_console (line : string) :
    Write who w (setConsole (console w ++ [line]) w)
| write_outbox (body : string) :
    Write who w (setOutbox (outbox w ++ [(who, body)]) w)
| write_flag :
    Write who w
      (setPendingFollowUpResponses (<[who := true]> (pendingFollowUpResponses w)) w)
| write_contact (c : Contact) :
    Write who w (setPendingContacts (<[who := c]> (pendingContacts w)) w)
| write_draft (d : string) :
    Write who w (setPendingDraftMessages (<[who := d]> (pendingDraftMessages w)) w)
| write_clear :
    Write who w (clearPendingData who w)
| write_idle :
    Write who w (setIsProcessingMessage false w)
| write_timer :
    Write who w
      (setTimers (timers w ++ [{| due := clock w + 10 * 60 * 1000; forSender := who |}]) w)
| write_insert (d : Database) (c : Contact) :
    database w = Some d ->
    Write who w
      (setDatabase (Some {| rows := <[lastID d + 1 := c]> (rows d);
                            lastID := lastID d + 1 |}) w)
| write_update (d : Database) (i : Z) (u : ContactUpdate) :
    database w = Some d ->
    Write who w
      (setDatabase (Some {| rows := alter (applyUpdate u) i (rows d);
                            lastID := lastID d |}) w)
| write_schedule (cid : Z) (msg : string) (p : Classifier.ScheduleOptions) :
    Write who w
      (setScheduler
         (snd (Scheduler.scheduleBasedOnPreference cid msg p (clock w) (scheduler w))) w).

(** Any number of writes on behalf of [who]. *)
Definition writes (who : string) : relation World := rtc (Write who).

(** No [throw] of the program reaches its caller, whatever it reads and
    whatever it is answered. *)
Inductive NoThrow {A : Type} : Async A -> Prop :=
| NoThrow_Ret (a : A) : NoThrow (Ret a)
| NoThrow_Get (k : World -> Async A) : (forall w, NoThrow (k w)) -> NoThrow (Get k)
| NoThrow_Put (w : World) (k : Async A) : NoThrow k -> NoThrow (Put w k)
| NoThrow_Await (q : Request) (k : Response -> Async A) :
    (forall r, NoThrow (k r)) -> NoThrow (Await q k).

(** The transport accepts every message. *)
Definition transportWorks (oracle : World -> Request -> Response) : Prop :=
  forall w a b, oracle w (Send a b) ≠ Failed.


(** What the outbox gained from [w] to [w']. *)
Definition sentSince (w w' : World) (l : list (string * string)) : Prop :=
  outbox w' = (outbox w ++ l)%list.



(** The fields of a stored contact that identify the person. *)
Definition identity (c : Contact)
  : string * string * option string * Z * option string * option string :=
  (name c, event c, context c, metAt c, phoneNumber c, email c).

(** Every row id of the table is one [AUTOINCREMENT] has given out. *)
Definition wellKeyed (w : World) : Prop :=
  forall d i, database w = Some d -> is_Some (rows d !! i) -> i <= lastID d.

(** The rows of [w] are rows of [w'], for the same persons. *)
Definition keepsRows (w w' : World) : Prop :=
  forall d i c, database w = Some d -> rows d !! i = Some c ->
    exists d' c', database w' = Some d' /\ rows d' !! i = Some c'
                  /\ identity c' = identity c.

End Footprint.

(** The tasks of the scheduler after a cancellation and after [destroy]. *)
Module Lifecycle.
Import Scheduler.

(** No task that works for a reminder id in [P] is running. *)
Definition idleOn (P : ReminderId -> Prop) (s : SchedulerService) : Prop :=
  forall t tk, tasks s !! t = Some tk -> P (forReminder tk) -> running tk = false.

(** No task that works for [i] is running. *)
Definition idle (i : ReminderId) : SchedulerService -> Prop := idleOn (eq i).

(** No task is running. *)
Definition halted : SchedulerService -> Prop := idleOn (fun _ => True).

(** The event is a registration. *)
Definition registers (e : Event) : bool :=
  match e with
  | Schedule _ _ _ _ _ => true
  | _ => false
  end.

End Lifecycle.

(** ** The calendar: [CalendarService]

    An event of the calendar API is kept as its two instants,
    [start.dateTime] and [end.dateTime], already parsed; either may be
    missing (an all-day event has no [start.dateTime]). *)
Module Calendar.
Import Text Clock App.

Record CalendarEvent := {
  startDateTime : option Z;
  endDateTime : option Z
}.

(** [String(n).padStart(k, '0')] for [0 <= n]. *)
Definition digitChar (n : Z) : ascii := ascii_of_nat (48 + Z.to_nat n).

Fixpoint padded (k : nat) (n : Z) : string :=
  match k with
  | O => ""
  | S k' => padded k' (n / 10) +:+ String (digitChar (n mod 10)) ""
  end.

(** The year of [toISOString]: four digits, or a sign and six. *)
Definition isoYear (y : Z) : string :=
  if (0 <=? y) && (y <=? 9999) then padded 4 y
  else (if y <? 0 then "-" else "+") +:+ padded 6 (Z.abs y).

(** [formatDate(date)]: the part of [toISOString()] before the [T]. *)
Definition formatDate (date : Z) : string :=
  let '(y, m, d) := civil (date / msPerDay) in
  isoYear y +:+ "-" +:+ padded 2 m +:+ "-" +:+ padded 2 d.

(** [formatTime(date)]: the first five characters of [toTimeString()]. *)
Definition formatTime (date : Z) : string :=
  padded 2 (getHours date) +:+ ":" +:+ padded 2 (getMinutes date).

Definition days : list string :=
  ["Sunday"; "Monday"; "Tuesday"; "Wednesday"; "Thursday"; "Friday"; "Saturday"].

(** [getDayOfWeek(date)]. *)
Definition getDayOfWeek (date : Z) : string :=
  default "Unknown" (days !! Z.to_nat (getDay date)).

(** The slot pushed for the interval from [from] to [slotEnd]. *)
Definition slotOf (from slotEnd : Z) : AvailableTimeSlot :=
  {| slotDate := formatDate from;
     startTime := formatTime from;
     endTime := formatTime slotEnd;
     dayOfWeek := getDayOfWeek from |}.

(** [a.toDateString() === b.toDateString()]. *)
Definition sameDay (a b : Z) : bool := a / msPerDay =? b / msPerDay.

(** The filter of [generateDaySlots]: the events that start on the day of
    [date]. *)
Definition startsOn (date : Z) (e : CalendarEvent) : bool :=
  match startDateTime e with
  | Some s => sameDay s date
  | None => false
  end.

Definition startOf (e : CalendarEvent) : Z := default 0 (startDateTime e).

(** [new Date(event.end?.dateTime || event.start.dateTime)]. *)
Definition endOf (e : CalendarEvent) : Z := default (startOf e) (endDateTime e).

(** [dayEvents.sort((a, b) => start(a) - start(b))]: a stable sort. *)
Fixpoint insertByStart (e : CalendarEvent) (l : list CalendarEvent) : list CalendarEvent :=
  match l with
  | [] => [e]
  | x :: r => if startOf e <=? startOf x then e :: l else x :: insertByStart e r
  end.

Definition sortByStart (l : list CalendarEvent) : list CalendarEvent :=
  foldr insertByStart [] l.

(** The loop of [generateDaySlots] over the sorted events of the day: the
    slots it pushes and the [currentTime] it ends with. [ms] is
    [duration * 60 * 1000]. *)
Fixpoint scanEvents (ms currentTime : Z) (dayEvents : list CalendarEvent)
  : list AvailableTimeSlot * Z :=
  match dayEvents with
  | [] => ([], currentTime)
  | event :: rest =>
      let eventStart := startOf event in
      let eventEnd := endOf event in
      let gapDuration := eventStart - currentTime in
      let here :=
        if ms <=? gapDuration
        then [slotOf currentTime (Z.min eventStart (currentTime + ms))]
        else [] in
      let '(more, final) := scanEvents ms (Z.max currentTime eventEnd) rest in
      ((here ++ more)%list, final)
  end.

(** [dayEnd]: [setHours(19, 0, 0, 0)]. *)
Definition at19 (d : Z) : Z := (d / msPerDay) * msPerDay + 19 * msPerHour.

(** [generateDaySlots(date, events, duration)]. *)
Definition generateDaySlots (date : Z) (events : list CalendarEvent) (duration : Z)
  : list AvailableTimeSlot :=
  let dayStart := at9 date in
  let dayEnd := at19 date in
  let dayEvents := sortByStart (List.filter (startsOn date) events) in
  let ms := duration * 60 * 1000 in
  let '(slots, currentTime) := scanEvents ms dayStart dayEvents in
  if currentTime <? dayEnd then
    let remainingTime := dayEnd - currentTime in
    if ms <=? remainingTime
    then (slots ++ [slotOf currentTime (Z.min dayEnd (currentTime + ms))])%list
    else slots
  else slots.

(** The loop of [findAvailableSlots] over the days [d], [d + 1], ...,
    [daysAhead]; [fuel] bounds the number of days left. *)
Fixpoint overDays (fuel : nat) (now d : Z) (events : list CalendarEvent) (duration : Z)
  : list AvailableTimeSlot :=
  match fuel with
  | O => []
  | S fuel' =>
      let currentDate := addDays now d in
      let dayOfWeek := getDay currentDate in
      let daySlots :=
        if (dayOfWeek =? 0) || (dayOfWeek =? 6) then []
        else generateDaySlots currentDate events duration in
      (daySlots ++ overDays fuel' now (d + 1) events duration)%list
  end.

(** [findAvailableSlots(daysAhead, duration)] at the clock value [now];
    [answer] is what [calendar.events.list] returned ([response.data.items
    || []]), or [None] when the call threw. [endDate.toISOString()] throws
    on the Invalid Date, inside the [try], before the call is made. *)
Definition findAvailableSlots (now : Z) (answer : option (list CalendarEvent))
    (daysAhead duration : Z) : list AvailableTimeSlot :=
  match setDate now (getDate now + daysAhead), answer with
  | At _, Some events => take 10 (overDays (Z.to_nat daysAhead) now 1 events duration)
  | _, _ => []
  end.

(** *** The instants behind the slots *)

(** The loop again, keeping the two instants of each slot it pushes. *)
Fixpoint scanTimes (ms currentTime : Z) (dayEvents : list CalendarEvent)
  : list (Z * Z) * Z :=
  match dayEvents with
  | [] => ([], currentTime)
  | event :: rest =>
      let here :=
        if ms <=? startOf event - currentTime
        then [(currentTime, Z.min (startOf event) (currentTime + ms))]
        else [] in
      let '(more, final) := scanTimes ms (Z.max currentTime (endOf event)) rest in
      ((here ++ more)%list, final)
  end.

(** The intervals [generateDaySlots] offers. *)
Definition daySlotTimes (date : Z) (events : list CalendarEvent) (duration : Z)
  : list (Z * Z) :=
  let ms := duration * 60 * 1000 in
  let '(slots, currentTime) :=
    scanTimes ms (at9 date) (sortByStart (List.filter (startsOn date) events)) in
  if (currentTime <? at19 date) && (ms <=? at19 date - currentTime)
  then (slots ++ [(currentTime, Z.min (at19 date) (currentTime + ms))])%list
  else slots.

(** A timed event that starts on the day of [date] is under way at some
    instant of the interval. *)
Definition overlaps (date : Z) (e : CalendarEvent) (slot : Z * Z) : Prop :=
  startsOn date e = true /\ startOf e < slot.2 /\ slot.1 < endOf e.

(** The order the sort establishes. *)
Definition byStart (x y : CalendarEvent) : Prop := startOf x <= startOf y.

(** The instant [h]:[m] of 1 January 1970. *)
Definition hm (h m : Z) : Z := h * msPerHour + m * msPerMinute.

Definition weekdays : list string :=
  ["Monday"; "Tuesday"; "Wednesday"; "Thursday"; "Friday"].

End Calendar.

(** ** Regular expressions

    The patterns of the repository are matched the way the language
    defines it: a backtracking matcher in continuation-passing style, with
    the priorities of alternation and of greedy and lazy quantifiers, the
    reset of the captures of a quantified group at each iteration, and the
    rejection of an empty iteration once the minimum is reached. The
    matcher of a quantifier is given fuel for every iteration it can make. *)
Module RegExp.
Import Text.

Inductive Regex :=
| Empty
| Char (f : ascii -> bool)
| Seq (r1 r2 : Regex)
| Alt (r1 r2 : Regex)
| Repeat (greedy : bool) (min : nat) (max : option nat) (r : Regex)
| Group (i : nat) (r : Regex)
| LineStart
| LineEnd
| WordBoundary.

(** The captures: for each group the two ends of what it matched last. *)
Definition Captures : Type := list (option (nat * nat)).

Record MatchState := {
  endIndex : nat;
  captures : Captures
}.

Inductive MatchResult :=
| Match (y : MatchState)
| Failure
| OutOfFuel.

(** The groups inside a pattern. *)
Fixpoint groupsOf (r : Regex) : list nat :=
  match r with
  | Seq r1 r2 | Alt r1 r2 => groupsOf r1 ++ groupsOf r2
  | Repeat _ _ _ r1 => groupsOf r1
  | Group i r1 => i :: groupsOf r1
  | _ => []
  end.

Definition clearGroups (gs : list nat) (caps : Captures) : Captures :=
  foldr (fun g acc => <[g := None]> acc) caps gs.

(** [\w]. *)
Definition isWordChar (c : ascii) : bool :=
  let n := code c in
  ((65 <=? n) && (n <=? 90) || (97 <=? n) && (n <=? 122)
   || (48 <=? n) && (n <=? 57) || (n =? 95))%nat.

Definition wordCharAt (input : list ascii) (i : nat) : bool :=
  match input !! i with
  | Some c => isWordChar c
  | None => false
  end.

(** [\b] at position [e]. *)
Definition atWordBoundary (input : list ascii) (e : nat) : bool :=
  let a := match e with O => false | S e' => wordCharAt input e' end in
  xorb a (wordCharAt input e).

Definition pastMax (mx : option nat) : bool :=
  match mx with
  | Some O => true
  | _ => false
  end.

(** The matcher of a quantifier over the matcher [m] of its body:
    [min] and [max] are the iterations still required and still allowed. *)
Fixpoint repeatMatcher (m : MatchState -> (MatchState -> MatchResult) -> MatchResult)
    (gs : list nat) (greedy : bool) (c : MatchState -> MatchResult)
    (fuel min : nat) (max : option nat) (x : MatchState) {struct fuel} : MatchResult :=
  match fuel with
  | O => OutOfFuel
  | S fuel' =>
      if pastMax max then c x
      else
        let d := fun y : MatchState =>
          if (min =? 0)%nat && (endIndex y =? endIndex x)%nat then Failure
          else repeatMatcher m gs greedy c fuel' (pred min) (pred <$> max) y in
        let xr := {| endIndex := endIndex x; captures := clearGroups gs (captures x) |} in
        if negb (min =? 0)%nat then m xr d
        else if greedy then
          match m xr d with
          | Failure => c x
          | z => z
          end
        else
          match c x with
          | Failure => m xr d
          | z => z
          end
  end.

(** The matcher of [r]: from the state [x], with the continuation [c]. *)
Fixpoint matcher (input : list ascii) (r : Regex) (x : MatchState)
    (c : MatchState -> MatchResult) {struct r} : MatchResult :=
  match r with
  | Empty => c x
  | Char f =>
      match input !! endIndex x with
      | Some a =>
          if f a then c {| endIndex := S (endIndex x); captures := captures x |}
          else Failure
      | None => Failure
      end
  | Seq r1 r2 => matcher input r1 x (fun y => matcher input r2 y c)
  | Alt r1 r2 =>
      match matcher input r1 x c with
      | Failure => matcher input r2 x c
      | z => z
      end
  | Repeat greedy min max r1 =>
      repeatMatcher (matcher input r1) (groupsOf r1) greedy c
        (S (min + (length input - endIndex x))) min max x
  | Group i r1 =>
      matcher input r1 x (fun y =>
        c {| endIndex := endIndex y;
             captures := <[i := Some (endIndex x, endIndex y)]> (captures y) |})
  | LineStart => if (endIndex x =? 0)%nat then c x else Failure
  | LineEnd => if (endIndex x =? length input)%nat then c x else Failure
  | WordBoundary => if atWordBoundary input (endIndex x) then c x else Failure
  end.

(** The pattern tried at the index [i], with [n] groups. *)
Definition matchAt (n : nat) (r : Regex) (input : list ascii) (i : nat) : MatchResult :=
  matcher input r {| endIndex := i; captures := replicate n None |} Match.

(** [RegExp.prototype.exec] without the [g] flag: the first index, from
    [i] on, at which the pattern matches, and the state it ends in;
    [fuel] counts the indices left to try. *)
Fixpoint searchFrom (n : nat) (r : Regex) (input : list ascii) (fuel i : nat)
  : option (nat * MatchState) :=
  match matchAt n r input i with
  | Match y => Some (i, y)
  | _ =>
      match fuel with
      | O => None
      | S fuel' => searchFrom n r input fuel' (S i)
      end
  end.

(** [s.match(r)]. *)
Definition exec (n : nat) (r : Regex) (s : string) : option (nat * MatchState) :=
  let input := list_ascii_of_string s in
  searchFrom n r input (length input) 0.

(** [input.substring(i, j)]. *)
Definition substring (input : list ascii) (i j : nat) : string :=
  string_of_list_ascii (take (j - i) (drop i input)).

(** The text of group [g] of a match of [s], [undefined] when the group
    took no part in it. *)
Definition groupText (s : string) (y : MatchState) (g : nat) : option string :=
  match captures y !! g with
  | Some (Some (i, j)) => Some (substring (list_ascii_of_string s) i j)
  | _ => None
  end.

(** *** The pieces patterns are written with *)

Definition star (r : Regex) : Regex := Repeat true 0 None r.
Definition plus (r : Regex) : Regex := Repeat true 1 None r.
Definition lazyPlus (r : Regex) : Regex := Repeat false 1 None r.
Definition opt (r : Regex) : Regex := Repeat true 0 (Some 1%nat) r.
Definition times (n : nat) (r : Regex) : Regex := Repeat true n (Some n) r.
Definition atLeast (n : nat) (r : Regex) : Regex := Repeat true n None r.

(** A character of the pattern; with the [i] flag it also matches in the
    other case. *)
Definition lit (ignoreCase : bool) (c : ascii) : Regex :=
  Char (fun a => if ignoreCase then Ascii.eqb (lowerChar a) (lowerChar c)
                 else Ascii.eqb a c).

Fixpoint lits (ignoreCase : bool) (s : string) : Regex :=
  match s with
  | EmptyString => Empty
  | String c EmptyString => lit ignoreCase c
  | String c r => Seq (lit ignoreCase c) (lits ignoreCase r)
  end.

Fixpoint seqs (rs : list Regex) : Regex :=
  match rs with
  | [] => Empty
  | [r] => r
  | r :: rest => Seq r (seqs rest)
  end.

Definition isLetter (c : ascii) : bool :=
  let n := code c in ((65 <=? n) && (n <=? 90) || (97 <=? n) && (n <=? 122))%nat.

(** [.]: any character but a line terminator. *)
Definition isDot (c : ascii) : bool :=
  let n := code c in negb ((n =? 10) || (n =? 13))%nat.

Definition oneOf (s : string) (c : ascii) : bool :=
  existsb (Ascii.eqb c) (list_ascii_of_string s).

(** *** What a match means, without the priorities *)

(** [Denotes input r x y]: the pattern can take the state [x] to [y]. *)
Inductive Denotes (input : list ascii) : Regex -> MatchState -> MatchState -> Prop :=
| den_empty x : Denotes input Empty x x
| den_char f x a :
    input !! endIndex x = Some a -> f a = true ->
    Denotes input (Char f) x {| endIndex := S (endIndex x); captures := captures x |}
| den_seq r1 r2 x y z :
    Denotes input r1 x y -> Denotes input r2 y z -> Denotes input (Seq r1 r2) x z
| den_left r1 r2 x y : Denotes input r1 x y -> Denotes input (Alt r1 r2) x y
| den_right r1 r2 x y : Denotes input r2 x y -> Denotes input (Alt r1 r2) x y
| den_stop greedy mn mx r x :
    mn = 0%nat \/ pastMax mx = true -> Denotes input (Repeat greedy mn mx r) x x
| den_again greedy mn mx r x y z :
    pastMax mx = false ->
    Denotes input r
      {| endIndex := endIndex x; captures := clearGroups (groupsOf r) (captures x) |} y ->
    Denotes input (Repeat greedy (pred mn) (pred <$> mx) r) y z ->
    Denotes input (Repeat greedy mn mx r) x z
| den_group i r x y :
    Denotes input r x y ->
    Denotes input (Group i r) x
      {| endIndex := endIndex y;
         captures := <[i := Some (endIndex x, endIndex y)]> (captures y) |}
| den_start x : endIndex x = 0%nat -> Denotes input LineStart x x
| den_end x : endIndex x = length input -> Denotes input LineEnd x x
| den_boundary x :
    atWordBoundary input (endIndex x) = true -> Denotes input WordBoundary x x.

(** The matcher [m] does not run out of fuel when its continuation does
    not. *)
Definition fuelSafe (input : list ascii)
    (m : MatchState -> (MatchState -> MatchResult) -> MatchResult) : Prop :=
  forall x c, (endIndex x <= length input)%nat ->
    (forall y, (endIndex x <= endIndex y <= length input)%nat -> c y ≠ OutOfFuel) ->
    m x c ≠ OutOfFuel.

(** A match [m] finds goes through a state the pattern denotes. *)
Definition sound (input : list ascii) (r : Regex)
    (m : MatchState -> (MatchState -> MatchResult) -> MatchResult) : Prop :=
  forall x c z, m x c = Match z -> exists y, Denotes input r x y /\ c y = Match z.

(** The characters a match of the pattern can be made of. *)
Fixpoint alphabet (r : Regex) (a : ascii) : bool :=
  match r with
  | Char f => f a
  | Seq r1 r2 | Alt r1 r2 => alphabet r1 a || alphabet r2 a
  | Repeat _ _ _ r1 | Group _ r1 => alphabet r1 a
  | _ => false
  end.

(** The iterations a quantifier makes at least. *)
Definition leastCount (mn : nat) (mx : option nat) : nat :=
  match mx with
  | Some k => Nat.min mn k
  | None => mn
  end.

(** The least number of characters of a match of the pattern. *)
Fixpoint minLength (r : Regex) : nat :=
  match r with
  | Char _ => 1
  | Seq r1 r2 => minLength r1 + minLength r2
  | Alt r1 r2 => Nat.min (minLength r1) (minLength r2)
  | Repeat _ mn mx r1 => leastCount mn mx * minLength r1
  | Group _ r1 => minLength r1
  | _ => 0
  end.

(** The greatest number of characters of a match, when there is one. *)
Fixpoint maxLength (r : Regex) : option nat :=
  match r with
  | Char _ => Some 1%nat
  | Seq r1 r2 =>
      match maxLength r1, maxLength r2 with
      | Some a, Some b => Some (a + b)%nat
      | _, _ => None
      end
  | Alt r1 r2 =>
      match maxLength r1, maxLength r2 with
      | Some a, Some b => Some (Nat.max a b)
      | _, _ => None
      end
  | Repeat _ _ mx r1 =>
      match mx, maxLength r1 with
      | Some k, Some a => Some (k * a)%nat
      | _, _ => None
      end
  | Group _ r1 => maxLength r1
  | _ => Some 0%nat
  end.

(** The characters of [input] from [i] up to [j] all satisfy [f]. *)
Definition allBetween (input : list ascii) (f : ascii -> bool) (i j : nat) : Prop :=
  forall k, (i <= k < j)%nat -> exists a, input !! k = Some a /\ f a = true.

End RegExp.

(** ** The trigger grammar: [MessageParser] *)
Module MessageParser.
Import Text RegExp App.

Definition NAME_STOPWORDS : list string :=
  ["at"; "from"; "the"; "a"; "an"; "in"; "on"; "with"; "during"; "after"; "before"].

Definition upperChar (c : ascii) : ascii :=
  let n := code c in
  if ((97 <=? n) && (n <=? 122))%nat then ascii_of_nat (n - 32) else c.

(** [s.replace(/\s+/g, ' ')]; [inRun] tells that the previous character
    was a blank, already replaced. *)
Fixpoint collapseFrom (inRun : bool) (s : string) : string :=
  match s with
  | EmptyString => EmptyString
  | String c r =>
      if isSpace c then
        if inRun then collapseFrom true r else String " " (collapseFrom true r)
      else String c (collapseFrom false r)
  end.

Definition collapse (s : string) : string := collapseFrom false s.

(** [s.split(sep)] for a separator of one character. *)
Fixpoint split (sep : ascii) (s : string) : list string :=
  match s with
  | EmptyString => [EmptyString]
  | String c r =>
      if Ascii.eqb c sep then EmptyString :: split sep r
      else
        match split sep r with
        | w :: ws => String c w :: ws
        | [] => [String c EmptyString]
        end
  end.

(** [word.charAt(0).toUpperCase() + word.slice(1).toLowerCase()]. *)
Definition capitalize (word : string) : string :=
  match word with
  | EmptyString => EmptyString
  | String c r => String (upperChar c) (toLowerCase r)
  end.

Definition isStopword (word : string) : bool :=
  existsb (String.eqb (toLowerCase word)) NAME_STOPWORDS.

(** [cleanName(name)]. *)
Definition cleanName (name : string) : string :=
  String.concat " "
    (map capitalize
       (List.filter (fun word => negb (isStopword word))
          (split " " (collapse (trim name))))).

(** [/^[A-Za-z]+$/.test(word)]. *)
Definition isAlphabetic (word : string) : bool :=
  negb (isEmpty word) && forallb isLetter (list_ascii_of_string word).

(** [isValidName(name)]. *)
Definition isValidName (name : string) : bool :=
  let words := split " " name in
  (1 <=? length words)%nat && (length words <=? 3)%nat
  && forallb (fun word => (2 <=? String.length word)%nat && isAlphabetic word) words.

(** [/^met\s+([A-Za-z\s]+?)\s+at\s+([^,]+?)(?:,\s*(.+))?$/i]. *)
Definition pattern : Regex :=
  seqs [LineStart; lits true "met"; plus (Char isSpace);
        Group 1 (lazyPlus (Char (fun c => isLetter c || isSpace c)));
        plus (Char isSpace); lits true "at"; plus (Char isSpace);
        Group 2 (lazyPlus (Char (fun c => negb (Ascii.eqb c ","))));
        opt (seqs [lit true ","; star (Char isSpace); Group 3 (plus (Char isDot))]);
        LineEnd].

Definition invalid : ParsedMeetingMessage :=
  {| parsedName := ""; parsedEvent := ""; parsedContext := None; isValidMeeting := false |}.

(** [MessageParser.parseMessage(text)]. *)
Definition parseMessage (text : string) : ParsedMeetingMessage :=
  let cleanedText := trim text in
  match exec 4 pattern cleanedText with
  | None => invalid
  | Some (_, y) =>
      match groupText cleanedText y 1, groupText cleanedText y 2 with
      | Some rawName, Some rawEvent =>
          if isEmpty rawName || isEmpty rawEvent then invalid
          else
            let name := cleanName rawName in
            if negb (isValidName name) then invalid
            else
              {| parsedName := name;
                 parsedEvent := trim rawEvent;
                 parsedContext :=
                   match groupText cleanedText y 3 with
                   | Some rawContext =>
                       if isEmpty rawContext then None else Some (trim rawContext)
                   | None => None
                   end;
                 isValidMeeting := true |}
      | _, _ => invalid
      end
  end.

Definition isDigitChar : Regex := Char isDigit.
Definition separator : Regex := Char (fun c => oneOf "-." c || isSpace c).

(** [/(\+?1[-.\s]?)?(\([0-9]{3}\)|[0-9]{3})[-.\s]?[0-9]{3}[-.\s]?[0-9]{4}/]. *)
Definition phonePattern : Regex :=
  seqs [opt (Group 1 (seqs [opt (lit false "+"); lit false "1"; opt separator]));
        Group 2 (Alt (seqs [lit false "("; times 3 isDigitChar; lit false ")"])
                     (times 3 isDigitChar));
        opt separator; times 3 isDigitChar; opt separator; times 4 isDigitChar].

(** [/\b[A-Za-z0-9._%+-]+@[A-Za-z0-9.-]+\.[A-Z|a-z]{2,}\b/]. *)
Definition emailPattern : Regex :=
  seqs [WordBoundary;
        plus (Char (fun c => isLetter c || isDigit c || oneOf "._%+-" c));
        lit false "@";
        plus (Char (fun c => isLetter c || isDigit c || oneOf ".-" c));
        lit false ".";
        atLeast 2 (Char (fun c => isLetter c || oneOf "|" c));
        WordBoundary].

(** [match[0]] of [s.match(r)]. *)
Definition wholeMatch (n : nat) (r : Regex) (s : string) : option string :=
  match exec n r s with
  | Some (i, y) => Some (substring (list_ascii_of_string s) i (endIndex y))
  | None => None
  end.

(** [MessageParser.extractContactInfo(context)]. *)
Definition extractContactInfo (context : string) : ContactInfo :=
  {| infoPhone := wholeMatch 3 phonePattern context;
     infoEmail := wholeMatch 1 emailPattern context |}.

(** A capital letter followed by small letters. *)
Definition isUpper (c : ascii) : bool := ((65 <=? code c) && (code c <=? 90))%nat.
Definition isLower (c : ascii) : bool := ((97 <=? code c) && (code c <=? 122))%nat.

Definition isCapitalized (word : string) : bool :=
  match word with
  | EmptyString => false
  | String c r => isUpper c && forallb isLower (list_ascii_of_string r)
  end.

(** A word a name is made of: two letters or more, and no stop word. *)
Definition nameWord (word : string) : Prop :=
  (2 <= String.length word)%nat /\ isAlphabetic word = true /\ isStopword word = false.

(** The characters of a string. *)
Definition chars (s : string) : list ascii := list_ascii_of_string s.

(** The controller with the parser of the repository. *)
Definition collaborators (toLocaleString : Z -> string) (summaryMessage : Database -> string)
  : Collaborators :=
  {| App.parseMessage := parseMessage;
     App.extractContactInfo := extractContactInfo;
     App.toLocaleString := toLocaleString;
     App.summaryMessage := summaryMessage |}.

End MessageParser.

(** Further environments for the scenarios. *)
Module Environments.
Import App Scenario.

(** The transport works and every other service fails. *)
Definition stormy (w : World) (q : Request) : Response :=
  match q with
  | Send _ _ => Done
  | _ => Failed
  end.


End Environments.

(** ** The text generator: [AIService]

    What [fetch] does with a request is its outcome: it throws, the
    response is not [ok], [json()] throws, or the body is read and
    [data.choices?.[0]?.message?.content] is a string or missing. *)
Module AIService.
Import Text RegExp App.

Inductive FetchOutcome :=
| FetchThrows
| NotOk (status : Z) (responseText : string)
| JsonThrows
| Json (content : option string).

(** [s.replace(r, '')] for a pattern with the [g] flag: the matches are
    removed from left to right; after an empty match the search moves on
    by one character. *)
Fixpoint removeAllFrom (n : nat) (r : Regex) (input : list ascii) (fuel i : nat)
  : list ascii :=
  match fuel with
  | O => drop i input
  | S fuel' =>
      match searchFrom n r input (length input - i) i with
      | None => drop i input
      | Some (j, y) =>
          let kept := take (j - i) (drop i input) in
          if (endIndex y =? j)%nat then
            (kept ++ take 1 (drop j input)
               ++ (if (j <? length input)%nat
                   then removeAllFrom n r input fuel' (S j) else []))%list
          else (kept ++ removeAllFrom n r input fuel' (endIndex y))%list
      end
  end.

Definition removeAll (n : nat) (r : Regex) (s : string) : string :=
  let input := list_ascii_of_string s in
  string_of_list_ascii (removeAllFrom n r input (S (length input)) 0).

(** [s.replace(r, '')] for a pattern without the [g] flag. *)
Definition removeFirst (n : nat) (r : Regex) (s : string) : string :=
  let input := list_ascii_of_string s in
  match searchFrom n r input (length input) 0 with
  | None => s
  | Some (j, y) => string_of_list_ascii (take j input ++ drop (endIndex y) input)
  end.

Definition isQuote (c : ascii) : bool := ((code c =? 34) || (code c =? 39))%nat.

(** [/^["']|["']$/g]. *)
Definition quotesPattern : Regex :=
  Alt (Seq LineStart (Char isQuote)) (Seq (Char isQuote) LineEnd).

(** [/^\s*Message:\s*/i]. *)
Definition prefixPattern : Regex :=
  seqs [LineStart; star (Char isSpace); lits true "Message:"; star (Char isSpace)].

(** [cleanMessageResponse(response)]. *)
Definition cleanMessageResponse (response : string) : string :=
  trim (removeFirst 1 prefixPattern (removeAll 1 quotesPattern response)).

(** The test of [callChat] on the key. *)
Definition noValidKey (apiKey : string) : bool :=
  String.eqb apiKey "fallback-only"
  || negb (String.prefix "sk-" apiKey) && negb (String.prefix "AIza" apiKey).

(** [callChat(prompt)]: the text of the answer, or what it throws. *)
Definition callChat (apiKey : string) (fetch : string -> FetchOutcome) (prompt : string)
  : string + string :=
  if noValidKey apiKey then inr "No valid API key - using fallback"
  else
    match fetch prompt with
    | FetchThrows => inr "fetch failed"
    | NotOk status responseText => inr ("openai API error: " +:+ responseText)
    | JsonThrows => inr "invalid json"
    | Json content => inl (default "" (truthy content))
    end.

Definition topicPrompt (contactContext : string) : string :=
  "Based on: " +:+ quote +:+ contactContext +:+ quote +:+ newline +:+ newline +:+
  "Write one sentence starting with " +:+ quote +:+
  "I'd love to talk more with you about" +:+ quote +:+ " for a coffee chat." +:+
  newline +:+ newline +:+
  "Example: " +:+ quote +:+
  "I'd love to talk more with you about your AI startup experience." +:+ quote.

(** [generateTopicSentence(contactName, contactContext, event)]. *)
Definition generateTopicSentence (apiKey : string) (fetch : string -> FetchOutcome)
    (contactName contactContext event : string) : option string :=
  if isEmpty contactContext || (String.length (trim contactContext) <? 10)%nat then None
  else
    match callChat apiKey fetch (topicPrompt contactContext) with
    | inl response => Some (cleanMessageResponse response)
    | inr _ => None
    end.

End AIService.

(** What a pending interaction consists of. *)
Module SessionShape.
Import App.

(** A draft contact is stored for [who]. *)
Definition contactAt (who : string) (w : World) : Prop :=
  is_Some (pendingContacts w !! who).

(** A draft message that is not empty is stored for [who]. *)
Definition draftAt (who : string) (w : World) : Prop :=
  exists d, pendingDraftMessages w !! who = Some d /\ d ≠ "".

(** Every sender awaiting a reply has both. *)
Definition complete (w : World) : Prop :=
  forall who, has who w = true -> contactAt who w /\ draftAt who w.

Definition keepsComplete : relation World := fun w w' => complete w -> complete w'.

End SessionShape.

(** * Properties *)

(** ** Dates *)
Module ClockFacts.
Import Clock Scheduler.

(** *** The day count is the Gregorian calendar *)

Lemma sameDate_eq (a b : Z * Z * Z) : sameDate a b = true -> a = b.
Proof.
  destruct a as [[y m] d], b as [[y' m'] d']. cbn. intros H.
  apply andb_true_iff in H as [H H3]. apply andb_true_iff in H as [H1 H2].
  apply Z.eqb_eq in H1, H2, H3. congruence.
Qed.

Lemma calendarFrom_days (n : nat) (j : Z) :
  calendarFrom n j (civil j) = true ->
  forall i, j <= i < j + Z.of_nat n ->
    validDay (civil i) = true /\ civil (i + 1) = nextDay (civil i).
Proof.
  revert j. induction n as [|n IH]; intros j H i Hi; [lia|].
  cbn [calendarFrom] in H. cbv zeta in H.
  apply andb_true_iff in H as [H Hrest]. apply andb_true_iff in H as [Hv Hs].
  apply sameDate_eq in Hs.
  destruct (decide (i = j)) as [->|Hne]; [done|].
  apply (IH (j + 1) Hrest). lia.
Qed.

(** One period of the calendar, 400 years from 1 March of the year 0. *)
Lemma calendar_of_era :
  calendarFrom (Z.to_nat 146097) (-719468) (civil (-719468)) = true.
Proof. vm_compute. reflexivity. Qed.

Lemma civil_era (n k : Z) :
  civil (n + 146097 * k) = let '(y, m, d) := civil n in (y + 400 * k, m, d).
Proof.
  unfold civil.
  replace (n + 146097 * k + 719468) with (n + 719468 + k * 146097) by lia.
  rewrite Z.div_add by lia.
  replace (n + 719468 + k * 146097 - ((n + 719468) / 146097 + k) * 146097)
    with (n + 719468 - (n + 719468) / 146097 * 146097) by lia.
  f_equal. f_equal. lia.
Qed.

Lemma leapYear_era (y k : Z) : leapYear (y + 400 * k) = leapYear y.
Proof.
  unfold leapYear.
  replace ((y + 400 * k) mod 4) with (y mod 4)
    by (replace (y + 400 * k) with (y + (100 * k) * 4) by lia; by rewrite Z.mod_add).
  replace ((y + 400 * k) mod 100) with (y mod 100)
    by (replace (y + 400 * k) with (y + (4 * k) * 100) by lia; by rewrite Z.mod_add).
  replace ((y + 400 * k) mod 400) with (y mod 400)
    by (replace (y + 400 * k) with (y + k * 400) by lia; by rewrite Z.mod_add).
  done.
Qed.

Lemma nextDay_era (y m d k : Z) :
  nextDay (y + 400 * k, m, d) =
    let '(y', m', d') := nextDay (y, m, d) in (y' + 400 * k, m', d').
Proof.
  unfold nextDay, daysInMonth. rewrite leapYear_era.
  destruct (d <? _); [done|]. destruct (m <? 12); [done|]. f_equal. f_equal. lia.
Qed.

(** The day numbers are the days of the Gregorian calendar: day 0 is
    1 January 1970, every day number has a month of the year and a day
    that month has, in a leap year or not, and the next day number has
    the date of the day after. *)
Lemma civil_calendar (n : Z) :
  civil 0 = (1970, 1, 1)
  /\ validDay (civil n) = true
  /\ civil (n + 1) = nextDay (civil n).
Proof.
  split; [reflexivity|].
  set (k := (n + 719468) / 146097). set (n0 := n - 146097 * k).
  assert (Hn0 : -719468 <= n0 < -719468 + Z.of_nat (Z.to_nat 146097)).
  { subst n0 k. rewrite Z2Nat.id by lia. Z.div_mod_to_equations. lia. }
  destruct (calendarFrom_days _ _ calendar_of_era n0 Hn0) as [Hv Hs].
  replace n with (n0 + 146097 * k) by (subst n0; lia).
  replace (n0 + 146097 * k + 1) with (n0 + 1 + 146097 * k) by lia.
  rewrite !civil_era, Hs.
  destruct (civil n0) as [[y m] d]. split.
  - unfold validDay, daysInMonth in *. by rewrite leapYear_era.
  - rewrite nextDay_era. done.
Qed.

Lemma civil_range (days : Z) :
  let '(y, m, d) := civil days in 1 <= m <= 12 /\ 1 <= d <= daysInMonth y m.
Proof.
  destruct (civil_calendar days) as (_ & H & _).
  destruct (civil days) as [[y m] d]. unfold validDay in H.
  apply andb_true_iff in H as [H H4]. apply andb_true_iff in H as [H H3].
  apply andb_true_iff in H as [H1 H2].
  apply Z.leb_le in H1, H2, H3, H4. lia.
Qed.

Lemma daysInMonth_range (y m : Z) : 28 <= daysInMonth y m <= 31.
Proof.
  unfold daysInMonth. destruct (m =? 2); [destruct (leapYear y); lia|].
  destruct (_ || _); lia.
Qed.

Lemma timeClip_At (t u : Z) : timeClip t = At u -> u = t /\ Z.abs t <= maxTime.
Proof.
  unfold timeClip. destruct (Z.leb_spec (Z.abs t) maxTime); [|done].
  intros [= <-]. done.
Qed.

Lemma timeClip_valid (t : Z) : Z.abs t <= maxTime -> timeClip t = At t.
Proof. intros H. unfold timeClip. by destruct (Z.leb_spec (Z.abs t) maxTime); [|lia]. Qed.

Lemma timeClip_invalid (t : Z) : maxTime < Z.abs t -> timeClip t = InvalidDate.
Proof. intros H. unfold timeClip. by destruct (Z.leb_spec (Z.abs t) maxTime); [lia|]. Qed.

(** The pattern of a date is one node-cron takes; that of the Invalid
    Date is not. *)
Lemma validPattern_At (t : Z) : validPattern (dateToCronPattern (At t)) = true.
Proof.
  unfold validPattern, dateToCronPattern, fieldWithin.
  cbn [reading cronMinute cronHour cronDay cronMonth].
  unfold getDate, getMonth1, getMinutes, getHours.
  pose proof (civil_range (t / msPerDay)) as H.
  destruct (civil (t / msPerDay)) as [[y m] d]. destruct H as (Hm & Hd).
  pose proof (daysInMonth_range y m).
  repeat (apply andb_true_intro; split); apply Z.leb_le;
    try lia; unfold msPerMinute, msPerHour; Z.div_mod_to_equations; lia.
Qed.

Lemma validPattern_date (date : Date) :
  validPattern (dateToCronPattern date) = true <-> exists t, date = At t.
Proof.
  destruct date as [t|]; split.
  - eauto.
  - intros _. apply validPattern_At.
  - discriminate.
  - by intros [t H].
Qed.

End ClockFacts.

(** ** The scheduler *)
Module SchedulerFacts.
Import Clock Classifier Scheduler ClockFacts.

Lemma cancelReminder_executed (i : ReminderId) (s : SchedulerService) :
  executed (snd (cancelReminder i s)) = executed s.
Proof.
  unfold cancelReminder.
  destruct (reminders s !! i) as [ref|]; [|done].
  destruct (objects s !! ref) as [r|]; [|done].
  destruct (decide (status r = pending)); done.
Qed.

(** C6, as the code has it. [cancelReminder] answers [true] exactly when
    the live set holds a reminder under the id whose [status] field is
    pending. It then cancels it: the id leaves the live set, the object
    is marked cancelled and loses its task, the task is stopped, so that
    its callback cannot start, and nothing else changes: the other ids,
    objects and tasks, the callbacks at their await and the log of
    executions are as they were. In every other case it answers [false]
    and the scheduler is unchanged: the id is unknown; the reminder is
    already cancelled (a second cancel); the reminder has fired and its
    callback has come back from its await. As a total function it has an
    answer on every input: it never raises. *)
Theorem cancelReminder_spec (i : ReminderId) (s : SchedulerService) :
  let answer := fst (cancelReminder i s) in
  let s' := snd (cancelReminder i s) in
  (answer = true <->
     exists ref r, reminders s !! i = Some ref /\ objects s !! ref = Some r
                   /\ status r = pending)
  /\ (answer = true ->
        exists ref r r',
          reminders s !! i = Some ref /\ objects s !! ref = Some r
          /\ reminders s' !! i = None
          /\ (forall j, j ≠ i -> reminders s' !! j = reminders s !! j)
          /\ objects s' !! ref = Some r'
          /\ status r' = cancelled /\ task r' = None
          /\ rid r' = rid r /\ contactId r' = contactId r /\ message r' = message r
          /\ scheduledFor r' = scheduledFor r
          /\ length (objects s') = length (objects s)
          /\ (forall ref', ref' ≠ ref -> objects s' !! ref' = objects s !! ref')
          /\ length (tasks s') = length (tasks s)
          /\ (forall t tk, task r = Some t -> tasks s !! t = Some tk ->
                exists tk', tasks s' !! t = Some tk' /\ running tk' = false
                            /\ pattern tk' = pattern tk
                            /\ forReminder tk' = forReminder tk
                            /\ forContact tk' = forContact tk
                            /\ forMessage tk' = forMessage tk
                            /\ fireBegin t s' = None)
          /\ (forall t, task r ≠ Some t -> tasks s' !! t = tasks s !! t)
          /\ inflight s' = inflight s
          /\ executed s' = executed s)
  /\ (answer = false -> s' = s)
  /\ (reminders s !! i = None -> answer = false)
  /\ cancelReminder i s' = (false, s')
  /\ (forall t tk s2, tasks s !! t = Some tk -> forReminder tk = i ->
        fireEnd t s = Some s2 ->
        cancelReminder i s2 = (false, s2)).
Proof.
  intros answer s'. subst answer s'.
  split_and!.
  - unfold cancelReminder.
    destruct (reminders s !! i) as [ref|] eqn:Hi; cbn.
    + destruct (objects s !! ref) as [r|] eqn:Hr; cbn.
      * destruct (decide (status r = pending)) as [Hp|Hp]; cbn.
        -- split; [intros _; eauto 6|reflexivity].
        -- split; [discriminate|]. intros (ref' & r' & E1 & E2 & E3). congruence.
      * split; [discriminate|]. intros (ref' & r' & E1 & E2 & E3). congruence.
    + split; [discriminate|]. intros (ref' & r' & E1 & _). discriminate.
  - unfold cancelReminder.
    destruct (reminders s !! i) as [ref|] eqn:Hi; cbn; [|discriminate].
    destruct (objects s !! ref) as [r|] eqn:Hr; cbn; [|discriminate].
    destruct (decide (status r = pending)) as [Hp|Hp]; cbn; [|discriminate].
    intros _. exists ref, r, (settle cancelled r).
    assert (Hlt : (ref < length (objects s))%nat) by (by eapply lookup_lt_Some).
    split_and!; try done.
    + apply lookup_delete_eq.
    + intros j Hj. by apply lookup_delete_ne.
    + by apply list_lookup_insert_eq.
    + apply length_insert.
    + intros ref' Hne. by apply list_lookup_insert_ne.
    + destruct (task r); cbn [stopTask]; [apply length_alter|done].
    + intros t tk Ht Htk. rewrite Ht. cbn [stopTask].
      exists (stop tk). split_and!; try done.
      * by rewrite list_lookup_alter_eq, Htk.
      * unfold fireBegin. cbn [tasks].
        by rewrite list_lookup_alter_eq, Htk.
    + intros t Ht. destruct (task r) as [u|]; [|done]. cbn [stopTask].
      apply list_lookup_alter_ne. congruence.
  - unfold cancelReminder.
    destruct (reminders s !! i) as [ref|]; [|done].
    destruct (objects s !! ref) as [r|]; [|done].
    destruct (decide (status r = pending)); [discriminate|done].
  - intros Hi. unfold cancelReminder. by rewrite Hi.
  - unfold cancelReminder at 2 3.
    destruct (reminders s !! i) as [ref|] eqn:Hi.
    + destruct (objects s !! ref) as [r|] eqn:Hr.
      * destruct (decide (status r = pending)) as [Hp|Hp]; cbn [snd].
        -- unfold cancelReminder. cbn [reminders]. by rewrite lookup_delete_eq.
        -- unfold cancelReminder. rewrite Hi, Hr. by destruct (decide _).
      * cbn [snd]. unfold cancelReminder. by rewrite Hi, Hr.
    + cbn [snd]. unfold cancelReminder. by rewrite Hi.
  - intros t tk s2 Htk <- Hend. unfold fireEnd in Hend. rewrite Htk in Hend.
    destruct (bool_decide (t ∈ inflight s)); [|done].
    destruct (reminders s !! forReminder tk) as [ref|] eqn:Hi.
    + destruct (objects s !! ref) as [r|] eqn:Hr; injection Hend as <-.
      * unfold cancelReminder. cbn [reminders objects]. rewrite Hi.
        rewrite list_lookup_insert_eq by (by eapply lookup_lt_Some). done.
      * unfold cancelReminder. cbn [reminders objects]. by rewrite Hi, Hr.
    + injection Hend as <-. unfold cancelReminder. cbn [reminders]. by rewrite Hi.
Qed.

(** C6, the claim refuted. A reminder is registered and its callback
    starts: the action has run once and the callback is at its await.
    The reminder has fired, yet its status is still pending, and
    [cancelReminder] answers [true] and changes the scheduler: the id
    leaves the live set and the object is marked cancelled. The callback
    then comes back and finds no reminder to mark sent. *)
Lemma fired_reminder_is_still_cancelled :
  let now := 1762153200000 in
  let i := generateReminderId 7 now in
  let s1 := snd (scheduleReminder 7 "ping" (At (now + 60000)) false now create) in
  let s2 := default s1 (fireBegin 0 s1) in
  let s3 := snd (cancelReminder i s2) in
  let s4 := default s3 (fireEnd 0 s3) in
  executions i s2 = 1%nat
  /\ (status <$> getPendingReminders s2) = [pending]
  /\ fst (cancelReminder i s2) = true
  /\ reminders s2 !! i = Some 0%nat
  /\ reminders s3 !! i = None
  /\ (status <$> objects s3) = [cancelled]
  /\ (status <$> objects s4) = [cancelled]
  /\ executions i s4 = 1%nat.
Proof. vm_compute. split_and!; reflexivity. Qed.

(** C2, as the code has it. [scheduleReminder] runs the action at
    registration exactly when it is called with the [immediate] option,
    and then records nothing: the live set and the heap are what the
    initial [cancelReminder] of the same id left. Without the option the
    fire-at time is not compared with the clock. For a date, the action
    is not run at registration and the live set holds under the new id a
    pending reminder that carries the fire-at time it was given,
    unchanged, with a started task for the minute, hour, day and month of
    that date. For the Invalid Date, [cron.schedule] throws: no id is
    returned, nothing is run and nothing recorded. *)
Theorem scheduleReminder_spec (cid : Z) (msg : string) (date : Date) (immediate : bool)
    (now : Z) (s : SchedulerService) :
  let i := generateReminderId cid now in
  let s1 := snd (cancelReminder i s) in
  let result := fst (scheduleReminder cid msg date immediate now s) in
  let s' := snd (scheduleReminder cid msg date immediate now s) in
  if immediate then
    result = inl i
    /\ executed s' = (executed s ++
         [{| onBehalfOf := i; toContact := cid; withMessage := msg |}])%list
    /\ reminders s' = reminders s1 /\ objects s' = objects s1 /\ tasks s' = tasks s1
  else
    match date with
    | At fireAt =>
        result = inl i
        /\ executed s' = executed s
        /\ exists ref r, reminders s' !! i = Some ref /\ objects s' !! ref = Some r
             /\ status r = pending /\ scheduledFor r = At fireAt
             /\ task r = Some (length (tasks s1))
             /\ tasks s' !! length (tasks s1) =
                  Some {| pattern :=
                            {| cronMinute := Some (getMinutes fireAt);
                               cronHour := Some (getHours fireAt);
                               cronDay := Some (getDate fireAt);
                               cronMonth := Some (getMonth1 fireAt) |};
                          running := true;
                          forReminder := i; forContact := cid; forMessage := msg |}
    | InvalidDate =>
        result = inr invalidExpression /\ s' = s1 /\ executed s' = executed s
    end.
Proof.
  intros i s1 result s'. subst result s'. unfold scheduleReminder. fold i. fold s1.
  destruct immediate; cbn [fst snd].
  - split_and!; try done. cbn. subst s1. by rewrite cancelReminder_executed.
  - destruct date as [fireAt|].
    + rewrite validPattern_At. cbn [fst snd]. split; [done|]. split.
      * subst s1. apply cancelReminder_executed.
      * eexists _, _. split_and!.
        -- apply lookup_insert_eq.
        -- cbn [objects]. rewrite lookup_app_r by lia. rewrite Nat.sub_diag. reflexivity.
        -- done.
        -- done.
        -- done.
        -- cbn [tasks]. rewrite lookup_app_r by lia. rewrite Nat.sub_diag. reflexivity.
    + cbn [fst snd]. split_and!; try done. subst s1. apply cancelReminder_executed.
Qed.

(** C2, the claim refuted. A registration whose fire-at time lies an hour
    before the clock, made without the [immediate] option, runs nothing
    and records a pending reminder with that past fire-at time; so does the
    reply "in 0 minutes" taken through [parseSchedulingResponse] and
    [scheduleBasedOnPreference], whose fire-at time is the clock itself. *)
Lemma scheduleReminder_past_stays_pending :
  let now := 1762153200000 in
  let past := now - 3600000 in
  let s := snd (scheduleReminder 7 "ping" (At past) false now create) in
  let s0 := snd (scheduleBasedOnPreference 7 "ping"
                   (parseSchedulingResponse now "in 0 minutes") now create) in
  past <= now
  /\ executed s = []
  /\ getPendingReminders s =
       [{| rid := (7, now); contactId := 7; message := "ping"; scheduledFor := At past;
           status := pending; task := Some 0%nat |}]
  /\ executed s0 = []
  /\ getPendingReminders s0 =
       [{| rid := (7, now); contactId := 7; message := "ping"; scheduledFor := At now;
           status := pending; task := Some 0%nat |}].
Proof. vm_compute. split_and!; try reflexivity. discriminate. Qed.




End SchedulerFacts.

(** ** The scheduler's invariant along a trace *)
Module SchedulerInvariant.
Import Clock Classifier Scheduler Reachable SchedulerFacts.

Lemma executions_log (i : ReminderId) (s : SchedulerService) (e : Execution)
    (s' : SchedulerService) :
  executed s' = (executed s ++ [e])%list ->
  executions i s' =
    (executions i s + (if decide (onBehalfOf e = i) then 1 else 0))%nat.
Proof.
  intros E. unfold executions. rewrite E, filter_app, length_app.
  f_equal. rewrite filter_cons, filter_nil. by destruct (decide _).
Qed.

Lemma executions_same (i : ReminderId) (s s' : SchedulerService) :
  executed s' = executed s -> executions i s' = executions i s.
Proof. intros E. unfold executions. by rewrite E. Qed.

Lemma executions_none (i : ReminderId) (s : SchedulerService) :
  (forall e, e ∈ executed s -> onBehalfOf e ≠ i) -> executions i s = 0%nat.
Proof.
  intros H. unfold executions.
  induction (executed s) as [|e l IH]; [done|].
  rewrite filter_cons. destruct (decide (onBehalfOf e = i)) as [E|E].
  - exfalso. eapply H; [left|done].
  - apply IH. intros e' He'. apply H. by right.
Qed.

(** A task after [stopTask]: the same closure; if it still runs, it ran
    before and is not the one stopped. *)
Lemma stopTask_lookup (o : option nat) (ts : list CronTask) (t : nat) (tk' : CronTask) :
  stopTask o ts !! t = Some tk' ->
  exists tk, ts !! t = Some tk /\ forReminder tk' = forReminder tk
             /\ forContact tk' = forContact tk /\ forMessage tk' = forMessage tk
             /\ (running tk' = true -> running tk = true /\ o ≠ Some t).
Proof.
  destruct o as [u|]; cbn.
  - destruct (decide (u = t)) as [->|Hne].
    + rewrite list_lookup_alter_eq. destruct (ts !! t) as [tk|]; [|done].
      cbn. intros [= <-]. exists tk. split_and!; try done.
    + rewrite list_lookup_alter_ne by done. intros H. exists tk'.
      split_and!; try done. intros Hrun. split; [exact Hrun|congruence].
  - intros H. exists tk'. split_and!; done.
Qed.

Lemma Inv_create : Inv [] create.
Proof.
  split; cbn; try done.
  - intros e He. by apply elem_of_nil in He.
  - intros i. unfold executions. cbn. lia.
Qed.

(** Two ids of the live set never share a reminder object. *)
Lemma Inv_ref_inj (R : list ReminderId) (s : SchedulerService) (i j : ReminderId)
    (ref : nat) :
  Inv R s -> reminders s !! i = Some ref -> reminders s !! j = Some ref -> i = j.
Proof.
  intros HI Hi Hj.
  destruct (inv_live _ _ HI _ _ Hi) as (r & Hr & <- & _).
  destruct (inv_live _ _ HI _ _ Hj) as (r' & Hr' & <- & _).
  congruence.
Qed.

(** Marking the reminder under [i] and stopping its task, as both
    [cancelReminder] and the end of a callback do, up to what happens to
    the live set and to [inflight]. *)
Lemma Inv_settle (R : list ReminderId) (s s' : SchedulerService) (i : ReminderId)
    (ref : nat) (r : ScheduledReminder) (st : Status) :
  Inv R s ->
  reminders s !! i = Some ref -> objects s !! ref = Some r ->
  st ≠ pending ->
  (st = cancelled -> reminders s' = delete i (reminders s)) ->
  (st ≠ cancelled -> reminders s' = reminders s) ->
  objects s' = <[ref := settle st r]> (objects s) ->
  tasks s' = stopTask (task r) (tasks s) ->
  executed s' = executed s ->
  (forall t tk, tasks s !! t = Some tk -> running tk = true -> task r ≠ Some t ->
     t ∉ inflight s' -> t ∉ inflight s) ->
  Inv R s'.
Proof.
  intros HI Hi Hr Hst Hdel Hkeep Hobj Htasks Hexec Hfl.
  assert (Hlook : forall j ref', reminders s' !! j = Some ref' ->
            reminders s !! j = Some ref' /\ (st = cancelled -> j ≠ i)).
  { intros j ref' H. destruct (decide (st = cancelled)) as [E|E].
    - rewrite (Hdel E) in H. apply lookup_delete_Some in H as [? ?]. done.
    - rewrite (Hkeep E) in H. done. }
  split.
  - intros j ref' Hj. apply Hlook in Hj as [Hj Hne].
    destruct (inv_live _ _ HI _ _ Hj) as (r' & Hr' & Hid & Hc).
    rewrite Hobj. destruct (decide (ref = ref')) as [<-|Hneq].
    + rewrite list_lookup_insert_eq by (eapply lookup_lt_Some; eassumption).
      assert (r' = r) as -> by congruence.
      exists (settle st r). split_and!; try done. cbn.
      intros ->. assert (j = i) by (eapply Inv_ref_inj; eassumption). by apply Hne.
    + rewrite list_lookup_insert_ne by done. eauto.
  - intros t tk' H. rewrite Htasks in H.
    apply stopTask_lookup in H as (tk & H & -> & _). by eapply inv_task_reg.
  - intros t1 t2 k1 k2 H1 H2 E. rewrite Htasks in H1, H2.
    apply stopTask_lookup in H1 as (k1' & H1 & E1 & _).
    apply stopTask_lookup in H2 as (k2' & H2 & E2 & _).
    eapply (inv_task_inj _ _ HI); [exact H1|exact H2|congruence].
  - intros t tk' H Hrun. rewrite Htasks in H.
    apply stopTask_lookup in H as (tk & H & E & _ & _ & Hr').
    destruct (Hr' Hrun) as [Hrun0 Hnot]. rewrite E.
    destruct (inv_running _ _ HI _ _ H Hrun0) as (ref' & r' & Hj & Hrj & Ht & Hp).
    assert (Hji : forReminder tk ≠ i).
    { intros Eq. rewrite Eq in Hj. congruence. }
    assert (Hrr : ref' ≠ ref).
    { intros ->. apply Hji. eapply Inv_ref_inj; eassumption. }
    exists ref', r'. split_and!; try done.
    + destruct (decide (st = cancelled)) as [Ec|Ec].
      * rewrite (Hdel Ec). by rewrite lookup_delete_ne.
      * by rewrite (Hkeep Ec).
    + rewrite Hobj. by rewrite list_lookup_insert_ne.
  - intros e He. rewrite Hexec in He. by eapply inv_exec_reg.
  - intros j. rewrite (executions_same _ _ _ Hexec). by eapply inv_once.
  - intros t tk' H Hrun Hin. rewrite Htasks in H.
    apply stopTask_lookup in H as (tk & H & E & _ & _ & Hr').
    destruct (Hr' Hrun) as [Hrun0 Hnot].
    rewrite (executions_same _ _ _ Hexec), E.
    eapply (inv_fresh _ _ HI); eauto.
Qed.

Lemma Inv_cancel (R : list ReminderId) (s : SchedulerService) (i : ReminderId) :
  Inv R s -> Inv R (snd (cancelReminder i s)).
Proof.
  intros HI. unfold cancelReminder.
  destruct (reminders s !! i) as [ref|] eqn:Hi; [|done].
  destruct (objects s !! ref) as [r|] eqn:Hr; [|done].
  destruct (decide (status r = pending)) as [Hp|Hp]; [|done].
  cbn. eapply (Inv_settle R s _ i ref r cancelled); eauto; try done.
Qed.

(** A change of [inflight] alone that lets no running task leave it. *)
Lemma Inv_inflight (R : list ReminderId) (s s' : SchedulerService) :
  Inv R s ->
  reminders s' = reminders s -> objects s' = objects s -> tasks s' = tasks s ->
  executed s' = executed s ->
  (forall t tk, tasks s !! t = Some tk -> running tk = true ->
     t ∉ inflight s' -> t ∉ inflight s) ->
  Inv R s'.
Proof.
  intros HI Hm Ho Ht He Hfl. destruct HI. split.
  - intros i ref. rewrite Hm, Ho. eauto.
  - intros t tk. rewrite Ht. eauto.
  - intros t1 t2 k1 k2. rewrite Ht. eauto.
  - intros t tk. rewrite Ht, Hm, Ho. eauto.
  - intros e. rewrite He. eauto.
  - intros i. rewrite (executions_same _ _ _ He). eauto.
  - intros t tk. rewrite Ht, (executions_same _ _ _ He). eauto.
Qed.

Lemma Inv_sweep (R : list ReminderId) (s : SchedulerService) :
  Inv R s -> Inv R (cleanupCompletedReminders s).
Proof.
  intros HI. split; cbn; try (by destruct HI).
  - intros i ref H. apply map_lookup_filter_Some in H as [H _].
    by eapply inv_live.
  - intros t tk H Hrun.
    destruct (inv_running _ _ HI _ _ H Hrun) as (ref & r & Hi & Hr & Ht & Hp).
    exists ref, r. split_and!; try done.
    apply map_lookup_filter_Some. split; [done|]. cbn.
    unfold statusAt. rewrite Hr. cbn. by rewrite Hp.
Qed.

Lemma Inv_fireBegin (R : list ReminderId) (s s' : SchedulerService) (t : nat) :
  Inv R s -> fireBegin t s = Some s' -> Inv R s'.
Proof.
  intros HI. unfold fireBegin.
  destruct (tasks s !! t) as [tk|] eqn:Ht; [|done].
  destruct (running tk) eqn:Hrun; [|done]. cbn.
  case_bool_decide as Hin; [|done]. intros [= <-].
  pose proof (inv_fresh _ _ HI _ _ Ht Hrun Hin) as H0.
  set (e := {| onBehalfOf := forReminder tk; toContact := forContact tk;
               withMessage := forMessage tk |}).
  split.
  - cbn. by destruct HI.
  - cbn. by destruct HI.
  - cbn. by destruct HI.
  - cbn. by destruct HI.
  - cbn. intros e' He. apply elem_of_app in He as [He|He].
    + by eapply inv_exec_reg.
    + apply list_elem_of_singleton in He as ->. cbn. by eapply inv_task_reg.
  - intros i. rewrite (executions_log i s e) by done.
    cbn. destruct (decide (forReminder tk = i)) as [<-|Hne].
    + rewrite H0. lia.
    + pose proof (inv_once _ _ HI i). lia.
  - cbn [tasks inflight executeReminder]. intros t' tk' Ht' Hrun' Hin'.
    apply not_elem_of_cons in Hin' as [Hne Hin'].
    rewrite (executions_log (forReminder tk') s e) by done.
    cbn. destruct (decide (forReminder tk = forReminder tk')) as [E|E].
    + exfalso. apply Hne. eapply (inv_task_inj _ _ HI); eauto.
    + rewrite (inv_fresh _ _ HI _ _ Ht' Hrun' Hin'). lia.
Qed.

Lemma Inv_fireEnd (R : list ReminderId) (s s' : SchedulerService) (t : nat) :
  Inv R s -> fireEnd t s = Some s' -> Inv R s'.
Proof.
  intros HI. unfold fireEnd.
  destruct (tasks s !! t) as [tk|] eqn:Ht; [|done].
  case_bool_decide as Hin; [|done].
  assert (Hleave : forall t' tk', tasks s !! t' = Some tk' -> running tk' = true ->
            (forall ref r, reminders s !! forReminder tk = Some ref ->
                           objects s !! ref = Some r -> task r ≠ Some t') ->
            t' ∉ filter (fun i => i ≠ t) (inflight s) -> t' ∉ inflight s).
  { intros t' tk' Ht' Hrun' Hnot Hout Hin'. apply Hout.
    apply list_elem_of_filter. split; [|done]. intros ->.
    assert (tk' = tk) as -> by congruence.
    destruct (inv_running _ _ HI _ _ Ht Hrun') as (ref & r & Hi & Hr & Htask & _).
    by eapply Hnot. }
  destruct (reminders s !! forReminder tk) as [ref|] eqn:Hi.
  - destruct (objects s !! ref) as [r|] eqn:Hr; intros [= <-].
    + eapply (Inv_settle R s _ (forReminder tk) ref r sent); eauto; try done.
      cbn. intros t' tk' Ht' Hrun' Hnot. eapply Hleave; eauto.
      intros ref' r' [= <-] Hr'. congruence.
    + eapply Inv_inflight; eauto. cbn. intros t' tk' Ht' Hrun'.
      eapply Hleave; eauto. intros ref' r' [= <-] Hr'. congruence.
  - intros [= <-]. eapply Inv_inflight; eauto.
Qed.

(** The tasks after [destroy]'s loop over the reminders [l]. *)
Lemma destroy_tasks (objs : list ScheduledReminder) (l : list (ReminderId * nat))
    (ts : list CronTask) (t : nat) (tk' : CronTask) :
  foldr (fun kv ts => match objs !! (kv.2 : nat) with
                      | Some r => stopTask (task r) ts
                      | None => ts
                      end) ts l !! t = Some tk' ->
  exists tk, ts !! t = Some tk /\ forReminder tk' = forReminder tk
    /\ (running tk' = true -> running tk = true
         /\ forall kv r, kv ∈ l -> objs !! kv.2 = Some r -> task r ≠ Some t).
Proof.
  revert tk'. induction l as [|kv l IH]; intros tk'; cbn.
  - intros H. exists tk'. split_and!; try done. intros Hrun. split; [done|].
    intros kv r Hkv. by apply elem_of_nil in Hkv.
  - destruct (objs !! kv.2) as [r|] eqn:Hr.
    + intros H. apply stopTask_lookup in H as (tk1 & H & E & _ & _ & Hrun1).
      apply IH in H as (tk & H & E' & Hrun0).
      exists tk. split_and!; [done|congruence|].
      intros Hrun. destruct (Hrun1 Hrun) as [Hr1 Hne].
      destruct (Hrun0 Hr1) as [Hr0 Hall]. split; [done|].
      intros kv' r' Hkv' Hr'. apply elem_of_cons in Hkv' as [->|Hkv'].
      * congruence.
      * by eapply Hall.
    + intros H. apply IH in H as (tk & H & E' & Hrun0).
      exists tk. split_and!; try done.
      intros Hrun. destruct (Hrun0 Hrun) as [Hr0 Hall]. split; [done|].
      intros kv' r' Hkv' Hr'. apply elem_of_cons in Hkv' as [->|Hkv'].
      * congruence.
      * by eapply Hall.
Qed.

Lemma Inv_destroy (R : list ReminderId) (s : SchedulerService) :
  Inv R s -> Inv R (destroy s).
Proof.
  intros HI.
  assert (Hstopped : forall t tk', tasks (destroy s) !! t = Some tk' ->
            running tk' = true -> False).
  { cbn. intros t tk' H Hrun.
    apply destroy_tasks in H as (tk & H & E & Hr). destruct (Hr Hrun) as [Hrun0 Hall].
    destruct (inv_running _ _ HI _ _ H Hrun0) as (ref & r & Hi & Hobj & Htask & _).
    eapply (Hall (forReminder tk, ref) r); [|done|done].
    by apply elem_of_map_to_list. }
  split.
  - cbn. intros i ref H. by rewrite lookup_empty in H.
  - cbn. intros t tk' H. apply destroy_tasks in H as (tk & H & -> & _).
    by eapply inv_task_reg.
  - cbn. intros t1 t2 k1 k2 H1 H2 E.
    apply destroy_tasks in H1 as (k1' & H1 & E1 & _).
    apply destroy_tasks in H2 as (k2' & H2 & E2 & _).
    eapply (inv_task_inj _ _ HI); [exact H1|exact H2|congruence].
  - intros t tk' H Hrun. exfalso. eauto.
  - cbn. by destruct HI.
  - cbn. by destruct HI.
  - intros t tk' H Hrun. exfalso. eauto.
Qed.

Lemma Inv_more (R R' : list ReminderId) (s : SchedulerService) :
  Inv R s -> Inv (R ++ R') s.
Proof.
  intros HI. split.
  - by destruct HI.
  - intros t tk Ht. apply elem_of_app. left. by eapply inv_task_reg.
  - by destruct HI.
  - by destruct HI.
  - intros e He. apply elem_of_app. left. by eapply inv_exec_reg.
  - by destruct HI.
  - by destruct HI.
Qed.

Lemma Inv_schedule (R : list ReminderId) (s : SchedulerService) (cid : Z)
    (msg : string) (date : Date) (immediate : bool) (now : Z) :
  Inv R s -> generateReminderId cid now ∉ R ->
  Inv (R ++ [generateReminderId cid now])
      (snd (scheduleReminder cid msg date immediate now s)).
Proof.
  intros HI0 Hx. unfold scheduleReminder.
  set (x := generateReminderId cid now) in *.
  pose proof (Inv_cancel R s x HI0) as HI.
  set (s1 := snd (cancelReminder x s)) in *. clearbody s1. clear HI0.
  assert (Hnone : executions x s1 = 0%nat).
  { apply executions_none. intros e He E. apply Hx. rewrite <- E.
    by eapply inv_exec_reg. }
  assert (Hold : forall t tk, tasks s1 !! t = Some tk -> forReminder tk ≠ x).
  { intros t tk Ht E. apply Hx. rewrite <- E. by eapply inv_task_reg. }
  destruct immediate; cbn [snd].
  - set (e := {| onBehalfOf := x; toContact := cid; withMessage := msg |}).
    split.
    + cbn. by destruct HI.
    + cbn. intros t tk Ht. apply elem_of_app. left. by eapply inv_task_reg.
    + cbn. by destruct HI.
    + cbn. by destruct HI.
    + cbn. intros e' He. apply elem_of_app in He as [He|He]; apply elem_of_app.
      * left. by eapply inv_exec_reg.
      * right. apply list_elem_of_singleton in He as ->. cbn. by left.
    + intros i. rewrite (executions_log i s1 e) by done. cbn.
      destruct (decide (x = i)) as [<-|Hne].
      * rewrite Hnone. lia.
      * pose proof (inv_once _ _ HI i). lia.
    + cbn [tasks inflight executeReminder]. intros t tk Ht Hrun Hin.
      rewrite (executions_log (forReminder tk) s1 e) by done. cbn.
      destruct (decide (x = forReminder tk)) as [E|E].
      * exfalso. by eapply Hold.
      * rewrite (inv_fresh _ _ HI _ _ Ht Hrun Hin). lia.
  - destruct (validPattern (dateToCronPattern date)); cbn [snd];
      [|by apply Inv_more].
    split.
    + cbn. intros i ref H. apply lookup_insert_Some in H as [[<- <-]|[Hne H]].
      * eexists. rewrite lookup_app_r by lia. rewrite Nat.sub_diag. cbn.
        split_and!; done.
      * destruct (inv_live _ _ HI _ _ H) as (r & Hr & Hid & Hc).
        exists r. split_and!; try done. rewrite lookup_app_l; [done|].
        by eapply lookup_lt_Some.
    + cbn. intros t tk Ht. apply elem_of_app.
      apply lookup_app_Some in Ht as [Ht|[_ Ht]].
      * left. by eapply inv_task_reg.
      * right. destruct (t - length (tasks s1))%nat; [|done].
        cbn in Ht. injection Ht as <-. cbn. by left.
    + cbn. intros t1 t2 k1 k2 H1 H2 E.
      apply lookup_app_Some in H1 as [H1|[L1 H1]];
        apply lookup_app_Some in H2 as [H2|[L2 H2]].
      * eapply (inv_task_inj _ _ HI); eauto.
      * exfalso. destruct (t2 - length (tasks s1))%nat; [|done].
        cbn in H2. injection H2 as <-. cbn in E. by eapply Hold.
      * exfalso. destruct (t1 - length (tasks s1))%nat; [|done].
        cbn in H1. injection H1 as <-. cbn in E. symmetry in E. by eapply Hold.
      * destruct (t1 - length (tasks s1))%nat eqn:E1; [|done].
        destruct (t2 - length (tasks s1))%nat eqn:E2; [|done]. lia.
    + cbn. intros t tk Ht Hrun. apply lookup_app_Some in Ht as [Ht|[L Ht]].
      * destruct (inv_running _ _ HI _ _ Ht Hrun) as (ref & r & Hi & Hr & Htask & Hp).
        exists ref, r. split_and!; try done.
        -- rewrite lookup_insert_ne; [done|]. intros E. symmetry in E. by eapply Hold.
        -- rewrite lookup_app_l; [done|]. by eapply lookup_lt_Some.
      * destruct (t - length (tasks s1))%nat eqn:E1; [|done].
        cbn in Ht. injection Ht as <-. cbn.
        eexists _, _. split_and!.
        -- apply lookup_insert_eq.
        -- rewrite lookup_app_r by lia. rewrite Nat.sub_diag. reflexivity.
        -- cbn. f_equal. lia.
        -- done.
    + cbn. intros e He. apply elem_of_app. left. by eapply inv_exec_reg.
    + intros i. rewrite (executions_same i s1) by done. by eapply inv_once.
    + cbn [tasks inflight]. intros t tk Ht Hrun Hin.
      rewrite (executions_same _ s1) by done.
      apply lookup_app_Some in Ht as [Ht|[L Ht]].
      * by eapply inv_fresh.
      * destruct (t - length (tasks s1))%nat eqn:E1; [|done].
        cbn in Ht. injection Ht as <-. cbn. exact Hnone.
Qed.

Lemma registered_cons (e : Event) (es : list Event) :
  registered (e :: es) =
    (match e with
     | Schedule cid _ _ _ now => [generateReminderId cid now]
     | _ => []
     end ++ registered es)%list.
Proof. unfold registered. cbn. by destruct e. Qed.

(** Every scheduler reached by a trace with pairwise distinct
    registration ids satisfies the invariant. *)
Lemma Inv_run (es : list Event) (R : list ReminderId) (s s' : SchedulerService) :
  Inv R s -> NoDup (R ++ registered es) -> run es s = Some s' ->
  Inv (R ++ registered es) s'.
Proof.
  revert R s. induction es as [|e es IH]; intros R s HI Hnd Hrun.
  - cbn in *. injection Hrun as <-. by rewrite app_nil_r.
  - cbn in Hrun. destruct (step e s) as [s1|] eqn:Hstep; [|done].
    rewrite registered_cons in Hnd |- *.
    destruct e as [cid msg date imm now|i| |t|t|]; cbn in Hstep;
      cbn [app] in Hnd |- *.
    + injection Hstep as <-.
      rewrite cons_middle, app_assoc in Hnd |- *.
      eapply IH; [|exact Hnd|exact Hrun]. apply Inv_schedule; [done|].
      apply NoDup_app in Hnd as (Hnd & _ & _).
      apply NoDup_app in Hnd as (_ & Hnd & _).
      intros Hin. eapply Hnd; [exact Hin|by left].
    + injection Hstep as <-. eapply IH; [|exact Hnd|exact Hrun]. by apply Inv_cancel.
    + injection Hstep as <-. eapply IH; [|exact Hnd|exact Hrun]. by apply Inv_sweep.
    + eapply IH; [|exact Hnd|exact Hrun]. by eapply Inv_fireBegin.
    + eapply IH; [|exact Hnd|exact Hrun]. by eapply Inv_fireEnd.
    + injection Hstep as <-. eapply IH; [|exact Hnd|exact Hrun]. by apply Inv_destroy.
Qed.

(** *** The status of a reminder object along a step *)

Lemma allowed_refl (a : Status) : allowed a a.
Proof. by left. Qed.

Lemma cancelReminder_objects (i : ReminderId) (s : SchedulerService) (ref : nat)
    (r : ScheduledReminder) :
  objects s !! ref = Some r ->
  exists r', objects (snd (cancelReminder i s)) !! ref = Some r'
             /\ allowed (status r) (status r').
Proof.
  intros H. unfold cancelReminder.
  destruct (reminders s !! i) as [ref0|] eqn:Hi; [|eauto using allowed_refl].
  destruct (objects s !! ref0) as [r0|] eqn:Hr; [|eauto using allowed_refl].
  destruct (decide (status r0 = pending)) as [Hp|Hp]; [|eauto using allowed_refl].
  cbn. destruct (decide (ref0 = ref)) as [->|Hne].
  - rewrite list_lookup_insert_eq by (by eapply lookup_lt_Some).
    eexists. split; [done|]. cbn. right. right. split; [congruence|done].
  - rewrite list_lookup_insert_ne by done. eauto using allowed_refl.
Qed.

Lemma cancelReminder_length (i : ReminderId) (s : SchedulerService) :
  length (objects (snd (cancelReminder i s))) = length (objects s).
Proof.
  unfold cancelReminder.
  destruct (reminders s !! i) as [ref0|]; [|done].
  destruct (objects s !! ref0) as [r0|]; [|done].
  destruct (decide (status r0 = pending)); [|done].
  cbn. by rewrite length_insert.
Qed.

(** Along one step from a scheduler that satisfies the invariant, an
    object keeps its status or goes from pending to sent or to cancelled,
    and an object the step creates is pending. *)
Lemma step_status (R : list ReminderId) (e : Event) (s s' : SchedulerService) :
  Inv R s -> step e s = Some s' ->
  (forall ref r, objects s !! ref = Some r ->
     exists r', objects s' !! ref = Some r' /\ allowed (status r) (status r'))
  /\ (forall ref r', objects s !! ref = None -> objects s' !! ref = Some r' ->
        status r' = pending).
Proof.
  intros HI Hstep.
  destruct e as [cid msg date imm now|i| |t|t|]; cbn in Hstep.
  - injection Hstep as <-. unfold scheduleReminder.
    set (x := generateReminderId cid now). split.
    + intros ref r H.
      destruct (cancelReminder_objects x s ref r H) as (r' & H' & Hal).
      destruct imm; cbn.
      * eauto.
      * destruct (validPattern (dateToCronPattern date)); cbn; [|eauto].
        exists r'. split; [|done]. rewrite lookup_app_l; [done|].
        by eapply lookup_lt_Some.
    + intros ref r' Hnone H. apply lookup_ge_None in Hnone.
      pose proof (cancelReminder_length x s) as Hlen.
      destruct imm; cbn in H.
      * apply lookup_lt_Some in H. lia.
      * destruct (validPattern (dateToCronPattern date)); cbn in H;
          [|apply lookup_lt_Some in H; lia].
        apply lookup_app_Some in H as [H|[_ H]].
        -- apply lookup_lt_Some in H. lia.
        -- destruct (ref - _)%nat; [|done]. cbn in H. by injection H as <-.
  - injection Hstep as <-. split.
    + intros ref r H. by apply cancelReminder_objects.
    + intros ref r' Hnone H. apply lookup_ge_None in Hnone.
      apply lookup_lt_Some in H. rewrite cancelReminder_length in H. lia.
  - injection Hstep as <-. cbn. split; [eauto using allowed_refl|congruence].
  - unfold fireBegin in Hstep.
    destruct (tasks s !! t) as [tk|]; [|done].
    destruct (running tk && bool_decide (t ∉ inflight s)); [|done].
    injection Hstep as <-. cbn. split; [eauto using allowed_refl|congruence].
  - unfold fireEnd in Hstep.
    destruct (tasks s !! t) as [tk|]; [|done].
    case_bool_decide as Hfl; [|done].
    destruct (reminders s !! forReminder tk) as [ref0|] eqn:Hi.
    + destruct (objects s !! ref0) as [r0|] eqn:Hr0; injection Hstep as <-; cbn.
      * split.
        -- intros ref r H. destruct (decide (ref0 = ref)) as [->|Hne].
           ++ rewrite list_lookup_insert_eq by (by eapply lookup_lt_Some).
              eexists. split; [done|]. cbn.
              destruct (inv_live _ _ HI _ _ Hi) as (r1 & Hr1 & _ & Hc).
              assert (r1 = r) as -> by congruence.
              destruct (status r); [right; left; done|left; done|done].
           ++ rewrite list_lookup_insert_ne by done. eauto using allowed_refl.
        -- intros ref r' Hnone H. apply lookup_ge_None in Hnone.
           apply lookup_lt_Some in H. rewrite length_insert in H. lia.
      * split; [eauto using allowed_refl|congruence].
    + injection Hstep as <-. cbn. split; [eauto using allowed_refl|congruence].
  - injection Hstep as <-. cbn. split; [eauto using allowed_refl|congruence].
Qed.

(** C1. Take any trace of registrations, cancellations, sweeps, callback
    starts and callback ends from a fresh scheduler, in which the
    registrations generated pairwise distinct reminder ids, the sweeps
    falling wherever they may, also between the start of a callback and
    its end. Then the registered action has run at most once on behalf of
    every reminder id, and at every step of the trace every reminder
    object either keeps its status or goes from pending to sent or from
    pending to cancelled; an object a step creates is pending. *)
Theorem reminder_fires_at_most_once (es : list Event) (s : SchedulerService) :
  NoDup (registered es) ->
  run es create = Some s ->
  (forall i, (executions i s <= 1)%nat)
  /\ (forall es1 e es2 s1 s2,
        es = (es1 ++ e :: es2)%list ->
        run es1 create = Some s1 -> step e s1 = Some s2 ->
        (forall ref r1, objects s1 !! ref = Some r1 ->
           exists r2, objects s2 !! ref = Some r2 /\ allowed (status r1) (status r2))
        /\ (forall ref r2, objects s1 !! ref = None -> objects s2 !! ref = Some r2 ->
              status r2 = pending)).
Proof.
  intros Hnd Hrun. split.
  - pose proof (Inv_run es [] create s Inv_create Hnd Hrun) as HI.
    by eapply inv_once.
  - intros es1 e es2 s1 s2 -> H1 Hstep.
    unfold registered in Hnd. rewrite omap_app in Hnd.
    apply NoDup_app in Hnd as (Hnd1 & _ & _).
    pose proof (Inv_run es1 [] create s1 Inv_create Hnd1 H1) as HI.
    by eapply step_status.
Qed.

(** A registration whose callback starts, is overtaken by two sweeps, and
    ends, followed by a sweep and by an immediate registration. *)
Lemma reminder_fires_at_most_once_witness :
  let es := [Schedule 1 "follow up" (At 1762160400000) false 1762153200000;
             FireBegin 0; Sweep; Sweep; FireEnd 0; Sweep;
             Schedule 2 "follow up" (At 1762160400000) true 1762160400000] in
  exists s, run es create = Some s
    /\ (forall i, (executions i s <= 1)%nat)
    /\ (forall es1 e es2 s1 s2,
          es = (es1 ++ e :: es2)%list ->
          run es1 create = Some s1 -> step e s1 = Some s2 ->
          (forall ref r1, objects s1 !! ref = Some r1 ->
             exists r2, objects s2 !! ref = Some r2 /\ allowed (status r1) (status r2))
          /\ (forall ref r2, objects s1 !! ref = None -> objects s2 !! ref = Some r2 ->
                status r2 = pending)).
Proof.
  intros es. eexists. split; [vm_compute; reflexivity|].
  apply (reminder_fires_at_most_once es).
  - apply (bool_decide_unpack _). vm_compute. exact I.
  - vm_compute. reflexivity.
Defined.

End SchedulerInvariant.

(** ** Text *)
Module TextFacts.
Import Text.

Lemma append_cons (c : ascii) (s t : string) : String c s +:+ t = String c (s +:+ t).
Proof. reflexivity. Qed.

Lemma append_nil (s : string) : "" +:+ s = s.
Proof. reflexivity. Qed.

Lemma append_nil_r (s : string) : s +:+ "" = s.
Proof. induction s as [|c s IH]; [done|]. by rewrite append_cons, IH. Qed.

Lemma append_assoc (s t u : string) : (s +:+ t) +:+ u = s +:+ t +:+ u.
Proof. induction s as [|c s IH]; [done|]. by rewrite !append_cons, IH. Qed.

Lemma append_empty (s t : string) : s +:+ t = "" -> s = "" /\ t = "".
Proof. destruct s; [by rewrite append_nil|by rewrite append_cons]. Qed.

Lemma prefix_append (p s : string) :
  String.prefix p s = true <-> exists rest, s = p +:+ rest.
Proof.
  revert s. induction p as [|a p IH]; intros s.
  - split; [intros _; by exists s|]. by destruct s.
  - destruct s as [|b s]; cbn.
    + split; [done|]. by intros [rest H].
    + destruct (ascii_dec a b) as [<-|Hne].
      * rewrite IH. split; intros [rest H]; exists rest.
        -- by rewrite append_cons, H.
        -- rewrite append_cons in H. by injection H.
      * split; [done|]. intros [rest H]. rewrite append_cons in H. by injection H.
Qed.

Lemma stripPrefix_append (p s r : string) : stripPrefix p s = Some r <-> s = p +:+ r.
Proof.
  revert s. induction p as [|a p IH]; intros s; cbn.
  - rewrite append_nil. split; [by intros [= ->]|by intros ->].
  - destruct s as [|b s]; [by rewrite append_cons|].
    rewrite append_cons. destruct (Ascii.eqb_spec a b) as [<-|Hne].
    + rewrite IH. split; [by intros ->|by intros [= ->]].
    + split; [done|]. by intros [= E _].
Qed.

(** [hay.includes(needle)] says that the needle occurs in the text. *)
Lemma includes_occurs (r w : string) :
  includes r w = true <-> exists before after, r = before +:+ w +:+ after.
Proof.
  induction r as [|c r IH].
  - cbn [includes]. rewrite orb_false_r, prefix_append. split.
    + intros [rest H]. by exists "", rest.
    + intros (before & after & H). symmetry in H.
      apply append_empty in H as [-> H]. exists after. by rewrite H.
  - cbn [includes]. rewrite orb_true_iff, prefix_append, IH. split.
    + intros [[rest H]|(before & after & H)].
      * by exists "", rest.
      * exists (String c before), after. by rewrite append_cons, H.
    + intros ([|c' before] & after & H).
      * left. by exists after.
      * right. rewrite append_cons in H. injection H as _ H. by exists before, after.
Qed.

Lemma span_spec (f : ascii -> bool) (s a b : string) :
  span f s = (a, b) ->
  s = a +:+ b /\ Forall (fun c => f c = true) (list_ascii_of_string a) /\ stopsAt f b.
Proof.
  revert a b. induction s as [|c s IH]; intros a b; cbn [span].
  - intros [= <- <-]. by split_and!.
  - destruct (f c) eqn:Hc.
    + destruct (span f s) as [a' b'] eqn:E. intros [= <- <-].
      destruct (IH a' b' eq_refl) as (-> & Ha & Hb).
      split_and!; [done| |done]. cbn. by constructor.
    + intros [= <- <-]. split_and!; [done|constructor|exact Hc].
Qed.

Lemma span_append (f : ascii -> bool) (a b : string) :
  Forall (fun c => f c = true) (list_ascii_of_string a) -> stopsAt f b ->
  span f (a +:+ b) = (a, b).
Proof.
  intros Ha Hb. induction a as [|c a IH].
  - rewrite append_nil. destruct b as [|c b]; [done|]. cbn in *. by rewrite Hb.
  - cbn in Ha. apply Forall_cons in Ha as [Hc Ha]. rewrite append_cons. cbn [span].
    by rewrite Hc, (IH Ha).
Qed.

Lemma span_Forall (f : ascii -> bool) (s a b : string) :
  span f s = (a, b) -> Forall (fun c => f c = true) (list_ascii_of_string a).
Proof. intros H. by apply span_spec in H as (_ & H & _). Qed.

Lemma isEmpty_false (s : string) : isEmpty s = false <-> s ≠ "".
Proof. by destruct s. Qed.

Lemma digit_not_space (c : ascii) : isDigit c = true -> isSpace c = false.
Proof.
  unfold isDigit, isSpace, code. intros H.
  apply andb_true_iff in H as [H1 H2]. apply Nat.leb_le in H1.
  apply orb_false_iff. split.
  - apply andb_false_iff. right. apply Nat.leb_gt. lia.
  - apply Nat.eqb_neq. lia.
Qed.

Lemma space_not_digit (c : ascii) : isSpace c = true -> isDigit c = false.
Proof.
  intros H. destruct (isDigit c) eqn:E; [|done].
  apply digit_not_space in E. congruence.
Qed.

(** A text that goes on with a run of characters of [f], not empty,
    stops at every [g] that excludes [f]. *)
Lemma stopsAt_run (f g : ascii -> bool) (a b : string) :
  (forall c, f c = true -> g c = false) ->
  a ≠ "" -> Forall (fun c => f c = true) (list_ascii_of_string a) ->
  stopsAt g (a +:+ b).
Proof.
  intros Hfg Hne Ha. destruct a as [|c a]; [done|].
  cbn in Ha. apply Forall_cons in Ha as [Hc _]. rewrite append_cons. cbn. by apply Hfg.
Qed.

Lemma parseDigits_nonneg (s : string) (acc : Z) :
  Forall (fun c => isDigit c = true) (list_ascii_of_string s) ->
  0 <= acc -> 0 <= parseDigits acc s.
Proof.
  revert acc. induction s as [|c s IH]; intros acc H Hacc; cbn; [done|].
  cbn in H. apply Forall_cons in H as [Hc H]. apply IH; [done|].
  unfold isDigit in Hc. unfold digitValue.
  apply andb_true_iff in Hc as [Hc _]. apply Nat.leb_le in Hc. lia.
Qed.

(** How an unanchored search goes: the match found is the one at the
    first place of the text that has one. *)
Lemma firstMatch_first {A} (at_ : string -> option A) (r : string) (m : A) :
  firstMatch at_ r = Some m <->
  exists before s, r = before +:+ s /\ at_ s = Some m
    /\ forall before' s', r = before' +:+ s' ->
         (String.length before' < String.length before)%nat -> at_ s' = None.
Proof.
  induction r as [|c r IH].
  - cbn [firstMatch]. split.
    + intros H. exists "", "". split_and!; [done| |cbn; lia].
      by destruct (at_ "").
    + intros (before & s & H & Hs & _). symmetry in H.
      apply append_empty in H as [-> ->]. by rewrite Hs.
  - cbn [firstMatch]. destruct (at_ (String c r)) as [m0|] eqn:E.
    + split.
      * intros [= ->]. exists "", (String c r). split_and!; [done|done|cbn; lia].
      * intros ([|c' before] & s & H & Hs & Hmin).
        -- rewrite append_nil in H. subst s. congruence.
        -- specialize (Hmin "" (String c r) eq_refl). cbn in Hmin.
           rewrite Hmin in E by lia. done.
    + rewrite IH. split.
      * intros (before & s & -> & Hs & Hmin).
        exists (String c before), s. split_and!; [done|done|].
        intros [|c' before'] s' H Hlen.
        -- rewrite append_nil in H. by subst s'.
        -- rewrite append_cons in H. injection H as _ H. cbn in Hlen.
           apply (Hmin before' s' H). lia.
      * intros ([|c' before] & s & H & Hs & Hmin).
        -- rewrite append_nil in H. subst s. congruence.
        -- rewrite append_cons in H. injection H as _ H.
           exists before, s. split_and!; [done|done|].
           intros before' s' H' Hlen. apply (Hmin (String c before') s').
           ++ by rewrite append_cons, H'.
           ++ cbn. lia.
Qed.

Lemma firstMatch_nowhere {A} (at_ : string -> option A) (r : string) :
  firstMatch at_ r = None <-> forall before s, r = before +:+ s -> at_ s = None.
Proof.
  induction r as [|c r IH].
  - cbn [firstMatch]. split.
    + intros H before s E. symmetry in E. apply append_empty in E as [-> ->].
      by destruct (at_ "").
    + intros H. by rewrite (H "" "" eq_refl).
  - cbn [firstMatch]. destruct (at_ (String c r)) as [m0|] eqn:E.
    + split; [done|]. intros H. rewrite (H "" (String c r) eq_refl) in E. done.
    + rewrite IH. split.
      * intros H [|c' before] s Hs.
        -- rewrite append_nil in Hs. by subst s.
        -- rewrite append_cons in Hs. injection Hs as _ Hs. by eapply H.
      * intros H before s Hs. apply (H (String c before) s).
        by rewrite append_cons, Hs.
Qed.

Lemma firstMatch_Some {A} (at_ : string -> option A) (s : string) (m : A) :
  firstMatch at_ s = Some m -> exists s', at_ s' = Some m.
Proof. intros H. apply firstMatch_first in H as (_ & s' & _ & H & _). eauto. Qed.

End TextFacts.

(** ** The classifier *)
Module ClassifierFacts.
Import Text Clock Classifier ClockFacts TextFacts.

(** *** The setters on a clock value *)

Lemma setHours_relative (now n : Z) :
  setHours now (getHours now + n) = relativeTime now n Hours.
Proof. unfold setHours, relativeTime. f_equal. lia. Qed.

Lemma setDate_relative (now n : Z) :
  setDate now (getDate now + n) = relativeTime now n Days.
Proof. unfold setDate, relativeTime. f_equal. lia. Qed.

Lemma setMinutes_relative (now n : Z) :
  setMinutes now (getMinutes now + n) = relativeTime now n Minutes.
Proof. unfold setMinutes, relativeTime. f_equal. lia. Qed.

(** A date out of range stays out of range at 09:00 of its day. *)
Lemma setHours9_timeClip (t : Z) : setHours9 (timeClip t) = timeClip (at9 t).
Proof.
  unfold timeClip at 1. destruct (Z.leb_spec (Z.abs t) maxTime) as [H|H]; [done|].
  cbn [setHours9]. symmetry. apply timeClip_invalid.
  unfold at9, maxTime, msPerDay, msPerHour in *. Z.div_mod_to_equations. lia.
Qed.

Lemma setHours9_setDate (now k : Z) :
  setHours9 (setDate now (getDate now + k)) = timeClip (at9 (addDays now k)).
Proof.
  rewrite setDate_relative. unfold relativeTime. rewrite setHours9_timeClip.
  reflexivity.
Qed.

(** The rule that resolves a text decides both functions of the source. *)
Lemma parse_by_rule (now : Z) (text : string) :
  let r := normalized text in
  (parseSchedulingResponse now text, isValidSchedulingResponse now text) =
    if rule1 r then
      ({| sendNow := true; sendTomorrow := false; customDate := None;
          noReminder := false |}, true)
    else if rule2 r then
      ({| sendNow := false; sendTomorrow := true; customDate := None;
          noReminder := false |}, true)
    else if rule3 r then
      ({| sendNow := false; sendTomorrow := false; customDate := None;
          noReminder := true |}, true)
    else
      match rule4 r, rule5 r with
      | Some (n, u), _ =>
          ({| sendNow := false; sendTomorrow := false;
              customDate := Some (relativeTime now n u); noReminder := false |}, true)
      | None, Some d =>
          ({| sendNow := false; sendTomorrow := false;
              customDate := Some (timeClip (nextWeekday now d));
              noReminder := false |}, true)
      | None, None =>
          ({| sendNow := false; sendTomorrow := true; customDate := None;
              noReminder := false |}, false)
      end.
Proof.
  intros r. unfold parseSchedulingResponse, isValidSchedulingResponse.
  fold (normalized text). fold r. fold (rule1 r). fold (rule2 r). fold (rule3 r).
  destruct (rule1 r); [done|]. destruct (rule2 r); [done|]. destruct (rule3 r); [done|].
  unfold extractDateFromResponse, rule4, rule5.
  destruct (firstMatch inMatchAt r) as [[ds [|]]|].
  - by rewrite setHours_relative.
  - by rewrite setDate_relative.
  - destruct (firstMatch minutesMatchAt r) as [ds|].
    + by rewrite setMinutes_relative.
    + destruct (List.find _ dayNames) as [dayMatch|]; [|done].
      by rewrite setHours9_setDate.
Qed.

(** *** The rules of the specification and the tests of the code *)

Lemma rule1_Rule1 (r : string) : rule1 r = true <-> Rule1 r.
Proof.
  unfold rule1, Rule1, contains. rewrite !orb_true_iff, !includes_occurs. tauto.
Qed.

Lemma rule2_Rule2 (r : string) : rule2 r = true <-> Rule2 r.
Proof.
  unfold rule2, Rule2, contains. rewrite !orb_true_iff, !includes_occurs. tauto.
Qed.

Lemma rule3_Rule3 (r : string) : rule3 r = true <-> Rule3 r.
Proof.
  unfold rule3, Rule3, contains. rewrite !orb_true_iff, !includes_occurs. tauto.
Qed.

Lemma rule_false (b : bool) (P : Prop) : (b = true <-> P) -> ~ P -> b = false.
Proof. intros H HP. destruct b; [|done]. exfalso. by apply HP, H. Qed.

(** The regular expression for hours and days, tried at a place. *)
Lemma inMatchAt_hours (s ds : string) :
  inMatchAt s = Some (ds, UHour) <-> hoursOrDaysHere s ds Hours.
Proof.
  unfold inMatchAt, hoursOrDaysHere, digits. cbn [unitWord]. split.
  - destruct (stripPrefix "in " s) as [r1|] eqn:E1; [|done].
    apply stripPrefix_append in E1 as ->.
    destruct (span isDigit r1) as [ds' r2] eqn:E2.
    apply span_spec in E2 as (-> & Hds & _).
    destruct (isEmpty ds') eqn:E3; [done|]. apply isEmpty_false in E3.
    destruct (stripPrefix " " r2) as [r3|] eqn:E4; [|done].
    apply stripPrefix_append in E4 as ->.
    destruct (String.prefix "hour" r3) eqn:E5.
    + intros [= <-]. apply prefix_append in E5 as [rest ->].
      split_and!; [done|done|by left|]. by exists rest.
    + by destruct (String.prefix "day" r3).
  - intros ((Hne & Hds) & _ & rest & ->).
    rewrite (proj2 (stripPrefix_append "in " _ _) eq_refl).
    rewrite (span_append isDigit ds _ Hds) by done.
    rewrite (proj2 (isEmpty_false ds) Hne).
    rewrite (proj2 (stripPrefix_append " " _ _) eq_refl).
    by rewrite (proj2 (prefix_append "hour" _)) by eauto.
Qed.

Lemma inMatchAt_days (s ds : string) :
  inMatchAt s = Some (ds, UDay) <-> hoursOrDaysHere s ds Days.
Proof.
  unfold inMatchAt, hoursOrDaysHere, digits. cbn [unitWord]. split.
  - destruct (stripPrefix "in " s) as [r1|] eqn:E1; [|done].
    apply stripPrefix_append in E1 as ->.
    destruct (span isDigit r1) as [ds' r2] eqn:E2.
    apply span_spec in E2 as (-> & Hds & _).
    destruct (isEmpty ds') eqn:E3; [done|]. apply isEmpty_false in E3.
    destruct (stripPrefix " " r2) as [r3|] eqn:E4; [|done].
    apply stripPrefix_append in E4 as ->.
    destruct (String.prefix "hour" r3) eqn:E5; [done|].
    destruct (String.prefix "day" r3) eqn:E6; [|done].
    intros [= <-]. apply prefix_append in E6 as [rest ->].
    split_and!; [done|done|by right|]. by exists rest.
  - intros ((Hne & Hds) & _ & rest & ->).
    rewrite (proj2 (stripPrefix_append "in " _ _) eq_refl).
    rewrite (span_append isDigit ds _ Hds) by done.
    rewrite (proj2 (isEmpty_false ds) Hne).
    rewrite (proj2 (stripPrefix_append " " _ _) eq_refl).
    rewrite !append_cons, append_nil. cbn [String.prefix].
    destruct (ascii_dec "h" "d") as [E|_]; [done|].
    destruct (ascii_dec "d" "d") as [_|E]; [|done].
    destruct (ascii_dec "a" "a") as [_|E]; [|done].
    destruct (ascii_dec "y" "y") as [_|E]; [by destruct rest|done].
Qed.

Lemma hoursOrDaysHere_unit (s ds : string) (u : RelativeUnit) :
  hoursOrDaysHere s ds u <->
  inMatchAt s = Some (ds, match u with Days => UDay | _ => UHour end) /\ u ≠ Minutes.
Proof.
  destruct u.
  - split; [|by intros [_ H]]. intros (_ & [H|H] & _); done.
  - rewrite inMatchAt_hours. split; [by intros H|by intros [H _]].
  - rewrite inMatchAt_days. split; [by intros H|by intros [H _]].
Qed.

Lemma hoursOrDaysPlace_match (s : string) :
  hoursOrDaysPlace s <-> inMatchAt s ≠ None.
Proof.
  split.
  - intros (ds & u & H). apply hoursOrDaysHere_unit in H as [H _]. by rewrite H.
  - destruct (inMatchAt s) as [[ds [|]]|] eqn:E; [| |done]; intros _.
    + exists ds, Hours. by apply inMatchAt_hours.
    + exists ds, Days. by apply inMatchAt_days.
Qed.

(** The regular expression for minutes, tried at a place. *)
Lemma minutesMatchAt_here (s ds : string) :
  minutesMatchAt s = Some ds <-> minutesHere s ds.
Proof.
  unfold minutesMatchAt, minutesHere, digits, blanks. split.
  - destruct (stripPrefix "in" s) as [r1|] eqn:E1; [|done].
    apply stripPrefix_append in E1 as ->.
    destruct (span isSpace r1) as [sp1 r2] eqn:E2.
    apply span_spec in E2 as (-> & Hsp1 & _).
    destruct (span isDigit r2) as [ds' r3] eqn:E3.
    apply span_spec in E3 as (-> & Hds & _).
    destruct (span isSpace r3) as [sp2 r4] eqn:E4.
    apply span_spec in E4 as (-> & Hsp2 & _).
    destruct (isEmpty sp1) eqn:N1; [done|]. destruct (isEmpty ds') eqn:N2; [done|].
    destruct (isEmpty sp2) eqn:N3; [done|]. cbn [orb].
    apply isEmpty_false in N1, N2, N3.
    destruct (String.prefix "min" r4) eqn:E5; [|done].
    apply prefix_append in E5 as [rest ->]. intros [= <-].
    split; [done|]. by exists sp1, sp2, rest.
  - intros ((Hne & Hds) & sp1 & sp2 & rest & (N1 & Hsp1) & (N2 & Hsp2) & ->).
    rewrite (proj2 (stripPrefix_append "in" _ _) eq_refl).
    rewrite (span_append isSpace sp1 _ Hsp1)
      by (by apply (stopsAt_run isDigit); [apply digit_not_space|..]).
    rewrite (span_append isDigit ds _ Hds)
      by (by apply (stopsAt_run isSpace); [apply space_not_digit|..]).
    rewrite (span_append isSpace sp2 _ Hsp2) by done.
    rewrite (proj2 (isEmpty_false sp1) N1), (proj2 (isEmpty_false ds) Hne),
      (proj2 (isEmpty_false sp2) N2). cbn [orb].
    by rewrite (proj2 (prefix_append "min" _)) by eauto.
Qed.

Lemma minutesPlace_match (s : string) : minutesPlace s <-> minutesMatchAt s ≠ None.
Proof.
  split.
  - intros (ds & H). apply minutesMatchAt_here in H. by rewrite H.
  - destruct (minutesMatchAt s) as [ds|] eqn:E; [|done]. intros _.
    exists ds. by apply minutesMatchAt_here.
Qed.

Lemma firstPlace_search {A} (at_ : string -> option A) (P : string -> Prop)
    (r s : string) (m : A) :
  (forall s, P s <-> at_ s ≠ None) ->
  firstPlace P r s -> at_ s = Some m -> firstMatch at_ r = Some m.
Proof.
  intros HP (before & Hr & _ & Hmin) Hs. apply firstMatch_first.
  exists before, s. split_and!; [done|done|].
  intros before' s' H' Hlen. specialize (Hmin before' s' H' Hlen).
  destruct (at_ s') eqn:E; [|done]. exfalso. apply Hmin, HP. by rewrite E.
Qed.

Lemma search_firstPlace {A} (at_ : string -> option A) (P : string -> Prop)
    (r : string) (m : A) :
  (forall s, P s <-> at_ s ≠ None) ->
  firstMatch at_ r = Some m -> exists s, firstPlace P r s /\ at_ s = Some m.
Proof.
  intros HP H. apply firstMatch_first in H as (before & s & Hr & Hs & Hmin).
  exists s. split; [|done]. exists before. split_and!; [done| |].
  - apply HP. by rewrite Hs.
  - intros before' s' H' Hlen HP'. apply HP in HP'. by apply HP', (Hmin before').
Qed.

Lemma noPlace_search {A} (at_ : string -> option A) (P : string -> Prop) (r : string) :
  (forall s, P s <-> at_ s ≠ None) ->
  noPlace P r <-> firstMatch at_ r = None.
Proof.
  intros HP. rewrite firstMatch_nowhere. unfold noPlace. split.
  - intros H before s Hr. destruct (at_ s) eqn:E; [|done].
    exfalso. apply (H before s Hr), HP. by rewrite E.
  - intros H before s Hr Hs. apply HP in Hs. by apply Hs, (H before).
Qed.

(** Rule 4 of the specification is the search of the code. *)
Lemma rule4_Rule4 (r : string) (n : Z) (u : RelativeUnit) :
  rule4 r = Some (n, u) <-> Rule4 r n u.
Proof.
  unfold rule4, Rule4. split.
  - destruct (firstMatch inMatchAt r) as [[ds cu]|] eqn:E.
    + apply (search_firstPlace _ hoursOrDaysPlace) in E as (s & Hfirst & Hs);
        [|apply hoursOrDaysPlace_match].
      destruct cu; intros [= <- <-]; left; exists s, ds; split_and!; try done.
      * by apply inMatchAt_hours.
      * by apply inMatchAt_days.
    + destruct (firstMatch minutesMatchAt r) as [ds|] eqn:E'; [|done].
      intros [= <- <-]. right.
      apply (noPlace_search _ hoursOrDaysPlace) in E; [|apply hoursOrDaysPlace_match].
      apply (search_firstPlace _ minutesPlace) in E' as (s & Hfirst & Hs);
        [|apply minutesPlace_match].
      split_and!; [done|done|]. exists s, ds. split_and!; [done| |done].
      by apply minutesMatchAt_here.
  - intros [(s & ds & Hfirst & Hhere & ->)|(Hno & -> & s & ds & Hfirst & Hhere & ->)].
    + apply hoursOrDaysHere_unit in Hhere as [Hs Hu].
      rewrite (firstPlace_search _ _ _ _ _ hoursOrDaysPlace_match Hfirst Hs).
      by destruct u.
    + apply (noPlace_search _ _ _ hoursOrDaysPlace_match) in Hno. rewrite Hno.
      apply minutesMatchAt_here in Hhere.
      by rewrite (firstPlace_search _ _ _ _ _ minutesPlace_match Hfirst Hhere).
Qed.

Lemma rule4_none (r : string) : rule4 r = None <-> forall n u, ~ Rule4 r n u.
Proof.
  split.
  - intros H n u Hr. apply rule4_Rule4 in Hr. congruence.
  - intros H. destruct (rule4 r) as [[n u]|] eqn:E; [|done].
    exfalso. by apply (H n u), rule4_Rule4.
Qed.

(** Rule 5 of the specification is the search of the code. *)
Lemma rule5_Rule5 (r : string) (d : Z) : rule5 r = Some d <-> Rule5 r d.
Proof.
  unfold Rule5. split.
  - unfold rule5, dayNames. cbn [List.find]. intros H.
    repeat match type of H with
           | context [if includes r ?a then _ else _] =>
               let E := fresh "E" in destruct (includes r a) eqn:E
           end; try discriminate H; vm_compute in H; injection H as <-;
      (split; [done|]);
      (split; [eexists; split; [reflexivity|by apply includes_occurs]|]);
      intros d' day' Hd' Hday' Hc; apply includes_occurs in Hc;
      (assert (Hcases : d' = 0 \/ d' = 1 \/ d' = 2 \/ d' = 3 \/ d' = 4 \/ d' = 5) by lia);
      destruct Hcases as [->|[->|[->|[->|[->| ->]]]]];
        first [ lia | vm_compute in Hday'; injection Hday' as <-; congruence ].
  - intros (Hd & (day & Hday & Hc) & Hmin). apply includes_occurs in Hc.
    assert (Hlt : (Z.to_nat d < 7)%nat) by (by apply lookup_lt_Some in Hday).
    assert (Hno : forall d' day', 0 <= d' < d -> dayNames !! Z.to_nat d' = Some day' ->
                                  includes r day' = false).
    { intros d' day' H1 H2. destruct (includes r day') eqn:E; [|done].
      exfalso. by apply (Hmin d' day' H1 H2), includes_occurs. }
    assert (Hcases : d = 0 \/ d = 1 \/ d = 2 \/ d = 3 \/ d = 4 \/ d = 5 \/ d = 6) by lia.
    unfold rule5, dayNames. cbn [List.find].
    destruct Hcases as [->|[->|[->|[->|[->|[->| ->]]]]]]; injection Hday as <-;
      rewrite ?(Hno 0 "sunday"), ?(Hno 1 "monday"), ?(Hno 2 "tuesday"),
        ?(Hno 3 "wednesday"), ?(Hno 4 "thursday"), ?(Hno 5 "friday")
        by (done || lia);
      by rewrite Hc.
Qed.

Lemma rule5_none (r : string) : rule5 r = None <-> forall d, ~ Rule5 r d.
Proof.
  split.
  - intros H d Hr. apply rule5_Rule5 in Hr. congruence.
  - intros H. destruct (rule5 r) as [d|] eqn:E; [|done].
    exfalso. by apply (H d), rule5_Rule5.
Qed.

(** Rule 5 names a day of the week. *)
Lemma rule5_range (r : string) (d : Z) : rule5 r = Some d -> 0 <= d <= 6.
Proof.
  intros H. apply rule5_Rule5 in H as (Hd & (day & Hday & _) & _).
  apply lookup_lt_Some in Hday. cbn in Hday. lia.
Qed.

(** What [classify] returns, rule by rule. *)
Lemma classify_rules (now : Z) (text : string) :
  let r := normalized text in
  (Rule1 r -> classify now text = Now)
  /\ (~ Rule1 r -> Rule2 r -> classify now text = Tomorrow)
  /\ (~ Rule1 r -> ~ Rule2 r -> Rule3 r -> classify now text = NoReminder)
  /\ (~ Rule1 r -> ~ Rule2 r -> ~ Rule3 r ->
        forall n u, Rule4 r n u ->
        classify now text = CustomAt (relativeTime now n u))
  /\ (~ Rule1 r -> ~ Rule2 r -> ~ Rule3 r -> (forall n u, ~ Rule4 r n u) ->
        forall d, Rule5 r d ->
        classify now text = CustomAt (timeClip (nextWeekday now d)))
  /\ (~ Rule1 r -> ~ Rule2 r -> ~ Rule3 r -> (forall n u, ~ Rule4 r n u) ->
        (forall d, ~ Rule5 r d) -> classify now text = Tomorrow).
Proof.
  intros r.
  pose proof (parse_by_rule now text) as H. cbv zeta in H. fold r in H.
  apply (f_equal fst) in H. cbn [fst] in H.
  split_and!.
  - intros R1. apply rule1_Rule1 in R1. unfold classify. rewrite H, R1. done.
  - intros R1 R2. apply (rule_false _ _ (rule1_Rule1 r)) in R1.
    apply rule2_Rule2 in R2. unfold classify. rewrite H, R1, R2. done.
  - intros R1 R2 R3. apply (rule_false _ _ (rule1_Rule1 r)) in R1.
    apply (rule_false _ _ (rule2_Rule2 r)) in R2.
    apply rule3_Rule3 in R3. unfold classify. rewrite H, R1, R2, R3. done.
  - intros R1 R2 R3 n u R4. apply (rule_false _ _ (rule1_Rule1 r)) in R1.
    apply (rule_false _ _ (rule2_Rule2 r)) in R2.
    apply (rule_false _ _ (rule3_Rule3 r)) in R3.
    apply rule4_Rule4 in R4. unfold classify. rewrite H, R1, R2, R3, R4. done.
  - intros R1 R2 R3 R4 d R5. apply (rule_false _ _ (rule1_Rule1 r)) in R1.
    apply (rule_false _ _ (rule2_Rule2 r)) in R2.
    apply (rule_false _ _ (rule3_Rule3 r)) in R3.
    apply rule4_none in R4. apply rule5_Rule5 in R5.
    unfold classify. rewrite H, R1, R2, R3, R4, R5. done.
  - intros R1 R2 R3 R4 R5. apply (rule_false _ _ (rule1_Rule1 r)) in R1.
    apply (rule_false _ _ (rule2_Rule2 r)) in R2.
    apply (rule_false _ _ (rule3_Rule3 r)) in R3.
    apply rule4_none in R4. apply rule5_none in R5.
    unfold classify. rewrite H, R1, R2, R3, R4, R5. done.
Qed.

(** C4. [classify] is a function: on every text, read at every clock
    value, there is exactly one directive it returns, and it depends on
    the text only through its trimmed lower-case form. The rules are
    tried in their order. A text that contains "now", "immediately" or
    "send it" is [Now]; one that does not but contains "tomorrow" or
    "morning" is [Tomorrow]; failing these, one that contains "no" or
    "never" is [NoReminder]; failing these, one with a relative amount,
    "in N hours" or "in N days" at its first such place or else "in N
    minutes", is [CustomAt] the clock plus that amount, the Invalid Date
    when that is beyond the range of dates; failing these, one that
    names a weekday is [CustomAt] the next such day at 09:00; a text
    that matches no rule is [Tomorrow]. The amount and unit of rule 4 and
    the day of rule 5 are determined by the text. "now or tomorrow"
    matches rules 1 and 2 and is [Now]; the other examples show each
    rule at work and winning over the next ones. *)
Theorem classify_total_with_precedence (now : Z) (text : string) :
  let r := normalized text in
  let clock := 1762153200000 in
  (exists! d, classify now text = d)
  /\ (forall text', normalized text' = r -> classify now text' = classify now text)
  /\ (Rule1 r -> classify now text = Now)
  /\ (~ Rule1 r -> Rule2 r -> classify now text = Tomorrow)
  /\ (~ Rule1 r -> ~ Rule2 r -> Rule3 r -> classify now text = NoReminder)
  /\ (~ Rule1 r -> ~ Rule2 r -> ~ Rule3 r ->
        forall n u, Rule4 r n u ->
        classify now text = CustomAt (relativeTime now n u))
  /\ (~ Rule1 r -> ~ Rule2 r -> ~ Rule3 r -> (forall n u, ~ Rule4 r n u) ->
        forall d, Rule5 r d ->
        classify now text = CustomAt (timeClip (nextWeekday now d)))
  /\ (~ Rule1 r -> ~ Rule2 r -> ~ Rule3 r -> (forall n u, ~ Rule4 r n u) ->
        (forall d, ~ Rule5 r d) -> classify now text = Tomorrow)
  /\ (forall n u n' u', Rule4 r n u -> Rule4 r n' u' -> n = n' /\ u = u')
  /\ (forall d d', Rule5 r d -> Rule5 r d' -> d = d')
  /\ (Rule1 "now or tomorrow" /\ Rule2 "now or tomorrow"
      /\ classify now "now or tomorrow" = Now)
  /\ classify clock "Send it" = Now
  /\ classify clock "immediately" = Now
  /\ classify clock "in the morning" = Tomorrow
  /\ classify clock "never" = NoReminder
  /\ classify clock "in 15 minutes" = CustomAt (At (clock + 15 * 60000))
  /\ classify clock "Tomorrow? No, never" = Tomorrow
  /\ classify clock "no, in 2 hours" = NoReminder
  /\ classify clock "in 2 hours" = CustomAt (At (clock + 2 * 3600000))
  /\ classify clock "  In 3 Days " = CustomAt (At (clock + 3 * 86400000))
  /\ classify clock "in  5  mins" = CustomAt (At (clock + 5 * 60000))
  /\ classify clock "in 5 minutes, or in 2 hours" = CustomAt (At (clock + 2 * 3600000))
  /\ classify clock "in 2 days, on friday" = CustomAt (At (clock + 2 * 86400000))
  /\ classify clock "friday" = CustomAt (At 1762506000000)
  /\ classify clock "friday or sunday" = CustomAt (At 1762678800000)
  /\ classify clock "in 3000000000 hours" = CustomAt InvalidDate
  /\ classify clock "maybe later" = Tomorrow.
Proof.
  intros r clock.
  destruct (classify_rules now text) as (H1 & H2 & H3 & H4 & H5 & H6).
  split_and!; try assumption.
  - exists (classify now text). split; [done|]. by intros d <-.
  - intros text' E. unfold classify, parseSchedulingResponse.
    fold (normalized text') (normalized text). fold r. by rewrite E.
  - intros n u n' u' Ha Hb. apply rule4_Rule4 in Ha, Hb.
    rewrite Ha in Hb. by injection Hb.
  - intros d d' Ha Hb. apply rule5_Rule5 in Ha, Hb. congruence.
  - left. by exists "", " or tomorrow".
  - left. by exists "now or ", "".
  - reflexivity.
  - vm_compute. reflexivity.
  - vm_compute. reflexivity.
  - vm_compute. reflexivity.
  - vm_compute. reflexivity.
  - vm_compute. reflexivity.
  - vm_compute. reflexivity.
  - vm_compute. reflexivity.
  - vm_compute. reflexivity.
  - vm_compute. reflexivity.
  - vm_compute. reflexivity.
  - vm_compute. reflexivity.
  - vm_compute. reflexivity.
  - vm_compute. reflexivity.
  - vm_compute. reflexivity.
  - vm_compute. reflexivity.
  - vm_compute. reflexivity.
Qed.

(** [isRecognized] answers [true] exactly on the texts rules 1 to 5
    resolve, and [classify] then returns what the resolving rule makes of
    the text; on the others, [classify] is [Tomorrow]. *)
Lemma isRecognized_by_rule (now : Z) (text : string) :
  (isRecognized now text = true <-> 1 <= resolvingRule text <= 5)
  /\ (isRecognized now text = false <-> resolvingRule text = 6)
  /\ (isRecognized now text = true ->
        classify now text = ruleDirective now text (resolvingRule text))
  /\ (isRecognized now text = false -> classify now text = Tomorrow).
Proof.
  pose proof (parse_by_rule now text) as H. cbv zeta in H.
  unfold isRecognized, classify, resolvingRule, ruleDirective.
  destruct (rule1 (normalized text)).
  { injection H as -> ->. cbn. split_and!; [split|split|..]; (done || lia). }
  destruct (rule2 (normalized text)).
  { injection H as -> ->. cbn. split_and!; [split|split|..]; (done || lia). }
  destruct (rule3 (normalized text)).
  { injection H as -> ->. cbn. split_and!; [split|split|..]; (done || lia). }
  destruct (rule4 (normalized text)) as [[n u]|].
  { injection H as -> ->. rewrite bool_decide_eq_true_2 by eauto.
    cbn. split_and!; [split|split|..]; (done || lia). }
  rewrite (bool_decide_eq_false_2 (is_Some None)) by (by intros [? ?]).
  destruct (rule5 (normalized text)) as [d|].
  { injection H as -> ->. rewrite bool_decide_eq_true_2 by eauto.
    cbn. split_and!; [split|split|..]; (done || lia). }
  injection H as -> ->. rewrite (bool_decide_eq_false_2 (is_Some None)) by (by intros [? ?]).
  cbn. split_and!; [split|split|..]; (done || lia).
Qed.

(** The rule that resolves a text, in the words of the specification. *)
Lemma resolvingRule_Rules (text : string) :
  let r := normalized text in
  (resolvingRule text = 1 <-> Rule1 r)
  /\ (resolvingRule text = 2 <-> ~ Rule1 r /\ Rule2 r)
  /\ (resolvingRule text = 3 <-> ~ Rule1 r /\ ~ Rule2 r /\ Rule3 r)
  /\ (resolvingRule text = 4 <->
        ~ Rule1 r /\ ~ Rule2 r /\ ~ Rule3 r /\ exists n u, Rule4 r n u)
  /\ (resolvingRule text = 5 <->
        ~ Rule1 r /\ ~ Rule2 r /\ ~ Rule3 r /\ (forall n u, ~ Rule4 r n u)
        /\ exists d, Rule5 r d)
  /\ (resolvingRule text = 6 <->
        ~ Rule1 r /\ ~ Rule2 r /\ ~ Rule3 r /\ (forall n u, ~ Rule4 r n u)
        /\ forall d, ~ Rule5 r d).
Proof.
  intros r. unfold resolvingRule. fold r.
  rewrite <- rule1_Rule1, <- rule2_Rule2, <- rule3_Rule3, <- rule4_none, <- rule5_none.
  assert (H4 : (exists n u, Rule4 r n u) <-> rule4 r ≠ None).
  { split.
    - intros (n & u & H). apply rule4_Rule4 in H. by rewrite H.
    - destruct (rule4 r) as [[n u]|] eqn:E; [|done]. intros _.
      exists n, u. by apply rule4_Rule4. }
  assert (H5 : (exists d, Rule5 r d) <-> rule5 r ≠ None).
  { split.
    - intros (d & H). apply rule5_Rule5 in H. by rewrite H.
    - destruct (rule5 r) as [d|] eqn:E; [|done]. intros _.
      exists d. by apply rule5_Rule5. }
  rewrite H4, H5. clear H4 H5.
  destruct (rule1 r), (rule2 r), (rule3 r), (rule4 r) as [[n u]|], (rule5 r) as [d|];
    rewrite ?(bool_decide_eq_false_2 (is_Some None)) by (by intros [? ?]);
    rewrite ?bool_decide_eq_true_2 by eauto;
    intuition (congruence || lia).
Qed.

(** [isRecognized] is false exactly on the texts no rule matches. *)
Lemma isRecognized_Rules (now : Z) (text : string) :
  let r := normalized text in
  isRecognized now text = false <->
  ~ Rule1 r /\ ~ Rule2 r /\ ~ Rule3 r /\ (forall n u, ~ Rule4 r n u)
  /\ forall d, ~ Rule5 r d.
Proof.
  intros r. destruct (isRecognized_by_rule now text) as (_ & H & _).
  destruct (resolvingRule_Rules text) as (_ & _ & _ & _ & _ & H6).
  fold r in H6. by rewrite H, H6.
Qed.

Lemma nextWeekday_later (now d : Z) :
  0 <= d <= 6 ->
  let t := nextWeekday now d in
  getDay t = d
  /\ getHours t = 9 /\ getMinutes t = 0 /\ t mod msPerMinute = 0
  /\ now / msPerDay < t / msPerDay <= now / msPerDay + 7.
Proof.
  intros Hd t. subst t.
  unfold nextWeekday, at9, addDays, getDay, getHours, getMinutes, msPerDay, msPerHour,
    msPerMinute.
  destruct (Z.leb_spec (d - (now / 86400000 + 4) mod 7) 0);
    split_and!; Z.div_mod_to_equations; lia.
Qed.

(** X3. A reply that names a weekday and has no relative amount: read at
    a clock value from which the coming week is within the range of
    dates, [extractDateFromResponse] returns a date, not the Invalid
    Date, at 09:00 sharp on a day that is the first weekday of the list
    from Sunday to Saturday the reply names; that day is after the day of
    the clock and at most seven days later, never the same day. [classify]
    returns that date for a reply rules 1 to 3 do not resolve. *)
Theorem weekday_reply_is_a_later_day (now : Z) (text : string) (d : Z) :
  let r := normalized text in
  - maxTime <= now <= maxTime - 8 * msPerDay ->
  (forall n u, ~ Rule4 r n u) -> Rule5 r d ->
  exists t,
    extractDateFromResponse now r = Some (At t)
    /\ (~ Rule1 r -> ~ Rule2 r -> ~ Rule3 r -> classify now text = CustomAt (At t))
    /\ isRecognized now text = true
    /\ getDay t = d
    /\ getHours t = 9 /\ getMinutes t = 0 /\ t mod msPerMinute = 0
    /\ now / msPerDay < t / msPerDay <= now / msPerDay + 7
    /\ now < t.
Proof.
  intros r Hnow R4 R5.
  apply rule4_none in R4. pose proof R5 as E5. apply rule5_Rule5 in E5.
  pose proof (rule5_range _ _ E5) as Hd.
  pose proof (nextWeekday_later now d Hd) as Hw. cbv zeta in Hw.
  destruct Hw as (Hday & Hh & Hm & Hs & Hlater & Hweek).
  assert (Hclip : timeClip (nextWeekday now d) = At (nextWeekday now d)).
  { apply timeClip_valid. unfold maxTime, msPerDay in *. Z.div_mod_to_equations. lia. }
  exists (nextWeekday now d). split_and!; try done.
  - unfold rule4 in R4. unfold rule5 in E5. unfold extractDateFromResponse.
    destruct (firstMatch inMatchAt r) as [[ds [|]]|]; [done|done|].
    destruct (firstMatch minutesMatchAt r) as [ds|]; [done|].
    destruct (List.find _ dayNames) as [dayMatch|]; [|done].
    assert (Ed : indexOf dayNames dayMatch = d) by congruence.
    rewrite setHours9_setDate. cbv zeta. rewrite Ed.
    change (Some (timeClip (nextWeekday now d)) = Some (At (nextWeekday now d))).
    by rewrite Hclip.
  - intros R1 R2 R3.
    destruct (classify_rules now text) as (_ & _ & _ & _ & H5 & _).
    rewrite (H5 R1 R2 R3 (proj1 (rule4_none r) R4) d R5). by rewrite Hclip.
  - pose proof (parse_by_rule now text) as H. cbv zeta in H. fold r in H.
    apply (f_equal snd) in H. cbn [snd] in H. unfold isRecognized. rewrite H.
    rewrite R4, E5. destruct (rule1 r), (rule2 r), (rule3 r); done.
  - unfold msPerDay in *. Z.div_mod_to_equations. lia.
Qed.

(** Read on the first day of the epoch, a Thursday: "thursday" is a week
    away, at 09:00. *)
Lemma weekday_reply_is_a_later_day_witness :
  exists t,
    extractDateFromResponse 0 (normalized "Thursday") = Some (At t)
    /\ (~ Rule1 (normalized "Thursday") -> ~ Rule2 (normalized "Thursday") ->
        ~ Rule3 (normalized "Thursday") -> classify 0 "Thursday" = CustomAt (At t))
    /\ isRecognized 0 "Thursday" = true
    /\ getDay t = 4
    /\ getHours t = 9 /\ getMinutes t = 0 /\ t mod msPerMinute = 0
    /\ 0 / msPerDay < t / msPerDay <= 0 / msPerDay + 7
    /\ 0 < t.
Proof.
  apply (weekday_reply_is_a_later_day 0 "Thursday" 4).
  - vm_compute. split; discriminate.
  - apply rule4_none. reflexivity.
  - apply rule5_Rule5. reflexivity.
Defined.

End ClassifierFacts.

(** ** The controller *)
Module AppFacts.
Import Text Clock Classifier App SessionSpec.

#[local] Opaque repromptMessage helpMessage generateSchedulingOptionsMessage
  formatSuggestionMessage createUnifiedMessage reminderMessage schedulingMessage.

Lemma Failed_or_not (r : Response) : r = Failed \/ r ≠ Failed.
Proof. destruct r; (by left) || (by right). Qed.

Section Run.
Context (oracle : World -> Request -> Response).

Lemma run_bind {A B} (p : Async A) (f : A -> Async B) (w : World) :
  run oracle (p ≫= f) w =
    match run oracle p w with
    | (inl a, w') => run oracle (f a) w'
    | (inr e, w') => (inr e, w')
    end.
Proof.
  unfold mbind, Async_bind. revert w.
  induction p as [a|e|k IH|w' k IH|q k IH]; intros w; cbn; eauto.
Qed.

Lemma run_catch {A} (p : Async A) (h : string -> Async A) (w : World) :
  run oracle (catch p h) w =
    match run oracle p w with
    | (inl a, w') => (inl a, w')
    | (inr e, w') => run oracle (h e) w'
    end.
Proof.
  revert w. induction p as [a|e|k IH|w' k IH|q k IH]; intros w; cbn; eauto.
Qed.

Lemma run_gets {A} (f : World -> A) (w : World) :
  run oracle (gets f) w = (inl (f w), w).
Proof. reflexivity. Qed.

Lemma run_modify (f : World -> World) (w : World) :
  run oracle (modify f) w = (inl tt, f w).
Proof. reflexivity. Qed.

Lemma run_send_ok (a b : string) (w : World) :
  oracle w (Send a b) ≠ Failed ->
  run oracle (send a b) w = (inl tt, setOutbox (outbox w ++ [(a, b)]) w).
Proof. intros H. cbn. by destruct (oracle w (Send a b)). Qed.

Lemma run_send_failed (a b : string) (w : World) :
  oracle w (Send a b) = Failed ->
  run oracle (send a b) w = (inr "send failed", w).
Proof. intros H. cbn. by rewrite H. Qed.

Lemma run_addContact_ok (c : Contact) (d : Database) (w : World) :
  database w = Some d -> oracle w Storage ≠ Failed ->
  run oracle (addContact c) w =
    (inl (lastID d + 1),
     setDatabase (Some {| rows := <[lastID d + 1 := c]> (rows d);
                          lastID := lastID d + 1 |}) w).
Proof.
  intros Hd Ho. unfold addContact. rewrite run_bind, run_gets. cbn. rewrite Hd. cbn.
  destruct (oracle w Storage); try done; cbn; by rewrite Hd.
Qed.

Lemma run_updateContact_ok (i : Z) (u : ContactUpdate) (d : Database) (w : World) :
  database w = Some d -> newScheduledFollowUp u ≠ Some InvalidDate ->
  oracle w Storage ≠ Failed ->
  run oracle (updateContact i u) w =
    (inl tt,
     setDatabase (Some {| rows := alter (applyUpdate u) i (rows d);
                          lastID := lastID d |}) w).
Proof.
  intros Hd Hu Ho. unfold updateContact. rewrite run_bind, run_gets. cbn. rewrite Hd.
  destruct (newScheduledFollowUp u) as [[t|]|]; try done; cbn;
    destruct (oracle w Storage); try done; cbn; by rewrite Hd.
Qed.

Lemma run_updateContact_invalid (i : Z) (u : ContactUpdate) (d : Database) (w : World) :
  database w = Some d -> newScheduledFollowUp u = Some InvalidDate ->
  run oracle (updateContact i u) w = (inr "Invalid time value", w).
Proof.
  intros Hd Hu. unfold updateContact. rewrite run_bind, run_gets. cbn.
  by rewrite Hd, Hu.
Qed.

End Run.

Lemma fireTimer_spec (i : nat) (w w' : World) :
  fireTimer i w = Some w' ->
  exists tm, timers w !! i = Some tm /\ due tm <= clock w
    /\ w' = expire (forSender tm) (setTimers (delete i (timers w)) w).
Proof.
  unfold fireTimer. destruct (timers w !! i) as [tm|]; [|done].
  destruct (Z.leb_spec (due tm) (clock w)); [|done].
  intros [= <-]. eauto.
Qed.


Lemma truthy_Some (s : string) : s ≠ "" -> truthy (Some s) = Some s.
Proof. intros H. cbn. by destruct s. Qed.


End AppFacts.

(** ** What a handler may do to the session maps *)
Module SessionEffects.
Import Text Clock Classifier App SessionSpec AppFacts.

#[local] Opaque repromptMessage helpMessage generateSchedulingOptionsMessage
  formatSuggestionMessage createUnifiedMessage reminderMessage schedulingMessage.

#[global] Instance untouched_preorder : PreOrder untouched.
Proof.
  split; [by intros w | intros x y z Hxy Hyz]. unfold untouched in *. congruence.
Qed.

Lemma session_clear (who : string) (w w' : World) :
  session w' = session w ->
  session (clearPendingData who w') = session (clearPendingData who w).
Proof. unfold session. cbn. intros [= -> -> ->]. done. Qed.

Lemma session_clear_clear (who : string) (w : World) :
  session (clearPendingData who (clearPendingData who w)) = session (clearPendingData who w).
Proof. unfold session. cbn. by rewrite !delete_delete_eq. Qed.

#[global] Instance clearedAtMost_preorder (who : string) : PreOrder (clearedAtMost who).
Proof.
  split; [by left|]. intros x y z Hxy Hyz. unfold clearedAtMost in *.
  destruct Hxy as [Hxy|Hxy], Hyz as [Hyz|Hyz].
  - left. congruence.
  - right. rewrite Hyz. by apply session_clear.
  - right. congruence.
  - right. rewrite Hyz.
    assert (session (clearPendingData who y) =
            session (clearPendingData who (clearPendingData who x))) as ->.
    { unfold session in *. cbn in *. by injection Hxy as -> -> ->. }
    apply session_clear_clear.
Qed.

#[global] Instance overwrittenAtMost_preorder (who : string) :
  PreOrder (overwrittenAtMost who).
Proof.
  split; [intros w; unfold overwrittenAtMost; by split_and!; left|].
  intros x y z (F1 & C1 & D1) (F2 & C2 & D2).
  split_and!.
  - destruct F1 as [F1|F1], F2 as [F2|F2]; rewrite F2, F1; eauto.
    right. by rewrite insert_insert_eq.
  - destruct C1 as [C1|[c C1]], C2 as [C2|[c' C2]]; rewrite C2, C1; eauto.
    right. exists c'. by rewrite insert_insert_eq.
  - destruct D1 as [D1|[c D1]], D2 as [D2|[c' D2]]; rewrite D2, D1; eauto.
    right. exists c'. by rewrite insert_insert_eq.
Qed.

Lemma untouched_cleared (who : string) (w w' : World) :
  untouched w w' -> clearedAtMost who w w'.
Proof. by left. Qed.

Lemma untouched_overwritten (who : string) (w w' : World) :
  untouched w w' -> overwrittenAtMost who w w'.
Proof.
  unfold untouched, session, overwrittenAtMost. intros [= E1 E2 E3].
  rewrite E1, E2, E3. by split_and!; left.
Qed.

Section Rules.
Context (R : relation World) `{!PreOrder R}.

Lemma Eff_ret {A} (a : A) : Eff R (Ret a).
Proof. intros o w. cbn. reflexivity. Qed.

Lemma Eff_throw {A} (e : string) : Eff R (@Throw A e).
Proof. intros o w. cbn. reflexivity. Qed.

Lemma Eff_get {A} (k : World -> Async A) : (forall w, Eff R (k w)) -> Eff R (Get k).
Proof. intros H o w. cbn. apply H. Qed.

Lemma Eff_await {A} (q : Request) (k : Response -> Async A) :
  (forall r, Eff R (k r)) -> Eff R (Await q k).
Proof. intros H o w. cbn. apply H. Qed.

Lemma Eff_gets {A} (f : World -> A) : Eff R (gets f).
Proof. intros o w. cbn. reflexivity. Qed.

Lemma Eff_modify (f : World -> World) : (forall w, R w (f w)) -> Eff R (modify f).
Proof. intros H o w. cbn. apply H. Qed.

Lemma Eff_bind {A B} (p : Async A) (f : A -> Async B) :
  Eff R p -> (forall a, Eff R (f a)) -> Eff R (p ≫= f).
Proof.
  intros Hp Hf o w. rewrite run_bind. specialize (Hp o w).
  destruct (run o p w) as [[a|e] w1]; cbn in *; [|done].
  etrans; [exact Hp|apply Hf].
Qed.

Lemma Eff_catch {A} (p : Async A) (h : string -> Async A) :
  Eff R p -> (forall e, Eff R (h e)) -> Eff R (catch p h).
Proof.
  intros Hp Hh o w. rewrite run_catch. specialize (Hp o w).
  destruct (run o p w) as [[a|e] w1]; cbn in *; [done|].
  etrans; [exact Hp|apply Hh].
Qed.

Lemma Eff_finally {A} (p : Async A) (f : Async unit) :
  Eff R p -> Eff R f -> Eff R (finally p f).
Proof.
  intros Hp Hf. unfold finally. apply Eff_bind.
  - apply Eff_catch; [|intros e; apply Eff_ret].
    apply Eff_bind; [done|intros a; apply Eff_ret].
  - intros r. apply Eff_bind; [done|]. intros _. destruct r; [apply Eff_ret|apply Eff_throw].
Qed.

End Rules.

Lemma Eff_weaken {A} (R R' : relation World) (p : Async A) :
  (forall w w', R w w' -> R' w w') -> Eff R p -> Eff R' p.
Proof. intros H Hp o w. apply H, Hp. Qed.

(** The programs that leave the session alone. *)
Lemma send_untouched (a b : string) : Eff untouched (send a b).
Proof.
  apply Eff_await. intros r.
  destruct r; try apply Eff_throw; try apply Eff_modify; try apply _; by intros w.
Qed.

Lemma log_untouched (l : string) : Eff untouched (log l).
Proof. apply Eff_modify. by intros w. Qed.

Lemma addContact_untouched (c : Contact) : Eff untouched (addContact c).
Proof.
  unfold addContact. apply Eff_bind; [apply _|apply Eff_gets; apply _|].
  intros [d|]; [|apply Eff_throw; apply _].
  apply Eff_await. intros r.
  assert (H : Eff untouched
    (Get (fun w => match database w with
                   | None => Throw "Database not initialized"
                   | Some d0 =>
                       Put (setDatabase
                              (Some {| rows := <[lastID d0 + 1 := c]> (rows d0);
                                       lastID := lastID d0 + 1 |}) w)
                           (Ret (lastID d0 + 1))
                   end))).
  { intros o w. cbn. by destruct (database w). }
  destruct r; try exact H. apply Eff_throw; apply _.
Qed.

Lemma updateContact_untouched (i : Z) (u : ContactUpdate) : Eff untouched (updateContact i u).
Proof.
  unfold updateContact. apply Eff_bind; [apply _|apply Eff_gets; apply _|].
  intros [d|]; [|apply Eff_throw; apply _].
  assert (H : Eff untouched
    (Get (fun w => match database w with
                   | None => Throw "Database not initialized"
                   | Some d0 =>
                       Put (setDatabase
                              (Some {| rows := alter (applyUpdate u) i (rows d0);
                                       lastID := lastID d0 |}) w)
                           (Ret tt)
                   end))).
  { intros o w. cbn. by destruct (database w). }
  destruct (newScheduledFollowUp u) as [[t|]|]; try (apply Eff_throw; apply _);
    apply Eff_await; intros r; destruct r; try exact H; apply Eff_throw; apply _.
Qed.

Lemma scheduleBasedOnPreference_untouched (cid : Z) (msg : string) (p : ScheduleOptions) :
  Eff untouched (scheduleBasedOnPreference cid msg p).
Proof.
  intros o w. cbn.
  by destruct (Scheduler.scheduleBasedOnPreference cid msg p (clock w) (scheduler w))
    as [[i|e] s'].
Qed.

#[global] Instance Session_same : Session untouched.
Proof. split; [apply _|done]. Qed.
#[global] Instance Session_cleared (who : string) : Session (clearedAtMost who).
Proof. split; [apply _|apply untouched_cleared]. Qed.
#[global] Instance Session_overwritten (who : string) : Session (overwrittenAtMost who).
Proof. split; [apply _|apply untouched_overwritten]. Qed.

Lemma Eff_neutral {A} (R : relation World) `{!Session R} (p : Async A) :
  Eff untouched p -> Eff R p.
Proof. apply Eff_weaken, Session_untouched. Qed.

(** The derivation of an effect follows the program. *)
Ltac eff :=
  repeat match goal with
  | |- PreOrder _ => apply _
  | |- Session _ => apply _
  | |- Eff _ (Ret _) => apply Eff_ret
  | |- Eff _ (Throw _) => apply Eff_throw
  | |- Eff _ (gets _) => apply Eff_gets
  | |- Eff _ (mbind _ _) => apply Eff_bind; [..|intros ?]
  | |- Eff _ (catch _ _) => apply Eff_catch; [..|intros ?]
  | |- Eff _ (Get _) => apply Eff_get; intros ?
  | |- Eff _ (Await _ _) => apply Eff_await; intros ?
  | |- Eff _ (send _ _) => apply Eff_neutral; [..|apply send_untouched]
  | |- Eff _ (sendErrorMessage _ _) => apply Eff_neutral; [..|apply send_untouched]
  | |- Eff _ (sendHelpMessage _) => apply Eff_neutral; [..|apply send_untouched]
  | |- Eff _ (log _) => apply Eff_neutral; [..|apply log_untouched]
  | |- Eff _ (addContact _) => apply Eff_neutral; [..|apply addContact_untouched]
  | |- Eff _ (updateContact _ _) => apply Eff_neutral; [..|apply updateContact_untouched]
  | |- Eff _ (scheduleBasedOnPreference _ _ _) =>
      apply Eff_neutral; [..|apply scheduleBasedOnPreference_untouched]
  | |- Eff _ (match ?x with _ => _ end) => destruct x
  end.

Lemma handleCancelCommand_effect (who : string) :
  Eff (clearedAtMost who) (handleCancelCommand who).
Proof.
  unfold handleCancelCommand. eff.
  - apply Eff_modify. intros w. by right.
  - apply Eff_modify. intros w. by left.
Qed.

Lemma handleSummaryRequest_effect (deps : Collaborators) (who : string) :
  Eff untouched (handleSummaryRequest deps who).
Proof. unfold handleSummaryRequest. eff. Qed.

Lemma handleSchedulingResponse_effect (deps : Collaborators) (who response : string) :
  Eff (clearedAtMost who) (handleSchedulingResponse deps who response).
Proof.
  unfold handleSchedulingResponse. eff;
    try (apply Eff_modify; intros ?; by right).
Qed.

Lemma generateFollowUpSuggestions_effect (who : string) (contact : Contact) :
  Eff (overwrittenAtMost who) (generateFollowUpSuggestions who contact).
Proof.
  unfold generateFollowUpSuggestions. eff;
    apply Eff_modify; intros ?; unfold overwrittenAtMost; cbn; split_and!; eauto.
Qed.

Lemma handleMeetingMessage_effect (deps : Collaborators) (who : string)
    (parsed : ParsedMeetingMessage) :
  Eff (overwrittenAtMost who) (handleMeetingMessage deps who parsed).
Proof.
  unfold handleMeetingMessage. eff.
  - apply Eff_modify; intros ?; unfold overwrittenAtMost; cbn; split_and!; eauto.
  - apply generateFollowUpSuggestions_effect.
Qed.

Lemma handleMessage_effect (deps : Collaborators) (message : Message) :
  Eff (sessionEffect (sender message)) (handleMessage deps message).
Proof.
  intros o w. unfold handleMessage. rewrite run_bind, run_gets.
  destruct (has (sender message) w).
  { left. apply handleSchedulingResponse_effect. }
  destruct (_ =? "cancel")%string.
  { left. apply handleCancelCommand_effect. }
  destruct (_ || _).
  { left. left. apply handleSummaryRequest_effect. }
  destruct (isValidMeeting _).
  - right. apply handleMeetingMessage_effect.
  - left. left. apply send_untouched.
Qed.

End SessionEffects.

(** ** The controller's check of the reply, the session's expiry, and serialization *)
Module ControllerFacts.
Import Text Clock Classifier App SessionSpec AppFacts SessionEffects ClassifierFacts Scenario.

#[local] Opaque repromptMessage helpMessage generateSchedulingOptionsMessage
  formatSuggestionMessage createUnifiedMessage reminderMessage schedulingMessage.

(** [handleSchedulingResponse] on a reply that is not the cancel command
    and that [isValidSchedulingResponse] rejects, for a sender whose draft
    is stored: the re-prompt is the one thing attempted before the
    handler returns or its [catch] takes over. *)
Lemma run_unrecognized (deps : Collaborators) (oracle : World -> Request -> Response)
    (w : World) (who response : string) (contact : Contact) (draft : string) :
  has who w = true ->
  pendingContacts w !! who = Some contact ->
  pendingDraftMessages w !! who = Some draft ->
  draft ≠ "" ->
  normalized response ≠ "cancel" ->
  isRecognized (clock w) response = false ->
  run oracle (handleSchedulingResponse deps who response) w =
    match run oracle (send who repromptMessage) w with
    | (inl a, w') => (inl a, w')
    | (inr e, w') =>
        run oracle
          (sendErrorMessage who "Sorry, I had trouble scheduling that reminder.";;
           modify (clearPendingData who)) w'
    end.
Proof.
  intros Hhas Hc Hd Hne Hcancel Hrec.
  unfold handleSchedulingResponse.
  rewrite run_bind, run_gets, Hhas. cbn [negb].
  rewrite run_catch, run_bind. cbn [run].
  rewrite Hc, Hd, (truthy_Some _ Hne).
  destruct (String.eqb_spec (trim (toLowerCase response)) "cancel") as [E|_]; [done|].
  rewrite run_bind, run_gets, run_bind, run_gets.
  unfold isRecognized in Hrec. rewrite Hrec. cbn [negb]. reflexivity.
Qed.

(** X22. An unrecognized reply is never committed. [isRecognized] is false
    exactly on the texts no rule matches, where [classify] still returns
    [Tomorrow]. The controller asks [isRecognized] before it commits: for
    an awaiting sender with a stored draft and a reply other than the
    cancel command that is not recognized, the handler touches neither the
    database nor the scheduler, whatever the environment answers, and
    sends the re-prompt. When the transport accepts it, the handler ends
    normally and the world differs from the one before only by that one
    message sent: the pending interaction is as it was. When the
    transport fails on it, the [catch] of the handler takes over: it
    sends the error report and, when that is accepted, removes the
    pending interaction; when that fails too, the handler throws and the
    world is as it was. *)
Theorem unrecognized_reply_is_never_committed :
  (forall now text,
      let r := normalized text in
      (isRecognized now text = false <->
         ~ Rule1 r /\ ~ Rule2 r /\ ~ Rule3 r /\ (forall n u, ~ Rule4 r n u)
         /\ forall d, ~ Rule5 r d)
      /\ (isRecognized now text = false -> classify now text = Tomorrow)
      /\ (isRecognized now text = true <-> 1 <= resolvingRule text <= 5)
      /\ (isRecognized now text = true ->
            classify now text = ruleDirective now text (resolvingRule text)))
  /\ (forall deps oracle w who response contact draft,
        has who w = true ->
        pendingContacts w !! who = Some contact ->
        pendingDraftMessages w !! who = Some draft ->
        draft ≠ "" ->
        normalized response ≠ "cancel" ->
        isRecognized (clock w) response = false ->
        let w' := snd (run oracle (handleSchedulingResponse deps who response) w) in
        let report := "Error: Sorry, I had trouble scheduling that reminder." in
        database w' = database w
        /\ scheduler w' = scheduler w
        /\ (oracle w (Send who repromptMessage) ≠ Failed ->
             run oracle (handleSchedulingResponse deps who response) w =
               (inl tt, setOutbox (outbox w ++ [(who, repromptMessage)]) w))
        /\ (oracle w (Send who repromptMessage) = Failed ->
            oracle w (Send who report) ≠ Failed ->
             run oracle (handleSchedulingResponse deps who response) w =
               (inl tt,
                clearPendingData who (setOutbox (outbox w ++ [(who, report)]) w)))
        /\ (oracle w (Send who repromptMessage) = Failed ->
            oracle w (Send who report) = Failed ->
             run oracle (handleSchedulingResponse deps who response) w =
               (inr "send failed", w))).
Proof.
  split.
  { intros now text r. destruct (isRecognized_by_rule now text) as (H1 & _ & H3 & H4).
    split_and!; try done. apply isRecognized_Rules. }
  intros deps oracle w who response contact draft Hhas Hc Hd Hne Hcancel Hrec w' report.
  subst w'. rewrite (run_unrecognized deps oracle w who response contact draft) by done.
  destruct (Failed_or_not (oracle w (Send who repromptMessage))) as [Hf|Hf].
  - rewrite run_send_failed by done.
    rewrite run_bind. unfold sendErrorMessage.
    change ("Error: " +:+ "Sorry, I had trouble scheduling that reminder.") with report.
    destruct (Failed_or_not (oracle w (Send who report))) as [Hf2|Hf2].
    + rewrite run_send_failed by done. cbn. split_and!; done.
    + rewrite run_send_ok by done. cbn. split_and!; done.
  - rewrite run_send_ok by done. cbn. split_and!; done.
Qed.

(** Scenario B: the trigger, then the reply "blah". *)
Lemma unrecognized_reply_is_never_committed_witness :
  let w := receive "met Sarah at conference, she does AI research" fresh in
  isRecognized (clock w) "blah" = false
  /\ classify (clock w) "blah" = Tomorrow
  /\ has me w = true
  /\ run calm (handleSchedulingResponse demoDeps me "blah") w =
       (inl tt, setOutbox (outbox w ++ [(me, repromptMessage)]) w).
Proof.
  intros w.
  destruct unrecognized_reply_is_never_committed as [Hcls Hctl].
  assert (Hrec : isRecognized (clock w) "blah" = false) by (vm_compute; reflexivity).
  split; [exact Hrec|]. split; [by apply Hcls|]. split; [vm_compute; reflexivity|].
  eapply (Hctl demoDeps calm w me "blah").
  - vm_compute. reflexivity.
  - vm_compute. reflexivity.
  - vm_compute. reflexivity.
  - vm_compute. discriminate.
  - vm_compute. discriminate.
  - exact Hrec.
  - cbn. discriminate.
Defined.

(** C5, the code at the failing input. A sender awaits a reply, with a
    draft contact and a draft message stored, and replies "blah", which
    is not recognized; the transport fails on the re-prompt. The handler
    commits nothing, but it does not keep the pending interaction as its
    re-prompt branch says it does: the [catch] of the handler sends the
    error report and clears the sender's flag, draft contact and draft
    message. *)
Lemma failed_reprompt_clears_the_session :
  let w := receive "met Sarah at conference, she does AI research" fresh in
  let lossy := dropping repromptMessage in
  let w' := snd (run lossy (handleMessage demoDeps (inbound "m2" "blah" w)) w) in
  isRecognized (clock w) "blah" = false
  /\ classify (clock w) "blah" = Tomorrow
  /\ has me w = true
  /\ (name <$> pendingContacts w !! me) = Some "Sarah"
  /\ is_Some (pendingDraftMessages w !! me)
  /\ lossy w (Send me repromptMessage) = Failed
  /\ fst (run lossy (handleMessage demoDeps (inbound "m2" "blah" w)) w) = inl tt
  /\ outbox w' =
       (outbox w ++ [(me, "Error: Sorry, I had trouble scheduling that reminder.")])%list
  /\ has me w' = false
  /\ pendingContacts w' !! me = None
  /\ pendingDraftMessages w' !! me = None
  /\ database w' = database w
  /\ scheduler w' = scheduler w.
Proof.
  intros w lossy w'.
  split; [vm_compute; reflexivity|]. split; [vm_compute; reflexivity|].
  split; [vm_compute; reflexivity|]. split; [vm_compute; reflexivity|].
  split; [vm_compute; eauto|]. split; [vm_compute; reflexivity|].
  split; [vm_compute; reflexivity|]. split; [vm_compute; reflexivity|].
  split; [vm_compute; reflexivity|]. split; [vm_compute; reflexivity|].
  split; [vm_compute; reflexivity|]. split; vm_compute; reflexivity.
Qed.


(** *** Expiry *)


(** The effect of [handleMessage] on a stored draft: it disappears only
    as [clearPendingData] of the sender removes it. *)
Lemma sessionEffect_removal (who : string) (w w' : World) :
  sessionEffect who w w' ->
  (forall x, is_Some (pendingContacts w !! x) -> pendingContacts w' !! x = None ->
     x = who /\ session w' = session (clearPendingData who w))
  /\ (forall x, is_Some (pendingDraftMessages w !! x) -> pendingDraftMessages w' !! x = None ->
        x = who /\ session w' = session (clearPendingData who w)).
Proof.
  intros [[H|H]|(F & C & D)].
  - unfold session in H. injection H as _ Ec Ed. rewrite Ec, Ed.
    split; intros x [c Hx] Hn; congruence.
  - pose proof H as H'. unfold session in H. cbn in H. injection H as _ Ec Ed.
    rewrite Ec, Ed. split; intros x [c Hx] Hn.
    + destruct (decide (x = who)) as [->|Hne]; [done|].
      rewrite lookup_delete_ne in Hn by done. congruence.
    + destruct (decide (x = who)) as [->|Hne]; [done|].
      rewrite lookup_delete_ne in Hn by done. congruence.
  - split; intros x [c Hx] Hn; exfalso.
    + destruct C as [C|[c' C]]; rewrite C in Hn; [congruence|].
      destruct (decide (who = x)) as [->|Hne].
      * by rewrite lookup_insert_eq in Hn.
      * rewrite lookup_insert_ne in Hn by done. congruence.
    + destruct D as [D|[c' D]]; rewrite D in Hn; [congruence|].
      destruct (decide (who = x)) as [->|Hne].
      * by rewrite lookup_insert_eq in Hn.
      * rewrite lookup_insert_ne in Hn by done. congruence.
Qed.

(** C10. When an auto-cleanup timer runs, it deletes the awaiting-reply
    flag of its sender and nothing else of the session: the draft
    contacts and the draft messages are as before. Shutdown and the
    passing of time leave them as well. A handled message changes the
    session in one of two ways only: at most by [clearPendingData] of its
    sender (the resolution, cancel and error paths), or at most by
    writing new values under its sender (a new trigger); so a stored
    draft contact or draft message disappears only when
    [clearPendingData] removes the three entries of that sender. *)
Theorem expiry_removes_only_the_flag :
  (forall i w w', fireTimer i w = Some w' ->
     exists tm, timers w !! i = Some tm
       /\ pendingFollowUpResponses w' = delete (forSender tm) (pendingFollowUpResponses w)
       /\ pendingContacts w' = pendingContacts w
       /\ pendingDraftMessages w' = pendingDraftMessages w)
  /\ (forall w dt,
        pendingContacts (shutdown w) = pendingContacts w
        /\ pendingDraftMessages (shutdown w) = pendingDraftMessages w
        /\ session (elapse dt w) = session w)
  /\ (forall who w,
        session (clearPendingData who w) =
          (delete who (pendingFollowUpResponses w), delete who (pendingContacts w),
           delete who (pendingDraftMessages w)))
  /\ (forall deps oracle message w,
        let w' := snd (run oracle (handleMessage deps message) w) in
        sessionEffect (sender message) w w'
        /\ (forall x, is_Some (pendingContacts w !! x) -> pendingContacts w' !! x = None ->
              x = sender message
              /\ session w' = session (clearPendingData (sender message) w))
        /\ (forall x, is_Some (pendingDraftMessages w !! x) ->
              pendingDraftMessages w' !! x = None ->
              x = sender message
              /\ session w' = session (clearPendingData (sender message) w))).
Proof.
  split_and!.
  - intros i w w' H. apply fireTimer_spec in H as (tm & Htm & _ & ->).
    exists tm. by split_and!.
  - intros w dt. by split_and!.
  - intros who w. reflexivity.
  - intros deps oracle message w w'.
    pose proof (handleMessage_effect deps message oracle w) as H. fold w' in H.
    split; [exact H|]. by apply sessionEffect_removal.
Qed.

(** A begin that the transport lets through: the draft message is stored,
    the suggestion sent, the flag set and a timer armed ten minutes
    ahead. *)
Lemma run_generateFollowUpSuggestions (oracle : World -> Request -> Response)
    (who : string) (contact : Contact) (w : World) :
  (forall w' a b, oracle w' (Send a b) ≠ Failed) ->
  exists draftMessage,
    run oracle (generateFollowUpSuggestions who contact) w =
      (inl tt,
       setTimers (timers w ++ [{| due := clock w + 10 * 60 * 1000; forSender := who |}])
         (setPendingFollowUpResponses (<[who := true]> (pendingFollowUpResponses w))
            (setOutbox (outbox w ++ [(who, formatSuggestionMessage contact draftMessage)])
               (setPendingDraftMessages
                  (<[who := draftMessage]> (pendingDraftMessages w)) w)))).
Proof.
  intros Hok. unfold generateFollowUpSuggestions.
  rewrite run_catch, run_bind.
  match goal with
  | |- context [run oracle (catch ?p ?h) w] =>
      assert (exists t, run oracle (catch p h) w = (inl t, w)) as [slotText ->]
  end.
  { cbn. destruct (oracle w (FindAvailableSlots 14 60)) as [| | |[|? ?]|]; cbn; eauto. }
  rewrite run_bind.
  match goal with
  | |- context [run oracle (if ?b then ?p else ?q) w] =>
      assert (exists t, run oracle (if b then p else q) w = (inl t, w)) as [topic ->]
  end.
  { destruct (hasMeaningfulContext _); [|cbn; eauto].
    cbn. destruct (oracle w (GenerateTopicSentence _ _ _)); cbn; eauto. }
  eexists. rewrite run_bind, run_modify, run_bind, run_send_ok by apply Hok.
  rewrite run_bind, run_modify, run_modify. reflexivity.
Qed.

(** C3, as the code has it. The session keeps no expiry time and a read
    is [pendingFollowUpResponses.has]: it looks at the flag, never at the
    clock, in every world. After a begin at clock value T that the transport lets through,
    the flag is set and a timer is armed for T + 600000; whatever the
    clock shows afterwards, the read finds the interaction as long as that
    timer has not run; the timer can run only at a clock value of at least
    T + 600000, and every read after it has run finds nothing, at every
    clock value. *)
Theorem read_checks_presence_until_timer_runs (oracle : World -> Request -> Response)
    (who : string) (contact : Contact) (w : World) :
  (forall w' a b, oracle w' (Send a b) ≠ Failed) ->
  let w1 := snd (run oracle (generateFollowUpSuggestions who contact) w) in
  let armed := {| due := clock w + 600000; forSender := who |} in
  (forall w0 t, has who (setClock t w0) = has who w0)
  /\ has who w1 = true
  /\ timers w1 = (timers w ++ [armed])%list
  /\ (forall t, has who (setClock t w1) = true)
  /\ (forall t w2, fireTimer (length (timers w)) (setClock t w1) = Some w2 ->
        clock w + 600000 <= t
        /\ forall t', has who (setClock t' w2) = false).
Proof.
  intros Hok w1 armed.
  destruct (run_generateFollowUpSuggestions oracle who contact w Hok) as [draft Hrun].
  subst w1. rewrite Hrun. cbn [snd].
  assert (Hhas : forall t, has who
    (setClock t
       (setTimers (timers w ++ [{| due := clock w + 10 * 60 * 1000; forSender := who |}])
          (setPendingFollowUpResponses (<[who := true]> (pendingFollowUpResponses w))
             (setOutbox (outbox w ++ [(who, formatSuggestionMessage contact draft)])
                (setPendingDraftMessages
                   (<[who := draft]> (pendingDraftMessages w)) w))))) = true).
  { intros t. unfold has. cbn. rewrite lookup_insert_eq. by apply bool_decide_eq_true_2. }
  split_and!.
  - reflexivity.
  - apply (Hhas (clock w)).
  - reflexivity.
  - exact Hhas.
  - intros t w2 H. apply fireTimer_spec in H as (tm & Htm & Hdue & ->).
    cbn in Htm. rewrite lookup_app_r in Htm by lia. rewrite Nat.sub_diag in Htm.
    injection Htm as <-. cbn in Hdue. split; [lia|].
    intros t'. unfold has, expire. cbn. rewrite lookup_delete_eq.
    apply bool_decide_eq_false_2. by intros [? ?].
Qed.

(** The trigger of scenario A, begun at clock value 0. *)
Lemma read_checks_presence_until_timer_runs_witness :
  let c := {| name := "Sarah"; event := "conference"; context := None; metAt := 0;
              phoneNumber := None; email := None; followUpStatus := followPending;
              scheduledFollowUp := None; lastInteraction := None; notes := None |} in
  let w1 := snd (run calm (generateFollowUpSuggestions me c) fresh) in
  (forall w0 t, has me (setClock t w0) = has me w0)
  /\ has me w1 = true
  /\ timers w1 = [{| due := 600000; forSender := me |}]
  /\ (forall t, has me (setClock t w1) = true)
  /\ (forall t w2, fireTimer 0 (setClock t w1) = Some w2 ->
        600000 <= t /\ forall t', has me (setClock t' w2) = false).
Proof.
  intros c.
  apply (read_checks_presence_until_timer_runs calm me c fresh).
  intros w' a b. discriminate.
Defined.

(** C3, the claim refuted. An interaction is created at clock value 0.
    At clock value 600001, past its time to live, its timer is still
    armed, not having run yet; the read finds the interaction, and the
    reply "no" is taken as the answer to it: the contact is saved. *)
Lemma expired_interaction_is_still_read :
  let w1 := receive "met Sarah at conference, she does AI research" fresh in
  let w2 := elapse 600001 w1 in
  let w3 := receive "no" w2 in
  clock w1 = 0
  /\ clock w2 >= clock w1 + 600000
  /\ timers w2 = [{| due := 600000; forSender := me |}]
  /\ has me w2 = true
  /\ outbox w3 = (outbox w2 ++ [(me, "Sarah saved with no reminder set.")])%list
  /\ (lastID <$> database w3) = Some 1.
Proof. vm_compute. split_and!; try reflexivity. discriminate. Qed.

(** C7, the code at the failing input. Sarah's interaction begins at 0
    and is resolved a minute later; its timer stays armed. Bob's begins
    at 300000; at 600000 Sarah's timer runs and deletes Bob's flag, his
    drafts staying stored. Carol's begins at 650000 and replaces Bob's
    drafts; at 900000 Bob's timer runs and deletes Carol's flag: the read
    no longer finds her interaction, 350000 ms before its own time to
    live is over, while her drafts are still stored. *)
Lemma stale_timer_expires_the_replacement :
  let wA := receive "no" (elapse 60000 (receive "met Sarah at conference" fresh)) in
  let wB := receive "met Bob at meetup" (elapse 240000 wA) in
  exists wB' wC wC',
    fireTimer 0 (elapse 300000 wB) = Some wB'
    /\ clock wB' = 600000
    /\ has me wB' = false
    /\ (name <$> pendingContacts wB' !! me) = Some "Bob"
    /\ wC = receive "met Carol at lunch" (elapse 50000 wB')
    /\ clock wC = 650000
    /\ has me wC = true
    /\ (name <$> pendingContacts wC !! me) = Some "Carol"
    /\ timers wC = [{| due := 900000; forSender := me |};
                    {| due := 1250000; forSender := me |}]
    /\ fireTimer 0 (elapse 250000 wC) = Some wC'
    /\ clock wC' = 900000
    /\ clock wC' < 650000 + 600000
    /\ has me wC' = false
    /\ (name <$> pendingContacts wC' !! me) = Some "Carol"
    /\ timers wC' = [{| due := 1250000; forSender := me |}].
Proof.
  intros wA wB. eexists _, _, _.
  split; [vm_compute; reflexivity|].
  split; [vm_compute; reflexivity|].
  split; [vm_compute; reflexivity|].
  split; [vm_compute; reflexivity|].
  split; [reflexivity|].
  split; [vm_compute; reflexivity|].
  split; [vm_compute; reflexivity|].
  split; [vm_compute; reflexivity|].
  split; [vm_compute; reflexivity|].
  split; [vm_compute; reflexivity|].
  split; [vm_compute; reflexivity|].
  split; [vm_compute; reflexivity|].
  split; [vm_compute; reflexivity|].
  split; [vm_compute; reflexivity|].
  vm_compute; reflexivity.
Qed.

(** *** Serialization *)

(** C8, the code at the failing input. A poll finds the message "cancel"
    and starts handling it; [handleCancelCommand] resets the processing
    flag and awaits its reply being sent. With that handler still
    waiting, the flag is false; the next poll passes the guard, finds the
    same message, not yet recorded as processed, and handles it again:
    the console shows two handlings begun and none ended, and two
    callbacks wait on the transport. The same happens without "cancel"
    when two polls pass the guard before either has set the flag. *)
Lemma cancel_command_reopens_the_guard :
  let found := Messages (Some [cancelText]) in
  let trigger := Messages (Some [triggerText]) in
  let reply := Send me "Ready for new contacts!" in
  observe (loop demoDeps [Poll; Answer 0 found] boot)
    = Some (false, [detectedLine], [reply])
  /\ observe (loop demoDeps [Poll; Answer 0 found; Poll; Answer 1 found] boot)
      = Some (false, [detectedLine; detectedLine], [reply; reply])
  /\ observe (loop demoDeps [Poll; Poll; Answer 0 trigger; Answer 1 trigger] boot)
      = Some (true, [detectedLine; detectedLine],
              [FindAvailableSlots 14 60; FindAvailableSlots 14 60]).
Proof. vm_compute. split_and!; reflexivity. Qed.

End ControllerFacts.

(** ** The whole program: the controller's registrations *)
Module ProgramFacts.
Import Text Clock Classifier App SessionSpec AppFacts SessionEffects Reachable
  SchedulerInvariant Program Scenario.

#[local] Opaque repromptMessage helpMessage generateSchedulingOptionsMessage
  formatSuggestionMessage createUnifiedMessage reminderMessage schedulingMessage.

#[global] Instance quiet_preorder : PreOrder quiet.
Proof.
  split; [by intros w|]. intros x y z [H1 H2] [H3 H4]. split; congruence.
Qed.

#[global] Instance settled_preorder : PreOrder settled.
Proof.
  split; [by intros w|]. intros x y z [H1 H2] [H3 H4]. split; congruence.
Qed.

Lemma quiet_settled (w w' : World) : quiet w w' -> settled w w'.
Proof. intros [H1 H2]. split; [done|by rewrite H2]. Qed.

Lemma grows_refl (w : World) : grows w w.
Proof. unfold grows. destruct (database w); [lia|done]. Qed.

Lemma quiet_registers (w w' : World) : quiet w w' -> registersAtMostOnce w w'.
Proof.
  intros [H1 H2]. left. split; [done|]. unfold grows. rewrite H2.
  destruct (database w); [lia|done].
Qed.

Lemma quiet_then_registers (w w1 w2 : World) :
  quiet w w1 -> registersAtMostOnce w1 w2 -> registersAtMostOnce w w2.
Proof.
  intros [H1 H2] [[H3 H4]|(d & d' & msg & p & now & Hd & Hd' & Hl & Hs)].
  - left. split; [congruence|]. unfold grows in *. by rewrite <- H2.
  - right. exists d, d', msg, p, now. split_and!; try done; congruence.
Qed.

Lemma registers_then_settled (w w1 w2 : World) :
  registersAtMostOnce w w1 -> settled w1 w2 -> registersAtMostOnce w w2.
Proof.
  intros [[H3 H4]|(d & d' & msg & p & now & Hd & Hd' & Hl & Hs)] [H1 H2].
  - left. split; [congruence|]. unfold grows in *.
    destruct (database w) as [d|], (database w1) as [d1|], (database w2) as [d2|];
      try done. injection H2 as H2. lia.
  - right. rewrite Hd' in H2. destruct (database w2) as [d2|] eqn:E2; [|done].
    injection H2 as H2. exists d, d2, msg, p, now. split_and!; try done; congruence.
Qed.

(** Sequencing programs whose effects are of different kinds. *)
Lemma Eff_seq {A B} (R1 R2 R3 : relation World) (p : Async A) (f : A -> Async B) :
  Eff R1 p -> (forall a, Eff R2 (f a)) ->
  (forall x y, R1 x y -> R3 x y) ->
  (forall x y z, R1 x y -> R2 y z -> R3 x z) ->
  Eff R3 (p ≫= f).
Proof.
  intros Hp Hf H13 H123 o w. rewrite run_bind. specialize (Hp o w).
  destruct (run o p w) as [[a|e] w1]; cbn in *; [|by apply H13].
  eapply H123; [exact Hp|apply Hf].
Qed.

Lemma Eff_catch_seq {A} (R1 R2 R3 : relation World) (p : Async A)
    (h : string -> Async A) :
  Eff R1 p -> (forall e, Eff R2 (h e)) ->
  (forall x y, R1 x y -> R3 x y) ->
  (forall x y z, R1 x y -> R2 y z -> R3 x z) ->
  Eff R3 (catch p h).
Proof.
  intros Hp Hh H13 H123 o w. rewrite run_catch. specialize (Hp o w).
  destruct (run o p w) as [[a|e] w1]; cbn in *; [by apply H13|].
  eapply H123; [exact Hp|apply Hh].
Qed.

(** The derivation of an effect, with [leaf] for the programs it does not
    take apart. *)
Ltac eff_by leaf :=
  repeat match goal with
  | |- PreOrder _ => apply _
  | |- Eff _ (Ret _) => apply Eff_ret
  | |- Eff _ (Throw _) => apply Eff_throw
  | |- Eff _ (gets _) => apply Eff_gets
  | |- Eff _ (mbind _ _) => apply Eff_bind; [..|intros ?]
  | |- Eff _ (catch _ _) => apply Eff_catch; [..|intros ?]
  | |- Eff _ (Get _) => apply Eff_get; intros ?
  | |- Eff _ (Await _ _) => apply Eff_await; intros ?
  | |- Eff _ (modify _) => apply Eff_modify; intros ?; by split
  | |- Eff _ (match ?x with _ => _ end) => destruct x
  | |- Eff _ _ => progress leaf
  end.

Lemma send_quiet (a b : string) : Eff quiet (send a b).
Proof. unfold send. eff_by idtac. Qed.

Lemma log_quiet (l : string) : Eff quiet (log l).
Proof. unfold log. eff_by idtac. Qed.

Ltac quiet_leaf :=
  first [ apply send_quiet | apply log_quiet
        | unfold sendErrorMessage; apply send_quiet
        | unfold sendHelpMessage; apply send_quiet ].

Lemma handleCancelCommand_quiet (who : string) : Eff quiet (handleCancelCommand who).
Proof. unfold handleCancelCommand. eff_by quiet_leaf. Qed.

Lemma handleSummaryRequest_quiet (deps : Collaborators) (who : string) :
  Eff quiet (handleSummaryRequest deps who).
Proof. unfold handleSummaryRequest. eff_by quiet_leaf. Qed.

Lemma generateFollowUpSuggestions_quiet (who : string) (contact : Contact) :
  Eff quiet (generateFollowUpSuggestions who contact).
Proof. unfold generateFollowUpSuggestions. eff_by quiet_leaf. Qed.

Lemma handleMeetingMessage_quiet (deps : Collaborators) (who : string)
    (parsed : ParsedMeetingMessage) :
  Eff quiet (handleMeetingMessage deps who parsed).
Proof.
  unfold handleMeetingMessage.
  eff_by ltac:(first [quiet_leaf | apply generateFollowUpSuggestions_quiet]).
Qed.

Lemma sendFollowUpReminder_quiet (cid : Z) (msg : string) :
  Eff quiet (sendFollowUpReminder cid msg).
Proof. unfold sendFollowUpReminder. eff_by quiet_leaf. Qed.

Lemma updateContact_settled (i : Z) (u : ContactUpdate) : Eff settled (updateContact i u).
Proof.
  intros o w. unfold updateContact. rewrite run_bind, run_gets.
  destruct (database w) as [d|] eqn:Hd; [|done]. cbn.
  destruct (newScheduledFollowUp u) as [[t|]|]; cbn; try done;
    destruct (o w Storage); cbn; try done; rewrite Hd; cbn;
    (split; [done|]); by rewrite Hd.
Qed.

Ltac settled_leaf :=
  first [ apply updateContact_settled
        | eapply Eff_weaken; [apply quiet_settled|quiet_leaf] ].

(** Every outcome of [addContact]: it throws and leaves the world, or it
    gives out the next row id. *)
Lemma run_addContact_cases (o : World -> Request -> Response) (c : Contact) (w : World) :
  (exists e, run o (addContact c) w = (inr e, w))
  \/ (exists d, database w = Some d
        /\ run o (addContact c) w =
             (inl (lastID d + 1),
              setDatabase (Some {| rows := <[lastID d + 1 := c]> (rows d);
                                   lastID := lastID d + 1 |}) w)).
Proof.
  destruct (database w) as [d|] eqn:Hd.
  - destruct (Failed_or_not (o w Storage)) as [Hf|Hf].
    + left. unfold addContact. rewrite run_bind, run_gets. cbn. rewrite Hd. cbn.
      rewrite Hf. eauto.
    + right. exists d. split; [done|]. by apply run_addContact_ok.
  - left. unfold addContact. rewrite run_bind, run_gets. cbn. rewrite Hd. cbn. eauto.
Qed.

(** The committing part of [handleSchedulingResponse]: the contact is
    stored, then at most one registration is made, under its row id. *)
Lemma commit_registers (deps : Collaborators) (who : string) (contact : Contact)
    (draftMessage : string) (schedulePreference : ScheduleOptions) :
  Eff registersAtMostOnce
    (contactId ← addContact contact;
     if noReminder schedulePreference then
       updateContact contactId
         {| newFollowUpStatus := Some followCompleted; newScheduledFollowUp := None |};;
       send who (name contact +:+ " saved with no reminder set.");;
       modify (clearPendingData who)
     else
       reminderId ← scheduleBasedOnPreference contactId
                      (reminderMessage contact draftMessage) schedulePreference;
       match reminderId with
       | Some _ =>
           send who (schedulingMessage deps schedulePreference contact draftMessage);;
           updateContact contactId
             {| newFollowUpStatus :=
                  Some (if sendNow schedulePreference then followSent
                        else followScheduled);
                newScheduledFollowUp := customDate schedulePreference |}
       | None => Ret tt
       end;;
       modify (clearPendingData who)).
Proof.
  intros o w. rewrite run_bind.
  destruct (run_addContact_cases o contact w) as [[e ->]|(d & Hd & ->)].
  { cbn. by apply quiet_registers. }
  set (w1 := setDatabase _ w).
  assert (H1 : registersAtMostOnce w w1).
  { left. split; [done|]. unfold grows. rewrite Hd. cbn. lia. }
  destruct (noReminder schedulePreference).
  - match goal with
    | |- registersAtMostOnce w (snd (run o ?T w1)) =>
        assert (HT : Eff settled T) by (eff_by settled_leaf)
    end.
    eapply registers_then_settled; [exact H1|apply HT].
  - rewrite run_bind. unfold scheduleBasedOnPreference at 1. cbn [run].
    destruct (Scheduler.scheduleBasedOnPreference (lastID d + 1)
                (reminderMessage contact draftMessage) schedulePreference
                (clock w1) (scheduler w1)) as [r s'] eqn:E.
    cbn [run]. set (w2 := setScheduler s' w1).
    assert (H2 : registersAtMostOnce w w2).
    { right. exists d. eexists _, (reminderMessage contact draftMessage),
        schedulePreference, (clock w1).
      split; [done|]. split; [reflexivity|]. split; [reflexivity|].
      change (scheduler w2) with s'. change (scheduler w1) with (scheduler w) in E.
      by rewrite E. }
    destruct r as [r|e]; cbn [run]; [|exact H2].
    match goal with
    | |- registersAtMostOnce w (snd (run o ?T w2)) =>
        assert (HT : Eff settled T) by (destruct r; eff_by settled_leaf)
    end.
    eapply registers_then_settled; [exact H2|apply HT].
Qed.

Lemma handleSchedulingResponse_registers (deps : Collaborators) (who response : string) :
  Eff registersAtMostOnce (handleSchedulingResponse deps who response).
Proof.
  unfold handleSchedulingResponse.
  apply (Eff_seq quiet registersAtMostOnce);
    [apply Eff_gets; apply _| |apply quiet_registers|apply quiet_then_registers].
  intros pendingHere. destruct (negb pendingHere).
  { eapply Eff_weaken; [apply quiet_registers|apply Eff_ret; apply _]. }
  apply (Eff_catch_seq registersAtMostOnce settled);
    [| |done|apply registers_then_settled].
  2:{ intros e. eff_by settled_leaf. }
  apply (Eff_seq quiet registersAtMostOnce);
    [apply Eff_get; intros ?; apply Eff_ret; apply _| |apply quiet_registers
    |apply quiet_then_registers].
  intros w0.
  destruct (pendingContacts w0 !! who) as [contact|];
    [|eapply Eff_weaken; [apply quiet_registers|eff_by quiet_leaf]].
  destruct (truthy (pendingDraftMessages w0 !! who)) as [draftMessage|];
    [|eapply Eff_weaken; [apply quiet_registers|eff_by quiet_leaf]].
  destruct (_ =? "cancel")%string;
    [eapply Eff_weaken; [apply quiet_registers|eff_by quiet_leaf]|].
  apply (Eff_seq quiet registersAtMostOnce);
    [apply Eff_gets; apply _| |apply quiet_registers|apply quiet_then_registers].
  intros t1.
  apply (Eff_seq quiet registersAtMostOnce);
    [apply Eff_gets; apply _| |apply quiet_registers|apply quiet_then_registers].
  intros t2.
  destruct (negb _);
    [eapply Eff_weaken; [apply quiet_registers|eff_by quiet_leaf]|].
  apply commit_registers.
Qed.

Lemma handleMessage_registers (deps : Collaborators) (message : Message) :
  Eff registersAtMostOnce (handleMessage deps message).
Proof.
  unfold handleMessage.
  apply (Eff_seq quiet registersAtMostOnce);
    [apply Eff_gets; apply _| |apply quiet_registers|apply quiet_then_registers].
  intros pendingHere. destruct pendingHere.
  { apply handleSchedulingResponse_registers. }
  eapply Eff_weaken; [apply quiet_registers|].
  destruct (_ =? "cancel")%string; [apply handleCancelCommand_quiet|].
  destruct (_ || _); [apply handleSummaryRequest_quiet|].
  destruct (isValidMeeting _); [apply handleMeetingMessage_quiet|].
  unfold sendHelpMessage. apply send_quiet.
Qed.

Lemma Inv_scheduleBasedOnPreference (R : list Scheduler.ReminderId)
    (s : Scheduler.SchedulerService) (cid : Z) (msg : string) (p : ScheduleOptions)
    (now : Z) :
  Inv R s -> Scheduler.generateReminderId cid now ∉ R ->
  Inv R (snd (Scheduler.scheduleBasedOnPreference cid msg p now s))
  \/ Inv (R ++ [Scheduler.generateReminderId cid now])
         (snd (Scheduler.scheduleBasedOnPreference cid msg p now s)).
Proof.
  intros HI Hx. unfold Scheduler.scheduleBasedOnPreference, Scheduler.returned.
  pose proof (fun date imm => Inv_schedule R s cid msg date imm now HI Hx) as H.
  destruct (sendNow p); [right; apply H|].
  destruct (sendTomorrow p); [right; apply H|].
  destruct (customDate p) as [d|]; [right; apply H|].
  destruct (noReminder p); [by left|].
  right. apply H.
Qed.

Lemma Registered_quiet (R : list Scheduler.ReminderId) (w w' : World) :
  Registered R w -> quiet w w' -> Registered R w'.
Proof.
  intros (HI & Hnd & Hb) [Hs Hd]. unfold Registered. rewrite Hs, Hd. done.
Qed.

Lemma Registered_onScheduler (R : list Scheduler.ReminderId) (e : Scheduler.Event)
    (w w' : World) :
  Registered R w -> onScheduler e w = Some w' ->
  (forall s', Scheduler.step e (scheduler w) = Some s' -> Inv R s') ->
  Registered R w'.
Proof.
  intros (HI & Hnd & Hb) H Hstep. unfold onScheduler in H.
  destruct (Scheduler.step e (scheduler w)) as [s'|]; [|done].
  injection H as <-. split_and!; [by apply Hstep|done|done].
Qed.

Lemma Registered_inbound (deps : Collaborators) (R : list Scheduler.ReminderId)
    (o : World -> Request -> Response) (m : Message) (w : World) :
  Registered R w -> exists R', Registered R' (snd (run o (handleMessage deps m) w)).
Proof.
  intros (HI & Hnd & Hb).
  pose proof (handleMessage_registers deps m o w) as H.
  remember (snd (run o (handleMessage deps m) w)) as w' eqn:Hw'. clear Hw'.
  destruct H as [[Hs Hg]|(d & d' & msg & p & now & Hd & Hd' & Hl & Hs)].
  - exists R. unfold Registered. rewrite Hs. split_and!; [done|done|].
    intros d' Hd' i Hi. unfold grows in Hg. rewrite Hd' in Hg.
    destruct (database w) as [d|] eqn:E; [|done].
    specialize (Hb d eq_refl i Hi). lia.
  - assert (Hx : Scheduler.generateReminderId (lastID d + 1) now ∉ R).
    { intros Hin. specialize (Hb d Hd _ Hin). cbn in Hb. lia. }
    destruct (Inv_scheduleBasedOnPreference R (scheduler w) (lastID d + 1) msg p now
                HI Hx) as [H|H].
    + exists R. unfold Registered. rewrite Hs. split_and!; [done|done|].
      intros d2 Hd2 i Hi. assert (d2 = d') as -> by congruence.
      specialize (Hb d Hd i Hi). lia.
    + exists (R ++ [Scheduler.generateReminderId (lastID d + 1) now])%list.
      unfold Registered. rewrite Hs. split_and!; [done| |].
      * apply NoDup_app. split_and!; [done| |apply NoDup_singleton].
        intros i Hi Hi'. apply list_elem_of_singleton in Hi' as ->. done.
      * intros d2 Hd2 i Hi. assert (d2 = d') as -> by congruence.
        apply elem_of_app in Hi as [Hi|Hi].
        -- specialize (Hb d Hd i Hi). lia.
        -- apply list_elem_of_singleton in Hi as ->. cbn. lia.
Qed.

(** One step of the program keeps the registrations' ids distinct. *)
Lemma Registered_step (deps : Collaborators) (R : list Scheduler.ReminderId)
    (e : Step) (w w' : World) :
  Registered R w -> step deps e w = Some w' -> exists R', Registered R' w'.
Proof.
  intros HR Hstep. destruct e as [o m|i| |t|t|o k|dt].
  - change (Some (snd (run o (handleMessage deps m) w)) = Some w') in Hstep.
    injection Hstep as <-. by eapply Registered_inbound.
  - cbn in Hstep. apply fireTimer_spec in Hstep as (tm & _ & _ & ->).
    exists R. eapply Registered_quiet; [exact HR|done].
  - change (onScheduler Scheduler.Sweep w = Some w') in Hstep.
    exists R. apply (Registered_onScheduler R _ w w' HR Hstep).
    intros s' [= <-]. apply Inv_sweep, HR.
  - change (onScheduler (Scheduler.FireBegin t) w = Some w') in Hstep.
    exists R. apply (Registered_onScheduler R _ w w' HR Hstep).
    intros s' H. eapply Inv_fireBegin; [apply HR|exact H].
  - change (onScheduler (Scheduler.FireEnd t) w = Some w') in Hstep.
    exists R. apply (Registered_onScheduler R _ w w' HR Hstep).
    intros s' H. eapply Inv_fireEnd; [apply HR|exact H].
  - change (match Scheduler.executed (scheduler w) !! k with
            | Some e =>
                Some (snd (run o (sendFollowUpReminder (Scheduler.toContact e)
                                    (Scheduler.withMessage e)) w))
            | None => None
            end = Some w') in Hstep.
    destruct (Scheduler.executed (scheduler w) !! k) as [ex|]; [|done].
    injection Hstep as <-. exists R. eapply Registered_quiet; [exact HR|].
    apply sendFollowUpReminder_quiet.
  - cbn in Hstep. destruct (0 <=? dt); [|done]. injection Hstep as <-.
    exists R. eapply Registered_quiet; [exact HR|done].
Qed.

Lemma Registered_steps (deps : Collaborators) (es : list Step)
    (R : list Scheduler.ReminderId) (w w' : World) :
  Registered R w -> steps deps es w = Some w' -> exists R', Registered R' w'.
Proof.
  revert R w. induction es as [|e es IH]; intros R w HR H; cbn in H.
  - injection H as <-. eauto.
  - destruct (step deps e w) as [w1|] eqn:E; [|done].
    destruct (Registered_step deps R e w w1 HR E) as [R1 HR1]. eauto.
Qed.

(** X1. In the whole program, started with a fresh scheduler, the
    registered action runs at most once on behalf of every reminder id,
    whatever messages arrive, whatever the environment answers, and
    wherever sweeps and callbacks fall: the controller registers under the
    row id [addContact] has just returned, so no two registrations share
    an id. *)
Theorem controller_fires_each_reminder_at_most_once (deps : Collaborators)
    (es : list Step) (w0 w : World) :
  scheduler w0 = Scheduler.create ->
  steps deps es w0 = Some w ->
  forall i, (Scheduler.executions i (scheduler w) <= 1)%nat.
Proof.
  intros H0 Hsteps.
  assert (HR : Registered [] w0).
  { unfold Registered. rewrite H0. split_and!; [apply Inv_create|apply NoDup_nil_2|].
    intros d _ i Hi. by apply elem_of_nil in Hi. }
  destruct (Registered_steps deps es [] w0 w HR Hsteps) as (R & HI & _ & _).
  by eapply inv_once.
Qed.

(** Scenario D: the trigger, the reply "in 5 minutes", five minutes, the
    callback with a sweep between its halves, and the delivery. *)
Lemma controller_fires_each_reminder_at_most_once_witness :
  let es := [Inbound calm (inbound "m1" "met Sarah at conference" fresh);
             Inbound calm (inbound "m2" "in 5 minutes" fresh);
             TimePasses 300000; CallbackStarts 0; Sweeps; CallbackEnds 0; Sweeps;
             Reminded calm 0] in
  exists w, steps demoDeps es fresh = Some w
    /\ length (Scheduler.executed (scheduler w)) = 1%nat
    /\ forall i, (Scheduler.executions i (scheduler w) <= 1)%nat.
Proof.
  intros es. eexists. split; [vm_compute; reflexivity|].
  split; [vm_compute; reflexivity|].
  apply (controller_fires_each_reminder_at_most_once demoDeps es fresh).
  - reflexivity.
  - vm_compute. reflexivity.
Defined.

End ProgramFacts.

(** ** The handlers' writes and their failures *)
Module FootprintFacts.
Import Text Clock Classifier App SessionSpec AppFacts SessionEffects ProgramFacts
  Program Footprint.

#[local] Opaque repromptMessage helpMessage generateSchedulingOptionsMessage
  formatSuggestionMessage createUnifiedMessage reminderMessage schedulingMessage.

(** *** Programs that cannot throw *)

Lemma NoThrow_bind {A B} (p : Async A) (f : A -> Async B) :
  NoThrow p -> (forall a, NoThrow (f a)) -> NoThrow (p ≫= f).
Proof.
  intros Hp Hf. unfold mbind, Async_bind.
  induction Hp as [a|k _ IH|w k _ IH|q k _ IH]; cbn; [apply Hf|by constructor..].
Qed.

Lemma NoThrow_catch {A} (p : Async A) (h : string -> Async A) :
  (forall e, NoThrow (h e)) -> NoThrow (catch p h).
Proof.
  intros Hh. induction p as [a|e|k IH|w k IH|q k IH]; cbn;
    [constructor|apply Hh|by constructor..].
Qed.

Lemma NoThrow_gets {A} (f : World -> A) : NoThrow (gets f).
Proof. constructor. intros w. constructor. Qed.

Lemma NoThrow_modify (f : World -> World) : NoThrow (modify f).
Proof. constructor. intros w. constructor. constructor. Qed.

Lemma NoThrow_run {A} (p : Async A) (o : World -> Request -> Response) (w : World) :
  NoThrow p -> exists a, fst (run o p w) = inl a.
Proof.
  intros Hp. revert w. induction Hp as [a|k _ IH|w' k _ IH|q k _ IH]; intros w; cbn; eauto.
Qed.

Lemma NoThrow_unit (p : Async unit) (o : World -> Request -> Response) (w : World) :
  NoThrow p -> fst (run o p w) = inl tt.
Proof. intros Hp. destruct (NoThrow_run p o w Hp) as [[] H]. exact H. Qed.

Lemma handleDetectedMessage_NoThrow (deps : Collaborators) (message : Message) :
  NoThrow (handleDetectedMessage deps message).
Proof.
  unfold handleDetectedMessage, log.
  apply NoThrow_bind; [apply NoThrow_modify|intros _].
  apply NoThrow_bind; [|intros _; apply NoThrow_modify].
  apply NoThrow_catch. intros _.
  apply NoThrow_bind; [apply NoThrow_modify|intros _].
  apply NoThrow_bind; [apply NoThrow_gets|intros phone].
  apply NoThrow_catch. intros _. apply NoThrow_modify.
Qed.

Lemma checkForNewMessages_NoThrow (deps : Collaborators) :
  NoThrow (checkForNewMessages deps).
Proof.
  unfold checkForNewMessages.
  apply NoThrow_bind; [apply NoThrow_gets|intros busy].
  destruct busy; [constructor|].
  apply NoThrow_catch. intros _. constructor.
Qed.

Lemma sendFollowUpReminder_NoThrow (cid : Z) (msg : string) :
  NoThrow (sendFollowUpReminder cid msg).
Proof. unfold sendFollowUpReminder. apply NoThrow_catch. intros _. constructor. Qed.

(** *** Programs that end normally while the transport works *)
Section Completes.
Context (oracle : World -> Request -> Response).









End Completes.

(** *** The footprint of the handlers *)

Lemma writes_once (who : string) (w w' : World) : Write who w w' -> writes who w w'.
Proof. apply rtc_once. Qed.

Ltac written := apply Eff_modify; intros ?; apply writes_once; constructor.

Lemma send_writes (who body : string) : Eff (writes who) (send who body).
Proof.
  unfold send. apply Eff_await. intros r.
  destruct r; first [apply Eff_throw; apply _ | written].
Qed.

Lemma log_writes (who line : string) : Eff (writes who) (log line).
Proof. unfold log. written. Qed.

Lemma addContact_writes (who : string) (c : Contact) : Eff (writes who) (addContact c).
Proof.
  intros o w. destruct (run_addContact_cases o c w) as [[e ->]|(d & Hd & ->)]; cbn.
  - reflexivity.
  - apply writes_once. by constructor.
Qed.

Lemma updateContact_writes (who : string) (i : Z) (u : ContactUpdate) :
  Eff (writes who) (updateContact i u).
Proof.
  intros o w. unfold updateContact. rewrite run_bind, run_gets.
  destruct (database w) as [d|] eqn:Hd; [|reflexivity]. cbn.
  destruct (newScheduledFollowUp u) as [[t|]|]; cbn; try reflexivity;
    destruct (o w Storage); cbn; try reflexivity; rewrite Hd; cbn;
    apply writes_once; by constructor.
Qed.

Lemma scheduleBasedOnPreference_writes (who : string) (cid : Z) (msg : string)
    (p : ScheduleOptions) :
  Eff (writes who) (scheduleBasedOnPreference cid msg p).
Proof.
  intros o w. unfold scheduleBasedOnPreference. cbn [run].
  pose proof (write_schedule who w cid msg p) as H.
  destruct (Scheduler.scheduleBasedOnPreference cid msg p (clock w) (scheduler w))
    as [[i|e] s']; cbn; by apply writes_once.
Qed.

Ltac writes_leaf :=
  first [ apply send_writes | apply log_writes
        | unfold sendErrorMessage; apply send_writes
        | unfold sendHelpMessage; apply send_writes
        | apply addContact_writes | apply updateContact_writes
        | apply scheduleBasedOnPreference_writes
        | written ].

Lemma handleCancelCommand_writes (who : string) :
  Eff (writes who) (handleCancelCommand who).
Proof. unfold handleCancelCommand. eff_by writes_leaf. Qed.

Lemma handleSummaryRequest_writes (deps : Collaborators) (who : string) :
  Eff (writes who) (handleSummaryRequest deps who).
Proof. unfold handleSummaryRequest. eff_by writes_leaf. Qed.

Lemma handleSchedulingResponse_writes (deps : Collaborators) (who response : string) :
  Eff (writes who) (handleSchedulingResponse deps who response).
Proof. unfold handleSchedulingResponse. eff_by writes_leaf. Qed.

Lemma generateFollowUpSuggestions_writes (who : string) (contact : Contact) :
  Eff (writes who) (generateFollowUpSuggestions who contact).
Proof. unfold generateFollowUpSuggestions. eff_by writes_leaf. Qed.

Lemma handleMeetingMessage_writes (deps : Collaborators) (who : string)
    (parsed : ParsedMeetingMessage) :
  Eff (writes who) (handleMeetingMessage deps who parsed).
Proof.
  unfold handleMeetingMessage.
  eff_by ltac:(first [apply generateFollowUpSuggestions_writes | writes_leaf]).
Qed.

Lemma handleMessage_writes (deps : Collaborators) (message : Message) :
  Eff (writes (sender message)) (handleMessage deps message).
Proof.
  unfold handleMessage.
  apply Eff_bind; [apply _|apply Eff_gets; apply _|intros pendingHere].
  destruct pendingHere; [apply handleSchedulingResponse_writes|].
  destruct (_ =? "cancel")%string; [apply handleCancelCommand_writes|].
  destruct (_ || _); [apply handleSummaryRequest_writes|].
  destruct (isValidMeeting _); [apply handleMeetingMessage_writes|].
  unfold sendHelpMessage. apply send_writes.
Qed.

(** What no write touches. *)
Lemma writes_frame (who : string) (w w' : World) :
  writes who w w' ->
  myPhone w' = myPhone w /\ lastProcessedMessageId w' = lastProcessedMessageId w
  /\ clock w' = clock w /\ isShuttingDown w' = isShuttingDown w.
Proof.
  induction 1 as [w|w w1 w2 H _ IH]; [done|].
  destruct IH as (-> & -> & -> & ->). by destruct H.
Qed.

Lemma writes_outbox (who : string) (w w' : World) :
  writes who w w' ->
  exists l, sentSince w w' l /\ Forall (fun m => m.1 = who) l.
Proof.
  unfold sentSince. induction 1 as [w|w w1 w2 H _ (l & IH & Hl)].
  { exists []. by rewrite app_nil_r. }
  rewrite IH.
  destruct H; try (by exists l);
    try (exists l; split; [reflexivity|exact Hl]).
  exists ((who, body) :: l). cbn. rewrite <- app_assoc. split; [done|].
  by constructor.
Qed.

Lemma keepsRows_refl (w : World) : keepsRows w w.
Proof. intros d i c Hd Hi. by exists d, c. Qed.

Lemma keepsRows_trans (x y z : World) : keepsRows x y -> keepsRows y z -> keepsRows x z.
Proof.
  intros Hxy Hyz d i c Hd Hi.
  destruct (Hxy d i c Hd Hi) as (d1 & c1 & Hd1 & Hi1 & E1).
  destruct (Hyz d1 i c1 Hd1 Hi1) as (d2 & c2 & Hd2 & Hi2 & E2).
  exists d2, c2. split_and!; [done|done|congruence].
Qed.

Lemma keepsRows_same (w w' : World) : database w' = database w -> keepsRows w w'.
Proof. intros E d i c Hd Hi. exists d, c. by rewrite E. Qed.

Lemma wellKeyed_same (w w' : World) :
  database w' = database w -> wellKeyed w -> wellKeyed w'.
Proof. intros E H d i Hd. rewrite E in Hd. by apply H. Qed.

Lemma identity_applyUpdate (u : ContactUpdate) (c : Contact) :
  identity (applyUpdate u c) = identity c.
Proof. reflexivity. Qed.

Lemma Write_rows (who : string) (w w' : World) :
  Write who w w' -> wellKeyed w -> wellKeyed w' /\ keepsRows w w'.
Proof.
  intros H Hk.
  destruct H as [line|body| |c|dm| | | |d c Hd|d i u Hd|cid msg p];
    try (split; [by apply (wellKeyed_same w)|by apply keepsRows_same]).
  - split.
    + intros d' i [= <-] Hi. cbn in *.
      destruct (decide (i = lastID d + 1)) as [->|Hne]; [lia|].
      rewrite lookup_insert_ne in Hi by done. specialize (Hk d i Hd Hi). lia.
    + intros d0 i c0 Hd0 Hi. assert (d0 = d) as -> by congruence.
      eexists _, c0. split; [reflexivity|]. cbn. split; [|done].
      rewrite lookup_insert_ne; [done|].
      intros <-. assert (lastID d + 1 <= lastID d) by (apply Hk; eauto). lia.
  - split.
    + intros d' j [= <-] Hj. cbn in *. apply (Hk d j Hd).
      destruct (decide (j = i)) as [->|Hne].
      * rewrite lookup_alter_eq in Hj. destruct (rows d !! i); [done|].
        by destruct Hj.
      * by rewrite lookup_alter_ne in Hj.
    + intros d0 j c0 Hd0 Hj. assert (d0 = d) as -> by congruence.
      destruct (decide (j = i)) as [->|Hne].
      * eexists _, (applyUpdate u c0). split; [reflexivity|]. cbn.
        rewrite lookup_alter_eq, Hj. done.
      * eexists _, c0. split; [reflexivity|]. cbn.
        by rewrite lookup_alter_ne.
Qed.

Lemma writes_rows (who : string) (w w' : World) :
  writes who w w' -> wellKeyed w -> wellKeyed w' /\ keepsRows w w'.
Proof.
  induction 1 as [w|w w1 w2 H _ IH]; intros Hk.
  { split; [done|apply keepsRows_refl]. }
  destruct (Write_rows who w w1 H Hk) as [Hk1 Hr1].
  destruct (IH Hk1) as [Hk2 Hr2]. split; [done|by eapply keepsRows_trans].
Qed.

End FootprintFacts.

(** ** Polling, commitment and what the handlers leave alone *)
Module PollingFacts.
Import Text Clock Classifier App SessionSpec AppFacts SessionEffects ProgramFacts
  Program Footprint FootprintFacts Scenario Environments.

#[local] Opaque repromptMessage helpMessage generateSchedulingOptionsMessage
  formatSuggestionMessage createUnifiedMessage reminderMessage schedulingMessage.

Lemma run_finally {A} (o : World -> Request -> Response) (p : Async A) (f : Async unit)
    (w : World) :
  NoThrow f ->
  run o (finally p f) w =
    (fst (run o p w), snd (run o f (snd (run o p w)))).
Proof.
  intros Hf. unfold finally. rewrite run_bind, run_catch, run_bind.
  destruct (run o p w) as [[a|e] w1]; cbn [run fst snd].
  - rewrite run_bind. pose proof (NoThrow_unit f o w1 Hf) as H.
    destruct (run o f w1) as [[[]|e] w2]; cbn in H |- *; [done|discriminate].
  - rewrite run_bind. pose proof (NoThrow_unit f o w1 Hf) as H.
    destruct (run o f w1) as [[[]|e'] w2]; cbn in H |- *; [done|discriminate].
Qed.

Lemma handleDetectedMessage_self (deps : Collaborators) (o : World -> Request -> Response)
    (m : Message) (w : World) :
  sender m = myPhone w ->
  writes (myPhone w) w (snd (run o (handleDetectedMessage deps m) w)).
Proof.
  intros Hs. unfold handleDetectedMessage.
  rewrite run_bind. unfold log at 1. rewrite run_modify.
  set (w1 := setConsole _ w).
  assert (H1 : writes (myPhone w) w w1) by (apply writes_once; constructor).
  rewrite run_bind, run_catch.
  match goal with
  | |- context [run o ?T w1] =>
      assert (HT : Eff (writes (myPhone w)) T)
  end.
  { rewrite <- Hs. apply Eff_bind; [apply _| |intros; apply log_writes].
    apply (handleMessage_writes deps
             {| msgId := msgId m; sender := sender m;
                text := Some (trim (default "" (text m))); date := date m |}). }
  specialize (HT o w1).
  match goal with
  | |- context [run o ?T w1] => destruct (run o T w1) as [[[]|e] w2]
  end; cbn [snd] in HT.
  - unfold log. rewrite run_modify. cbn [snd].
    etrans; [exact H1|]. etrans; [exact HT|]. apply writes_once. constructor.
  - assert (H2 : writes (myPhone w) w w2) by (etrans; eassumption).
    destruct (writes_frame _ _ _ H2) as (Hp & _).
    rewrite run_bind. unfold log at 1. rewrite run_modify.
    rewrite run_bind, run_gets, run_catch. cbn [myPhone setConsole].
    rewrite Hp.
    set (w3 := setConsole _ w2).
    assert (H3 : writes (myPhone w) w w3).
    { etrans; [exact H2|]. apply writes_once. constructor. }
    pose proof (send_writes (myPhone w)
      ("Sorry, I had trouble processing your message " +:+
         quoted (trim (default "" (text m))) +:+ ". " +:+
         "Please try the format: " +:+ quoted "met [person] at [event]" +:+ " " +:+
         "For example: " +:+ quoted "met Benjamin Franklin at Penn") o w3) as H4.
    match goal with
    | |- context [run o (send ?a ?b) w3] => destruct (run o (send a b) w3) as [[[]|e'] w4]
    end; cbn [snd] in H4.
    + unfold log. rewrite run_modify. cbn [snd].
      etrans; [exact H3|]. etrans; [exact H4|]. apply writes_once. constructor.
    + unfold log. rewrite run_modify. rewrite run_modify. cbn [snd].
      etrans; [exact H3|]. etrans; [exact H4|].
      etrans; apply writes_once; constructor.
Qed.


Lemma run_poll (deps : Collaborators) (o : World -> Request -> Response) (w : World)
    (msgs : list Message) (m : Message) (rest : list Message) :
  isProcessingMessage w = false ->
  o w (GetMessages 10) = Messages (Some msgs) ->
  List.filter (isSelfMessage (myPhone w)) msgs = m :: rest ->
  run o (checkForNewMessages deps) w =
    (inl tt,
     if negb (bool_decide (lastProcessedMessageId w = Some (msgId m)))
        && (clock w - date m <? 30000)
     then setIsProcessingMessage false
            (setLastProcessedMessageId (Some (msgId m))
               (snd (run o (handleDetectedMessage deps m) (setIsProcessingMessage true w))))
     else if bool_decide (lastProcessedMessageId w = None)
          then setLastProcessedMessageId (Some (msgId m)) w
          else w).
Proof.
  intros Hidle Ho Hf. unfold checkForNewMessages.
  rewrite run_bind, run_gets, Hidle, run_catch. cbn [run]. rewrite Ho.
  rewrite run_bind, run_gets, Hf.
  rewrite run_bind, run_gets, run_bind, run_gets.
  destruct (negb (bool_decide (lastProcessedMessageId w = Some (msgId m)))
            && (clock w - date m <? 30000)).
  - rewrite run_bind, run_modify.
    rewrite run_finally by apply NoThrow_modify.
    rewrite run_modify, run_bind.
    pose proof (NoThrow_unit _ o (setIsProcessingMessage true w)
                  (handleDetectedMessage_NoThrow deps m)) as H.
    destruct (run o (handleDetectedMessage deps m) (setIsProcessingMessage true w))
      as [[[]|e] w2]; cbn in H; [|discriminate].
    by rewrite run_modify.
  - destruct (bool_decide (lastProcessedMessageId w = None)); by rewrite ?run_modify.
Qed.

Lemma isSelfMessage_sender (phone : string) (m : Message) (msgs rest : list Message) :
  List.filter (isSelfMessage phone) msgs = m :: rest -> sender m = phone.
Proof.
  intros H.
  assert (Hin : In m (List.filter (isSelfMessage phone) msgs)) by (rewrite H; by left).
  apply filter_In in Hin as [_ Hin]. unfold isSelfMessage in Hin.
  apply andb_true_iff in Hin as [Hin _]. by apply String.eqb_eq.
Qed.

Lemma sendFollowUpReminder_self (o : World -> Request -> Response) (cid : Z)
    (msg : string) (w : World) :
  writes (myPhone w) w (snd (run o (sendFollowUpReminder cid msg) w)).
Proof.
  unfold sendFollowUpReminder. rewrite run_catch, run_bind, run_gets.
  destruct (database w) as [d|]; [|reflexivity]. cbn [run].
  destruct (o w Storage); cbn [run]; try reflexivity;
    rewrite run_bind, run_gets;
    (destruct (_ ≫= _) as [row|]; [|reflexivity]);
    rewrite run_bind, run_gets;
    pose proof (send_writes (myPhone w) msg o w) as H;
    destruct (run o (send (myPhone w) msg) w) as [[[]|e] w1]; exact H.
Qed.

Lemma poll_writes (deps : Collaborators) (o : World -> Request -> Response) (w : World) :
  exists l, sentSince w (snd (run o (checkForNewMessages deps) w)) l
            /\ Forall (fun m => m.1 = myPhone w) l.
Proof.
  assert (Hnil : exists l, sentSince w w l /\ Forall (fun m => m.1 = myPhone w) l).
  { exists []. split; [unfold sentSince; by rewrite app_nil_r|constructor]. }
  destruct (isProcessingMessage w) eqn:Hidle.
  { unfold checkForNewMessages. rewrite run_bind, run_gets, Hidle. exact Hnil. }
  destruct (o w (GetMessages 10)) as [| |[msgs|]| |] eqn:Ho;
    try (unfold checkForNewMessages;
         rewrite run_bind, run_gets, Hidle, run_catch; cbn [run]; rewrite Ho;
         exact Hnil).
  destruct (List.filter (isSelfMessage (myPhone w)) msgs) as [|m rest] eqn:Hf.
  { unfold checkForNewMessages.
    rewrite run_bind, run_gets, Hidle, run_catch. cbn [run]. rewrite Ho.
    rewrite run_bind, run_gets, Hf. exact Hnil. }
  rewrite (run_poll deps o w msgs m rest Hidle Ho Hf). cbn [snd].
  destruct (_ && _).
  - pose proof (handleDetectedMessage_self deps o m (setIsProcessingMessage true w)
                  (isSelfMessage_sender _ _ _ _ Hf)) as H.
    apply writes_outbox in H as (l & Hl & Hall). exists l. split; [exact Hl|exact Hall].
  - destruct (bool_decide _); exact Hnil.
Qed.

(** X4. The callbacks the event loop starts (the poll, the handling of a
    detected message, the delivery of a reminder) never let an exception
    escape: every [throw] inside them is under a [catch] whose handler
    cannot throw, so they end normally in every world and under every
    behaviour of the environment. *)
Theorem callbacks_never_throw (deps : Collaborators) (message : Message) (cid : Z)
    (msg : string) :
  NoThrow (handleDetectedMessage deps message)
  /\ NoThrow (checkForNewMessages deps)
  /\ NoThrow (sendFollowUpReminder cid msg)
  /\ forall oracle w,
       fst (run oracle (handleDetectedMessage deps message) w) = inl tt
       /\ fst (run oracle (checkForNewMessages deps) w) = inl tt
       /\ fst (run oracle (sendFollowUpReminder cid msg) w) = inl tt.
Proof.
  pose proof (handleDetectedMessage_NoThrow deps message) as H1.
  pose proof (checkForNewMessages_NoThrow deps) as H2.
  pose proof (sendFollowUpReminder_NoThrow cid msg) as H3.
  split_and!; try done. intros oracle w. split_and!; by apply NoThrow_unit.
Qed.

(** X6. Whatever the environment answers, every message [handleMessage]
    gets delivered is addressed to the sender of the message it handles,
    and every message a poll or the delivery of a reminder gets delivered
    is addressed to the user's own number: the application writes to
    nobody else. *)
Theorem replies_go_to_the_user_only (deps : Collaborators)
    (o : World -> Request -> Response) (w : World) (m : Message) (cid : Z)
    (msg : string) :
  (exists l, sentSince w (snd (run o (handleMessage deps m) w)) l
             /\ Forall (fun x => x.1 = sender m) l)
  /\ (exists l, sentSince w (snd (run o (checkForNewMessages deps) w)) l
                /\ Forall (fun x => x.1 = myPhone w) l)
  /\ (exists l, sentSince w (snd (run o (sendFollowUpReminder cid msg) w)) l
                /\ Forall (fun x => x.1 = myPhone w) l).
Proof.
  split_and!.
  - apply writes_outbox, handleMessage_writes.
  - apply poll_writes.
  - apply writes_outbox, sendFollowUpReminder_self.
Qed.





Lemma step_rows (deps : Collaborators) (e : Step) (w w' : World) :
  step deps e w = Some w' -> wellKeyed w -> wellKeyed w' /\ keepsRows w w'.
Proof.
  intros Hstep Hk.
  assert (Hsame : database w' = database w -> wellKeyed w' /\ keepsRows w w').
  { intros E. split; [by apply (wellKeyed_same w)|by apply keepsRows_same]. }
  destruct e as [o m|i| |t|t|o k|dt].
  - change (Some (snd (run o (handleMessage deps m) w)) = Some w') in Hstep.
    injection Hstep as <-. eapply writes_rows; [apply handleMessage_writes|done].
  - cbn in Hstep. apply fireTimer_spec in Hstep as (tm & _ & _ & ->). by apply Hsame.
  - change (onScheduler Scheduler.Sweep w = Some w') in Hstep.
    unfold onScheduler in Hstep. destruct (Scheduler.step _ _); [|done].
    injection Hstep as <-. by apply Hsame.
  - change (onScheduler (Scheduler.FireBegin t) w = Some w') in Hstep.
    unfold onScheduler in Hstep. destruct (Scheduler.step _ _); [|done].
    injection Hstep as <-. by apply Hsame.
  - change (onScheduler (Scheduler.FireEnd t) w = Some w') in Hstep.
    unfold onScheduler in Hstep. destruct (Scheduler.step _ _); [|done].
    injection Hstep as <-. by apply Hsame.
  - change (match Scheduler.executed (scheduler w) !! k with
            | Some e =>
                Some (snd (run o (sendFollowUpReminder (Scheduler.toContact e)
                                    (Scheduler.withMessage e)) w))
            | None => None
            end = Some w') in Hstep.
    destruct (Scheduler.executed (scheduler w) !! k) as [ex|]; [|done].
    injection Hstep as <-. apply Hsame. apply sendFollowUpReminder_quiet.
  - cbn in Hstep. destruct (0 <=? dt); [|done]. injection Hstep as <-. by apply Hsame.
Qed.

Lemma steps_rows (deps : Collaborators) (es : list Step) (w w' : World) :
  steps deps es w = Some w' -> wellKeyed w -> wellKeyed w' /\ keepsRows w w'.
Proof.
  revert w. induction es as [|e es IH]; intros w H Hk; cbn in H.
  - injection H as <-. split; [done|apply keepsRows_refl].
  - destruct (step deps e w) as [w1|] eqn:E; [|done].
    destruct (step_rows deps e w w1 E Hk) as [Hk1 Hr1].
    destruct (IH w1 H Hk1) as [Hk2 Hr2]. split; [done|by eapply keepsRows_trans].
Qed.

(** X8. A stored contact is never lost and never overwritten. In every
    run of the program from its start, a row the table holds at some
    point is still there at every later point, under the same id and
    with the same name, event, context, meeting time, phone number and
    email: [addContact] inserts under a fresh id and [updateContact]
    changes the follow-up fields only. *)
Theorem stored_contacts_persist (deps : Collaborators) (phone : string) (t : Z)
    (es1 es2 : list Step) (w1 w2 : World) (d1 : Database) (i : Z) (c : Contact) :
  steps deps es1 (initialize (create phone t)) = Some w1 ->
  steps deps es2 w1 = Some w2 ->
  database w1 = Some d1 -> rows d1 !! i = Some c ->
  exists d2 c', database w2 = Some d2 /\ rows d2 !! i = Some c'
                /\ identity c' = identity c.
Proof.
  intros H1 H2 Hd Hi.
  assert (H0 : wellKeyed (initialize (create phone t))).
  { intros d j [= <-] Hj. cbn in Hj. rewrite lookup_empty in Hj. by destruct Hj. }
  destruct (steps_rows deps es1 _ w1 H1 H0) as [Hk1 _].
  destruct (steps_rows deps es2 w1 w2 H2 Hk1) as [_ Hr]. by apply (Hr d1).
Qed.

(** Sarah is stored without a reminder; then Bob is stored with one. *)
Lemma stored_contacts_persist_witness :
  let es1 := [Inbound calm (inbound "m1" "met Sarah at conference" fresh);
              Inbound calm (inbound "m2" "no" fresh)] in
  let es2 := [Inbound calm (inbound "m3" "met Bob at meetup" fresh);
              Inbound calm (inbound "m4" "tomorrow" fresh); Sweeps] in
  let w1 := default fresh (steps demoDeps es1 fresh) in
  let w2 := default fresh (steps demoDeps es2 w1) in
  (name <$> ((database w1 ≫= fun d => rows d !! 1))) = Some "Sarah"
  /\ (lastID <$> database w2) = Some 2
  /\ exists d2 c', database w2 = Some d2 /\ rows d2 !! 1 = Some c'
                   /\ name c' = "Sarah".
Proof.
  intros es1 es2 w1 w2.
  split; [vm_compute; reflexivity|]. split; [vm_compute; reflexivity|].
  destruct (database w1) as [d1|] eqn:Hd1; [|vm_compute in Hd1; discriminate].
  destruct (rows d1 !! 1) as [c|] eqn:Hc.
  2:{ exfalso. assert (H : (database w1 ≫= fun d => rows d !! 1) = None)
        by (rewrite Hd1; exact Hc). vm_compute in H. discriminate. }
  assert (Hn : name c = "Sarah").
  { assert (H : (name <$> (database w1 ≫= fun d => rows d !! 1)) = Some (name c))
      by (rewrite Hd1; cbn; by rewrite Hc).
    vm_compute in H. by injection H. }
  destruct (stored_contacts_persist demoDeps me 0 es1 es2 w1 w2 d1 1 c)
    as (d2 & c' & H1 & H2 & H3).
  - vm_compute. reflexivity.
  - vm_compute. reflexivity.
  - exact Hd1.
  - exact Hc.
  - exists d2, c'. split_and!; [done|done|].
    unfold identity in H3. injection H3 as E _. congruence.
Defined.

Lemma not_cancel_when_valid (now : Z) (t : string) :
  isValidSchedulingResponse now t = true ->
  (trim (toLowerCase t) =? "cancel")%string = false.
Proof.
  intros H. destruct (String.eqb_spec (trim (toLowerCase t)) "cancel") as [E|]; [|done].
  unfold isValidSchedulingResponse in H. rewrite E in H. vm_compute in H. discriminate.
Qed.

(** What [scheduleBasedOnPreference] answers when a reminder is wanted:
    the new id, or what node-cron throws at the pattern of the Invalid
    Date, and then the scheduler has only made its initial
    [cancelReminder]. *)
Lemma scheduleBasedOnPreference_outcome (cid : Z) (msg : string) (p : ScheduleOptions)
    (now : Z) (s : Scheduler.SchedulerService) :
  noReminder p = false ->
  (sendNow p = true \/ (exists t, Scheduler.preferredDate p now = At t) ->
     fst (Scheduler.scheduleBasedOnPreference cid msg p now s) = inl (Some (cid, now)))
  /\ (sendNow p = false -> Scheduler.preferredDate p now = InvalidDate ->
        Scheduler.scheduleBasedOnPreference cid msg p now s =
          (inr Scheduler.invalidExpression,
           snd (Scheduler.cancelReminder (cid, now) s))).
Proof.
  intros Hno. unfold Scheduler.scheduleBasedOnPreference, Scheduler.preferredDate,
    Scheduler.returned, Scheduler.scheduleReminder.
  rewrite Hno. split.
  - intros [H|[t H]].
    + by rewrite H.
    + destruct (sendNow p); [done|].
      destruct (sendTomorrow p); [by rewrite H, ClockFacts.validPattern_At|].
      destruct (customDate p) as [d|]; by rewrite H, ClockFacts.validPattern_At.
  - intros -> H.
    destruct (sendTomorrow p); [by rewrite H|].
    destruct (customDate p) as [d|]; by rewrite H.
Qed.

(** The options [parseSchedulingResponse] builds carry a date only when
    they ask for neither "now", "tomorrow" nor "no reminder". *)
Lemma parseSchedulingResponse_date (now : Z) (t : string) (date : Date) :
  customDate (parseSchedulingResponse now t) = Some date ->
  sendNow (parseSchedulingResponse now t) = false
  /\ sendTomorrow (parseSchedulingResponse now t) = false
  /\ noReminder (parseSchedulingResponse now t) = false.
Proof.
  unfold parseSchedulingResponse.
  destruct (_ || _); [done|]. destruct (_ || _); [done|]. destruct (_ || _); [done|].
  by destruct (extractDateFromResponse now _).
Qed.

(** X9. The reply that asks for a reminder is committed once. A sender
    is awaiting a reply, with a draft contact and a non-empty draft
    message stored, the database is open and no request fails; the reply
    is recognized and does not decline the reminder. In every case the
    handler ends normally, the contact has been inserted under the next
    row id, one message has been sent and the sender's session is gone.
    When the reply is "now", or the date it resolves to is a date, the
    contact is stored with status sent for "now" and scheduled otherwise,
    and with the custom date when the reply gave one (a reminder for
    tomorrow stores no date); the scheduler has taken exactly one call of
    [scheduleBasedOnPreference] under that row id, which returned the new
    id; and the message is the confirmation. When the reply resolves to
    the Invalid Date, as "in 3000000000 hours" does, the scheduler throws:
    no reminder is registered, the contact stays stored as it was
    drafted, its status pending, and the message is the error report. *)
Theorem reminder_reply_is_committed (deps : Collaborators)
    (oracle : World -> Request -> Response) (w : World) (msg : Message) (body : string)
    (contact : Contact) (draft : string) (d : Database) :
  let p := parseSchedulingResponse (clock w) (trim body) in
  let i := lastID d + 1 in
  let w' := snd (run oracle (handleMessage deps msg) w) in
  text msg = Some body ->
  has (sender msg) w = true ->
  pendingContacts w !! sender msg = Some contact ->
  pendingDraftMessages w !! sender msg = Some draft ->
  draft ≠ "" ->
  isValidSchedulingResponse (clock w) (trim body) = true ->
  noReminder p = false ->
  database w = Some d ->
  (forall w' q, oracle w' q ≠ Failed) ->
  fst (run oracle (handleMessage deps msg) w) = inl tt
  /\ pendingFollowUpResponses w' = delete (sender msg) (pendingFollowUpResponses w)
  /\ pendingContacts w' = delete (sender msg) (pendingContacts w)
  /\ pendingDraftMessages w' = delete (sender msg) (pendingDraftMessages w)
  /\ scheduler w' =
       snd (Scheduler.scheduleBasedOnPreference i (reminderMessage contact draft) p
              (clock w) (scheduler w))
  /\ (sendNow p = true \/ (exists t, Scheduler.preferredDate p (clock w) = At t) ->
        fst (Scheduler.scheduleBasedOnPreference i (reminderMessage contact draft) p
               (clock w) (scheduler w)) = inl (Some (i, clock w))
        /\ database w' =
             Some {| rows := <[i := applyUpdate
                                    {| newFollowUpStatus :=
                                         Some (if sendNow p then followSent
                                               else followScheduled);
                                       newScheduledFollowUp := customDate p |} contact]>
                               (rows d);
                     lastID := i |}
        /\ outbox w' =
             (outbox w ++ [(sender msg, schedulingMessage deps p contact draft)])%list)
  /\ (sendNow p = false -> Scheduler.preferredDate p (clock w) = InvalidDate ->
        fst (Scheduler.scheduleBasedOnPreference i (reminderMessage contact draft) p
               (clock w) (scheduler w)) = inr Scheduler.invalidExpression
        /\ scheduler w' = snd (Scheduler.cancelReminder (i, clock w) (scheduler w))
        /\ Scheduler.executed (scheduler w') = Scheduler.executed (scheduler w)
        /\ database w' = Some {| rows := <[i := contact]> (rows d); lastID := i |}
        /\ outbox w' =
             (outbox w ++
              [(sender msg, "Error: Sorry, I had trouble scheduling that reminder.")])%list).
Proof.
  intros p i w' Htext Hhas Hc Hd Hne Hvalid Hno Hdb Hok. subst w'.
  pose proof (not_cancel_when_valid _ _ Hvalid) as Hcancel.
  destruct (scheduleBasedOnPreference_outcome i (reminderMessage contact draft) p (clock w)
              (scheduler w) Hno) as [Hgood Hbad].
  assert (Hstart : run oracle (handleMessage deps msg) w =
    run oracle
      (catch
         (reminderId ← scheduleBasedOnPreference i (reminderMessage contact draft) p;
          match reminderId with
          | Some _ =>
              send (sender msg) (schedulingMessage deps p contact draft);;
              updateContact i
                {| newFollowUpStatus :=
                     Some (if sendNow p then followSent else followScheduled);
                   newScheduledFollowUp := customDate p |}
          | None => Ret tt
          end;;
          modify (clearPendingData (sender msg)))
         (fun _ =>
            sendErrorMessage (sender msg) "Sorry, I had trouble scheduling that reminder.";;
            modify (clearPendingData (sender msg))))
      (setDatabase (Some {| rows := <[i := contact]> (rows d); lastID := i |}) w)).
  { unfold handleMessage. rewrite Htext. cbn [default from_option id].
    rewrite run_bind, run_gets, Hhas.
    unfold handleSchedulingResponse.
    rewrite run_bind, run_gets, Hhas. cbn [negb].
    rewrite !run_catch, run_bind. cbn [run].
    rewrite Hc, Hd, (truthy_Some _ Hne), Hcancel.
    rewrite run_bind, run_gets, run_bind, run_gets, Hvalid. cbn [negb].
    rewrite run_bind, (run_addContact_ok _ _ d) by done.
    fold p. rewrite Hno. fold i. reflexivity. }
  rewrite Hstart. clear Hstart.
  rewrite run_catch, run_bind. unfold scheduleBasedOnPreference. cbn [run].
  cbn [clock scheduler setDatabase].
  destruct (sendNow p) eqn:Hnow.
  { specialize (Hgood (or_introl eq_refl)).
    destruct (Scheduler.scheduleBasedOnPreference i (reminderMessage contact draft) p
                (clock w) (scheduler w)) as [r s'] eqn:E.
    cbn [fst snd] in Hgood |- *. subst r. cbn [run].
    assert (Hdate : customDate p = None).
    { destruct (customDate p) as [date|] eqn:Ed; [|done].
      apply parseSchedulingResponse_date in Ed as (Ed & _). fold p in Ed. congruence. }
    rewrite run_bind, run_bind, run_send_ok by done.
    erewrite run_updateContact_ok; [|reflexivity|cbn; by rewrite Hdate|apply Hok].
    rewrite run_modify. cbn. rewrite alter_insert_eq.
    split_and!; try reflexivity; [by intros _|by intros [=]]. }
  destruct (Scheduler.preferredDate p (clock w)) as [t|] eqn:Hpref.
  - specialize (Hgood (or_intror (ex_intro _ t eq_refl))).
    destruct (Scheduler.scheduleBasedOnPreference i (reminderMessage contact draft) p
                (clock w) (scheduler w)) as [r s'] eqn:E.
    cbn [fst snd] in Hgood |- *. subst r. cbn [run].
    assert (Hdate : customDate p ≠ Some InvalidDate).
    { intros Ed. pose proof Ed as Ed'.
      apply parseSchedulingResponse_date in Ed' as (_ & Et & _). fold p in Et.
      unfold Scheduler.preferredDate in Hpref. by rewrite Et, Ed in Hpref. }
    rewrite run_bind, run_bind, run_send_ok by done.
    erewrite run_updateContact_ok; [|reflexivity|exact Hdate|apply Hok].
    rewrite run_modify. cbn. rewrite alter_insert_eq.
    split_and!; try reflexivity; [by intros _|by intros _ [=]].
  - rewrite (Hbad eq_refl eq_refl). cbn [run fst snd].
    rewrite run_bind. unfold sendErrorMessage. rewrite run_send_ok by done.
    rewrite run_modify. cbn.
    split_and!; try reflexivity.
    + intros [[=]|[t [=]]].
    + intros _ _. split_and!; try reflexivity.
      apply SchedulerFacts.cancelReminder_executed.
Qed.

(** The reply "in 5 minutes" a minute after the trigger, which is
    committed, and the reply "in 3000000000 hours", which resolves to the
    Invalid Date. *)
Lemma reminder_reply_is_committed_witness :
  let w := elapse 60000 (receive "met Sarah at conference" fresh) in
  let msg := inbound "m2" "in 5 minutes" w in
  let w' := snd (run calm (handleMessage demoDeps msg) w) in
  let far := inbound "m2" "in 3000000000 hours" w in
  let w2 := snd (run calm (handleMessage demoDeps far) w) in
  (followUpStatus <$> (database w' ≫= fun d => rows d !! 1)) = Some followScheduled
  /\ (database w' ≫= fun d => rows d !! 1 ≫= scheduledFollowUp) = Some 360000
  /\ length (Scheduler.getPendingReminders (scheduler w')) = 1%nat
  /\ classify (clock w) "in 3000000000 hours" = CustomAt InvalidDate
  /\ (followUpStatus <$> (database w2 ≫= fun d => rows d !! 1)) = Some followPending
  /\ Scheduler.getPendingReminders (scheduler w2) = []
  /\ outbox w2 =
       (outbox w ++ [(me, "Error: Sorry, I had trouble scheduling that reminder.")])%list
  /\ pendingContacts w2 = ∅
  /\ exists contact draft d,
       pendingContacts w !! me = Some contact
       /\ pendingDraftMessages w !! me = Some draft
       /\ database w = Some d
       /\ outbox w' =
            (outbox w ++
             [(me, schedulingMessage demoDeps
                     (parseSchedulingResponse (clock w) "in 5 minutes") contact draft)])%list
       /\ pendingContacts w' = delete me (pendingContacts w).
Proof.
  intros w msg w' far w2.
  split; [vm_compute; reflexivity|]. split; [vm_compute; reflexivity|].
  split; [vm_compute; reflexivity|]. split; [vm_compute; reflexivity|].
  split; [vm_compute; reflexivity|]. split; [vm_compute; reflexivity|].
  split; [vm_compute; reflexivity|]. split; [vm_compute; reflexivity|].
  eexists _, _, _.
  split; [vm_compute; reflexivity|]. split; [vm_compute; reflexivity|].
  split; [vm_compute; reflexivity|].
  pose proof (reminder_reply_is_committed demoDeps calm w msg "in 5 minutes") as H.
  edestruct H as (_ & _ & Hc & _ & _ & Ho & _).
  - reflexivity.
  - vm_compute. reflexivity.
  - vm_compute. reflexivity.
  - vm_compute. reflexivity.
  - vm_compute. discriminate.
  - vm_compute. reflexivity.
  - vm_compute. reflexivity.
  - vm_compute. reflexivity.
  - intros w0 q. by destruct q.
  - split; [|exact Hc]. apply Ho. right. eexists. vm_compute. reflexivity.
Defined.

End PollingFacts.

(** ** The scheduler after a cancellation and after [destroy] *)
Module LifecycleFacts.
Import Clock Classifier Scheduler Reachable SchedulerFacts SchedulerInvariant Lifecycle.

Lemma stopTask_idleOn (P : ReminderId -> Prop) (o : option nat) (ts ts' : list CronTask) :
  (forall t tk, ts !! t = Some tk -> P (forReminder tk) -> running tk = false) ->
  ts' = stopTask o ts ->
  forall t tk, ts' !! t = Some tk -> P (forReminder tk) -> running tk = false.
Proof.
  intros H -> t tk' Ht HP.
  apply stopTask_lookup in Ht as (tk & Ht & E & _ & _ & Hrun).
  destruct (running tk') eqn:Hr; [|done].
  destruct (Hrun eq_refl) as [Hr0 _]. rewrite E in HP.
  rewrite (H t tk Ht HP) in Hr0. discriminate.
Qed.

Lemma cancelReminder_idleOn (P : ReminderId -> Prop) (j : ReminderId)
    (s : SchedulerService) :
  idleOn P s -> idleOn P (snd (cancelReminder j s)).
Proof.
  intros H. unfold cancelReminder.
  destruct (reminders s !! j) as [ref|]; [|done].
  destruct (objects s !! ref) as [r|]; [|done].
  destruct (decide (status r = pending)); [|done].
  cbn. unfold idleOn. cbn. eapply stopTask_idleOn; [exact H|reflexivity].
Qed.

Lemma destroy_idleOn (P : ReminderId -> Prop) (s : SchedulerService) :
  idleOn P s -> idleOn P (destroy s).
Proof.
  intros H t tk' Ht HP. cbn in Ht.
  apply destroy_tasks in Ht as (tk & Ht & E & Hrun).
  destruct (running tk') eqn:Hr; [|done].
  destruct (Hrun eq_refl) as [Hr0 _]. rewrite E in HP.
  rewrite (H t tk Ht HP) in Hr0. discriminate.
Qed.

(** A step that does not register for an id of [P] starts nothing for
    such an id and runs nothing on its behalf. *)
Lemma step_idleOn (P : ReminderId -> Prop) (e : Event) (s s' : SchedulerService) :
  step e s = Some s' -> idleOn P s ->
  (forall cid msg date imm now, e = Schedule cid msg date imm now ->
     ~ P (generateReminderId cid now)) ->
  idleOn P s'
  /\ (executed s' = executed s
      \/ exists x, executed s' = (executed s ++ [x])%list /\ ~ P (onBehalfOf x)).
Proof.
  intros Hstep Hidle Hreg.
  destruct e as [cid msg date imm now|j| |t|t|]; cbn in Hstep.
  - injection Hstep as <-. specialize (Hreg cid msg date imm now eq_refl).
    pose proof (cancelReminder_idleOn P (generateReminderId cid now) s Hidle) as H1.
    pose proof (cancelReminder_executed (generateReminderId cid now) s) as H2.
    unfold scheduleReminder. destruct imm; cbn.
    + split; [exact H1|]. right. eexists. rewrite H2. split; [reflexivity|exact Hreg].
    + destruct (validPattern (dateToCronPattern date)); cbn;
        [|split; [exact H1|by left]].
      split; [|by left].
      intros t tk Ht HP. cbn in Ht.
      apply lookup_app_Some in Ht as [Ht|[_ Ht]]; [by eapply H1|].
      apply list_lookup_singleton_Some in Ht as [_ <-]. cbn in HP. done.
  - injection Hstep as <-. split; [by apply cancelReminder_idleOn|].
    left. apply cancelReminder_executed.
  - injection Hstep as <-. split; [exact Hidle|by left].
  - unfold fireBegin in Hstep. destruct (tasks s !! t) as [tk|] eqn:Ht; [|done].
    destruct (running tk) eqn:Hr; [|done]. cbn in Hstep.
    destruct (bool_decide (t ∉ inflight s)); [|done]. injection Hstep as <-.
    split; [exact Hidle|]. right. eexists. cbn. split; [reflexivity|]. cbn.
    intros HP. rewrite (Hidle t tk Ht HP) in Hr. discriminate.
  - unfold fireEnd in Hstep. destruct (tasks s !! t) as [tk|] eqn:Ht; [|done].
    destruct (bool_decide (t ∈ inflight s)); [|done].
    destruct (reminders s !! forReminder tk) as [ref|];
      [|injection Hstep as <-; split; [exact Hidle|by left]].
    destruct (objects s !! ref) as [r|];
      [|injection Hstep as <-; split; [exact Hidle|by left]].
    injection Hstep as <-. split; [|by left].
    unfold idleOn. cbn. eapply stopTask_idleOn; [exact Hidle|reflexivity].
  - injection Hstep as <-. split; [by apply destroy_idleOn|by left].
Qed.

Lemma run_idleOn (P : ReminderId -> Prop) (es : list Event) (s s' : SchedulerService) :
  run es s = Some s' -> idleOn P s ->
  (forall i, i ∈ registered es -> ~ P i) ->
  idleOn P s' /\ forall i, P i -> executions i s' = executions i s.
Proof.
  revert s. induction es as [|e es IH]; intros s Hrun Hidle Hreg; cbn in Hrun.
  - injection Hrun as <-. done.
  - destruct (step e s) as [s1|] eqn:Hstep; [|done].
    rewrite registered_cons in Hreg.
    destruct (step_idleOn P e s s1 Hstep Hidle) as [H1 Hx].
    { intros cid msg date imm now ->. apply Hreg. cbn. by left. }
    destruct (IH s1 Hrun H1) as [H2 Hn].
    { intros i Hi. apply Hreg. destruct e; cbn; try done. by right. }
    split; [exact H2|]. intros i Hi. rewrite (Hn i Hi).
    destruct Hx as [Hx|(x & Hx & Hnx)]; [by apply executions_same|].
    rewrite (executions_log i s x s1 Hx).
    destruct (decide (onBehalfOf x = i)) as [<-|]; [done|lia].
Qed.

(** After [cancelReminder i] on a reachable scheduler no task works for
    [i] any more. *)
Lemma cancelReminder_idle (R : list ReminderId) (s : SchedulerService) (i : ReminderId) :
  Inv R s -> idle i (snd (cancelReminder i s)).
Proof.
  intros HI t tk' Ht Heq. unfold cancelReminder in Ht. subst i.
  destruct (running tk') eqn:Hr; [exfalso|done].
  destruct (reminders s !! forReminder tk') as [ref|] eqn:Hi.
  - destruct (objects s !! ref) as [r|] eqn:Hobj.
    + destruct (decide (status r = pending)) as [Hp|Hp]; cbn in Ht.
      * apply stopTask_lookup in Ht as (tk & Ht & E & _ & _ & Hrun).
        destruct (Hrun Hr) as [Hr0 Hne].
        destruct (inv_running R s HI t tk Ht Hr0) as (ref' & r' & H1 & H2 & H3 & _).
        rewrite <- E, Hi in H1. injection H1 as <-. congruence.
      * destruct (inv_running R s HI t tk' Ht Hr) as (ref' & r' & H1 & H2 & _ & H4).
        congruence.
    + destruct (inv_running R s HI t tk' Ht Hr) as (ref' & r' & H1 & H2 & _ & H4).
      congruence.
  - destruct (inv_running R s HI t tk' Ht Hr) as (ref' & r' & H1 & _). congruence.
Qed.

Lemma destroy_halted (R : list ReminderId) (s : SchedulerService) :
  Inv R s -> halted (destroy s).
Proof.
  intros HI t tk' Ht _. cbn in Ht.
  apply destroy_tasks in Ht as (tk & Ht & E & Hrun).
  destruct (running tk') eqn:Hr; [exfalso|done].
  destruct (Hrun eq_refl) as [Hr0 Hall].
  destruct (inv_running R s HI t tk Ht Hr0) as (ref & r & H1 & H2 & H3 & _).
  apply (Hall (forReminder tk, ref) r); [by apply elem_of_map_to_list|done|done].
Qed.

Lemma registered_app (es1 es2 : list Event) :
  registered (es1 ++ es2) = (registered es1 ++ registered es2)%list.
Proof. unfold registered. apply omap_app. Qed.

(** X10. A cancelled reminder never fires. Take any trace from a fresh
    scheduler whose registrations generated pairwise distinct ids. Once
    [cancelReminder] has been called for a registered id, whatever it
    answered and whatever follows (sweeps, callbacks, other
    registrations and cancellations, [destroy]), the action is not run
    on behalf of that id again. *)
Theorem cancelled_reminder_never_fires (es1 es2 : list Event) (i : ReminderId)
    (s1 s2 : SchedulerService) :
  NoDup (registered (es1 ++ es2)) ->
  i ∈ registered es1 ->
  run es1 create = Some s1 ->
  run (Cancel i :: es2) s1 = Some s2 ->
  executions i s2 = executions i s1 /\ idle i s2.
Proof.
  intros Hnd Hi H1 H2. rewrite registered_app in Hnd.
  apply NoDup_app in Hnd as (Hnd1 & Hdis & _).
  pose proof (Inv_run es1 [] create s1 Inv_create Hnd1 H1) as HI. cbn in HI.
  change (run es2 (snd (cancelReminder i s1)) = Some s2) in H2.
  destruct (run_idleOn (eq i) es2 _ s2 H2 (cancelReminder_idle _ s1 i HI)) as [Hidle Hn].
  { intros j Hj <-. by apply (Hdis i). }
  split; [|exact Hidle].
  rewrite (Hn i eq_refl). apply executions_same, cancelReminder_executed.
Qed.

(** A reminder is registered, cancelled before its time, and the sweep
    and another registration follow; its task cannot start. *)
Lemma cancelled_reminder_never_fires_witness :
  let es1 := [Schedule 1 "follow up" (At 1762160400000) false 1762153200000] in
  let es2 := [Sweep; Schedule 2 "follow up" (At 1762160400000) false 1762153200001;
              FireBegin 1; FireEnd 1] in
  let s1 := default create (run es1 create) in
  let s2 := default create (run (Cancel (1, 1762153200000) :: es2) s1) in
  fireBegin 0 s2 = None
  /\ executions (2, 1762153200001) s2 = 1%nat
  /\ executions (1, 1762153200000) s2 = executions (1, 1762153200000) s1.
Proof.
  intros es1 es2 s1 s2.
  split; [vm_compute; reflexivity|]. split; [vm_compute; reflexivity|].
  refine (proj1 (cancelled_reminder_never_fires es1 es2 (1, 1762153200000) s1 s2
                  _ _ _ _)).
  - apply (bool_decide_unpack _). vm_compute. exact I.
  - apply (bool_decide_unpack _). vm_compute. exact I.
  - vm_compute. reflexivity.
  - vm_compute. reflexivity.
Defined.

(** X11. [destroy] halts the scheduler. On a scheduler reached from a
    fresh one by a trace with pairwise distinct registration ids,
    [destroy] leaves no task running; until the next registration no
    callback can start, so the action is not run again, whatever sweeps,
    cancellations and ends of callbacks already under way follow. *)
Theorem destroy_halts_the_scheduler (es1 es2 : list Event) (s1 s2 : SchedulerService) :
  NoDup (registered es1) ->
  run es1 create = Some s1 ->
  forallb (fun e => negb (registers e)) es2 = true ->
  run (Destroy :: es2) s1 = Some s2 ->
  halted s2
  /\ (forall t, fireBegin t s2 = None)
  /\ forall i, executions i s2 = executions i s1.
Proof.
  intros Hnd H1 Hno H2.
  pose proof (Inv_run es1 [] create s1 Inv_create Hnd H1) as HI. cbn in HI.
  change (run es2 (destroy s1) = Some s2) in H2.
  destruct (run_idleOn (fun _ => True) es2 _ s2 H2 (destroy_halted _ s1 HI)) as [Hh Hn].
  { intros j Hj _. unfold registered in Hj. apply list_elem_of_omap in Hj as (e & He & Hj).
    rewrite forallb_forall in Hno. apply list_elem_of_In, Hno in He.
    by destruct e. }
  split_and!; [exact Hh| |].
  - intros t. unfold fireBegin. destruct (tasks s2 !! t) as [tk|] eqn:Ht; [|done].
    by rewrite (Hh t tk Ht I).
  - intros i. rewrite (Hn i I). by apply executions_same.
Qed.

(** Two reminders, one of them with its callback at the await when
    [destroy] is called. *)
Lemma destroy_halts_the_scheduler_witness :
  let es1 := [Schedule 1 "follow up" (At 1762160400000) false 1762153200000;
              Schedule 2 "follow up" (At 1762160400000) false 1762153200001;
              FireBegin 0] in
  let es2 := [Sweep; FireEnd 0; Cancel (2, 1762153200001)] in
  let s1 := default create (run es1 create) in
  let s2 := default create (run (Destroy :: es2) s1) in
  length (executed s1) = 1%nat
  /\ fireBegin 1 s1 ≠ None
  /\ (forall t, fireBegin t s2 = None)
  /\ forall i, executions i s2 = executions i s1.
Proof.
  intros es1 es2 s1 s2.
  split; [vm_compute; reflexivity|]. split; [vm_compute; discriminate|].
  apply (destroy_halts_the_scheduler es1 es2 s1 s2).
  - apply (bool_decide_unpack _). vm_compute. exact I.
  - vm_compute. reflexivity.
  - reflexivity.
  - vm_compute. reflexivity.
Defined.

End LifecycleFacts.

(** ** Dates, patterns and resolved times *)
Module TimeFacts.
Import Text Clock Classifier Scheduler ClockFacts TextFacts ClassifierFacts.

Lemma same_minute (t t' : Z) :
  t / msPerMinute = t' / msPerMinute ->
  dateToCronPattern (At t') = dateToCronPattern (At t).
Proof.
  intros E.
  assert (E1 : t' / msPerHour = t / msPerHour).
  { unfold msPerHour, msPerMinute in *.
    change 3600000 with (60000 * 60). by rewrite <- !Z.div_div, E by lia. }
  assert (E2 : t' / msPerDay = t / msPerDay).
  { unfold msPerDay, msPerMinute in *.
    change 86400000 with (60000 * 1440). by rewrite <- !Z.div_div, E by lia. }
  unfold dateToCronPattern, reading, getDate, getMonth1, getMinutes, getHours.
  by rewrite E, E1, E2.
Qed.

(** X12. The pattern [dateToCronPattern] builds. For a date it is well
    formed and node-cron takes it: its fields are the minute (0-59) and
    the hour (0-23) of the time of day and the month (1-12) and the day of
    the calendar date of the day, a day that month has in that year; the
    fields and the seconds within the minute give back the time value, and
    dates within the same minute give the same pattern. The day numbers
    are the days of the Gregorian calendar: day 0 is 1 January 1970 and
    each day number is followed by the date of the day after. For the
    Invalid Date, every getter returns [NaN], every field is [NaN], and
    node-cron does not take the pattern. So the pattern is one node-cron
    takes exactly when the date is not the Invalid Date. *)
Theorem cron_pattern_is_well_formed (date : Date) :
  let p := dateToCronPattern date in
  match date with
  | At t =>
      exists minute hour day month year,
        p = {| cronMinute := Some minute; cronHour := Some hour;
               cronDay := Some day; cronMonth := Some month |}
        /\ civil (t / msPerDay) = (year, month, day)
        /\ 0 <= minute <= 59 /\ 0 <= hour <= 23
        /\ 1 <= month <= 12 /\ 1 <= day <= daysInMonth year month
        /\ t = (((t / msPerDay) * 24 + hour) * 60 + minute) * 60000 + t mod 60000
        /\ validPattern p = true
        /\ (forall t', t / msPerMinute = t' / msPerMinute ->
              dateToCronPattern (At t') = p)
  | InvalidDate =>
      p = {| cronMinute := None; cronHour := None; cronDay := None; cronMonth := None |}
      /\ validPattern p = false
  end
  /\ (validPattern p = true <-> date ≠ InvalidDate)
  /\ civil 0 = (1970, 1, 1)
  /\ (forall n, civil (n + 1) = nextDay (civil n)).
Proof.
  intros p. subst p. split; [|split; [|split]].
  - destruct date as [t|]; [|done].
    pose proof (civil_range (t / msPerDay)) as H.
    destruct (civil (t / msPerDay)) as [[y m] d] eqn:E.
    exists (getMinutes t), (getHours t), d, m, y.
    split_and!; try done; try lia.
    + unfold dateToCronPattern, reading, getDate, getMonth1. by rewrite E.
    + unfold getMinutes, msPerMinute. Z.div_mod_to_equations. lia.
    + unfold getMinutes, msPerMinute. Z.div_mod_to_equations. lia.
    + unfold getHours, msPerHour. Z.div_mod_to_equations. lia.
    + unfold getHours, msPerHour. Z.div_mod_to_equations. lia.
    + unfold getHours, getMinutes, msPerDay, msPerHour, msPerMinute.
      Z.div_mod_to_equations. lia.
    + apply validPattern_At.
    + intros t'. apply same_minute.
  - rewrite validPattern_date. destruct date as [t|]; split; try done; eauto.
    by intros [t H].
  - reflexivity.
  - intros n. by destruct (civil_calendar n) as (_ & _ & H).
Qed.

Lemma digits_nonneg (ds : string) : digits ds -> 0 <= parseInt ds.
Proof. intros [_ H]. by apply parseDigits_nonneg. Qed.

Lemma Rule4_nonneg (r : string) (n : Z) (u : RelativeUnit) : Rule4 r n u -> 0 <= n.
Proof.
  intros [(s & ds & _ & (Hds & _) & ->)|(_ & _ & s & ds & _ & (Hds & _) & ->)];
    by apply digits_nonneg.
Qed.

Lemma relativeTime_At (now n t : Z) (u : RelativeUnit) :
  0 <= n -> relativeTime now n u = At t -> now <= t.
Proof.
  intros Hn H. unfold relativeTime in H. apply timeClip_At in H as [-> _].
  unfold msPerMinute, msPerHour, msPerDay. destruct u; lia.
Qed.

Lemma getTomorrowMorning_At (now : Z) :
  getTomorrowMorning now = timeClip (at9 (addDays now 1)).
Proof. unfold getTomorrowMorning. apply setHours9_setDate. Qed.

(** X13. The classifier never resolves a reply to a time before the
    clock it was read at: what it resolves to is the Invalid Date or a
    date at or after the clock, a relative amount being a run of digits,
    hence not negative, and a weekday a later day. At a clock value from
    which the coming week is within the range of dates, the Invalid Date
    comes only from a relative amount that leads beyond that range, as
    in "in 3000000000 hours". Tomorrow morning is then a date: 09:00 of
    the next day, later than the clock and at most 33 hours later. *)
Theorem resolved_times_are_not_in_the_past (now : Z) (text : string) :
  let r := normalized text in
  (forall date, classify now text = CustomAt date ->
     date = InvalidDate \/ exists t, date = At t /\ now <= t)
  /\ (- maxTime <= now <= maxTime - 8 * msPerDay ->
      classify now text = CustomAt InvalidDate ->
      exists n u, Rule4 r n u /\ relativeTime now n u = InvalidDate
        /\ maxTime < now + n * match u with
                                | Minutes => msPerMinute
                                | Hours => msPerHour
                                | Days => msPerDay
                                end)
  /\ (- maxTime <= now <= maxTime - 8 * msPerDay ->
      exists t, getTomorrowMorning now = At t
        /\ now < t <= now + 33 * msPerHour
        /\ t / msPerDay = now / msPerDay + 1
        /\ getHours t = 9 /\ getMinutes t = 0 /\ t mod msPerMinute = 0)
  /\ classify 1762153200000 "in 3000000000 hours" = CustomAt InvalidDate
  /\ classify 1762153200000 "in 0 minutes" = CustomAt (At 1762153200000).
Proof.
  intros r.
  pose proof (parse_by_rule now text) as H. cbv zeta in H. fold r in H.
  apply (f_equal fst) in H. cbn [fst] in H.
  split_and!.
  - intros date. unfold classify. rewrite H. clear H.
    destruct (rule1 r); [done|]. destruct (rule2 r); [done|]. destruct (rule3 r); [done|].
    destruct (rule4 r) as [[n u]|] eqn:E4.
    + cbn. intros [= <-]. apply rule4_Rule4, Rule4_nonneg in E4.
      destruct (relativeTime now n u) as [t|] eqn:Et; [|by left].
      right. exists t. split; [done|]. by eapply relativeTime_At.
    + destruct (rule5 r) as [d|] eqn:E5; [|done].
      cbn. intros [= <-]. apply rule5_range in E5.
      destruct (timeClip (nextWeekday now d)) as [t|] eqn:Et; [|by left].
      right. exists t. split; [done|]. apply timeClip_At in Et as [-> _].
      destruct (nextWeekday_later now d E5) as (_ & _ & _ & _ & Hl & _).
      unfold msPerDay in Hl. Z.div_mod_to_equations. lia.
  - intros Hnow. unfold classify. rewrite H. clear H.
    destruct (rule1 r); [done|]. destruct (rule2 r); [done|]. destruct (rule3 r); [done|].
    destruct (rule4 r) as [[n u]|] eqn:E4.
    + cbn. intros [= Et]. exists n, u. apply rule4_Rule4 in E4.
      pose proof (Rule4_nonneg _ _ _ E4) as Hn.
      split_and!; [done|done|].
      unfold relativeTime, timeClip in Et.
      destruct (Z.leb_spec (Z.abs (match u with
                                   | Minutes => now + n * msPerMinute
                                   | Hours => now + n * msPerHour
                                   | Days => now + n * msPerDay
                                   end)) maxTime) as [Hle|Hgt]; [done|].
      unfold msPerMinute, msPerHour, msPerDay in *. destruct u; lia.
    + destruct (rule5 r) as [d|] eqn:E5; [|done].
      cbn. intros [= Et]. exfalso. apply rule5_range in E5.
      destruct (nextWeekday_later now d E5) as (_ & _ & _ & _ & Hl & Hw).
      rewrite timeClip_valid in Et; [done|].
      unfold maxTime, msPerDay in *. Z.div_mod_to_equations. lia.
  - intros Hnow. exists (at9 (addDays now 1)).
    rewrite getTomorrowMorning_At.
    assert (Hclip : timeClip (at9 (addDays now 1)) = At (at9 (addDays now 1))).
    { apply timeClip_valid. unfold at9, addDays, maxTime, msPerDay, msPerHour in *.
      Z.div_mod_to_equations. lia. }
    split; [exact Hclip|].
    unfold at9, addDays, getHours, getMinutes, msPerDay, msPerHour, msPerMinute.
    split_and!; Z.div_mod_to_equations; lia.
  - vm_compute. reflexivity.
  - vm_compute. reflexivity.
Qed.

End TimeFacts.

(** ** The calendar's free slots *)
Module CalendarFacts.
Import Text Clock App Calendar.

Lemma scanEvents_times (ms c : Z) (evs : list CalendarEvent) :
  scanEvents ms c evs =
    (map (fun ab : Z * Z => slotOf ab.1 ab.2) (scanTimes ms c evs).1,
     (scanTimes ms c evs).2).
Proof.
  revert c. induction evs as [|e evs IH]; intros c; cbn; [done|].
  rewrite IH. destruct (scanTimes ms (Z.max c (endOf e)) evs) as [more final]. cbn.
  rewrite map_app. by destruct (ms <=? startOf e - c).
Qed.

Lemma generateDaySlots_times (date : Z) (events : list CalendarEvent) (duration : Z) :
  generateDaySlots date events duration =
    map (fun ab : Z * Z => slotOf ab.1 ab.2) (daySlotTimes date events duration).
Proof.
  unfold generateDaySlots, daySlotTimes. rewrite scanEvents_times.
  destruct (scanTimes _ _ _) as [slots final]. cbn.
  destruct (final <? at19 date); cbn; [|done].
  destruct (_ <=? _); [|done]. by rewrite map_app.
Qed.

(** *** The sort *)

Lemma insertByStart_elem (e x : CalendarEvent) (l : list CalendarEvent) :
  x ∈ insertByStart e l <-> x = e \/ x ∈ l.
Proof.
  induction l as [|y l IH]; cbn.
  - rewrite list_elem_of_singleton. split; [by left|]. intros [H|H]; [done|].
    by apply elem_of_nil in H.
  - destruct (startOf e <=? startOf y); [by rewrite !elem_of_cons|].
    rewrite !elem_of_cons, IH. tauto.
Qed.

Lemma sortByStart_elem (x : CalendarEvent) (l : list CalendarEvent) :
  x ∈ sortByStart l <-> x ∈ l.
Proof.
  induction l as [|y l IH]; [done|].
  change (sortByStart (y :: l)) with (insertByStart y (sortByStart l)).
  rewrite insertByStart_elem, elem_of_cons, IH. tauto.
Qed.

Lemma insertByStart_length (e : CalendarEvent) (l : list CalendarEvent) :
  length (insertByStart e l) = S (length l).
Proof.
  induction l as [|y l IH]; cbn; [done|].
  destruct (startOf e <=? startOf y); cbn; [done|by rewrite IH].
Qed.

Lemma sortByStart_length (l : list CalendarEvent) : length (sortByStart l) = length l.
Proof.
  induction l as [|y l IH]; [done|].
  change (sortByStart (y :: l)) with (insertByStart y (sortByStart l)).
  rewrite insertByStart_length, IH. done.
Qed.

Lemma insertByStart_sorted (e : CalendarEvent) (l : list CalendarEvent) :
  StronglySorted byStart l -> StronglySorted byStart (insertByStart e l).
Proof.
  induction 1 as [|y l Hl IH Hy]; cbn.
  - repeat constructor.
  - destruct (Z.leb_spec (startOf e) (startOf y)) as [Hle|Hgt].
    + constructor; [by constructor|]. constructor; [done|].
      eapply Forall_impl; [exact Hy|]. intros z Hz. unfold byStart in *. lia.
    + constructor; [done|]. apply Forall_forall. intros z Hz.
      apply insertByStart_elem in Hz as [->|Hz].
      * unfold byStart. lia.
      * by eapply Forall_forall in Hy.
Qed.

Lemma sortByStart_sorted (l : list CalendarEvent) : StronglySorted byStart (sortByStart l).
Proof.
  induction l as [|y l IH]; [constructor|].
  change (sortByStart (y :: l)) with (insertByStart y (sortByStart l)).
  by apply insertByStart_sorted.
Qed.

(** *** The loop *)

Lemma scanTimes_spec (ms c : Z) (evs : list CalendarEvent) :
  0 <= ms -> StronglySorted byStart evs ->
  let '(slots, final) := scanTimes ms c evs in
  c <= final
  /\ (forall e, e ∈ evs -> endOf e <= final)
  /\ (length slots <= length evs)%nat
  /\ forall a b, (a, b) ∈ slots ->
       b = a + ms /\ c <= a /\ a <= final
       /\ (exists e, e ∈ evs /\ b <= startOf e)
       /\ forall e, e ∈ evs -> endOf e <= a \/ b <= startOf e.
Proof.
  intros Hms. revert c. induction evs as [|e evs IH]; intros c Hs; cbn.
  { split_and!; [lia|set_solver|done|set_solver]. }
  apply StronglySorted_inv in Hs as [Hs He].
  specialize (IH (Z.max c (endOf e)) Hs).
  destruct (scanTimes ms (Z.max c (endOf e)) evs) as [more final].
  destruct IH as (Hc & Hend & Hlen & Hslots).
  split_and!.
  - lia.
  - intros e' He'. apply elem_of_cons in He' as [->|He']; [lia|by apply Hend].
  - rewrite length_app. destruct (ms <=? startOf e - c); cbn; lia.
  - intros a b Hab. apply elem_of_app in Hab as [Hab|Hab].
    + destruct (Z.leb_spec ms (startOf e - c)) as [Hgap|]; [|set_solver].
      apply list_elem_of_singleton in Hab. injection Hab as -> ->.
      split_and!; [lia|lia|lia| |].
      * exists e. split; [by left|lia].
      * intros e' He'. right. apply elem_of_cons in He' as [->|He']; [lia|].
        eapply Forall_forall in He; [|exact He']. unfold byStart in He. lia.
    + destruct (Hslots a b Hab) as (Hb & Ha & Haf & (e0 & He0 & Hb0) & Hno).
      split_and!; [done|lia|done| |].
      * exists e0. split; [by right|done].
      * intros e' He'. apply elem_of_cons in He' as [->|He']; [left; lia|by apply Hno].
Qed.

Lemma at9_day (d : Z) : at9 d / msPerDay = d / msPerDay.
Proof. unfold at9, msPerDay, msPerHour. Z.div_mod_to_equations. lia. Qed.

Lemma daySlotTimes_spec (date : Z) (events : list CalendarEvent) (duration : Z) :
  0 <= duration ->
  (length (daySlotTimes date events duration)
   <= length (List.filter (startsOn date) events) + 1)%nat
  /\ forall a b, (a, b) ∈ daySlotTimes date events duration ->
       b - a = duration * 60 * 1000
       /\ at9 date <= a
       /\ a / msPerDay = date / msPerDay
       /\ b <= (date / msPerDay + 1) * msPerDay
       /\ forall e, e ∈ events -> ~ overlaps date e (a, b).
Proof.
  intros Hd.
  unfold daySlotTimes.
  set (ms := duration * 60 * 1000). assert (Hms : 0 <= ms) by (subst ms; lia).
  set (evs := sortByStart (List.filter (startsOn date) events)).
  pose proof (scanTimes_spec ms (at9 date) evs Hms (sortByStart_sorted _)) as H.
  destruct (scanTimes ms (at9 date) evs) as [slots final].
  destruct H as (Hc & Hend & Hlen & Hslots).
  assert (Hevs : forall e, e ∈ evs <-> e ∈ events /\ startsOn date e = true).
  { intros e. subst evs. rewrite sortByStart_elem, list_elem_of_In, filter_In.
    by rewrite <- list_elem_of_In. }
  assert (Hon : forall e, startsOn date e = true -> startOf e / msPerDay = date / msPerDay).
  { intros e. unfold startsOn, startOf, sameDay.
    destruct (startDateTime e) as [s|]; [|done]. cbn. apply Z.eqb_eq. }
  assert (Hlen' : length evs = length (List.filter (startsOn date) events)).
  { subst evs. apply sortByStart_length. }
  assert (Hin : forall a b, (a, b) ∈ slots ->
            b - a = ms /\ at9 date <= a /\ a / msPerDay = date / msPerDay
            /\ b <= (date / msPerDay + 1) * msPerDay
            /\ forall e, e ∈ events -> ~ overlaps date e (a, b)).
  { intros a b Hab.
    destruct (Hslots a b Hab) as (Hb & Ha & _ & (e0 & He0 & Hb0) & Hno).
    apply Hevs in He0 as [_ He0]. apply Hon in He0.
    pose proof (at9_day date) as H9.
    split_and!; [lia|done| | |].
    - unfold msPerDay in *. Z.div_mod_to_equations. lia.
    - unfold msPerDay in *. Z.div_mod_to_equations. lia.
    - intros e He (Hs & H1 & H2). cbn in H1, H2.
      destruct (Hno e) as [?|?]; [by apply Hevs|lia|lia]. }
  split.
  - destruct (_ && _); [rewrite length_app; cbn|]; lia.
  - intros a b Hab.
    destruct (Z.ltb_spec final (at19 date)) as [Hlt|]; cbn in Hab; [|by apply Hin].
    destruct (Z.leb_spec ms (at19 date - final)) as [Hrem|]; [|by apply Hin].
    apply elem_of_app in Hab as [Hab|Hab]; [by apply Hin|].
    apply list_elem_of_singleton in Hab. injection Hab as -> ->.
    pose proof (at9_day date) as H9.
    split_and!; [lia|done| | |].
    + unfold at19, at9, msPerDay, msPerHour in *. Z.div_mod_to_equations. lia.
    + unfold at19, at9, msPerDay, msPerHour in *. Z.div_mod_to_equations. lia.
    + intros e He (Hs & H1 & H2). cbn in H1, H2.
      assert (endOf e <= final); [|lia]. apply Hend. by apply Hevs.
Qed.

Lemma day_slots_of (date : Z) (events : list CalendarEvent) (duration : Z)
    (slot : AvailableTimeSlot) :
  0 <= duration -> slot ∈ generateDaySlots date events duration ->
  exists a b, (a, b) ∈ daySlotTimes date events duration /\ slot = slotOf a b
              /\ a / msPerDay = date / msPerDay.
Proof.
  intros Hd Hs. rewrite generateDaySlots_times in Hs.
  apply list_elem_of_fmap in Hs as ([a b] & -> & Hab).
  exists a, b. split_and!; [done|done|].
  by destruct (proj2 (daySlotTimes_spec date events duration Hd) a b Hab) as (_ & _ & H & _).
Qed.

(** X14. The slots of a day. For a meeting length that is not negative,
    every slot [generateDaySlots] offers lasts exactly that length, starts
    on the day asked for, at 09:00 or later, and ends by midnight; no
    timed event that starts on that day is under way at any instant of
    it; and the day offers at most one slot more than it has such events
    (one slot per gap, not one per free hour). The rendered slots are
    those intervals formatted. *)
Theorem day_slots_are_free (date : Z) (events : list CalendarEvent) (duration : Z) :
  0 <= duration ->
  generateDaySlots date events duration =
    map (fun ab : Z * Z => slotOf ab.1 ab.2) (daySlotTimes date events duration)
  /\ (length (daySlotTimes date events duration)
      <= length (List.filter (startsOn date) events) + 1)%nat
  /\ forall a b, (a, b) ∈ daySlotTimes date events duration ->
       b - a = duration * 60 * 1000
       /\ at9 date <= a
       /\ a / msPerDay = date / msPerDay
       /\ b <= (date / msPerDay + 1) * msPerDay
       /\ forall e, e ∈ events -> ~ overlaps date e (a, b).
Proof.
  intros Hd. split; [apply generateDaySlots_times|by apply daySlotTimes_spec].
Qed.

(** Thursday 1 January 1970 with a meeting from 10:00 to 11:30, one from
    13:00 to 14:00 and an all-day event: an hour is free at 09:00, at
    11:30 and at 14:00. *)
Lemma day_slots_are_free_witness :
  let events := [{| startDateTime := Some (hm 13 0); endDateTime := Some (hm 14 0) |};
                 {| startDateTime := None; endDateTime := None |};
                 {| startDateTime := Some (hm 10 0); endDateTime := Some (hm 11 30) |}] in
  daySlotTimes 0 events 60 = [(hm 9 0, hm 10 0); (hm 11 30, hm 12 30); (hm 14 0, hm 15 0)]
  /\ map startTime (generateDaySlots 0 events 60) = ["09:00"; "11:30"; "14:00"]
  /\ map dayOfWeek (generateDaySlots 0 events 60) = ["Thursday"; "Thursday"; "Thursday"]
  /\ map slotDate (generateDaySlots 0 events 60) = ["1970-01-01"; "1970-01-01"; "1970-01-01"]
  /\ forall a b, (a, b) ∈ daySlotTimes 0 events 60 ->
       b - a = 60 * 60 * 1000 /\ at9 0 <= a /\ a / msPerDay = 0 / msPerDay
       /\ b <= (0 / msPerDay + 1) * msPerDay
       /\ forall e, e ∈ events -> ~ overlaps 0 e (a, b).
Proof.
  intros events. split; [vm_compute; reflexivity|]. split; [vm_compute; reflexivity|].
  split; [vm_compute; reflexivity|]. split; [vm_compute; reflexivity|].
  apply (day_slots_are_free 0 events 60). lia.
Defined.

Lemma overDays_elem (fuel : nat) (now d : Z) (events : list CalendarEvent) (duration : Z)
    (slot : AvailableTimeSlot) :
  slot ∈ overDays fuel now d events duration ->
  exists k, d <= k < d + Z.of_nat fuel
    /\ getDay (addDays now k) ≠ 0 /\ getDay (addDays now k) ≠ 6
    /\ slot ∈ generateDaySlots (addDays now k) events duration.
Proof.
  revert d. induction fuel as [|fuel IH]; intros d; cbn [overDays].
  { intros H. by apply elem_of_nil in H. }
  intros H. apply elem_of_app in H as [H|H].
  - destruct (Z.eqb_spec (getDay (addDays now d)) 0) as [|H0]; cbn in H.
    { by apply elem_of_nil in H. }
    destruct (Z.eqb_spec (getDay (addDays now d)) 6) as [|H6]; cbn in H.
    { by apply elem_of_nil in H. }
    exists d. split_and!; [lia|lia|done|done|done].
  - apply IH in H as (k & Hk & H0 & H6 & H). exists k. split_and!; [lia|lia|done..].
Qed.

Lemma getDayOfWeek_weekday (a : Z) :
  getDay a ≠ 0 -> getDay a ≠ 6 -> getDayOfWeek a ∈ weekdays.
Proof.
  intros H0 H6. unfold getDayOfWeek.
  assert (H : getDay a = 1 \/ getDay a = 2 \/ getDay a = 3 \/ getDay a = 4
              \/ getDay a = 5).
  { unfold getDay in *. Z.div_mod_to_equations. lia. }
  destruct H as [E|[E|[E|[E|E]]]]; rewrite E; cbn; unfold weekdays;
    repeat (first [by left | right]).
Qed.

(** X15. The slots [findAvailableSlots] returns. It returns at most ten
    slots, and none when the calendar API failed. For a meeting length
    that is not negative, every slot it returns is one [generateDaySlots]
    offers for one of the next [daysAhead] days, and that day is a Monday
    to Friday: the slot's [dayOfWeek] is never Saturday or Sunday. *)
Theorem available_slots_are_weekday_slots (now : Z) (answer : option (list CalendarEvent))
    (daysAhead duration : Z) :
  0 <= duration ->
  (length (findAvailableSlots now answer daysAhead duration) <= 10)%nat
  /\ findAvailableSlots now None daysAhead duration = []
  /\ forall slot, slot ∈ findAvailableSlots now answer daysAhead duration ->
       dayOfWeek slot ∈ weekdays
       /\ exists events k a b,
            answer = Some events /\ 1 <= k <= daysAhead
            /\ (a, b) ∈ daySlotTimes (addDays now k) events duration
            /\ slot = slotOf a b.
Proof.
  intros Hd. split_and!.
  - unfold findAvailableSlots.
    destruct (setDate now _), answer as [events|]; cbn; try lia. rewrite length_take. lia.
  - unfold findAvailableSlots. by destruct (setDate now _).
  - intros slot Hs. unfold findAvailableSlots in Hs.
    destruct (setDate now _); [|by apply elem_of_nil in Hs].
    destruct answer as [events|]; [|by apply elem_of_nil in Hs].
    apply elem_of_take in Hs as (i & Hs & _). apply list_elem_of_lookup_2 in Hs.
    apply overDays_elem in Hs as (k & Hk & H0 & H6 & Hs).
    destruct (day_slots_of _ _ _ _ Hd Hs) as (a & b & Hab & Hslot & Hday). subst slot.
    split.
    + cbn. apply getDayOfWeek_weekday; unfold getDay in *; by rewrite Hday.
    + exists events, k, a, b. split_and!; [done|lia|lia|done|done].
Qed.

(** From Thursday 1 January 1970 with an empty calendar: the first slots
    are Friday's and Monday's first hour. *)
Lemma available_slots_are_weekday_slots_witness :
  map (fun s => (dayOfWeek s, slotDate s, startTime s))
      (take 3 (findAvailableSlots 0 (Some []) 14 60)) =
    [("Friday", "1970-01-02", "09:00"); ("Monday", "1970-01-05", "09:00");
     ("Tuesday", "1970-01-06", "09:00")]
  /\ (length (findAvailableSlots 0 (Some []) 14 60) <= 10)%nat
  /\ forall slot, slot ∈ findAvailableSlots 0 (Some []) 14 60 -> dayOfWeek slot ∈ weekdays.
Proof.
  split; [vm_compute; reflexivity|].
  destruct (available_slots_are_weekday_slots 0 (Some []) 14 60) as (H1 & _ & H2); [lia|].
  split; [exact H1|]. intros slot Hs. by destruct (H2 slot Hs).
Defined.

End CalendarFacts.

(** ** The matcher: fuel and meaning *)
Module RegExpFacts.
Import Text RegExp.

(** *** The fuel of a quantifier is never used up *)

Section Fuel.
Context (input : list ascii).

Lemma repeatMatcher_fuel (m : MatchState -> (MatchState -> MatchResult) -> MatchResult)
    (gs : list nat) (greedy : bool) (c : MatchState -> MatchResult) :
  fuelSafe input m ->
  forall fuel mn mx x,
    (mn + (length input - endIndex x) < fuel)%nat ->
    (endIndex x <= length input)%nat ->
    (forall y, (endIndex x <= endIndex y <= length input)%nat -> c y ≠ OutOfFuel) ->
    repeatMatcher m gs greedy c fuel mn mx x ≠ OutOfFuel.
Proof.
  intros Hm. induction fuel as [|fuel IH]; intros mn mx x Hfuel Hx Hc; [lia|].
  cbn [repeatMatcher].
  destruct (pastMax mx); [apply Hc; lia|].
  set (d := fun y : MatchState => _).
  assert (Hd : forall y,
    (endIndex x <= endIndex y <= length input)%nat -> d y ≠ OutOfFuel).
  { intros y Hy. subst d. cbn beta.
    destruct (Nat.eqb_spec mn 0) as [->|Hmn]; cbn [andb].
    - destruct (Nat.eqb_spec (endIndex y) (endIndex x)) as [|Hne]; [done|].
      apply IH; [cbn; lia|lia|]. intros z Hz. apply Hc. lia.
    - apply IH; [lia|lia|]. intros z Hz. apply Hc. lia. }
  set (xr := {| endIndex := endIndex x; captures := _ |}).
  assert (Hxr : m xr d ≠ OutOfFuel) by (apply Hm; [done|exact Hd]).
  destruct (negb (mn =? 0)%nat); [done|].
  destruct greedy.
  - destruct (m xr d); [done|apply Hc; lia|done].
  - pose proof (Hc x) as Hcx. destruct (c x); [done|done|]. exfalso. apply Hcx; [lia|done].
Qed.

Lemma matcher_fuel (r : Regex) : fuelSafe input (matcher input r).
Proof.
  induction r as [|f|r1 IH1 r2 IH2|r1 IH1 r2 IH2|greedy mn mx r1 IH|i r1 IH| | |];
    intros x c Hx Hc; cbn [matcher].
  - apply Hc. lia.
  - destruct (input !! endIndex x) as [a|] eqn:Ha; [|done].
    destruct (f a); [|done]. apply Hc. cbn. apply lookup_lt_Some in Ha. lia.
  - apply IH1; [done|]. intros y Hy. apply IH2; [lia|]. intros z Hz. apply Hc. lia.
  - pose proof (IH1 x c Hx Hc) as H1. pose proof (IH2 x c Hx Hc) as H2.
    by destruct (matcher input r1 x c).
  - apply repeatMatcher_fuel; [exact IH|lia|done|done].
  - apply IH; [done|]. intros y Hy. apply Hc. cbn. lia.
  - destruct (_ =? _)%nat; [apply Hc; lia|done].
  - destruct (_ =? _)%nat; [apply Hc; lia|done].
  - destruct (atWordBoundary _ _); [apply Hc; lia|done].
Qed.

Lemma matchAt_fuel (n : nat) (r : Regex) (i : nat) :
  (i <= length input)%nat -> matchAt n r input i ≠ OutOfFuel.
Proof. intros Hi. unfold matchAt. by apply matcher_fuel. Qed.

(** *** A match is one the pattern denotes *)

Lemma repeatMatcher_sound (r : Regex) (greedy : bool)
    (m : MatchState -> (MatchState -> MatchResult) -> MatchResult)
    (c : MatchState -> MatchResult) :
  sound input r m ->
  forall fuel mn mx x z,
    repeatMatcher m (groupsOf r) greedy c fuel mn mx x = Match z ->
    exists y, Denotes input (Repeat greedy mn mx r) x y /\ c y = Match z.
Proof.
  intros Hm. induction fuel as [|fuel IH]; intros mn mx x z; [done|].
  cbn [repeatMatcher].
  destruct (pastMax mx) eqn:Hmx.
  { intros H. exists x. split; [apply den_stop; by right|done]. }
  set (d := fun y : MatchState => _).
  set (xr := {| endIndex := endIndex x; captures := _ |}).
  assert (Hgo : m xr d = Match z ->
            exists y, Denotes input (Repeat greedy mn mx r) x y /\ c y = Match z).
  { intros H. apply Hm in H as (y1 & H1 & H). subst d. cbn beta in H.
    destruct ((mn =? 0)%nat && (endIndex y1 =? endIndex x)%nat); [done|].
    apply IH in H as (y & H2 & H). exists y. split; [|done].
    eapply den_again; [done|exact H1|exact H2]. }
  assert (Hstop : mn = 0%nat -> c x = Match z ->
            exists y, Denotes input (Repeat greedy mn mx r) x y /\ c y = Match z).
  { intros -> H. exists x. split; [apply den_stop; by left|done]. }
  destruct (Nat.eqb_spec mn 0) as [Hmn|Hmn]; cbn [negb]; [|exact Hgo].
  destruct greedy.
  - destruct (m xr d) as [z'| |] eqn:E; [exact Hgo|by apply Hstop|done].
  - destruct (c x) as [z'| |] eqn:E; [by apply Hstop|exact Hgo|done].
Qed.

Lemma matcher_sound (r : Regex) : sound input r (matcher input r).
Proof.
  induction r as [|f|r1 IH1 r2 IH2|r1 IH1 r2 IH2|greedy mn mx r1 IH|i r1 IH| | |];
    intros x c z; cbn [matcher].
  - intros H. exists x. split; [constructor|done].
  - destruct (input !! endIndex x) as [a|] eqn:Ha; [|done].
    destruct (f a) eqn:Hf; [|done]. intros H. eexists. split; [|exact H].
    by econstructor.
  - intros H. apply IH1 in H as (y1 & H1 & H). apply IH2 in H as (y & H2 & H).
    exists y. split; [by econstructor|done].
  - destruct (matcher input r1 x c) as [z'| |] eqn:E.
    + intros [= ->]. apply IH1 in E as (y & H1 & H). exists y. split; [|done].
      by apply den_left.
    + intros H. apply IH2 in H as (y & H2 & H). exists y. split; [|done].
      by apply den_right.
    + done.
  - apply repeatMatcher_sound, IH.
  - intros H. apply IH in H as (y & H1 & H). eexists. split; [|exact H].
    by constructor.
  - destruct (Nat.eqb_spec (endIndex x) 0); [|done]. intros H. exists x.
    split; [by constructor|done].
  - destruct (Nat.eqb_spec (endIndex x) (length input)); [|done]. intros H. exists x.
    split; [by constructor|done].
  - destruct (atWordBoundary input (endIndex x)) eqn:E; [|done]. intros H. exists x.
    split; [by constructor|done].
Qed.

Lemma searchFrom_sound (n : nat) (r : Regex) (fuel i j : nat) (y : MatchState) :
  searchFrom n r input fuel i = Some (j, y) ->
  (i <= j <= i + fuel)%nat
  /\ Denotes input r {| endIndex := j; captures := replicate n None |} y.
Proof.
  revert i. induction fuel as [|fuel IH]; intros i; cbn [searchFrom].
  - destruct (matchAt n r input i) as [z| |] eqn:E; [|done..].
    intros [= <- <-]. split; [lia|].
    apply matcher_sound in E as (y' & H & [= <-]). done.
  - destruct (matchAt n r input i) as [z| |] eqn:E.
    + intros [= <- <-]. split; [lia|].
      apply matcher_sound in E as (y' & H & [= <-]). done.
    + intros H. apply IH in H as [Hj H]. split; [lia|done].
    + intros H. apply IH in H as [Hj H]. split; [lia|done].
Qed.

Lemma den_char_inv (f : ascii -> bool) (x y : MatchState) :
  Denotes input (Char f) x y ->
  captures y = captures x /\ endIndex y = S (endIndex x)
  /\ exists a, input !! endIndex x = Some a /\ f a = true.
Proof. inversion 1; subst. cbn. eauto. Qed.

(** What a quantified character class denotes: a run of characters of
    the class, of a length within the bounds. *)
Lemma den_chars_gen (r : Regex) (x y : MatchState) :
  Denotes input r x y ->
  forall greedy mn mx cls, r = Repeat greedy mn mx (Char cls) ->
  (forall k, mx = Some k -> (mn <= k)%nat) ->
  captures y = captures x
  /\ (endIndex x + mn <= endIndex y)%nat
  /\ (forall k, mx = Some k -> (endIndex y <= endIndex x + k)%nat)
  /\ allBetween input cls (endIndex x) (endIndex y).
Proof.
  induction 1 as [| | | | |g mn0 mx0 r0 x Hstop|g mn0 mx0 r0 x y z Hmx H1 _ H2 IH| | | |];
    intros greedy mn mx cls E Hb; try discriminate.
  - injection E as -> -> -> ->. split_and!; [done| |lia|].
    + destruct Hstop as [->|Hs]; [lia|]. destruct mx as [[|k]|]; try discriminate.
      specialize (Hb 0%nat eq_refl). lia.
    + intros k Hk. lia.
  - injection E as -> -> -> ->. apply den_char_inv in H1 as (Hc1 & He1 & a & Ha & Hf).
    cbn in *.
    destruct (IH greedy (pred mn) (pred <$> mx) cls eq_refl) as (Hc & Hlo & Hhi & Hall).
    { intros k Hk. destruct mx as [[|k0]|]; try discriminate. cbn in Hk.
      injection Hk as <-. specialize (Hb (S k0) eq_refl). lia. }
    split_and!; [congruence|lia| |].
    + intros k ->. destruct k as [|k]; [discriminate|]. specialize (Hhi k eq_refl). lia.
    + intros k Hk. destruct (decide (k = endIndex x)) as [->|Hne]; [eauto|].
      apply Hall. lia.
Qed.

Lemma den_chars (greedy : bool) (mn : nat) (mx : option nat) (f : ascii -> bool)
    (x y : MatchState) :
  Denotes input (Repeat greedy mn mx (Char f)) x y ->
  (forall k, mx = Some k -> (mn <= k)%nat) ->
  captures y = captures x
  /\ (endIndex x + mn <= endIndex y)%nat
  /\ (forall k, mx = Some k -> (endIndex y <= endIndex x + k)%nat)
  /\ allBetween input f (endIndex x) (endIndex y).
Proof. intros H. by eapply den_chars_gen. Qed.

Lemma den_seq_inv (r1 r2 : Regex) (x z : MatchState) :
  Denotes input (Seq r1 r2) x z ->
  exists y, Denotes input r1 x y /\ Denotes input r2 y z.
Proof. inversion 1; subst. eauto. Qed.

Lemma den_group_inv (i : nat) (r : Regex) (x z : MatchState) :
  Denotes input (Group i r) x z ->
  exists y, Denotes input r x y /\ endIndex z = endIndex y
    /\ captures z = <[i := Some (endIndex x, endIndex y)]> (captures y).
Proof. inversion 1; subst. eauto. Qed.

Lemma den_opt_inv (r : Regex) (x z : MatchState) :
  Denotes input (opt r) x z ->
  z = x
  \/ exists y, Denotes input r
        {| endIndex := endIndex x; captures := clearGroups (groupsOf r) (captures x) |} y
      /\ z = y.
Proof.
  unfold opt. inversion 1 as [| | | | |? ? ? ? ? Hs|? ? ? ? ? y ? Hmx H1 H2| | | |]; subst.
  - by left.
  - right. exists y. split; [done|].
    cbn in H2. inversion H2 as [| | | | |? ? ? ? ? Hs|? ? ? ? ? ? ? Hmx'| | | |]; subst;
      [done|discriminate].
Qed.

Lemma den_start_inv (x y : MatchState) :
  Denotes input LineStart x y -> y = x /\ endIndex x = 0%nat.
Proof. inversion 1; subst. done. Qed.

Lemma den_end_inv (x y : MatchState) :
  Denotes input LineEnd x y -> y = x /\ endIndex x = length input.
Proof. inversion 1; subst. done. Qed.

(** The extent of what a pattern denotes: the match is within the
    lengths of the pattern and made of its characters. *)
Lemma den_span (r : Regex) (x y : MatchState) :
  Denotes input r x y ->
  (endIndex x + minLength r <= endIndex y)%nat
  /\ (forall k, maxLength r = Some k -> (endIndex y <= endIndex x + k)%nat)
  /\ allBetween input (alphabet r) (endIndex x) (endIndex y).
Proof.
  induction 1 as [x|f x a Ha Hf|r1 r2 x y z _ IH1 _ IH2|r1 r2 x y _ IH|r1 r2 x y _ IH
                  |g mn mx r x Hstop|g mn mx r x y z Hmx _ IH1 _ IH2|i r x y _ IH
                  |x Hx|x Hx|x Hx];
    cbn [minLength maxLength alphabet endIndex] in *.
  - split_and!; [lia|intros k [= <-]; lia|intros k Hk; lia].
  - split_and!; [lia|intros k [= <-]; lia|].
    intros k Hk. assert (k = endIndex x) as -> by lia. eauto.
  - destruct IH1 as (L1 & U1 & A1), IH2 as (L2 & U2 & A2). split_and!; [lia| |].
    + intros k Hk. destruct (maxLength r1) as [a|]; [|done].
      destruct (maxLength r2) as [b|]; [|done]. injection Hk as <-.
      specialize (U1 a eq_refl). specialize (U2 b eq_refl). lia.
    + intros k Hk. destruct (decide (k < endIndex y)%nat) as [Hlt|Hge].
      * destruct (A1 k) as (a & Ha & Hf); [lia|]. exists a. by rewrite Hf.
      * destruct (A2 k) as (a & Ha & Hf); [lia|]. exists a. by rewrite Hf, orb_true_r.
  - destruct IH as (L & U & A). split_and!; [lia| |].
    + intros k Hk. destruct (maxLength r1) as [a|]; [|done].
      destruct (maxLength r2) as [b|]; [|done]. injection Hk as <-.
      specialize (U a eq_refl). lia.
    + intros k Hk. destruct (A k Hk) as (a & Ha & Hf). exists a. by rewrite Hf.
  - destruct IH as (L & U & A). split_and!; [lia| |].
    + intros k Hk. destruct (maxLength r1) as [a|]; [|done].
      destruct (maxLength r2) as [b|]; [|done]. injection Hk as <-.
      specialize (U b eq_refl). lia.
    + intros k Hk. destruct (A k Hk) as (a & Ha & Hf). exists a. by rewrite Hf, orb_true_r.
  - split_and!.
    + assert (leastCount mn mx = 0)%nat as ->; [|lia].
      destruct Hstop as [->|Hs]; [by destruct mx|].
      destruct mx as [[|k]|]; try discriminate. cbn. lia.
    + intros k Hk. lia.
    + intros k Hk. lia.
  - destruct IH1 as (L1 & U1 & A1), IH2 as (L2 & U2 & A2). cbn [endIndex] in *.
    split_and!.
    + assert (leastCount mn mx * minLength r
              <= minLength r + leastCount (pred mn) (pred <$> mx) * minLength r)%nat; [|lia].
      destruct mx as [[|k]|]; [discriminate| |]; cbn [leastCount fmap option_fmap option_map].
      * destruct mn as [|mn]; cbn [pred]; [cbn; lia|].
        rewrite <- Nat.succ_min_distr. cbn [Nat.mul]. lia.
      * destruct mn as [|mn]; cbn [pred Nat.mul]; lia.
    + intros k Hk. destruct mx as [[|k0]|]; [discriminate| |done].
      destruct (maxLength r) as [a|]; [|done]. injection Hk as <-.
      specialize (U1 a eq_refl). cbn [fmap option_fmap option_map pred] in U2.
      specialize (U2 (k0 * a)%nat eq_refl). cbn [Nat.mul]. lia.
    + intros k Hk. destruct (decide (k < endIndex y)%nat) as [Hlt|Hge].
      * apply A1. lia.
      * apply A2. lia.
  - destruct IH as (L & U & A). done.
  - split_and!; [lia|intros k [= <-]; lia|intros k Hk; lia].
  - split_and!; [lia|intros k [= <-]; lia|intros k Hk; lia].
  - split_and!; [lia|intros k [= <-]; lia|intros k Hk; lia].
Qed.

End Fuel.

End RegExpFacts.

(** ** The trigger grammar *)
Module ParserFacts.
Import Text RegExp App MessageParser RegExpFacts.

Lemma pattern_den (input : list ascii) (j : nat) (y : MatchState) :
  Denotes input pattern {| endIndex := j; captures := replicate 4 None |} y ->
  exists n1 n2 e1 e2,
    captures y !! 1%nat = Some (Some (n1, n2))
    /\ captures y !! 2%nat = Some (Some (e1, e2))
    /\ (n1 < n2)%nat /\ (n2 < e1)%nat /\ (e1 < e2 <= length input)%nat
    /\ allBetween input (fun c => isLetter c || isSpace c) n1 n2
    /\ allBetween input (fun c => negb (Ascii.eqb c ",")) e1 e2
    /\ ((captures y !! 3%nat = Some None /\ e2 = length input)
        \/ exists c1, captures y !! 3%nat = Some (Some (c1, length input))
             /\ (e2 < c1 < length input)%nat
             /\ allBetween input isDot c1 (length input)).
Proof.
  unfold pattern. cbn [seqs lits]. intros H.
  apply den_seq_inv in H as (x1 & H1 & H). apply den_start_inv in H1 as [-> _].
  apply den_seq_inv in H as (x2 & H2 & H).
  apply den_seq_inv in H2 as (xa & Ha & H2). apply den_char_inv in Ha as (Ca & Ea & _).
  apply den_seq_inv in H2 as (xb & Hb & H2). apply den_char_inv in Hb as (Cb & Eb & _).
  apply den_char_inv in H2 as (C2 & E2 & _).
  apply den_seq_inv in H as (x3 & H3 & H).
  apply den_chars in H3 as (C3 & E3 & _ & _); [|done].
  apply den_seq_inv in H as (x4 & H4 & H).
  apply den_group_inv in H4 as (x4' & H4 & E4 & C4).
  apply den_chars in H4 as (C4' & E4' & _ & A4); [|done].
  apply den_seq_inv in H as (x5 & H5 & H).
  apply den_chars in H5 as (C5 & E5 & _ & _); [|done].
  apply den_seq_inv in H as (x6 & H6 & H).
  apply den_seq_inv in H6 as (xc & Hc & H6). apply den_char_inv in Hc as (Cc & Ec & _).
  apply den_char_inv in H6 as (C6 & E6 & _).
  apply den_seq_inv in H as (x7 & H7 & H).
  apply den_chars in H7 as (C7 & E7 & _ & _); [|done].
  apply den_seq_inv in H as (x8 & H8 & H).
  apply den_group_inv in H8 as (x8' & H8 & E8 & C8).
  apply den_chars in H8 as (C8' & E8' & _ & A8); [|done].
  apply den_seq_inv in H as (x9 & H9 & H).
  apply den_end_inv in H as [-> Hend].
  cbn in *.
  assert (Hcaps : captures x8 =
            [None; Some (endIndex x3, endIndex x4); Some (endIndex x7, endIndex x8); None]).
  { rewrite C8, C8', C7, C6, Cc, C5, C4, C4', C3, C2, Cb, Ca, <- E8, <- E4. reflexivity. }
  exists (endIndex x3), (endIndex x4), (endIndex x7), (endIndex x8).
  rewrite <- E4 in A4. rewrite <- E8 in A8.
  assert (Hlen : (endIndex x8 <= endIndex x9)%nat /\
    ((captures x9 !! 3%nat = Some None /\ endIndex x8 = endIndex x9 /\ captures x9 = captures x8)
     \/ exists c1, captures x9 = <[3%nat := Some (c1, endIndex x9)]> (captures x8)
          /\ (endIndex x8 < c1 < endIndex x9)%nat
          /\ allBetween input isDot c1 (endIndex x9))).
  { apply den_opt_inv in H9 as [->|(y9 & H9 & ->)].
    - split; [lia|]. left. by rewrite Hcaps.
    - apply den_seq_inv in H9 as (xd & Hd & H9).
      apply den_char_inv in Hd as (Cd & Ed & _).
      apply den_seq_inv in H9 as (xe & He & H9).
      apply den_chars in He as (Ce & Ee & _ & _); [|done].
      apply den_group_inv in H9 as (xf & Hf & Ef & Cf).
      apply den_chars in Hf as (Cf' & Ef' & _ & Af); [|done].
      cbn in *. split; [lia|]. right. exists (endIndex xe).
      rewrite Cf, Cf', Ce, Cd, Ef, Hcaps. split_and!; [reflexivity|lia|lia|].
      exact Af. }
  destruct Hlen as [Hle Hlen]. rewrite <- Hend.
  destruct Hlen as [(H3n & He & Hcy)|(c1 & Hcy & Hc1 & Adot)].
  - rewrite Hcy, Hcaps. cbn. split_and!; try done; try lia. left. split; [done|lia].
  - rewrite Hcy, Hcaps. cbn. split_and!; try done; try lia. right. exists c1.
    split_and!; [done|lia|lia|done].
Qed.

(** *** Strings *)

Lemma chars_string_of (l : list ascii) : chars (string_of_list_ascii l) = l.
Proof. apply list_ascii_of_string_of_list_ascii. Qed.

Lemma trimStart_chars (P : ascii -> Prop) (s : string) :
  Forall P (chars s) -> Forall P (chars (trimStart s)).
Proof.
  induction s as [|c r IH]; cbn; [done|]. intros H.
  destruct (isSpace c); [|done]. apply IH. by apply Forall_cons in H as [_ H].
Qed.

Lemma trimEnd_chars (P : ascii -> Prop) (s : string) :
  Forall P (chars s) -> Forall P (chars (trimEnd s)).
Proof.
  induction s as [|c r IH]; cbn; [done|]. intros H.
  apply Forall_cons in H as [Hc H]. specialize (IH H).
  destruct (trimEnd r) as [|c' r'].
  - destruct (isSpace c); cbn; [constructor|by repeat constructor].
  - cbn. by constructor.
Qed.

Lemma trim_chars (P : ascii -> Prop) (s : string) :
  Forall P (chars s) -> Forall P (chars (trim s)).
Proof. intros H. by apply trimEnd_chars, trimStart_chars. Qed.

Lemma trimEnd_idem (s : string) : trimEnd (trimEnd s) = trimEnd s.
Proof.
  induction s as [|c r IH]; cbn; [done|].
  destruct (trimEnd r) as [|c' r'] eqn:E.
  - destruct (isSpace c) eqn:Hc; cbn; [done|by rewrite Hc].
  - cbn. cbn in IH. by rewrite IH.
Qed.

Lemma trimStart_head (s : string) :
  trimStart s = "" \/ exists c r, trimStart s = String c r /\ isSpace c = false.
Proof.
  induction s as [|c r IH]; cbn; [by left|].
  destruct (isSpace c) eqn:Hc; [exact IH|]. right. eauto.
Qed.

Lemma trimEnd_head (c : ascii) (r : string) :
  isSpace c = false -> exists r', trimEnd (String c r) = String c r'.
Proof. intros Hc. cbn. destruct (trimEnd r); [rewrite Hc|]; eauto. Qed.

Lemma trim_idem (s : string) : trim (trim s) = trim s.
Proof.
  unfold trim. destruct (trimStart_head s) as [->|(c & r & -> & Hc)]; [done|].
  destruct (trimEnd_head c r Hc) as [r' E]. rewrite E.
  cbn [trimStart]. rewrite Hc, <- E. apply trimEnd_idem.
Qed.

Lemma trimEnd_empty (s : string) :
  trimEnd s = "" -> Forall (fun a => isSpace a = true) (chars s).
Proof.
  induction s as [|c r IH]; cbn; [constructor|].
  destruct (trimEnd r) as [|c' r']; [|done].
  destruct (isSpace c) eqn:Hc; [|done]. intros _. constructor; [done|by apply IH].
Qed.

Lemma trimStart_keeps (a : ascii) (s : string) :
  a ∈ chars s -> isSpace a = false -> a ∈ chars (trimStart s).
Proof.
  induction s as [|c r IH]; cbn; [done|]. intros Ha Hs.
  destruct (isSpace c) eqn:Hc; [|done].
  apply elem_of_cons in Ha as [->|Ha]; [congruence|by apply IH].
Qed.

Lemma trim_nonblank (a : ascii) (s : string) :
  a ∈ chars s -> isSpace a = false -> trim s ≠ "".
Proof.
  intros Ha Hs E. unfold trim in E. apply trimEnd_empty in E.
  pose proof (trimStart_keeps a s Ha Hs) as H.
  eapply Forall_forall in E; [|exact H]. congruence.
Qed.

Lemma trimEnd_last (s : string) :
  trimEnd s = "" \/ exists l a, chars (trimEnd s) = (l ++ [a])%list /\ isSpace a = false.
Proof.
  induction s as [|c r IH]; cbn; [by left|].
  destruct (trimEnd r) as [|c' r'] eqn:E.
  - destruct (isSpace c) eqn:Hc; [by left|]. right. exists [], c. done.
  - right. destruct IH as [|(l & a & Hl & Ha)]; [done|].
    exists (c :: l), a. cbn in *. by rewrite Hl.
Qed.

Lemma trim_last (s : string) :
  trim s = "" \/ exists l a, chars (trim s) = (l ++ [a])%list /\ isSpace a = false.
Proof. apply trimEnd_last. Qed.

Ltac each_ascii c := destruct c as [[] [] [] [] [] [] [] []].

Lemma lowerChar_upperChar (c : ascii) : lowerChar (upperChar c) = lowerChar c.
Proof. each_ascii c; reflexivity. Qed.

Lemma lowerChar_idem (c : ascii) : lowerChar (lowerChar c) = lowerChar c.
Proof. each_ascii c; reflexivity. Qed.

Lemma upperChar_space (c : ascii) : upperChar c = " "%char -> c = " "%char.
Proof. each_ascii c; vm_compute; congruence. Qed.

Lemma lowerChar_space (c : ascii) : lowerChar c = " "%char -> c = " "%char.
Proof. each_ascii c; vm_compute; congruence. Qed.

Lemma upperChar_letter (c : ascii) :
  isLetter (upperChar c) = true -> isUpper (upperChar c) = true.
Proof. each_ascii c; vm_compute; congruence. Qed.

Lemma lowerChar_letter (c : ascii) :
  isLetter (lowerChar c) = true -> isLower (lowerChar c) = true.
Proof. each_ascii c; vm_compute; congruence. Qed.

Lemma toLowerCase_idem (s : string) : toLowerCase (toLowerCase s) = toLowerCase s.
Proof. induction s as [|c r IH]; cbn; [done|]. by rewrite lowerChar_idem, IH. Qed.

Lemma toLowerCase_capitalize (w : string) : toLowerCase (capitalize w) = toLowerCase w.
Proof.
  destruct w as [|c r]; cbn; [done|]. by rewrite lowerChar_upperChar, toLowerCase_idem.
Qed.

Lemma toLowerCase_chars (r : string) :
  chars (toLowerCase r) = map lowerChar (chars r).
Proof. unfold chars. induction r as [|c r IH]; cbn; [done|]. by rewrite IH. Qed.

(** A capitalized word made of letters is a capital and small letters. *)
Lemma capitalize_capitalized (w : string) :
  isAlphabetic (capitalize w) = true -> isCapitalized (capitalize w) = true.
Proof.
  destruct w as [|c r]; [done|]. unfold isAlphabetic. cbn.
  intros H. apply andb_true_iff in H as [Hc Hr]. apply andb_true_iff. split.
  - by apply upperChar_letter.
  - change (list_ascii_of_string (toLowerCase r)) with (chars (toLowerCase r)) in *.
    rewrite toLowerCase_chars in *. rewrite forallb_forall in *.
    intros a Ha. specialize (Hr a Ha). apply in_map_iff in Ha as (b & <- & _).
    by apply lowerChar_letter.
Qed.

Lemma capitalize_nospace (w : string) :
  " "%char ∉ chars w -> " "%char ∉ chars (capitalize w).
Proof.
  destruct w as [|c r]; [done|]. cbn. intros H Hin. apply H.
  apply elem_of_cons in Hin as [Hin|Hin].
  - symmetry in Hin. apply upperChar_space in Hin as ->. by left.
  - right. change (list_ascii_of_string (toLowerCase r)) with (chars (toLowerCase r)) in Hin.
    rewrite toLowerCase_chars in Hin. apply list_elem_of_fmap in Hin as (b & Hb & Hin).
    symmetry in Hb. apply lowerChar_space in Hb as ->. exact Hin.
Qed.

(** *** [split] and [join] *)

Lemma split_nonempty (sep : ascii) (s : string) : split sep s ≠ [].
Proof.
  induction s as [|c r IH]; cbn; [done|].
  destruct (Ascii.eqb c sep); [done|]. by destruct (split sep r).
Qed.

Lemma split_nosep (sep : ascii) (s : string) :
  Forall (fun w => sep ∉ chars w) (split sep s).
Proof.
  induction s as [|c r IH]; cbn.
  - constructor; [|constructor]. by intros H%elem_of_nil.
  - destruct (Ascii.eqb_spec c sep) as [->|Hne].
    + constructor; [|done]. by intros H%elem_of_nil.
    + destruct (split sep r) as [|w ws].
      { constructor; [|constructor]. cbn. intros H.
        apply elem_of_cons in H as [H|H]; [congruence|by apply elem_of_nil in H]. }
      apply Forall_cons in IH as [Hw Hws]. constructor; [|done].
      cbn. intros H. apply elem_of_cons in H as [H|H]; [congruence|done].
Qed.

Lemma split_one (sep : ascii) (w : string) : sep ∉ chars w -> split sep w = [w].
Proof.
  induction w as [|c r IH]; cbn; [done|]. intros H.
  destruct (Ascii.eqb_spec c sep) as [->|Hne]; [exfalso; apply H; by left|].
  rewrite IH; [done|]. intros Hin. apply H. by right.
Qed.

Lemma split_app (sep : ascii) (w rest : string) :
  sep ∉ chars w -> split sep (w +:+ String sep rest) = w :: split sep rest.
Proof.
  induction w as [|c r IH].
  - intros _. change ("" +:+ String sep rest) with (String sep rest).
    cbn. by rewrite Ascii.eqb_refl.
  - intros H. change (String c r +:+ String sep rest)
      with (String c (r +:+ String sep rest)).
    cbn [split]. destruct (Ascii.eqb_spec c sep) as [->|Hne]; [exfalso; apply H; by left|].
    rewrite IH; [done|]. intros Hin. apply H. by right.
Qed.

Lemma split_concat (sep : ascii) (ws : list string) :
  ws ≠ [] -> Forall (fun w => sep ∉ chars w) ws ->
  split sep (String.concat (String sep "") ws) = ws.
Proof.
  induction ws as [|w ws IH]; [done|]. intros _ H.
  apply Forall_cons in H as [Hw Hws]. destruct ws as [|w' ws].
  - cbn. by apply split_one.
  - change (String.concat (String sep "") (w :: w' :: ws))
      with (w +:+ String sep (String.concat (String sep "") (w' :: ws))).
    rewrite split_app by done. f_equal. by apply IH.
Qed.

Lemma isStopword_capitalize (w : string) : isStopword (capitalize w) = isStopword w.
Proof. unfold isStopword. by rewrite toLowerCase_capitalize. Qed.

(** The words of a cleaned name that [isValidName] accepts. *)
Lemma cleanName_words (raw : string) :
  isValidName (cleanName raw) = true ->
  (1 <= length (split " " (cleanName raw)) <= 3)%nat
  /\ Forall (fun w => (2 <= String.length w)%nat /\ isCapitalized w = true
                      /\ isStopword w = false)
        (split " " (cleanName raw)).
Proof.
  unfold cleanName.
  set (ws := List.filter (fun word => negb (isStopword word))
               (split " " (collapse (trim raw)))).
  assert (Hns : Forall (fun w => " "%char ∉ chars w) (map capitalize ws)).
  { apply Forall_forall. intros w Hw. apply list_elem_of_fmap in Hw as (w0 & -> & Hw0).
    apply capitalize_nospace. subst ws. apply list_elem_of_In, filter_In in Hw0 as [Hw0 _].
    apply list_elem_of_In in Hw0.
    eapply Forall_forall in Hw0; [exact Hw0|apply split_nosep]. }
  destruct ws as [|w0 ws'] eqn:Ews; [done|].
  rewrite split_concat by done. unfold isValidName. rewrite split_concat by done.
  intros H. apply andb_true_iff in H as [H Hall]. apply andb_true_iff in H as [H1 H3].
  apply Nat.leb_le in H1, H3. split; [lia|].
  rewrite forallb_forall in Hall. apply Forall_forall. intros w Hw.
  specialize (Hall w (proj1 (list_elem_of_In _ _) Hw)).
  apply andb_true_iff in Hall as [Hlen Halpha]. apply Nat.leb_le in Hlen.
  rewrite <- Ews in Hw. apply list_elem_of_fmap in Hw as (w1 & -> & Hw1).
  split_and!; [done|by apply capitalize_capitalized|].
  rewrite isStopword_capitalize. subst ws.
  apply list_elem_of_In, filter_In in Hw1 as [_ Hw1]. by apply negb_true_iff in Hw1.
Qed.

Lemma substring_Forall (input : list ascii) (f : ascii -> bool) (i j : nat) :
  allBetween input f i j ->
  Forall (fun a => f a = true) (chars (substring input i j)).
Proof.
  intros H. unfold substring. rewrite chars_string_of. apply Forall_lookup.
  intros k a Hk. apply lookup_take_Some in Hk as [Hk Hlt]. rewrite lookup_drop in Hk.
  destruct (H (i + k)%nat) as (b & Hb & Hf); [lia|]. congruence.
Qed.

Lemma substring_to_end (input : list ascii) (i : nat) :
  chars (substring input i (length input)) = drop i input.
Proof.
  unfold substring. rewrite chars_string_of. apply take_ge. rewrite length_drop. lia.
Qed.

Lemma last_in_drop (l : list ascii) (a : ascii) (i : nat) :
  (i < length (l ++ [a]))%nat -> a ∈ drop i (l ++ [a]).
Proof.
  intros Hi. rewrite length_app in Hi. cbn in Hi.
  rewrite drop_app_le by lia. apply elem_of_app. right. by left.
Qed.

(** What ends where the trimmed text ends does not trim to nothing. *)
Lemma tail_not_blank (s : string) (i : nat) :
  (i < length (chars (trim s)))%nat ->
  trim (substring (chars (trim s)) i (length (chars (trim s)))) ≠ "".
Proof.
  intros Hi. destruct (trim_last s) as [E|(l & a & El & Ha)].
  { rewrite E in Hi. cbn in Hi. lia. }
  apply (trim_nonblank a); [|done]. rewrite substring_to_end, El.
  apply last_in_drop. by rewrite <- El.
Qed.

(** X16. What [parseMessage] returns. When it does not accept the text
    it returns the empty name and event and no context. When it accepts
    it, the name is one to three words separated by single blanks, each
    of at least two letters, a capital followed by small letters, none of
    them a stop word; the event has no comma and no blank at either end;
    a context, when there is one, is not empty, has no blank at either
    end and no line break; and without a context the event is not
    empty. *)
Theorem parsed_meeting_is_well_formed (text : string) :
  let p := parseMessage text in
  (isValidMeeting p = false -> p = invalid)
  /\ (isValidMeeting p = true ->
       (1 <= length (split " " (parsedName p)) <= 3)%nat
       /\ Forall (fun w => (2 <= String.length w)%nat /\ isCapitalized w = true
                           /\ isStopword w = false)
             (split " " (parsedName p))
       /\ Forall (fun a => a ≠ ","%char) (chars (parsedEvent p))
       /\ trim (parsedEvent p) = parsedEvent p
       /\ match parsedContext p with
          | Some c => c ≠ "" /\ trim c = c /\ Forall (fun a => isDot a = true) (chars c)
          | None => parsedEvent p ≠ ""
          end).
Proof.
  intros p. subst p. unfold parseMessage.
  set (cleaned := trim text).
  destruct (exec 4 pattern cleaned) as [[i y]|] eqn:E; [|done].
  unfold exec in E. apply searchFrom_sound in E as [_ HD].
  apply pattern_den in HD
    as (n1 & n2 & e1 & e2 & G1 & G2 & Hn & Hne & He & An & Ae & G3).
  unfold groupText. rewrite G1, G2.
  fold (chars cleaned) in *. set (input := chars cleaned) in *.
  destruct (isEmpty _ || isEmpty _); [done|].
  destruct (isValidName (cleanName (substring input n1 n2))) eqn:Hvalid; [|done].
  cbn [negb isValidMeeting parsedName parsedEvent parsedContext].
  split; [done|]. intros _.
  destruct (cleanName_words _ Hvalid) as [Hlen Hwords].
  assert (Hev : Forall (fun a => a ≠ ","%char) (chars (trim (substring input e1 e2)))).
  { apply trim_chars. eapply Forall_impl; [apply substring_Forall, Ae|].
    intros a Ha ->. done. }
  split_and!; [lia|lia|done|done|apply trim_idem|].
  destruct G3 as [[G3 Hend]|(c1 & G3 & Hc1 & Ad)]; rewrite G3.
  - subst e2. subst input cleaned. apply tail_not_blank. lia.
  - assert (Hctx : trim (substring input c1 (length input)) ≠ "").
    { subst input cleaned. apply tail_not_blank. lia. }
    destruct (isEmpty (substring input c1 (length input))) eqn:Hem.
    { exfalso. apply Hctx. by destruct (substring input c1 (length input)). }
    split_and!; [done|apply trim_idem|].
    apply trim_chars. by apply substring_Forall.
Qed.

End ParserFacts.

(** ** The text generator *)
Module AIFacts.
Import Text RegExp App AIService MessageParser ParserFacts.

Lemma toLowerCase_length (s : string) : String.length (toLowerCase s) = String.length s.
Proof. induction s as [|c r IH]; cbn; [done|]. by rewrite IH. Qed.

(** X17. [generateTopicSentence] is guarded twice and never fails. With
    a key that is neither an OpenAI nor a Google key (the controller
    passes "fallback-only" when none is configured), or with a context of
    fewer than ten characters after trimming, it returns [null] whatever
    [fetch] would answer. A sentence it returns is the cleaned content of
    a successful answer and has no blank at either end. The controller
    calls it only under [hasMeaningfulContext], which implies the
    service's own test on the context. *)
Theorem topic_sentence_is_guarded (apiKey : string) (fetch : string -> FetchOutcome)
    (contactName contactContext event : string) :
  let result := generateTopicSentence apiKey fetch contactName contactContext event in
  (noValidKey apiKey = true -> result = None)
  /\ ((String.length (trim contactContext) < 10)%nat -> result = None)
  /\ (forall s, result = Some s ->
        trim s = s /\ noValidKey apiKey = false
        /\ exists content, fetch (topicPrompt contactContext) = Json content
             /\ s = cleanMessageResponse (default "" (truthy content)))
  /\ (hasMeaningfulContext (Some contactContext) = true ->
        (10 <= String.length (trim contactContext))%nat /\ contactContext ≠ "").
Proof.
  intros result. subst result. unfold generateTopicSentence, callChat. split_and!.
  - intros ->. by destruct (_ || _).
  - intros H. apply Nat.ltb_lt in H. rewrite H. by rewrite orb_true_r.
  - intros s. destruct (_ || _); [done|].
    destruct (noValidKey apiKey); [done|].
    destruct (fetch (topicPrompt contactContext)) as [| | |content] eqn:E; try done.
    intros [= <-]. split_and!; [apply trim_idem|done|eauto].
  - unfold hasMeaningfulContext.
    destruct (isEmpty contactContext) eqn:Hem; [done|]. cbn [orb].
    destruct (_ <? 5)%nat; [done|]. rewrite toLowerCase_length.
    intros H. apply andb_true_iff in H as [H _]. apply Nat.leb_le in H.
    split; [done|]. by destruct contactContext.
Qed.

End AIFacts.

(** ** The parts of a pending interaction *)
Module SessionShapeFacts.
Import Text Clock Classifier App SessionSpec AppFacts SessionEffects ProgramFacts
  Program SessionShape Scenario.

Lemma createUnifiedMessage_nonempty (contactName ev : string) (topic : option string)
    (slots : string) :
  createUnifiedMessage contactName ev topic slots ≠ "".
Proof. unfold createUnifiedMessage. done. Qed.

#[local] Opaque repromptMessage helpMessage generateSchedulingOptionsMessage
  formatSuggestionMessage createUnifiedMessage reminderMessage schedulingMessage.

#[global] Instance keepsComplete_preorder : PreOrder keepsComplete.
Proof.
  split; [intros w Hw; exact Hw|]. intros x y z Hxy Hyz Hx. by apply Hyz, Hxy.
Qed.

Lemma complete_session (w w' : World) : session w' = session w -> complete w -> complete w'.
Proof.
  unfold session. intros [= E1 E2 E3] H who. unfold has, contactAt, draftAt.
  rewrite E1, E2, E3. apply H.
Qed.

Lemma untouched_keepsComplete (w w' : World) : untouched w w' -> keepsComplete w w'.
Proof. intros H Hw. by apply (complete_session w). Qed.

Lemma complete_clear (who : string) (w : World) :
  complete w -> complete (clearPendingData who w).
Proof.
  intros H x. unfold has, contactAt, draftAt. cbn.
  destruct (decide (x = who)) as [->|Hne].
  - rewrite lookup_delete_eq. intros Hx. apply bool_decide_eq_true in Hx. by destruct Hx.
  - rewrite !lookup_delete_ne by done. apply H.
Qed.

Ltac complete_leaf :=
  first [ eapply Eff_weaken; [apply untouched_keepsComplete|];
          first [ apply send_untouched | apply log_untouched
                | unfold sendErrorMessage; apply send_untouched
                | unfold sendHelpMessage; apply send_untouched
                | apply addContact_untouched | apply updateContact_untouched
                | apply scheduleBasedOnPreference_untouched ]
        | apply Eff_modify; intros ? ?; first [ by apply complete_clear
                                             | by eapply complete_session ] ].

Lemma handleCancelCommand_complete (who : string) :
  Eff keepsComplete (handleCancelCommand who).
Proof. unfold handleCancelCommand. eff_by complete_leaf. Qed.

Lemma handleSummaryRequest_complete (deps : Collaborators) (who : string) :
  Eff keepsComplete (handleSummaryRequest deps who).
Proof. unfold handleSummaryRequest. eff_by complete_leaf. Qed.

Lemma handleSchedulingResponse_complete (deps : Collaborators) (who response : string) :
  Eff keepsComplete (handleSchedulingResponse deps who response).
Proof. unfold handleSchedulingResponse. eff_by complete_leaf. Qed.

Lemma sendFollowUpReminder_complete (cid : Z) (msg : string) :
  Eff keepsComplete (sendFollowUpReminder cid msg).
Proof. unfold sendFollowUpReminder. eff_by complete_leaf. Qed.

(** A begin sets the flag only after the draft message is stored. *)
Lemma generateFollowUpSuggestions_complete (o : World -> Request -> Response)
    (who : string) (contact : Contact) (w : World) :
  complete w -> contactAt who w ->
  complete (snd (run o (generateFollowUpSuggestions who contact) w)).
Proof.
  intros Hw Hc. unfold generateFollowUpSuggestions.
  rewrite run_catch, run_bind.
  match goal with
  | |- context [run o (catch ?p ?h) w] =>
      assert (exists t, run o (catch p h) w = (inl t, w)) as [slotText ->]
  end.
  { cbn. destruct (o w (FindAvailableSlots 14 60)) as [| | |[|? ?]|]; cbn; eauto. }
  rewrite run_bind.
  match goal with
  | |- context [run o (if ?b then ?p else ?q) w] =>
      assert (exists t, run o (if b then p else q) w = (inl t, w)) as [topic ->]
  end.
  { destruct (hasMeaningfulContext _); [|cbn; eauto].
    cbn. destruct (o w (GenerateTopicSentence _ _ _)); cbn; eauto. }
  set (draft := createUnifiedMessage _ _ _ _).
  rewrite run_bind, run_modify.
  set (w1 := setPendingDraftMessages _ w).
  assert (H1 : complete w1 /\ contactAt who w1 /\ draftAt who w1).
  { split_and!.
    - intros x Hx. destruct (Hw x Hx) as [Hcx (d & Hd & Hne)]. split; [exact Hcx|].
      unfold draftAt. subst w1. cbn.
      destruct (decide (x = who)) as [->|Hxw].
      + rewrite lookup_insert_eq. exists draft. split; [done|].
        apply createUnifiedMessage_nonempty.
      + rewrite lookup_insert_ne by done. eauto.
    - exact Hc.
    - exists draft. subst w1. cbn. rewrite lookup_insert_eq. split; [done|].
      apply createUnifiedMessage_nonempty. }
  destruct H1 as (Hw1 & Hc1 & Hd1).
  rewrite run_bind.
  destruct (Failed_or_not (o w1 (Send who (formatSuggestionMessage contact draft))))
    as [Hf|Hf].
  - rewrite run_send_failed by done.
    pose proof (send_untouched who
      ("I saved the contact but had trouble generating suggestions. Try asking for " +:+
       quoted "summary" +:+ " to see your contacts.") o w1) as Hs.
    unfold sendErrorMessage.
    eapply complete_session; [|exact Hw1].
    match goal with |- session (snd ?r) = _ => change (untouched w1 (snd r)) end.
    apply send_untouched.
  - rewrite run_send_ok by done. rewrite run_bind, run_modify, run_modify. cbn [snd].
    intros x Hx. unfold has, contactAt, draftAt in *. cbn in *.
    destruct (decide (x = who)) as [->|Hxw]; [by split|].
    rewrite lookup_insert_ne in Hx by done. by apply Hw1.
Qed.

Lemma handleMeetingMessage_complete (deps : Collaborators) (who : string)
    (parsed : ParsedMeetingMessage) :
  Eff keepsComplete (handleMeetingMessage deps who parsed).
Proof.
  intros o w Hw. unfold handleMeetingMessage.
  rewrite run_catch, run_bind, run_gets, run_bind, run_modify.
  set (contact := {| name := parsedName parsed |}).
  set (w1 := setPendingContacts _ w).
  assert (H1 : complete w1 /\ contactAt who w1).
  { split.
    - intros x Hx. destruct (Hw x Hx) as [Hcx Hdx]. split; [|exact Hdx].
      unfold contactAt. subst w1. cbn.
      destruct (decide (x = who)) as [->|Hxw];
        [by rewrite lookup_insert_eq|by rewrite lookup_insert_ne].
    - unfold contactAt. subst w1. cbn. by rewrite lookup_insert_eq. }
  destruct H1 as [Hw1 Hc1].
  pose proof (generateFollowUpSuggestions_complete o who contact w1 Hw1 Hc1) as H2.
  destruct (run o (generateFollowUpSuggestions who contact) w1) as [[[]|e] w2];
    cbn [snd] in H2 |- *; [exact H2|].
  eapply complete_session; [|exact H2].
  match goal with |- session (snd ?r) = _ => change (untouched w2 (snd r)) end.
  unfold sendErrorMessage. apply send_untouched.
Qed.

Lemma handleMessage_complete (deps : Collaborators) (message : Message) :
  Eff keepsComplete (handleMessage deps message).
Proof.
  unfold handleMessage.
  apply Eff_bind; [apply _|apply Eff_gets; apply _|intros pendingHere].
  destruct pendingHere; [apply handleSchedulingResponse_complete|].
  destruct (_ =? "cancel")%string; [apply handleCancelCommand_complete|].
  destruct (_ || _); [apply handleSummaryRequest_complete|].
  destruct (isValidMeeting _); [apply handleMeetingMessage_complete|].
  complete_leaf.
Qed.

Lemma step_complete (deps : Collaborators) (e : Step) (w w' : World) :
  step deps e w = Some w' -> complete w -> complete w'.
Proof.
  intros Hstep Hw. destruct e as [o m|i| |t|t|o k|dt].
  - change (Some (snd (run o (handleMessage deps m) w)) = Some w') in Hstep.
    injection Hstep as <-. by apply handleMessage_complete.
  - cbn in Hstep. apply fireTimer_spec in Hstep as (tm & _ & _ & ->).
    intros x. unfold has, contactAt, draftAt. cbn.
    destruct (decide (x = forSender tm)) as [->|Hne].
    + rewrite lookup_delete_eq. intros Hx. apply bool_decide_eq_true in Hx. by destruct Hx.
    + rewrite lookup_delete_ne by done. apply Hw.
  - change (onScheduler Scheduler.Sweep w = Some w') in Hstep.
    unfold onScheduler in Hstep. destruct (Scheduler.step _ _); [|done].
    injection Hstep as <-. by apply (complete_session w).
  - change (onScheduler (Scheduler.FireBegin t) w = Some w') in Hstep.
    unfold onScheduler in Hstep. destruct (Scheduler.step _ _); [|done].
    injection Hstep as <-. by apply (complete_session w).
  - change (onScheduler (Scheduler.FireEnd t) w = Some w') in Hstep.
    unfold onScheduler in Hstep. destruct (Scheduler.step _ _); [|done].
    injection Hstep as <-. by apply (complete_session w).
  - change (match Scheduler.executed (scheduler w) !! k with
            | Some e =>
                Some (snd (run o (sendFollowUpReminder (Scheduler.toContact e)
                                    (Scheduler.withMessage e)) w))
            | None => None
            end = Some w') in Hstep.
    destruct (Scheduler.executed (scheduler w) !! k) as [ex|]; [|done].
    injection Hstep as <-. by apply sendFollowUpReminder_complete.
  - cbn in Hstep. destruct (0 <=? dt); [|done]. injection Hstep as <-.
    by apply (complete_session w).
Qed.

Lemma steps_complete (deps : Collaborators) (es : list Step) (w w' : World) :
  steps deps es w = Some w' -> complete w -> complete w'.
Proof.
  revert w. induction es as [|e es IH]; intros w H Hw; cbn in H.
  - by injection H as <-.
  - destruct (step deps e w) as [w1|] eqn:E; [|done].
    apply (IH w1 H). by eapply step_complete.
Qed.

(** X18. A sender that is awaiting a reply has its draft as long as the
    handlers run one at a time. In every serialized run of the program
    from its start, each message handled from start to end before
    anything else runs, whenever the flag of a sender is set, a draft
    contact and a draft message that is not empty are stored for it: a
    begin sets the flag last, [clearPendingData] removes the three
    together and the timer removes the flag only. So
    [handleSchedulingResponse] never finds the data missing in such a
    run. In the event loop the handlers can overlap at their awaits, and
    there the property fails. Two polls pass the guard together; the
    first finds the trigger, the second the cancel command, which is
    handled while the suggestion of the trigger is being sent and clears
    the drafts; the trigger's handler then sets the flag. The sender is
    awaiting a reply with neither draft contact nor draft message, and
    its next reply is answered "Contact data not found". *)
Theorem awaiting_sender_has_contact_and_draft :
  (forall (deps : Collaborators) (phone : string) (t : Z) (es : list Step) (w : World)
          (who : string),
     steps deps es (initialize (create phone t)) = Some w ->
     has who w = true ->
     exists contact draft,
       pendingContacts w !! who = Some contact
       /\ pendingDraftMessages w !! who = Some draft
       /\ truthy (pendingDraftMessages w !! who) = Some draft)
  /\ (let overlapping :=
        [Poll; Poll; Answer 0 (Messages (Some [triggerText])); Answer 0 (Slots []);
         Answer 1 (Messages (Some [cancelNext; triggerText])); Answer 0 Done] in
      let reply :=
        [Answer 1 Done; Poll;
         Answer 2 (Messages (Some [replyText; cancelNext; triggerText]))] in
      exists m1 m2 m3,
        loop demoDeps overlapping boot = Some m1
        /\ has me (world m1) = true
        /\ pendingContacts (world m1) !! me = None
        /\ pendingDraftMessages (world m1) !! me = None
        /\ loop demoDeps reply m1 = Some m2
        /\ pendingRequests m2 =
             [Send me "Error: Contact data not found. Please try again."]
        /\ loopStep demoDeps (Answer 2 Done) m2 = Some m3
        /\ outbox (world m3) =
             [(me, formatSuggestionMessage
                     {| name := "Sarah"; event := "conference"; context := None;
                        metAt := 0; phoneNumber := None; email := None;
                        followUpStatus := followPending; scheduledFollowUp := None;
                        lastInteraction := None; notes := None |}
                     (createUnifiedMessage "Sarah" "conference" None timeSlotFallback));
              (me, "Ready for new contacts!");
              (me, "Error: Contact data not found. Please try again.")]
        /\ has me (world m3) = false
        /\ database (world m3) = Some {| rows := ∅; lastID := 0 |}).
Proof.
  split.
  - intros deps phone t es w who Hsteps Hhas.
    assert (H0 : complete (initialize (create phone t))).
    { intros x Hx. unfold has in Hx. cbn in Hx. rewrite lookup_empty in Hx.
      apply bool_decide_eq_true in Hx. by destruct Hx. }
    destruct (steps_complete deps es _ w Hsteps H0 who Hhas) as [[c Hc] (d & Hd & Hne)].
    exists c, d. split_and!; [done|done|]. rewrite Hd. by apply truthy_Some.
  - intros overlapping reply. eexists _, _, _.
    split; [vm_compute; reflexivity|]. split; [vm_compute; reflexivity|].
    split; [vm_compute; reflexivity|]. split; [vm_compute; reflexivity|].
    split; [vm_compute; reflexivity|]. split; [vm_compute; reflexivity|].
    split; [vm_compute; reflexivity|]. split; [vm_compute; reflexivity|].
    split; vm_compute; reflexivity.
Qed.

(** After the trigger, with the timer of an earlier interaction gone
    off in between. *)
Lemma awaiting_sender_has_contact_and_draft_witness :
  let es := [Inbound calm (inbound "m1" "met Sarah at conference" fresh);
             Inbound calm (inbound "m2" "no" fresh);
             Inbound calm (inbound "m3" "met Bob at meetup" fresh);
             TimePasses 600000; TimerRuns 0;
             Inbound calm (inbound "m4" "met Carol at lunch" fresh)] in
  let w := default fresh (steps demoDeps es fresh) in
  has me w = true
  /\ (name <$> pendingContacts w !! me) = Some "Carol"
  /\ exists contact draft,
       pendingContacts w !! me = Some contact
       /\ pendingDraftMessages w !! me = Some draft
       /\ truthy (pendingDraftMessages w !! me) = Some draft.
Proof.
  intros es w. split; [vm_compute; reflexivity|]. split; [vm_compute; reflexivity|].
  destruct awaiting_sender_has_contact_and_draft as [H _].
  apply (H demoDeps me 0 es w me).
  - vm_compute. reflexivity.
  - vm_compute. reflexivity.
Defined.

End SessionShapeFacts.

(** ** The matcher on a run of characters *)
Module RunFacts.
Import Text RegExp RegExpFacts.

Section Runs.
Context (input : list ascii).

Lemma drop_head (i : nat) (a : ascii) (rest : list ascii) :
  drop i input = a :: rest -> input !! i = Some a /\ drop (S i) input = rest.
Proof.
  intros H. split.
  - rewrite <- (Nat.add_0_r i), <- lookup_drop, H. done.
  - replace (S i) with (i + 1)%nat by lia. by rewrite <- drop_drop, H.
Qed.

Lemma drop_run (i : nat) (run rest : list ascii) :
  drop i input = (run ++ rest)%list -> drop (i + length run) input = rest.
Proof. intros H. by rewrite <- drop_drop, H, drop_app_length. Qed.

Lemma drop_room (i : nat) (run rest : list ascii) :
  drop i input = (run ++ rest)%list -> (length run <= length input - i)%nat.
Proof.
  intros H. apply (f_equal length) in H. rewrite length_drop, length_app in H. lia.
Qed.

Lemma matcher_seq (r1 r2 : Regex) (x : MatchState) (c : MatchState -> MatchResult) :
  matcher input (Seq r1 r2) x c = matcher input r1 x (fun y => matcher input r2 y c).
Proof. reflexivity. Qed.

Lemma matcher_group (g : nat) (r : Regex) (x : MatchState) (c : MatchState -> MatchResult) :
  matcher input (Group g r) x c
  = matcher input r x (fun y =>
      c {| endIndex := endIndex y;
           captures := <[g := Some (endIndex x, endIndex y)]> (captures y) |}).
Proof. reflexivity. Qed.

(** A character of the class is passed over. *)
Lemma char_step (f : ascii -> bool) (i : nat) (caps : Captures)
    (c : MatchState -> MatchResult) (a : ascii) (rest : list ascii) :
  drop i input = a :: rest -> f a = true ->
  matcher input (Char f) {| endIndex := i; captures := caps |} c
  = c {| endIndex := S i; captures := caps |}.
Proof.
  intros H Hf. apply drop_head in H as [H _]. cbn [matcher endIndex captures].
  by rewrite H, Hf.
Qed.

(** Any other character, or the end of the input, is a failure. *)
Lemma char_stop (f : ascii -> bool) (i : nat) (caps : Captures)
    (c : MatchState -> MatchResult) (rest : list ascii) :
  drop i input = rest -> (forall a r, rest = a :: r -> f a = false) ->
  matcher input (Char f) {| endIndex := i; captures := caps |} c = Failure.
Proof.
  intros H Hf. cbn [matcher endIndex captures].
  rewrite <- (Nat.add_0_r i), <- lookup_drop, H.
  destruct rest as [|a r]; [done|]. cbn. by rewrite (Hf a r).
Qed.

(** A lazy quantifier over a class stops at the first place, past its
    minimum, from which the rest of the pattern matches. *)
Lemma lazy_run (f : ascii -> bool) (c : MatchState -> MatchResult) (z : MatchState)
    (caps : Captures) (run : list ascii) :
  forall i rest fuel mn,
    drop i input = (run ++ rest)%list -> Forall (fun a => f a = true) run ->
    (mn <= length run < fuel)%nat ->
    (forall k, (mn <= k < length run)%nat ->
       c {| endIndex := i + k; captures := caps |} = Failure) ->
    c {| endIndex := i + length run; captures := caps |} = Match z ->
    repeatMatcher (matcher input (Char f)) [] false c fuel mn None
      {| endIndex := i; captures := caps |} = Match z.
Proof.
  induction run as [|a run IH]; intros i rest fuel mn Hi Hrun Hmn Hfail Hc;
    (destruct fuel as [|fuel]; [cbn in Hmn; lia|]); cbn [repeatMatcher pastMax].
  - assert (mn = 0)%nat as -> by (cbn in Hmn; lia). cbn [negb Nat.eqb].
    cbn [length] in Hc. rewrite Nat.add_0_r in Hc. by rewrite Hc.
  - cbn [clearGroups foldr endIndex captures].
    apply Forall_cons in Hrun as [Ha Hrun]. cbn [length] in *.
    assert (Hnext : repeatMatcher (matcher input (Char f)) [] false c fuel (pred mn) None
              {| endIndex := S i; captures := caps |} = Match z).
    { apply (IH (S i) rest).
      - by apply (drop_head i a) in Hi as [_ ->].
      - exact Hrun.
      - lia.
      - intros k Hk. replace (S i + k)%nat with (i + S k)%nat by lia. apply Hfail. lia.
      - replace (S i + length run)%nat with (i + S (length run))%nat by lia. exact Hc. }
    rewrite (char_step f i caps _ a (run ++ rest) Hi Ha). cbn [endIndex].
    replace (S i =? i)%nat with false by (symmetry; apply Nat.eqb_neq; lia).
    rewrite andb_false_r.
    destruct mn as [|mn]; cbn [negb Nat.eqb].
    + specialize (Hfail 0%nat). rewrite Nat.add_0_r in Hfail. rewrite Hfail by lia.
      exact Hnext.
    + exact Hnext.
Qed.

(** A greedy quantifier over a class takes the whole run when the rest
    of the pattern matches behind it. *)
Lemma greedy_run (f : ascii -> bool) (c : MatchState -> MatchResult) (z : MatchState)
    (caps : Captures) (run : list ascii) :
  forall i rest fuel mn,
    drop i input = (run ++ rest)%list -> Forall (fun a => f a = true) run ->
    (forall a r, rest = a :: r -> f a = false) ->
    (mn <= length run < fuel)%nat ->
    c {| endIndex := i + length run; captures := caps |} = Match z ->
    repeatMatcher (matcher input (Char f)) [] true c fuel mn None
      {| endIndex := i; captures := caps |} = Match z.
Proof.
  induction run as [|a run IH]; intros i rest fuel mn Hi Hrun Hrest Hmn Hc;
    (destruct fuel as [|fuel]; [cbn in Hmn; lia|]); cbn [repeatMatcher pastMax].
  - assert (mn = 0)%nat as -> by (cbn in Hmn; lia). cbn [negb Nat.eqb].
    cbn [clearGroups foldr endIndex captures].
    rewrite (char_stop f i caps _ rest Hi Hrest).
    cbn [length] in Hc. by rewrite Nat.add_0_r in Hc.
  - cbn [clearGroups foldr endIndex captures].
    apply Forall_cons in Hrun as [Ha Hrun]. cbn [length] in *.
    rewrite (char_step f i caps _ a (run ++ rest) Hi Ha). cbn [endIndex].
    replace (S i =? i)%nat with false by (symmetry; apply Nat.eqb_neq; lia).
    rewrite andb_false_r. cbn [fmap option_fmap option_map].
    rewrite (IH (S i) rest fuel (pred mn)).
    + by destruct (negb (mn =? 0)%nat).
    + by apply (drop_head i a) in Hi as [_ ->].
    + exact Hrun.
    + exact Hrest.
    + lia.
    + replace (S i + length run)%nat with (i + S (length run))%nat by lia. exact Hc.
Qed.

(** It fails when the rest of the pattern matches behind no part of the
    run that reaches the minimum. *)
Lemma greedy_fail (f : ascii -> bool) (c : MatchState -> MatchResult)
    (caps : Captures) (run : list ascii) :
  forall i rest fuel mn,
    drop i input = (run ++ rest)%list -> Forall (fun a => f a = true) run ->
    (forall a r, rest = a :: r -> f a = false) ->
    (length run < fuel)%nat ->
    (forall k, (mn <= k <= length run)%nat ->
       c {| endIndex := i + k; captures := caps |} = Failure) ->
    repeatMatcher (matcher input (Char f)) [] true c fuel mn None
      {| endIndex := i; captures := caps |} = Failure.
Proof.
  induction run as [|a run IH]; intros i rest fuel mn Hi Hrun Hrest Hmn Hfail;
    (destruct fuel as [|fuel]; [cbn in Hmn; lia|]); cbn [repeatMatcher pastMax].
  - cbn [clearGroups foldr endIndex captures].
    rewrite (char_stop f i caps _ rest Hi Hrest).
    destruct mn as [|mn]; cbn [negb Nat.eqb]; [|done].
    specialize (Hfail 0%nat). rewrite Nat.add_0_r in Hfail. apply Hfail. cbn. lia.
  - cbn [clearGroups foldr endIndex captures].
    apply Forall_cons in Hrun as [Ha Hrun]. cbn [length] in *.
    rewrite (char_step f i caps _ a (run ++ rest) Hi Ha). cbn [endIndex].
    replace (S i =? i)%nat with false by (symmetry; apply Nat.eqb_neq; lia).
    rewrite andb_false_r. cbn [fmap option_fmap option_map].
    rewrite (IH (S i) rest fuel (pred mn)).
    + destruct mn as [|mn]; cbn [negb Nat.eqb]; [|done].
      specialize (Hfail 0%nat). rewrite Nat.add_0_r in Hfail. apply Hfail. lia.
    + by apply (drop_head i a) in Hi as [_ ->].
    + exact Hrun.
    + exact Hrest.
    + lia.
    + intros k Hk. replace (S i + k)%nat with (i + S k)%nat by lia. apply Hfail. lia.
Qed.

(** The same for the quantifier as the pattern has it. *)
Lemma matcher_lazy (f : ascii -> bool) (c : MatchState -> MatchResult) (z : MatchState)
    (caps : Captures) (run rest : list ascii) (i mn : nat) :
  drop i input = (run ++ rest)%list -> Forall (fun a => f a = true) run ->
  (mn <= length run)%nat ->
  (forall k, (mn <= k < length run)%nat ->
     c {| endIndex := i + k; captures := caps |} = Failure) ->
  c {| endIndex := i + length run; captures := caps |} = Match z ->
  matcher input (Repeat false mn None (Char f)) {| endIndex := i; captures := caps |} c
  = Match z.
Proof.
  intros Hi Hrun Hmn Hfail Hc. cbn [matcher groupsOf endIndex].
  apply (lazy_run f c z caps run i rest); try done.
  pose proof (drop_room i run rest Hi). lia.
Qed.

Lemma matcher_greedy (f : ascii -> bool) (c : MatchState -> MatchResult) (z : MatchState)
    (caps : Captures) (run rest : list ascii) (i mn : nat) :
  drop i input = (run ++ rest)%list -> Forall (fun a => f a = true) run ->
  (forall a r, rest = a :: r -> f a = false) ->
  (mn <= length run)%nat ->
  c {| endIndex := i + length run; captures := caps |} = Match z ->
  matcher input (Repeat true mn None (Char f)) {| endIndex := i; captures := caps |} c
  = Match z.
Proof.
  intros Hi Hrun Hrest Hmn Hc. cbn [matcher groupsOf endIndex].
  apply (greedy_run f c z caps run i rest); try done.
  pose proof (drop_room i run rest Hi). lia.
Qed.

Lemma matcher_greedy_fail (f : ascii -> bool) (c : MatchState -> MatchResult)
    (caps : Captures) (run rest : list ascii) (i mn : nat) :
  drop i input = (run ++ rest)%list -> Forall (fun a => f a = true) run ->
  (forall a r, rest = a :: r -> f a = false) ->
  (forall k, (mn <= k <= length run)%nat ->
     c {| endIndex := i + k; captures := caps |} = Failure) ->
  matcher input (Repeat true mn None (Char f)) {| endIndex := i; captures := caps |} c
  = Failure.
Proof.
  intros Hi Hrun Hrest Hfail. cbn [matcher groupsOf endIndex].
  apply (greedy_fail f c caps run i rest); try done.
  pose proof (drop_room i run rest Hi). lia.
Qed.

(** An optional part that cannot start is left out. *)
Lemma opt_skip (r : Regex) (x : MatchState) (c : MatchState -> MatchResult) :
  (forall d, matcher input r
     {| endIndex := endIndex x; captures := clearGroups (groupsOf r) (captures x) |} d
     = Failure) ->
  matcher input (opt r) x c = c x.
Proof.
  intros H. unfold opt. cbn [matcher repeatMatcher pastMax negb Nat.eqb]. by rewrite H.
Qed.

(** An optional part is taken when the rest of the pattern matches
    behind it. *)
Lemma opt_take (r : Regex) (x y z : MatchState) (c : MatchState -> MatchResult) :
  (endIndex x < endIndex y)%nat -> (endIndex x < length input)%nat ->
  (forall d, d y = Match z ->
     matcher input r
       {| endIndex := endIndex x; captures := clearGroups (groupsOf r) (captures x) |} d
     = Match z) ->
  c y = Match z ->
  matcher input (opt r) x c = Match z.
Proof.
  intros Hxy Hx H Hc. unfold opt. cbn [matcher].
  destruct (length input - endIndex x)%nat as [|n] eqn:E; [lia|].
  cbn [Nat.add repeatMatcher pastMax negb Nat.eqb]. rewrite H; [done|]. cbn beta.
  replace (endIndex y =? endIndex x)%nat with false by (symmetry; apply Nat.eqb_neq; lia).
  cbn [andb repeatMatcher]. exact Hc.
Qed.

End Runs.
End RunFacts.

(** ** The trigger in its documented form is accepted *)
Module AcceptFacts.
Import Text RegExp App MessageParser RegExpFacts RunFacts ParserFacts.

(** *** Characters and strings *)

Lemma chars_app (a b : string) : chars (a +:+ b) = (chars a ++ chars b)%list.
Proof.
  unfold chars. induction a as [|c a IH]; [done|].
  change (String c a +:+ b) with (String c (a +:+ b)).
  cbn [list_ascii_of_string]. by rewrite IH.
Qed.

Lemma chars_inj (a b : string) : chars a = chars b -> a = b.
Proof.
  intros H. rewrite <- (string_of_list_ascii_of_string a),
    <- (string_of_list_ascii_of_string b). unfold chars in H. by rewrite H.
Qed.

Lemma length_chars (s : string) : length (chars s) = String.length s.
Proof. unfold chars. induction s as [|c s IH]; cbn; [done|]. by rewrite IH. Qed.

Lemma letter_not_space (a : ascii) : isLetter a = true -> isSpace a = false.
Proof. each_ascii a; vm_compute; congruence. Qed.

Lemma letter_or_space (a : ascii) : isLetter a = true -> isLetter a || isSpace a = true.
Proof. by intros ->. Qed.

Lemma not_comma (a : ascii) :
  a ≠ ","%char -> Ascii.eqb (lowerChar a) (lowerChar ",") = false.
Proof. each_ascii a; intros H; try reflexivity. by destruct H. Qed.

Lemma lowerChar_is (a b : ascii) :
  Ascii.eqb (lowerChar a) (lowerChar b) = true -> lowerChar a = lowerChar b.
Proof. by intros H%Ascii.eqb_eq. Qed.

Lemma upperChar_letter' (a : ascii) : isLetter a = true -> isLetter (upperChar a) = true.
Proof. each_ascii a; vm_compute; congruence. Qed.

Lemma lowerChar_letter' (a : ascii) : isLetter a = true -> isLetter (lowerChar a) = true.
Proof. each_ascii a; vm_compute; congruence. Qed.

(** *** A string with no blank at either end is its own [trim] *)

Lemma trimEnd_fixed (s : string) :
  (forall a, last (chars s) = Some a -> isSpace a = false) -> trimEnd s = s.
Proof.
  induction s as [|c r IH]; [done|]. intros H. cbn [trimEnd].
  destruct r as [|c' r'].
  - cbn. by rewrite (H c).
  - rewrite IH; [done|]. intros a Ha. apply H. exact Ha.
Qed.

Lemma trim_fixed (s : string) :
  (forall a, head (chars s) = Some a -> isSpace a = false) ->
  (forall a, last (chars s) = Some a -> isSpace a = false) -> trim s = s.
Proof.
  intros Hh Hl. unfold trim.
  assert (trimStart s = s) as ->; [|by apply trimEnd_fixed].
  destruct s as [|c r]; [done|]. cbn. by rewrite (Hh c).
Qed.

Lemma fixed_head (s : string) (a : ascii) :
  trim s = s -> head (chars s) = Some a -> isSpace a = false.
Proof.
  intros Hs Ha. destruct (trimStart_head s) as [E|(c & r & E & Hc)].
  - unfold trim in Hs. rewrite E in Hs. cbn in Hs. by subst s.
  - destruct (trimEnd_head c r Hc) as [r' E']. unfold trim in Hs.
    rewrite E, E' in Hs. subst s. cbn in Ha. by injection Ha as <-.
Qed.

Lemma fixed_last (s : string) (a : ascii) :
  trim s = s -> last (chars s) = Some a -> isSpace a = false.
Proof.
  intros Hs Ha. destruct (trim_last s) as [E|(l & b & E & Hb)].
  - rewrite E in Hs. by subst s.
  - rewrite Hs in E. rewrite E, last_snoc in Ha. by injection Ha as <-.
Qed.

(** *** The words of a name *)

Lemma word_letters (w : string) :
  isAlphabetic w = true -> Forall (fun a => isLetter a = true) (chars w).
Proof.
  unfold isAlphabetic. intros [_ H]%andb_prop. unfold chars.
  apply Forall_forall. intros a Ha. rewrite forallb_forall in H. apply H.
  by apply list_elem_of_In.
Qed.

Lemma word_cons (w : string) :
  (2 <= String.length w)%nat -> isAlphabetic w = true ->
  exists a1 a2 r, w = String a1 (String a2 r) /\ isLetter a1 = true /\ isLetter a2 = true
                  /\ Forall (fun a => isLetter a = true) (chars r).
Proof.
  intros Hlen Hw. apply word_letters in Hw.
  destruct w as [|a1 [|a2 r]]; cbn in Hlen; [lia|lia|].
  apply Forall_cons in Hw as [H1 Hw]. apply Forall_cons in Hw as [H2 Hw].
  by exists a1, a2, r.
Qed.

Lemma concat_cons (w w' : string) (ws : list string) :
  chars (String.concat " " (w :: w' :: ws))
  = (chars w ++ " "%char :: chars (String.concat " " (w' :: ws)))%list.
Proof.
  change (String.concat " " (w :: w' :: ws))
    with (w +:+ " " +:+ String.concat " " (w' :: ws)).
  by rewrite !chars_app.
Qed.

Lemma concat_head (w : string) (ws : list string) :
  exists r, chars (String.concat " " (w :: ws)) = (chars w ++ r)%list
            /\ (r = [] \/ exists r', r = " "%char :: r').
Proof.
  destruct ws as [|w' ws].
  - exists []. cbn [String.concat]. rewrite app_nil_r. split; [done|by left].
  - eexists. rewrite concat_cons. split; [done|]. right. by eexists.
Qed.

Lemma name_chars (ws : list string) :
  Forall nameWord ws ->
  Forall (fun a => isLetter a || isSpace a = true) (chars (String.concat " " ws)).
Proof.
  induction ws as [|w ws IH]; intros H; [constructor|].
  apply Forall_cons in H as [(_ & Hw & _) Hws]. apply word_letters in Hw.
  assert (Hl : Forall (fun a => isLetter a || isSpace a = true) (chars w)).
  { eapply Forall_impl; [exact Hw|]. intros a Ha. by apply letter_or_space. }
  destruct ws as [|w' ws]; [exact Hl|].
  rewrite concat_cons. apply Forall_app. split; [exact Hl|].
  constructor; [done|]. by apply IH.
Qed.

(** Behind each proper part of the name there is a letter, or a blank
    and a whole word. *)
Lemma name_suffixes (ws : list string) :
  Forall nameWord ws ->
  forall k, (k < length (chars (String.concat " " ws)))%nat ->
    (exists a r, drop k (chars (String.concat " " ws)) = a :: r /\ isLetter a = true)
    \/ (exists w r, w ∈ ws
          /\ drop k (chars (String.concat " " ws)) = (" "%char :: chars w ++ r)%list
          /\ (r = [] \/ exists r', r = " "%char :: r')).
Proof.
  induction ws as [|w ws IH]; intros H k Hk; [cbn in Hk; lia|].
  apply Forall_cons in H as [(_ & Hw & _) Hws]. apply word_letters in Hw.
  assert (Hletter : forall rest, (k < length (chars w))%nat ->
            exists a r, drop k (chars w ++ rest) = a :: r /\ isLetter a = true).
  { intros rest Hlt. rewrite drop_app_le by lia.
    pose proof (Forall_drop _ k _ Hw) as Hd.
    destruct (drop k (chars w)) as [|a r] eqn:E.
    - apply (f_equal length) in E. rewrite length_drop in E. cbn in E. lia.
    - apply Forall_cons in Hd as [Ha _]. by exists a, (r ++ rest)%list. }
  destruct ws as [|w' ws].
  - left. cbn [String.concat] in *. destruct (Hletter [] Hk) as (a & r & E & Ha).
    rewrite app_nil_r in E. by exists a, r.
  - rewrite concat_cons in *. rewrite length_app in Hk. cbn [length] in Hk.
    destruct (decide (k < length (chars w))%nat) as [Hlt|Hge]; [left; by apply Hletter|].
    rewrite drop_app_ge by lia.
    destruct (decide (k = length (chars w))) as [->|Hne].
    + right. rewrite Nat.sub_diag. cbn [drop].
      destruct (concat_head w' ws) as (r & E & Hr). exists w', r.
      split; [right; by left|]. by rewrite E.
    + replace (k - length (chars w))%nat with (S (k - length (chars w) - 1)) by lia.
      cbn [drop].
      destruct (IH Hws (k - length (chars w) - 1)%nat)
        as [(a & r & E & Ha)|(v & r & Hv & E & Hr)]; [lia| |].
      * left. by exists a, r.
      * right. exists v, r. split; [by right|]. by split.
Qed.

Lemma at_is_stopword (a1 a2 : ascii) :
  Ascii.eqb (lowerChar a1) (lowerChar "a") = true ->
  Ascii.eqb (lowerChar a2) (lowerChar "t") = true ->
  isStopword (String a1 (String a2 "")) = true.
Proof.
  intros H1%lowerChar_is H2%lowerChar_is. unfold isStopword. cbn [toLowerCase].
  by rewrite H1, H2.
Qed.

(** *** The pattern on a trigger *)

Section Trigger.
Context (input : list ascii).

(** A word of the name is not taken for the [at] of the pattern. *)
Lemma at_fails (p : nat) (w : string) (r : list ascii) (R : Regex)
    (c : MatchState -> MatchResult) (caps : Captures) :
  nameWord w -> drop p input = (chars w ++ " "%char :: r)%list ->
  matcher input (Seq (lits true "at") (Seq (plus (Char isSpace)) R))
    {| endIndex := p; captures := caps |} c = Failure.
Proof.
  intros (Hlen & Hw & Hstop) Hp.
  destruct (word_cons w Hlen Hw) as (a1 & a2 & rest & -> & H1 & H2 & Hrest).
  unfold chars in Hp. cbn [list_ascii_of_string app] in Hp.
  cbn [lits]. rewrite !matcher_seq. unfold lit.
  destruct (Ascii.eqb (lowerChar a1) (lowerChar "a")) eqn:E1.
  2: { eapply char_stop; [exact Hp|]. intros a r' [= <- <-]. exact E1. }
  rewrite (char_step input _ p caps _ a1 _ Hp E1). cbn beta.
  apply drop_head in Hp as [_ Hp].
  destruct (Ascii.eqb (lowerChar a2) (lowerChar "t")) eqn:E2.
  2: { eapply char_stop; [exact Hp|]. intros a r' [= <- <-]. exact E2. }
  rewrite (char_step input _ (S p) caps _ a2 _ Hp E2). cbn beta.
  apply drop_head in Hp as [_ Hp].
  rewrite matcher_seq. unfold plus.
  eapply matcher_greedy_fail with (run := []); [exact Hp|constructor| |cbn; lia].
  destruct rest as [|a3 rest].
  { by rewrite (at_is_stopword a1 a2 E1 E2) in Hstop. }
  intros a r' [= <- <-]. apply letter_not_space.
  by apply Forall_cons in Hrest as [H3 _].
Qed.

(** The rest of the pattern does not match behind a proper part of the
    name. *)
Lemma name_goes_on (ws : list string) (rest : list ascii) (k : nat) (R : Regex)
    (c : MatchState -> MatchResult) (caps : Captures) :
  Forall nameWord ws ->
  drop 4 input = (chars (String.concat " " ws) ++ " "%char :: rest)%list ->
  (k < length (chars (String.concat " " ws)))%nat ->
  matcher input
    (Seq (plus (Char isSpace)) (Seq (lits true "at") (Seq (plus (Char isSpace)) R)))
    {| endIndex := 4 + k; captures := caps |} c = Failure.
Proof.
  intros Hws H4 Hk.
  assert (Hp : drop (4 + k) input
               = (drop k (chars (String.concat " " ws)) ++ " "%char :: rest)%list).
  { by rewrite <- drop_drop, H4, drop_app_le by lia. }
  rewrite matcher_seq. unfold plus at 1.
  destruct (name_suffixes ws Hws k Hk) as [(a & r & E & Ha)|(w & r & Hw & E & Hr)];
    rewrite E in Hp.
  - eapply matcher_greedy_fail with (run := []); [exact Hp|constructor| |cbn; lia].
    intros a' r' [= <- <-]. by apply letter_not_space.
  - assert (Hword : nameWord w).
    { rewrite Forall_forall in Hws. by apply Hws. }
    eapply matcher_greedy_fail with (run := [" "%char]); [exact Hp|by repeat constructor| |].
    + destruct Hword as (Hlen & Hal & _).
      destruct (word_cons w Hlen Hal) as (a1 & a2 & t & -> & H1 & _).
      intros a' r' [= <- <-]. by apply letter_not_space.
    + intros k' Hk'. cbn [length] in Hk'. assert (k' = 1)%nat as -> by lia. cbn beta.
      apply (at_fails _ w (match r with [] => rest | _ :: r' => r' ++ " "%char :: rest end)%list);
        [exact Hword|].
      pose proof (drop_run input (4 + k) [" "%char]
                    ((chars w ++ r) ++ " "%char :: rest)%list Hp) as Hq.
      cbn [length] in Hq. rewrite Hq, <- app_assoc. f_equal.
      destruct Hr as [->|[r' ->]]; done.
Qed.

(** At the end of the text the context is left out. *)
Lemma context_absent (e2 : nat) (caps : Captures) :
  e2 = length input ->
  matcher input
    (Seq (opt (seqs [lit true ","; star (Char isSpace); Group 3 (plus (Char isDot))]))
         LineEnd)
    {| endIndex := e2; captures := caps |} Match
  = Match {| endIndex := e2; captures := caps |}.
Proof.
  intros ->. rewrite matcher_seq, opt_skip.
  - cbn [matcher endIndex]. by rewrite Nat.eqb_refl.
  - intros d. cbn [seqs endIndex captures]. rewrite matcher_seq. unfold lit.
    eapply char_stop; [apply drop_all|]. done.
Qed.

(** Inside the event neither the context nor the end of the text is
    found. *)
Lemma event_goes_on (p : nat) (a : ascii) (r : list ascii) (caps : Captures) :
  drop p input = a :: r -> a ≠ ","%char ->
  matcher input
    (Seq (opt (seqs [lit true ","; star (Char isSpace); Group 3 (plus (Char isDot))]))
         LineEnd)
    {| endIndex := p; captures := caps |} Match = Failure.
Proof.
  intros Hp Ha. rewrite matcher_seq, opt_skip.
  - cbn [matcher endIndex]. apply drop_head in Hp as [Hp _]. apply lookup_lt_Some in Hp.
    replace (p =? length input)%nat with false; [done|].
    symmetry. apply Nat.eqb_neq. lia.
  - intros d. cbn [seqs endIndex captures]. rewrite matcher_seq. unfold lit.
    eapply char_stop; [exact Hp|]. intros a' r' [= <- <-]. by apply not_comma.
Qed.

(** Behind a comma the context is the rest of the text. *)
Lemma context_present (e2 : nat) (ctx : string) (caps : Captures) :
  drop e2 input = (","%char :: " "%char :: chars ctx)%list ->
  ctx ≠ "" -> (forall a, head (chars ctx) = Some a -> isSpace a = false) ->
  Forall (fun a => isDot a = true) (chars ctx) ->
  matcher input
    (Seq (opt (seqs [lit true ","; star (Char isSpace); Group 3 (plus (Char isDot))]))
         LineEnd)
    {| endIndex := e2; captures := caps |} Match
  = Match {| endIndex := length input;
             captures := <[3%nat := Some (e2 + 2, length input)%nat]>
                           (<[3%nat := None]> caps) |}.
Proof.
  intros Hp Hne Hhead Hdot.
  assert (Hlen : length input = (e2 + 2 + length (chars ctx))%nat).
  { pose proof (f_equal length Hp) as H. rewrite length_drop in H. cbn [length] in H. lia. }
  rewrite matcher_seq.
  eapply opt_take with
    (y := {| endIndex := length input;
             captures := <[3%nat := Some (e2 + 2, length input)%nat]>
                           (<[3%nat := None]> caps) |}).
  - cbn [endIndex]. lia.
  - cbn [endIndex]. lia.
  - intros d Hd. unfold lit, star, plus.
    cbn [seqs groupsOf clearGroups foldr app endIndex captures].
    rewrite matcher_seq. rewrite (char_step input _ e2 _ _ _ _ Hp eq_refl). cbn beta.
    apply drop_head in Hp as [_ Hp]. rewrite matcher_seq.
    eapply matcher_greedy with (run := [" "%char]) (rest := chars ctx);
      [exact Hp|by repeat constructor| |cbn; lia|].
    { intros a r E. apply Hhead. by rewrite E. }
    cbn beta. apply (drop_run input (S e2) [" "%char]) in Hp. rewrite matcher_group.
    eapply matcher_greedy with (run := chars ctx) (rest := []);
      [by rewrite app_nil_r|exact Hdot|done| |].
    { destruct ctx; [done|]. cbn. lia. }
    cbn beta. cbn [endIndex captures length].
    replace (S e2 + 1 + length (chars ctx))%nat with (length input) by lia.
    replace (S e2 + 1)%nat with (e2 + 2)%nat by lia. exact Hd.
  - cbn [matcher endIndex]. by rewrite Nat.eqb_refl.
Qed.

(** The event is the text up to the comma, or up to the end. *)
Lemma event_part (e1 : nat) (ev : string) (tail : list ascii) (caps : Captures)
    (z : MatchState) :
  drop e1 input = (chars ev ++ tail)%list -> ev ≠ "" -> ","%char ∉ chars ev ->
  matcher input
    (Seq (opt (seqs [lit true ","; star (Char isSpace); Group 3 (plus (Char isDot))]))
         LineEnd)
    {| endIndex := e1 + length (chars ev);
       captures := <[2%nat := Some (e1, e1 + length (chars ev))%nat]> caps |} Match
  = Match z ->
  matcher input
    (Seq (Group 2 (lazyPlus (Char (fun c => negb (Ascii.eqb c ",")))))
       (Seq (opt (seqs [lit true ","; star (Char isSpace); Group 3 (plus (Char isDot))]))
            LineEnd))
    {| endIndex := e1; captures := caps |} Match = Match z.
Proof.
  intros Hp Hne Hcomma Hz. rewrite matcher_seq, matcher_group. unfold lazyPlus.
  eapply matcher_lazy with (run := chars ev) (rest := tail); [exact Hp| | | |].
  - apply Forall_forall. intros a Ha. apply negb_true_iff, Ascii.eqb_neq. by intros ->.
  - destruct ev; [done|]. cbn. lia.
  - intros k Hk. cbn beta. cbn [endIndex captures].
    assert (Hq : drop (e1 + k) input = (drop k (chars ev) ++ tail)%list).
    { by rewrite <- drop_drop, Hp, drop_app_le by lia. }
    destruct (drop k (chars ev)) as [|a r] eqn:E.
    { apply (f_equal length) in E. rewrite length_drop in E. cbn in E. lia. }
    apply (event_goes_on _ a (r ++ tail)%list); [exact Hq|].
    intros ->. apply Hcomma. rewrite <- (take_drop k (chars ev)), E.
    apply elem_of_app. right. by left.
  - cbn beta. cbn [endIndex captures]. exact Hz.
Qed.

Lemma matcher_start (caps : Captures) (c : MatchState -> MatchResult) :
  matcher input LineStart {| endIndex := 0; captures := caps |} c
  = c {| endIndex := 0; captures := caps |}.
Proof. reflexivity. Qed.

(** The pattern on the whole trigger: the name is taken up to the first
    [at], the event behind it. *)
Lemma trigger_matches (ws : list string) (ev : string) (tail : list ascii)
    (z : MatchState) :
  input = (chars "met " ++ chars (String.concat " " ws) ++ chars " at "
           ++ chars ev ++ tail)%list ->
  ws ≠ [] -> Forall nameWord ws ->
  ev ≠ "" -> (forall a, head (chars ev) = Some a -> isSpace a = false) ->
  ","%char ∉ chars ev ->
  matcher input
    (Seq (opt (seqs [lit true ","; star (Char isSpace); Group 3 (plus (Char isDot))]))
         LineEnd)
    {| endIndex := 8 + length (chars (String.concat " " ws)) + length (chars ev);
       captures := [None; Some (4, 4 + length (chars (String.concat " " ws)))%nat;
                    Some (8 + length (chars (String.concat " " ws)),
                          8 + length (chars (String.concat " " ws))
                          + length (chars ev))%nat;
                    None] |} Match
  = Match z ->
  matchAt 4 pattern input 0 = Match z.
Proof.
  intros Hin Hne Hws Hev Hhead Hcomma Hz.
  assert (Hnm : exists a1 r, chars (String.concat " " ws) = a1 :: r
                             /\ isLetter a1 = true).
  { destruct ws as [|w0 ws0]; [done|].
    pose proof Hws as [(Hlen0 & Hal0 & _) _]%Forall_cons.
    destruct (word_cons w0 Hlen0 Hal0) as (a1 & a2 & t0 & Ew0 & Ha1 & _).
    destruct (concat_head w0 ws0) as (r & E & _).
    rewrite E, Ew0. by eexists _, _. }
  destruct Hnm as (a1 & nmr & Hnm & Ha1).
  set (nm := String.concat " " ws) in *.
  assert (H : drop 0 input
              = ("m" :: "e" :: "t" :: " " :: chars nm
                 ++ " " :: "a" :: "t" :: " " :: chars ev ++ tail)%char%list).
  { by rewrite Hin. }
  unfold matchAt, pattern. cbn [seqs lits replicate]. unfold lit, plus, lazyPlus.
  rewrite matcher_seq, matcher_start. cbn beta.
  rewrite !matcher_seq.
  rewrite (char_step input _ 0 _ _ _ _ H eq_refl). cbn beta.
  apply drop_head in H as [_ H]. rewrite ?matcher_seq.
  rewrite (char_step input _ 1 _ _ _ _ H eq_refl). cbn beta.
  apply drop_head in H as [_ H].
  rewrite (char_step input _ 2 _ _ _ _ H eq_refl). cbn beta.
  apply drop_head in H as [_ H]. rewrite matcher_seq.
  eapply matcher_greedy with (run := [" "%char]);
    [exact H|by repeat constructor| |cbn [length]; lia|].
  { rewrite Hnm. intros a r [= <- <-]. by apply letter_not_space. }
  cbn beta. apply (drop_run input 3 [" "%char]) in H. cbn [length Nat.add] in H |- *.
  rewrite matcher_seq, matcher_group.
  eapply matcher_lazy with (run := chars nm); [exact H|by apply name_chars| | |].
  { rewrite Hnm. cbn. lia. }
  { intros k Hk. cbn beta. cbn [endIndex captures].
    eapply (name_goes_on ws); [exact Hws|exact H|exact (proj2 Hk)]. }
  cbn beta. cbn [endIndex captures]. apply (drop_run input 4 (chars nm)) in H.
  rewrite matcher_seq.
  eapply matcher_greedy with (run := [" "%char]);
    [exact H|by repeat constructor| |cbn [length]; lia|].
  { by intros a r [= <- <-]. }
  cbn beta. apply (drop_run input _ [" "%char]) in H. cbn [length] in H |- *.
  rewrite !matcher_seq.
  rewrite (char_step input _ _ _ _ _ _ H eq_refl). cbn beta.
  apply drop_head in H as [_ H].
  rewrite (char_step input _ _ _ _ _ _ H eq_refl). cbn beta.
  apply drop_head in H as [_ H]. rewrite matcher_seq.
  eapply matcher_greedy with (run := [" "%char]);
    [exact H|by repeat constructor| |cbn [length]; lia|].
  { destruct ev as [|e0 evr]; [done|]. intros a r [= <- _]. by apply Hhead. }
  cbn beta. apply (drop_run input _ [" "%char]) in H. cbn [length] in H |- *.
  replace (S (S (4 + length (chars nm) + 1)) + 1)%nat
    with (8 + length (chars nm))%nat in H |- * by lia.
  eapply event_part; [exact H|exact Hev|exact Hcomma|].
  exact Hz.
Qed.

End Trigger.

(** *** The name of a trigger, cleaned *)

Lemma word_nospace (w : string) : isAlphabetic w = true -> " "%char ∉ chars w.
Proof.
  intros Hw%word_letters Hin. rewrite Forall_forall in Hw. by apply Hw in Hin.
Qed.

Lemma collapseFrom_word (w rest : string) (b : bool) :
  w ≠ "" -> Forall (fun a => isLetter a = true) (chars w) ->
  collapseFrom b (w +:+ rest) = w +:+ collapseFrom false rest.
Proof.
  revert b. induction w as [|c r IH]; intros b Hne Hw; [done|].
  apply Forall_cons in Hw as [Hc Hr].
  change (String c r +:+ rest) with (String c (r +:+ rest)).
  change (String c r +:+ collapseFrom false rest)
    with (String c (r +:+ collapseFrom false rest)).
  cbn [collapseFrom]. rewrite (letter_not_space c Hc). f_equal.
  destruct r as [|c' r']; [done|]. by apply IH.
Qed.

Lemma collapseFrom_letters (w : string) (b : bool) :
  Forall (fun a => isLetter a = true) (chars w) -> collapseFrom b w = w.
Proof.
  revert b. induction w as [|c r IH]; intros b Hw; [done|].
  apply Forall_cons in Hw as [Hc Hr]. cbn [collapseFrom].
  rewrite (letter_not_space c Hc). f_equal. by apply IH.
Qed.

Lemma collapseFrom_name (ws : list string) (b : bool) :
  Forall nameWord ws ->
  collapseFrom b (String.concat " " ws) = String.concat " " ws.
Proof.
  revert b. induction ws as [|w ws IH]; intros b H; [done|].
  apply Forall_cons in H as [(Hlen & Hw & _) Hws].
  destruct ws as [|w' ws].
  - cbn [String.concat]. by apply collapseFrom_letters, word_letters.
  - change (String.concat " " (w :: w' :: ws))
      with (w +:+ String " " (String.concat " " (w' :: ws))).
    rewrite collapseFrom_word; [|by destruct w|by apply word_letters].
    cbn [collapseFrom]. change (isSpace " ") with true. cbn iota.
    by rewrite IH.
Qed.

Lemma name_ends (ws : list string) :
  ws ≠ [] -> Forall nameWord ws ->
  (forall a, head (chars (String.concat " " ws)) = Some a -> isSpace a = false)
  /\ (forall a, last (chars (String.concat " " ws)) = Some a -> isSpace a = false).
Proof.
  intros Hne Hws. split; intros a Ha.
  - destruct ws as [|w ws]; [done|].
    pose proof Hws as [(Hlen & Hw & _) _]%Forall_cons.
    destruct (word_cons w Hlen Hw) as (a1 & a2 & t & -> & H1 & _).
    destruct (concat_head (String a1 (String a2 t)) ws) as (r & E & _).
    rewrite E in Ha. cbn in Ha. injection Ha as <-. by apply letter_not_space.
  - set (l := chars (String.concat " " ws)) in *.
    destruct (decide (length l = 0)%nat) as [H0|H0].
    { destruct l; [done|]. cbn in H0. lia. }
    destruct (name_suffixes ws Hws (length l - 1)%nat)
      as [(b & r & E & Hb)|(w & r & Hw & E & _)]; [fold l; lia| |]; fold l in E.
    + pose proof (f_equal length E) as Hl. rewrite length_drop in Hl. cbn [length] in Hl.
      destruct r; [|cbn in Hl; lia].
      rewrite <- (take_drop (length l - 1) l), E, last_snoc in Ha.
      injection Ha as <-. by apply letter_not_space.
    + pose proof (f_equal length E) as Hl.
      rewrite length_drop in Hl. cbn [length] in Hl.
      rewrite length_app, length_chars in Hl.
      rewrite Forall_forall in Hws. destruct (Hws w Hw) as (H2 & _). lia.
Qed.

Lemma filter_all {A : Type} (f : A -> bool) (l : list A) :
  Forall (fun a => f a = true) l -> List.filter f l = l.
Proof.
  induction 1 as [|a l Ha Hl IH]; cbn; [done|]. by rewrite Ha, IH.
Qed.

Lemma cleanName_name (ws : list string) :
  ws ≠ [] -> Forall nameWord ws ->
  cleanName (String.concat " " ws) = String.concat " " (map capitalize ws).
Proof.
  intros Hne Hws. unfold cleanName, collapse.
  destruct (name_ends ws Hne Hws) as [Hh Hl].
  rewrite (trim_fixed _ Hh Hl), (collapseFrom_name ws false Hws).
  rewrite split_concat; [|done|].
  - rewrite filter_all; [done|]. eapply Forall_impl; [exact Hws|].
    intros w (_ & _ & ->). done.
  - eapply Forall_impl; [exact Hws|]. intros w (_ & Hw & _). by apply word_nospace.
Qed.

Lemma length_toLowerCase (s : string) : String.length (toLowerCase s) = String.length s.
Proof. induction s as [|c r IH]; cbn; [done|]. by rewrite IH. Qed.

Lemma capitalize_word (w : string) :
  (2 <= String.length w)%nat -> isAlphabetic w = true ->
  (2 <=? String.length (capitalize w))%nat && isAlphabetic (capitalize w) = true.
Proof.
  intros Hlen Hw. destruct (word_cons w Hlen Hw) as (a1 & a2 & t & -> & H1 & H2 & Ht).
  cbn [capitalize toLowerCase String.length]. cbn [Nat.leb andb].
  unfold isAlphabetic. cbn [isEmpty negb andb list_ascii_of_string forallb].
  rewrite (upperChar_letter' a1 H1), (lowerChar_letter' a2 H2). cbn [andb].
  apply forallb_forall. intros a Ha. apply list_elem_of_In in Ha.
  change (list_ascii_of_string (toLowerCase t)) with (chars (toLowerCase t)) in Ha.
  rewrite toLowerCase_chars in Ha. apply list_elem_of_fmap in Ha as (b & -> & Hb).
  apply lowerChar_letter'. rewrite Forall_forall in Ht. by apply Ht.
Qed.

Lemma isValidName_name (ws : list string) :
  (1 <= length ws <= 3)%nat -> Forall nameWord ws ->
  isValidName (String.concat " " (map capitalize ws)) = true.
Proof.
  intros Hlen Hws. unfold isValidName.
  rewrite split_concat.
  - rewrite length_map.
    replace (1 <=? length ws)%nat with true by (symmetry; apply Nat.leb_le; lia).
    replace (length ws <=? 3)%nat with true by (symmetry; apply Nat.leb_le; lia).
    cbn [andb]. apply forallb_forall. intros v Hv. apply in_map_iff in Hv as (w & <- & Hw).
    rewrite Forall_forall in Hws. apply list_elem_of_In in Hw.
    destruct (Hws w Hw) as (H2 & Hal & _). by apply capitalize_word.
  - destruct ws; [cbn in Hlen; lia|done].
  - apply Forall_forall. intros v Hv. apply list_elem_of_fmap in Hv as (w & -> & Hw).
    rewrite Forall_forall in Hws. destruct (Hws w Hw) as (_ & Hal & _).
    by apply capitalize_nospace, word_nospace.
Qed.

Lemma name_nonempty (ws : list string) :
  ws ≠ [] -> Forall nameWord ws -> String.concat " " ws ≠ "".
Proof.
  intros Hne Hws E. destruct ws as [|w ws]; [done|].
  apply Forall_cons in Hws as [(Hlen & Hw & _) _].
  destruct (word_cons w Hlen Hw) as (a1 & a2 & t & -> & _).
  destruct (concat_head (String a1 (String a2 t)) ws) as (r & Er & _).
  by rewrite E in Er.
Qed.

(** *** [parseMessage] on a trigger *)

Lemma searchFrom_here (n : nat) (r : Regex) (input : list ascii) (fuel : nat)
    (z : MatchState) :
  matchAt n r input 0 = Match z -> searchFrom n r input fuel 0 = Some (0%nat, z).
Proof. intros H. destruct fuel; cbn [searchFrom]; by rewrite H. Qed.

Lemma substring_run (input run rest : list ascii) (i j : nat) :
  drop i input = (run ++ rest)%list -> j = (i + length run)%nat ->
  substring input i j = string_of_list_ascii run.
Proof.
  intros H ->. unfold substring.
  replace (i + length run - i)%nat with (length run) by lia.
  by rewrite H, take_app_length.
Qed.

Lemma last_behind (l1 l2 : list ascii) : l2 ≠ [] -> last (l1 ++ l2) = last l2.
Proof.
  intros H. rewrite last_app. destruct (last l2) eqn:E; [done|].
  apply last_None in E. done.
Qed.

(** The message has no blank at either end. *)
Lemma trigger_trimmed (ws : list string) (ev : string) (ctx : option string) :
  (1 <= length ws <= 3)%nat -> Forall nameWord ws ->
  ev ≠ "" -> trim ev = ev -> ","%char ∉ chars ev ->
  (forall c, ctx = Some c ->
     c ≠ "" /\ trim c = c /\ Forall (fun a => isDot a = true) (chars c)) ->
  trim ("met " +:+ String.concat " " ws +:+ " at " +:+ ev
     +:+ match ctx with Some c => ", " +:+ c | None => "" end)
  = "met " +:+ String.concat " " ws +:+ " at " +:+ ev
    +:+ match ctx with Some c => ", " +:+ c | None => "" end.
Proof.
  intros Hlen Hws Hev Htrim Hcomma Hctx.
  set (nm := String.concat " " ws).
  set (tl := match ctx with Some c => ", " +:+ c | None => "" end).
  set (text := "met " +:+ nm +:+ " at " +:+ ev +:+ tl).
  assert (Hchars : chars text
    = (chars "met " ++ chars nm ++ chars " at " ++ chars ev ++ chars tl)%list).
  { subst text. by rewrite !chars_app. }
  assert (Hevl : chars ev ≠ []) by (by destruct ev).
  apply trim_fixed; intros a Ha.
  - rewrite Hchars in Ha. cbn in Ha. by injection Ha as <-.
  - rewrite Hchars in Ha. subst tl. destruct ctx as [c|].
    + destruct (Hctx c eq_refl) as (Hc & Hct & _).
      rewrite chars_app, !app_assoc in Ha. rewrite last_behind in Ha by (by destruct c).
      by apply (fixed_last c).
    + change (chars "") with (@nil ascii) in Ha.
      rewrite app_nil_r, !app_assoc, last_behind in Ha by done.
      by apply (fixed_last ev).
Qed.

(** [parseMessage] on a message in the documented form. *)
Lemma parseMessage_trigger (ws : list string) (ev : string)
    (ctx : option string) :
  (1 <= length ws <= 3)%nat -> Forall nameWord ws ->
  ev ≠ "" -> trim ev = ev -> ","%char ∉ chars ev ->
  (forall c, ctx = Some c ->
     c ≠ "" /\ trim c = c /\ Forall (fun a => isDot a = true) (chars c)) ->
  parseMessage
    ("met " +:+ String.concat " " ws +:+ " at " +:+ ev
     +:+ match ctx with Some c => ", " +:+ c | None => "" end)
  = {| parsedName := String.concat " " (map capitalize ws);
       parsedEvent := ev;
       parsedContext := ctx;
       isValidMeeting := true |}.
Proof.
  intros Hlen Hws Hev Htrim Hcomma Hctx.
  assert (Hne : ws ≠ []) by (destruct ws; [cbn in Hlen; lia|done]).
  set (nm := String.concat " " ws).
  set (tl := match ctx with Some c => ", " +:+ c | None => "" end).
  set (text := "met " +:+ nm +:+ " at " +:+ ev +:+ tl).
  assert (Hchars : chars text
    = (chars "met " ++ chars nm ++ chars " at " ++ chars ev ++ chars tl)%list).
  { subst text. by rewrite !chars_app. }
  assert (Hevl : chars ev ≠ []) by (by destruct ev).
  pose proof (trigger_trimmed ws ev ctx Hlen Hws Hev Htrim Hcomma Hctx) as Htext.
  fold nm tl text in Htext.
  assert (H4 : drop 4 (chars text)
               = (chars nm ++ chars " at " ++ chars ev ++ chars tl)%list).
  { by rewrite Hchars. }
  assert (H8 : drop (8 + length (chars nm)) (chars text) = (chars ev ++ chars tl)%list).
  { rewrite Hchars, !app_assoc, <- (app_assoc _ (chars ev)).
    apply drop_app_length'. rewrite !length_app. cbn. lia. }
  assert (He2 : drop (8 + length (chars nm) + length (chars ev)) (chars text) = chars tl).
  { by apply (drop_run _ _ (chars ev)). }
  assert (Hname : substring (chars text) 4 (4 + length (chars nm)) = nm).
  { rewrite (substring_run _ (chars nm) _ _ _ H4 eq_refl).
    apply string_of_list_ascii_of_string. }
  assert (Hevent : substring (chars text) (8 + length (chars nm))
                     (8 + length (chars nm) + length (chars ev)) = ev).
  { rewrite (substring_run _ (chars ev) _ _ _ H8 eq_refl).
    apply string_of_list_ascii_of_string. }
  assert (Hclean : negb (isValidName (cleanName nm)) = false).
  { subst nm. by rewrite cleanName_name, isValidName_name. }
  assert (Hempty : isEmpty nm || isEmpty ev = false).
  { pose proof (name_nonempty ws Hne Hws) as Hn. fold nm in Hn.
    destruct nm; [done|]. by destruct ev. }
  unfold parseMessage. rewrite Htext. unfold exec.
  change (list_ascii_of_string text) with (chars text).
  assert (Hhead : forall a, head (chars ev) = Some a -> isSpace a = false).
  { intros a Ha. by apply (fixed_head ev). }
  subst tl. destruct ctx as [c|].
  - destruct (Hctx c eq_refl) as (Hc & Hct & Hdot). rewrite chars_app in He2.
    rewrite (searchFrom_here 4 pattern (chars text) _ _
      (trigger_matches _ ws ev _ _ Hchars Hne Hws Hev Hhead Hcomma
         (context_present _ _ c _ He2 Hc (fun a Ha => fixed_head c a Hct Ha) Hdot))).
    unfold groupText. cbn [captures insert list_insert lookup list_lookup].
    change (list_ascii_of_string text) with (chars text). fold nm.
    rewrite Hname, Hevent, Hempty, Hclean, Htrim.
    rewrite (substring_run _ (chars c) [] _ _); cycle 1.
    { rewrite app_nil_r. by apply (drop_run _ _ (chars ", ")). }
    { pose proof (f_equal length Hchars) as Hl. rewrite !length_app in Hl.
      rewrite chars_app, length_app in Hl. cbn in Hl. fold nm in Hl. cbn. lia. }
    unfold chars. rewrite string_of_list_ascii_of_string, Hct.
    subst nm. rewrite cleanName_name by done. by destruct c.
  - change (chars "") with (@nil ascii) in *.
    assert (Hend : (8 + length (chars nm) + length (chars ev))%nat = length (chars text)).
    { pose proof (f_equal length Hchars) as Hl. rewrite !length_app in Hl.
      cbn in Hl. lia. }
    rewrite (searchFrom_here 4 pattern (chars text) _ _
      (trigger_matches _ ws ev _ _ Hchars Hne Hws Hev Hhead Hcomma
         (context_absent _ _ _ Hend))).
    unfold groupText. cbn [captures lookup list_lookup].
    change (list_ascii_of_string text) with (chars text). fold nm.
    rewrite Hname, Hevent, Hempty, Hclean, Htrim.
    subst nm. by rewrite cleanName_name.
Qed.

(** X19. A message in the documented form, [met NAME at EVENT] or
    [met NAME at EVENT, CONTEXT], is accepted and read as written: the
    name is one to three words of two letters or more that are no stop
    words, the event has no comma, and neither the event nor the
    context is empty, starts or ends with a blank; the context has no
    line break. The parsed name is the words capitalized, the event and
    the context are the ones of the message. *)
Theorem documented_trigger_is_parsed (ws : list string) (ev : string)
    (ctx : option string) :
  (1 <= length ws <= 3)%nat -> Forall nameWord ws ->
  ev ≠ "" -> trim ev = ev -> ","%char ∉ chars ev ->
  (forall c, ctx = Some c ->
     c ≠ "" /\ trim c = c /\ Forall (fun a => isDot a = true) (chars c)) ->
  parseMessage
    ("met " +:+ String.concat " " ws +:+ " at " +:+ ev
     +:+ match ctx with Some c => ", " +:+ c | None => "" end)
  = {| parsedName := String.concat " " (map capitalize ws);
       parsedEvent := ev;
       parsedContext := ctx;
       isValidMeeting := true |}.
Proof. exact (parseMessage_trigger ws ev ctx). Qed.

(** A name of two words in small letters, an event of three words and a
    context. *)
Lemma documented_trigger_is_parsed_witness :
  parseMessage "met john smith at the AI summit, he works on search"
  = {| parsedName := "John Smith";
       parsedEvent := "the AI summit";
       parsedContext := Some "he works on search";
       isValidMeeting := true |}.
Proof.
  apply (documented_trigger_is_parsed ["john"; "smith"] "the AI summit"
           (Some "he works on search")).
  - cbn. lia.
  - repeat constructor; cbn; lia.
  - done.
  - vm_compute. reflexivity.
  - apply (bool_decide_unpack _). vm_compute. exact I.
  - intros c [= <-]. split; [done|]. split; [vm_compute; reflexivity|].
    repeat constructor.
Defined.

End AcceptFacts.

(** ** A trigger, from the parser to the session *)
Module TriggerFacts.
Import Text Clock Classifier App AppFacts ControllerFacts Footprint RegExp
  MessageParser ParserFacts AcceptFacts Scenario Environments.

#[local] Opaque formatSuggestionMessage createUnifiedMessage helpMessage.

Lemma trigger_not_cancel (r : string) :
  String.eqb (trim (toLowerCase (String "m" r))) "cancel" = false.
Proof.
  cbn [toLowerCase]. change (lowerChar "m") with "m"%char.
  unfold trim. cbn [trimStart]. change (isSpace "m") with false. cbn iota.
  destruct (trimEnd_head "m" (toLowerCase r) eq_refl) as [r' ->]. reflexivity.
Qed.

(** X20. With the parser of the repository, a message in the documented
    form from a sender that is not awaiting a reply, and that mentions
    neither [summary] nor [recent contacts], opens a session when the
    transport works: the draft contact kept for the sender has the
    capitalized name, the event and the context of the message and the
    time of the clock, the awaiting-reply flag of the sender is set, one
    message is sent, to the sender, and the table of contacts is as it
    was: nothing is saved before the reply. *)
Theorem trigger_opens_a_session (toLocaleString : Z -> string)
    (summaryMessage : Database -> string) (oracle : World -> Request -> Response)
    (w : World) (id who : string) (sent : Z)
    (ws : list string) (ev : string) (ctx : option string) :
  let text := "met " +:+ String.concat " " ws +:+ " at " +:+ ev
              +:+ match ctx with Some c => ", " +:+ c | None => "" end in
  let deps := collaborators toLocaleString summaryMessage in
  let w' := snd (run oracle
                   (handleMessage deps
                      {| msgId := id; sender := who; text := Some text; date := sent |})
                   w) in
  (1 <= length ws <= 3)%nat -> Forall nameWord ws ->
  ev ≠ "" -> trim ev = ev -> ","%char ∉ chars ev ->
  (forall c, ctx = Some c ->
     c ≠ "" /\ trim c = c /\ Forall (fun a => isDot a = true) (chars c)) ->
  includes (toLowerCase text) "summary" = false ->
  includes (toLowerCase text) "recent contacts" = false ->
  has who w = false ->
  transportWorks oracle ->
  (exists contact,
      pendingContacts w' !! who = Some contact
      /\ name contact = String.concat " " (map capitalize ws)
      /\ event contact = ev
      /\ context contact = ctx
      /\ metAt contact = clock w)
  /\ has who w' = true
  /\ (exists body, outbox w' = (outbox w ++ [(who, body)])%list)
  /\ database w' = database w.
Proof.
  intros text deps w' Hlen Hws Hev Htrim Hcomma Hctx Hsum Hrecent Hhas Hok.
  pose proof (trigger_trimmed ws ev ctx Hlen Hws Hev Htrim Hcomma Hctx) as Htext.
  pose proof (parseMessage_trigger ws ev ctx Hlen Hws Hev Htrim Hcomma Hctx) as Hparse.
  fold text in Htext, Hparse.
  assert (Hctx' : truthy ctx = ctx).
  { destruct ctx as [c|]; [|done]. destruct (Hctx c eq_refl) as (Hc & _).
    by apply truthy_Some. }
  set (info := MessageParser.extractContactInfo (default "" ctx)).
  set (contact :=
    {| name := String.concat " " (map capitalize ws); event := ev; context := ctx;
       metAt := clock w; phoneNumber := truthy (infoPhone info);
       email := truthy (infoEmail info); followUpStatus := followPending;
       scheduledFollowUp := None; lastInteraction := None; notes := None |}).
  set (w1 := setPendingContacts (<[who := contact]> (pendingContacts w)) w).
  destruct (run_generateFollowUpSuggestions oracle who contact w1 Hok) as [draft Hgen].
  assert (Hw' : w' = snd (run oracle (generateFollowUpSuggestions who contact) w1)).
  { subst w'. unfold handleMessage. cbn [App.text default from_option Datatypes.id sender].
    rewrite Htext, run_bind, run_gets, Hhas.
    change text with (String "m" ("et " +:+ String.concat " " ws +:+ " at " +:+ ev
        +:+ match ctx with Some c => ", " +:+ c | None => "" end)) at 1.
    rewrite trigger_not_cancel. rewrite Hsum, Hrecent. cbn [orb].
    change (App.parseMessage deps text) with (MessageParser.parseMessage text).
    rewrite Hparse. cbn [isValidMeeting].
    unfold handleMeetingMessage.
    rewrite run_catch, run_bind, run_gets, run_bind, run_modify.
    cbn [parsedName parsedEvent parsedContext]. rewrite Hctx'.
    change (App.extractContactInfo deps (default "" ctx)) with info.
    fold contact. fold w1. by rewrite Hgen. }
  rewrite Hw', Hgen. cbn [snd]. split_and!.
  - exists contact. split; [apply lookup_insert_eq|]. done.
  - unfold has. apply bool_decide_eq_true_2. eexists. apply lookup_insert_eq.
  - eexists. reflexivity.
  - reflexivity.
Qed.

(** A trigger with a name of two words and a context, in a storm: every
    service but the transport fails. *)
Lemma trigger_opens_a_session_witness :
  let deps := collaborators (fun _ => "today") (fun _ => "no contacts") in
  let w' := snd (run stormy
                   (handleMessage deps
                      {| msgId := "m1"; sender := me;
                         text := Some "met john smith at the AI summit, he works on search";
                         date := 0 |})
                   fresh) in
  (exists contact,
      pendingContacts w' !! me = Some contact
      /\ name contact = "John Smith"
      /\ event contact = "the AI summit"
      /\ context contact = Some "he works on search"
      /\ metAt contact = 0)
  /\ has me w' = true
  /\ (exists body, outbox w' = [(me, body)])
  /\ database w' = database fresh.
Proof.
  intros deps.
  apply (trigger_opens_a_session (fun _ => "today") (fun _ => "no contacts") stormy fresh
           "m1" me 0 ["john"; "smith"] "the AI summit" (Some "he works on search")).
  - cbn. lia.
  - repeat constructor; cbn; lia.
  - done.
  - vm_compute. reflexivity.
  - apply (bool_decide_unpack _). vm_compute. exact I.
  - intros c [= <-]. split; [done|]. split; [vm_compute; reflexivity|].
    repeat constructor.
  - vm_compute. reflexivity.
  - vm_compute. reflexivity.
  - vm_compute. reflexivity.
  - intros w a b. discriminate.
Defined.

End TriggerFacts.

(** ** What [extractContactInfo] finds *)
Module ContactInfoFacts.
Import Text RegExp App MessageParser RegExpFacts ParserFacts AcceptFacts.

(** What [s.match(r)] returns is a part of [s], of a length the pattern
    allows and made of the characters of the pattern. *)
Lemma wholeMatch_shape (n : nat) (r : Regex) (s found : string) :
  wholeMatch n r s = Some found ->
  (exists before after, s = before +:+ found +:+ after)
  /\ (minLength r <= String.length found)%nat
  /\ (forall k, maxLength r = Some k -> (String.length found <= k)%nat)
  /\ Forall (fun a => alphabet r a = true) (chars found).
Proof.
  unfold wholeMatch, exec. set (input := list_ascii_of_string s).
  destruct (searchFrom n r input (length input) 0) as [[i y]|] eqn:E; [|done].
  intros [= <-]. apply searchFrom_sound in E as [Hi Hden].
  apply den_span in Hden as (Hlo & Hhi & Hall). cbn [endIndex] in *.
  assert (Hend : (endIndex y <= length input)%nat).
  { destruct (decide (i < endIndex y)%nat) as [Hlt|]; [|lia].
    destruct (Hall (endIndex y - 1)%nat) as (a & Ha & _); [lia|].
    apply lookup_lt_Some in Ha. lia. }
  assert (Hchars : chars (substring input i (endIndex y))
                   = take (endIndex y - i) (drop i input)).
  { unfold substring, chars. apply list_ascii_of_string_of_list_ascii. }
  assert (Hlen : String.length (substring input i (endIndex y)) = (endIndex y - i)%nat).
  { rewrite <- length_chars, Hchars, length_take, length_drop. lia. }
  split_and!.
  - exists (string_of_list_ascii (take i input)),
           (string_of_list_ascii (drop (endIndex y - i) (drop i input))).
    apply chars_inj. rewrite !chars_app, Hchars. unfold chars.
    rewrite !list_ascii_of_string_of_list_ascii. fold input.
    by rewrite take_drop, take_drop.
  - lia.
  - intros k Hk. specialize (Hhi k Hk). lia.
  - by apply substring_Forall.
Qed.

Lemma phone_alphabet (a : ascii) :
  alphabet phonePattern a = isDigit a || isSpace a || oneOf "+-.()" a.
Proof. each_ascii a; reflexivity. Qed.

Lemma email_alphabet (a : ascii) :
  alphabet emailPattern a = isLetter a || isDigit a || oneOf "._%+-@|" a.
Proof. each_ascii a; reflexivity. Qed.

(** An address found has the [@] of the pattern. *)
Lemma email_at (s found : string) :
  wholeMatch 1 emailPattern s = Some found -> "@"%char ∈ chars found.
Proof.
  unfold wholeMatch, exec. set (input := list_ascii_of_string s).
  destruct (searchFrom 1 emailPattern input (length input) 0) as [[i y]|] eqn:E; [|done].
  intros [= <-]. apply searchFrom_sound in E as [Hi Hden].
  unfold emailPattern in Hden. cbn [seqs] in Hden.
  apply den_seq_inv in Hden as (y1 & H1 & Hden). apply den_span in H1 as (L1 & U1 & _).
  apply den_seq_inv in Hden as (y2 & H2 & Hden). apply den_span in H2 as (L2 & _).
  apply den_seq_inv in Hden as (y3 & H3 & Hden).
  apply den_char_inv in H3 as (_ & E3 & a & Ha & Hf).
  apply den_span in Hden as (L4 & _).
  cbn [minLength maxLength endIndex] in *. specialize (U1 0%nat eq_refl).
  apply Ascii.eqb_eq in Hf. subst a.
  apply (list_elem_of_lookup_2 _ (endIndex y2 - i)%nat).
  unfold substring, chars. rewrite list_ascii_of_string_of_list_ascii.
  rewrite lookup_take_lt by lia. rewrite lookup_drop.
  replace (i + (endIndex y2 - i))%nat with (endIndex y2) by lia. exact Ha.
Qed.

(** X21. What [extractContactInfo] returns is taken from the context. A
    phone number is a part of it of 10 to 17 characters, all of them
    digits, blanks or one of [+ - . ( )]; an address is a part of it of
    at least 6 characters, all of them letters, digits or one of
    [. _ % + - @ |], with an [@] among them. *)
Theorem extracted_contact_info_is_well_formed (context : string) :
  let info := extractContactInfo context in
  (forall phone, infoPhone info = Some phone ->
     (exists before after, context = before +:+ phone +:+ after)
     /\ (10 <= String.length phone <= 17)%nat
     /\ Forall (fun a => isDigit a || isSpace a || oneOf "+-.()" a = true) (chars phone))
  /\ (forall email, infoEmail info = Some email ->
        (exists before after, context = before +:+ email +:+ after)
        /\ (6 <= String.length email)%nat
        /\ Forall (fun a => isLetter a || isDigit a || oneOf "._%+-@|" a = true)
             (chars email)
        /\ "@"%char ∈ chars email).
Proof.
  intros info. subst info. unfold extractContactInfo. cbn [infoPhone infoEmail].
  split.
  - intros phone H. apply wholeMatch_shape in H as (Hpart & Hlo & Hhi & Hall).
    split_and!; [exact Hpart|exact Hlo|by apply Hhi|].
    eapply Forall_impl; [exact Hall|]. intros a Ha. by rewrite <- phone_alphabet.
  - intros email H. pose proof (email_at _ _ H) as Hat.
    apply wholeMatch_shape in H as (Hpart & Hlo & _ & Hall).
    split_and!; [exact Hpart|exact Hlo| |exact Hat].
    eapply Forall_impl; [exact Hall|]. intros a Ha. by rewrite <- email_alphabet.
Qed.

End ContactInfoFacts.

(** ** Every message is answered, and failures are reported *)
Module ReplyFacts.
Import Text Clock Classifier App SessionSpec AppFacts SessionEffects ProgramFacts
  Program Footprint FootprintFacts PollingFacts Scenario Environments ControllerFacts.

#[local] Opaque repromptMessage helpMessage generateSchedulingOptionsMessage
  formatSuggestionMessage createUnifiedMessage reminderMessage schedulingMessage.








Section Replies.
Context (oracle : World -> Request -> Response) (Hsend : transportWorks oracle).












End Replies.



End ReplyFacts.
